(** * Contexta digital twin engine: a shallow embedding

    This development embeds [app/twin/engine.py] (class [DigitalTwinEngine])
    and the argument guards of [app/api/routes/twin.py], and checks the
    statements of the engine's specification against the embedded code.

    Modelling conventions.
    - Python [str] is [string]; [int] is [Z]; a finite [float] is the
      rational it denotes, in [Q].  The risk scores of
      [calculate_blast_radius] and [_calculate_path_risk] are computed as
      the code computes them, in binary64 with every operation rounded to
      the nearest double ([rnd], [fadd], [fmul]) and [round(x, 2)] on top.
      The spread probability of the simulation is compared with the draws
      as a rational; the statements about it do not pin a value at a
      rounding boundary.
    - A Python [dict] keeps insertion order: it is an association list with
      unique keys ([dict_set] overwrites in place or appends).
    - [nx.DiGraph] is its successor table [_adj]: node -> (successor -> data).
      The node table [_node] has the same keys in the same order.
    - The object held in [self.vulnerability_data] is a mutable dict that
      [export_to_dict] hands out by reference; it lives in a store ([Heap])
      and the engine holds its location.
    - A raised [KeyError] is an explicit outcome; state mutated before the
      raise is kept. *)

From Stdlib Require Import List String ZArith QArith Qround Lia Lqa Bool Permutation Sorted.
Import ListNotations.

Local Close Scope Q_scope.
Local Open Scope string_scope.
Local Open Scope list_scope.

(** ** Insertion-ordered dictionaries *)

Section Dict.
Context {V : Type}.

Definition dict := list (string * V).

Fixpoint dict_get (k : string) (d : dict) : option V :=
  match d with
  | [] => None
  | (k', v) :: r => if String.eqb k k' then Some v else dict_get k r
  end.

Definition dict_mem (k : string) (d : dict) : bool :=
  match dict_get k d with Some _ => true | None => false end.

(** [d[k] = v]: an existing key keeps its position. *)
Fixpoint dict_set (k : string) (v : V) (d : dict) : dict :=
  match d with
  | [] => [(k, v)]
  | (k', v') :: r =>
      if String.eqb k k' then (k, v) :: r else (k', v') :: dict_set k v r
  end.

Definition dict_keys (d : dict) : list string := map fst d.

End Dict.

Arguments dict V : clear implicits.

(** [x in l] for a Python list or set of strings. *)
Definition mem (x : string) (l : list string) : bool :=
  existsb (String.eqb x) l.

(** ** The data model *)

Record EdgeData := {
  ed_type : string;
  ed_protocols : list string;
  ed_weight : Q
}.

(** [nx.DiGraph]: the successor table. *)
Definition DiGraph := dict (dict EdgeData).

Record AssetMeta := {
  am_id : string;
  am_type : string;
  am_name : string;
  am_criticality : string;
  am_zone : string;
  am_compromised : bool;
  am_compromise_time : option Z;
  am_metadata : dict string
}.

Record Vulnerability := {
  cve_id : string;
  cvss_score : Q;
  exploitable : bool;
  network_exploitable : bool
}.

Definition vuln_map := dict (list Vulnerability).

(** The store of vulnerability dictionaries; a location is an index. *)
Definition loc := nat.
Definition Heap := list vuln_map.

Definition heap_get (h : Heap) (l : loc) : vuln_map := nth l h [].

Fixpoint heap_set (h : Heap) (l : loc) (d : vuln_map) : Heap :=
  match h, l with
  | [], _ => []
  | _ :: r, O => d :: r
  | x :: r, S l' => x :: heap_set r l' d
  end.

Definition heap_alloc (h : Heap) (d : vuln_map) : Heap * loc :=
  (h ++ [d], List.length h).

Record Engine := {
  graph : DiGraph;
  asset_metadata : dict AssetMeta;
  vulnerability_data : loc
}.

(** [DigitalTwinEngine.__init__]: three fresh, empty containers. *)
Definition init_engine (h : Heap) : Heap * Engine :=
  let '(h', l) := heap_alloc h [] in
  (h', {| graph := []; asset_metadata := []; vulnerability_data := l |}).

(** *** networkx primitives *)

Definition in_graph (n : string) (g : DiGraph) : bool := dict_mem n g.

Definition nodes (g : DiGraph) : list string := dict_keys g.

(** [G.add_node(n)] without attributes. *)
Definition add_node (n : string) (g : DiGraph) : DiGraph :=
  if in_graph n g then g else g ++ [(n, [])].

(** Overwrite the successor table of an existing node. *)
Definition set_adj (u : string) (a : dict EdgeData) (g : DiGraph) : DiGraph :=
  dict_set u a g.

Definition adj (g : DiGraph) (u : string) : dict EdgeData :=
  match dict_get u g with Some a => a | None => [] end.

(** [G.add_edge(u, v, **data)]: missing endpoints are created, [u] first;
    the three attributes of an existing edge are all overwritten. *)
Definition add_edge (u v : string) (data : EdgeData) (g : DiGraph) : DiGraph :=
  let g1 := add_node u g in
  let g2 := add_node v g1 in
  set_adj u (dict_set v data (adj g2 u)) g2.

(** [G.neighbors(n)]: successors in insertion order. *)
Definition neighbors (g : DiGraph) (n : string) : list string :=
  dict_keys (adj g n).

(** [G.edges(data=True)] *)
Definition edges (g : DiGraph) : list (string * string * EdgeData) :=
  flat_map (fun '(u, a) => map (fun '(v, d) => (u, v, d)) a) g.

(** *** Ingestion *)

Definition add_asset (e : Engine) (asset_id asset_type name criticality zone : string)
    (metadata : option (dict string)) : Engine :=
  {| graph := add_node asset_id (graph e);
     asset_metadata :=
       dict_set asset_id
         {| am_id := asset_id;
            am_type := asset_type;
            am_name := name;
            am_criticality := criticality;
            am_zone := zone;
            am_compromised := false;
            am_compromise_time := None;
            am_metadata := match metadata with Some m => m | None => [] end |}
         (asset_metadata e);
     vulnerability_data := vulnerability_data e |}.

(** [protocols or ["tcp"]] *)
Definition protocols_or_tcp (protocols : option (list string)) : list string :=
  match protocols with
  | None | Some [] => ["tcp"]
  | Some p => p
  end.

Definition add_connection (e : Engine) (source_id target_id connection_type : string)
    (protocols : option (list string)) (weight : Q) (bidirectional : bool) : Engine :=
  let edge_data := {| ed_type := connection_type;
                      ed_protocols := protocols_or_tcp protocols;
                      ed_weight := weight |} in
  let g1 := add_edge source_id target_id edge_data (graph e) in
  let g2 := if bidirectional then add_edge target_id source_id edge_data g1 else g1 in
  {| graph := g2;
     asset_metadata := asset_metadata e;
     vulnerability_data := vulnerability_data e |}.

(** The vulnerability dictionary is mutated in place, in the store. *)
Definition add_vulnerability (h : Heap) (e : Engine) (asset_id cve : string)
    (cvss : Q) (expl net_expl : bool) : Heap :=
  let d := heap_get h (vulnerability_data e) in
  let old := match dict_get asset_id d with Some l => l | None => [] end in
  heap_set h (vulnerability_data e)
    (dict_set asset_id
       (old ++ [{| cve_id := cve; cvss_score := cvss;
                   exploitable := expl; network_exploitable := net_expl |}]) d).

Definition vulns_of (h : Heap) (e : Engine) : vuln_map :=
  heap_get h (vulnerability_data e).


(** ** Path finder *)

Definition path_eqb (p q : list string) : bool :=
  if list_eq_dec string_dec p q then true else false.

(** [path_tuple in visited_paths] *)
Definition path_mem (p : list string) (s : list (list string)) : bool :=
  existsb (path_eqb p) s.

(** [a] is a proper prefix of [b]. *)
Definition sprefix (a b : list string) : Prop :=
  exists x t, b = a ++ x :: t.

Record dfs_state := {
  ds_path : list string;          (* the shared list [path] *)
  ds_visited : list string;       (* the shared set [visited] *)
  ds_paths : list (list string)   (* the enclosing [paths] *)
}.

Section PathFinder.
Variable g : DiGraph.
Variable target_id : string.
Variable max_depth : Z.

(** [len(path) > max_depth] *)
Definition too_deep (path : list string) : bool :=
  (Z.of_nat (List.length path) >? max_depth)%Z.

(** Body of [for neighbor in self.graph.neighbors(current)] of the BFS;
    the state is the queue and [visited_paths]. *)
Definition bfs_visit (path : list string)
    (st : list (string * list string) * list (list string)) (neighbor : string)
    : list (string * list string) * list (list string) :=
  let '(queue, visited_paths) := st in
  if mem neighbor path then st
  else
    let new_path := path ++ [neighbor] in
    if path_mem new_path visited_paths then st
    else (queue ++ [(neighbor, new_path)], new_path :: visited_paths).

(** [while queue:]; one unit of fuel per iteration. *)
Fixpoint bfs_loop (fuel : nat) (queue : list (string * list string))
    (visited_paths paths : list (list string)) {struct fuel}
    : option (list (list string)) :=
  match queue with
  | [] => Some paths
  | (current, path) :: rest =>
      match fuel with
      | O => None
      | S fuel' =>
          if too_deep path then bfs_loop fuel' rest visited_paths paths
          else if String.eqb current target_id then
            bfs_loop fuel' rest visited_paths (paths ++ [path])
          else
            let '(queue', visited_paths') :=
              fold_left (bfs_visit path) (neighbors g current) (rest, visited_paths) in
            bfs_loop fuel' queue' visited_paths' paths
      end
  end.

(** [dfs_recursive]; the fuel bounds the recursion depth.  [path] and
    [visited] are mutated by the callee and restored after the call. *)
Fixpoint dfs_recursive (fuel : nat) (current : string) (st : dfs_state)
    : option dfs_state :=
  match fuel with
  | O => None
  | S fuel' =>
      if too_deep (ds_path st) then Some st
      else if String.eqb current target_id then
        Some {| ds_path := ds_path st;
                ds_visited := ds_visited st;
                ds_paths := ds_paths st ++ [ds_path st] |}
      else
        fold_left
          (fun acc neighbor =>
             match acc with
             | None => None
             | Some s =>
                 if mem neighbor (ds_visited s) then Some s
                 else
                   match dfs_recursive fuel' neighbor
                           {| ds_path := ds_path s ++ [neighbor];
                              ds_visited := neighbor :: ds_visited s;
                              ds_paths := ds_paths s |} with
                   | None => None
                   | Some s' =>
                       Some {| ds_path := removelast (ds_path s');
                               ds_visited := remove string_dec neighbor (ds_visited s');
                               ds_paths := ds_paths s' |}
                   end
             end)
          (neighbors g current) (Some st)
  end.

(** How many more nodes a partial path may still take. *)
Definition budget (path : list string) : nat :=
  Z.to_nat (max_depth + 1 - Z.of_nat (List.length path)).

(** The simple paths to [target_id] that extend [path] (which ends in
    [current]) and stay within the depth bound, in depth-first order. *)
Fixpoint simple_paths (k : nat) (current : string) (path : list string)
    : list (list string) :=
  match k with
  | O => []
  | S k' =>
      if String.eqb current target_id then [path]
      else
        flat_map
          (fun nb => if mem nb path then [] else simple_paths k' nb (path ++ [nb]))
          (neighbors g current)
  end.

(** Number of queue entries the BFS handles below one entry: an upper
    bound on the iterations of [bfs_loop]. *)
Fixpoint search_cost (k : nat) (current : string) (path : list string) : nat :=
  match k with
  | O => 1
  | S k' =>
      if String.eqb current target_id then 1
      else
        S (list_sum
             (map (fun nb => if mem nb path then 0
                             else search_cost k' nb (path ++ [nb]))
                (neighbors g current)))
  end.

(** Auxiliary notions for the analysis of the breadth-first loop. *)

Definition item_paths (q : string * list string) : list (list string) :=
  simple_paths (budget (snd q)) (fst q) (snd q).

Definition item_cost (q : string * list string) : nat :=
  search_cost (budget (snd q)) (fst q) (snd q).

Definition queue_cost (queue : list (string * list string)) : nat :=
  list_sum (map item_cost queue).

(** The entries one expansion appends to the queue. *)
Definition child_step (path : list string) (cs : list (string * list string))
    (nb : string) : list (string * list string) :=
  if mem nb path then cs
  else if path_mem (path ++ [nb]) (map snd cs) then cs
  else cs ++ [(nb, path ++ [nb])].

Definition children (path : list string) (nbrs : list string) :=
  fold_left (child_step path) nbrs [].

(** The queue invariant: queued paths are pairwise distinct, none is a
    proper prefix of another, and no visited path properly extends one. *)
Definition bfs_inv (queue : list (string * list string))
    (vp : list (list string)) : Prop :=
  NoDup (map snd queue)
  /\ (forall q1 q2, In q1 queue -> In q2 queue -> ~ sprefix (snd q1) (snd q2))
  /\ (forall v q, In v vp -> In q queue -> ~ sprefix (snd q) v).

End PathFinder.

Definition find_attack_paths_bfs (fuel : nat) (g : DiGraph)
    (start_id target_id : string) (max_depth : Z) : option (list (list string)) :=
  if negb (in_graph start_id g) || negb (in_graph target_id g) then Some []
  else bfs_loop g target_id max_depth fuel [(start_id, [start_id])] [] [].

Definition find_attack_paths_dfs (fuel : nat) (g : DiGraph)
    (start_id target_id : string) (max_depth : Z) : option (list (list string)) :=
  if negb (in_graph start_id g) || negb (in_graph target_id g) then Some []
  else
    match dfs_recursive g target_id max_depth fuel start_id
            {| ds_path := [start_id]; ds_visited := [start_id]; ds_paths := [] |} with
    | Some s => Some (ds_paths s)
    | None => None
    end.

(** The simple paths from [start_id] to [target_id] within the bound, when
    both are nodes of the graph. *)
Definition attack_paths (g : DiGraph) (start_id target_id : string) (max_depth : Z)
    : list (list string) :=
  if negb (in_graph start_id g) || negb (in_graph target_id g) then []
  else simple_paths g target_id (budget max_depth [start_id]) start_id [start_id].

(** Fuel that suffices for the two finders. *)
Definition bfs_fuel (g : DiGraph) (start_id target_id : string) (max_depth : Z) : nat :=
  search_cost g target_id (budget max_depth [start_id]) start_id [start_id].

Definition dfs_fuel (max_depth : Z) : nat := S (Z.to_nat max_depth).

(** The two-node scenario: A (dmz, high) -> B (internal, critical). *)
Definition scenario_AB : Engine :=
  add_connection
    (add_asset (add_asset {| graph := []; asset_metadata := []; vulnerability_data := 0 |}
                  "A" "server" "A" "high" "dmz" None)
       "B" "server" "B" "critical" "internal" None)
    "A" "B" "network" None 1%Q false.

(** A diamond with a back edge: S -> X, S -> Y, X -> T, Y -> T, X -> Y, T -> S. *)
Definition diamond : DiGraph :=
  fold_left (fun gr '(u, v) => add_edge u v {| ed_type := "network"; ed_protocols := ["tcp"]; ed_weight := 1%Q |} gr)
    [("S", "X"); ("S", "Y"); ("X", "T"); ("Y", "T"); ("X", "Y"); ("T", "S")] [].
(** ** Numbers *)

From Stdlib Require Import SpecFloat.

(** Round to the nearest integer, ties to even (Python's [round]). *)
Definition round_half_even (x : Q) : Z :=
  let f := Qfloor x in
  match Qcompare (x - inject_Z f) (1 # 2) with
  | Lt => f
  | Gt => (f + 1)%Z
  | Eq => if Z.even f then f else (f + 1)%Z
  end.

(** The decimal with two places nearest to [x]. *)
Definition round2 (x : Q) : Q := Qmake (round_half_even (x * 100)) 100.

Definition list_sum_Z (l : list Z) : Z := fold_right Z.add 0%Z l.

(** *** Binary floating point

    The risk scores are Python floats: IEEE 754 binary64, every operation
    rounded to the nearest double, ties to even.  A finite double is
    carried as the rational it denotes, and an operation is the exact
    operation followed by [rnd], the rounding to the nearest double, as
    the standard library's [SpecFloat] computes it (53 bits of precision,
    subnormal numbers included).  Beyond the largest double, about 1.8e308,
    the code's value is [inf], which denotes no rational; the scores of the
    engine stay far below and [rnd] is not meant there. *)

Definition SF_of_Z (z : Z) : spec_float :=
  match z with
  | Z0 => S754_zero false
  | Zpos p => S754_finite false p 0
  | Zneg p => S754_finite true p 0
  end.

(** The double nearest to [q]. *)
Definition to_double (q : Q) : spec_float :=
  SFdiv 53 1024 (SF_of_Z (Qnum q)) (SF_of_Z (Zpos (Qden q))).

(** The rational a double denotes. *)
Definition double_value (x : spec_float) : Q :=
  match x with
  | S754_finite s m e =>
      let n := if s then Zneg m else Zpos m in
      match e with
      | Z0 => Qmake n 1
      | Zpos k => Qmake (n * 2 ^ Zpos k) 1
      | Zneg k => Qmake n (2 ^ k)
      end
  | _ => 0%Q
  end.

Definition rnd (q : Q) : Q := double_value (to_double q).

(** [a + b] and [a * b] on floats. *)
Definition fadd (a b : Q) : Q := rnd (a + b).
Definition fmul (a b : Q) : Q := rnd (a * b).

(** [float(z)], the conversion an [int] operand undergoes next to a float;
    also [a / b] on two [int]s, which Python rounds once. *)
Definition of_int (z : Z) : Q := rnd (inject_Z z).
Definition int_div (a b : Z) : Q := rnd (inject_Z a / inject_Z b).

(** [round(x, 2)] on a float: the nearest decimal with two places (ties
    to even, decided on the exact value of [x]), as a double. *)
Definition float_round2 (x : Q) : Q := rnd (round2 x).

(** A sum accumulated from 0 in list order, as [total += x] in a loop. *)
Definition float_sum (l : list Q) : Q := fold_left fadd l 0%Q.

(** ** Results of the analyses *)

(** A call returns a value, returns the dictionary [{"error": msg}], or
    raises [KeyError(key)]. *)
Inductive outcome (A : Type) : Type :=
| Ok (a : A)
| ErrorResult (msg : string)
| KeyError (key : string).

Arguments Ok {A} a.
Arguments ErrorResult {A} msg.
Arguments KeyError {A} key.

(** Dictionaries keyed by hop number. *)
Fixpoint hop_get {V : Type} (k : Z) (d : list (Z * V)) : option V :=
  match d with
  | [] => None
  | (k', v) :: r => if Z.eqb k k' then Some v else hop_get k r
  end.

Fixpoint hop_set {V : Type} (k : Z) (v : V) (d : list (Z * V)) : list (Z * V) :=
  match d with
  | [] => [(k, v)]
  | (k', v') :: r =>
      if Z.eqb k k' then (k, v) :: r else (k', v') :: hop_set k v r
  end.

(** ** Blast radius *)

Record BlastResult := {
  br_source_asset : string;
  br_max_hops_analyzed : Z;
  br_total_affected_assets : nat;
  br_affected_by_hop : list (Z * nat);
  br_affected_by_criticality : dict nat;
  br_risk_score : Q;
  br_risk_by_hop : list (Z * Q);
  br_critical_assets_at_risk : list string;
  br_high_assets_at_risk : list string
}.

(** [self.asset_metadata.get(aid, {}).get("criticality", "medium")] *)
Definition criticality_of (meta : dict AssetMeta) (aid : string) : string :=
  match dict_get aid meta with
  | Some m => am_criticality m
  | None => "medium"
  end.

Definition criticality_weights : dict Z :=
  [("critical", 10%Z); ("high", 7%Z); ("medium", 4%Z); ("low", 1%Z)].

(** [criticality_weights.get(crit, 4)] *)
Definition criticality_weight (crit : string) : Z :=
  match dict_get crit criticality_weights with
  | Some w => w
  | None => 4%Z
  end.

Definition weight_of (meta : dict AssetMeta) (aid : string) : Z :=
  criticality_weight (criticality_of meta aid).

(** The keys of [affected_by_criticality]. *)
Definition tiers : list string := ["critical"; "high"; "medium"; "low"].

Section BlastRadius.
Variable e : Engine.

(** The two inner loops of one hop: returns [next_level] and [visited]. *)
Definition expand_level (current_level visited : list string)
    : list string * list string :=
  fold_left
    (fun st current =>
       fold_left
         (fun '(next_level, visited) neighbor =>
            if mem neighbor visited then (next_level, visited)
            else (next_level ++ [neighbor], neighbor :: visited))
         (neighbors (graph e) current) st)
    current_level ([], visited).

(** [for hop in range(1, max_hops + 1)], [n] iterations left. *)
Fixpoint hop_loop (n : nat) (hop : Z) (reachable_by_hop : list (Z * list string))
    (visited current_level : list string) : list (Z * list string) :=
  match n with
  | O => reachable_by_hop
  | S n' =>
      let '(next_level, visited') := expand_level current_level visited in
      hop_loop n' (hop + 1)%Z (hop_set hop next_level reachable_by_hop)
        visited' next_level
  end.

(** The final [reachable_by_hop]. *)
Definition layers (asset_id : string) (max_hops : Z) : list (Z * list string) :=
  hop_loop (Z.to_nat max_hops) 1%Z [(0%Z, [asset_id])] [asset_id] [asset_id].

(** Body of [for hop, assets in reachable_by_hop.items()]; the state is
    [total_risk] and [risk_by_hop].  [hop_risk] is an [int] until it is
    multiplied by the float [decay_factor]. *)
Definition risk_step (st : Q * list (Z * Q)) (item : Z * list string)
    : Q * list (Z * Q) :=
  let '(total_risk, risk_by_hop) := st in
  let '(hop, assets) := item in
  let hop_risk :=
    fold_left (fun acc aid => (acc + weight_of (asset_metadata e) aid)%Z) assets 0%Z in
  let decay_factor := int_div 1 (hop + 1) in
  let hop_risk := fmul (of_int hop_risk) decay_factor in
  (fadd total_risk hop_risk, hop_set hop (float_round2 hop_risk) risk_by_hop).

(** [range(1, max_hops + 1)] *)
Definition hop_range (max_hops : Z) : list Z :=
  map (fun i => Z.of_nat (S i)) (seq 0 (Z.to_nat max_hops)).

Definition all_affected (asset_id : string) (max_hops : Z) : list string :=
  flat_map
    (fun hop => match hop_get hop (layers asset_id max_hops) with
                | Some l => l
                | None => []
                end)
    (hop_range max_hops).

(** [affected_by_criticality[crit].append(aid)], raising on a tier that is
    not one of the four keys. *)
Definition categorize_step (acc : outcome (dict (list string))) (aid : string)
    : outcome (dict (list string)) :=
  match acc with
  | Ok d =>
      let crit := criticality_of (asset_metadata e) aid in
      match dict_get crit d with
      | Some l => Ok (dict_set crit (l ++ [aid]) d)
      | None => KeyError crit
      end
  | other => other
  end.

Definition categorize (affected : list string) : outcome (dict (list string)) :=
  fold_left categorize_step affected
    (Ok [("critical", []); ("high", []); ("medium", []); ("low", [])]).

Definition calculate_blast_radius (asset_id : string) (max_hops : Z)
    : outcome BlastResult :=
  if negb (in_graph asset_id (graph e)) then ErrorResult "Asset not found"
  else
    let reachable_by_hop := layers asset_id max_hops in
    let '(total_risk, risk_by_hop) :=
      fold_left risk_step reachable_by_hop (0%Q, []) in
    let affected := all_affected asset_id max_hops in
    match categorize affected with
    | Ok affected_by_criticality =>
        let tier t := match dict_get t affected_by_criticality with
                      | Some l => l
                      | None => []
                      end in
        Ok {| br_source_asset := asset_id;
              br_max_hops_analyzed := max_hops;
              br_total_affected_assets := List.length affected;
              br_affected_by_hop :=
                map (fun '(k, v) => (k, List.length v))
                  (filter (fun '(k, _) => (k >? 0)%Z) reachable_by_hop);
              br_affected_by_criticality :=
                map (fun '(k, v) => (k, List.length v)) affected_by_criticality;
              br_risk_score := float_round2 total_risk;
              br_risk_by_hop := risk_by_hop;
              br_critical_assets_at_risk := tier "critical";
              br_high_assets_at_risk := tier "high" |}
    | ErrorResult m => ErrorResult m
    | KeyError k => KeyError k
    end.

(** Risk of one hop layer: the criticality weights of its nodes, decayed
    by [1 / (hop + 1)], in floating point. *)
Definition hop_risk (item : Z * list string) : Q :=
  fmul (of_int (list_sum_Z (map (weight_of (asset_metadata e)) (snd item))))
    (int_div 1 (fst item + 1)).

End BlastRadius.

(** A chain n0 -> n1 -> ... -> n7 of "low" assets, except n6, which is
    "high". *)
Definition chain_ids : list string := ["n0"; "n1"; "n2"; "n3"; "n4"; "n5"; "n6"; "n7"].

Definition chain8 : Engine :=
  fold_left (fun e '(u, v) => add_connection e u v "network" None 1%Q false)
    (combine chain_ids (tl chain_ids))
    (fold_left
       (fun e n => add_asset e n "server" n
                     (if String.eqb n "n6" then "high" else "low") "internal" None)
       chain_ids
       {| graph := []; asset_metadata := []; vulnerability_data := 0 |}).

(** ** Critical path ranking *)

Record CriticalPath := {
  cp_entry_point : string;
  cp_target : string;
  cp_path : list string;
  cp_path_length : nat;
  cp_risk_score : Q
}.

Definition criticality_bonuses : dict Z :=
  [("critical", 5%Z); ("high", 3%Z); ("medium", 1%Z); ("low", 0%Z)].

Section PathRisk.
Variable vd : vuln_map.            (* the contents of [self.vulnerability_data] *)
Variable meta : dict AssetMeta.    (* [self.asset_metadata] *)

(** [vuln["cvss_score"] * 0.1]: the stored score as a double, times the
    double nearest to a tenth. *)
Definition tenth_of_cvss (vuln : Vulnerability) : Q :=
  fmul (rnd (cvss_score vuln)) (rnd (1 # 10)).

(** The two nested loops that accumulate [vuln_bonus], from 0. *)
Definition vuln_bonus_loop (path : list string) : Q :=
  fold_left
    (fun vuln_bonus asset_id =>
       match dict_get asset_id vd with
       | Some vulns =>
           fold_left
             (fun vb vuln =>
                if network_exploitable vuln then fadd vb (tenth_of_cvss vuln)
                else vb)
             vulns vuln_bonus
       | None => vuln_bonus
       end)
    path 0%Q.

(** [{...}.get(final_asset.get("criticality", "medium"), 1)] for [path[-1]] *)
Definition criticality_bonus (path : list string) : Z :=
  match dict_get (criticality_of meta (last path "")) criticality_bonuses with
  | Some b => b
  | None => 1%Z
  end.

(** The three terms are added from left to right, each sum rounded to the
    nearest double, before the result is rounded to two decimals. *)
Definition _calculate_path_risk (path : list string) : Q :=
  match path with
  | [] => 0%Q
  | _ =>
      let base_risk := int_div 10 (Z.of_nat (List.length path)) in
      let vuln_bonus := vuln_bonus_loop path in
      float_round2
        (fadd (fadd base_risk vuln_bonus) (of_int (criticality_bonus path)))
  end.

(** [vulnBonus] as the specification words it: the sum, over every node of
    the path and every network-exploitable vulnerability of that node, of
    a tenth of its CVSS score - here accumulated in floating point, in the
    order of the path and of each node's list. *)
Definition vuln_bonus (path : list string) : Q :=
  float_sum
    (map tenth_of_cvss
       (filter network_exploitable
          (flat_map (fun a => match dict_get a vd with Some l => l | None => [] end)
             path))).

End PathRisk.

(** [list.sort(key=risk_score, reverse=True)] is stable: entries with equal
    keys keep their order.  Inserting from the right, each entry in front
    of the first one whose key is not larger, builds exactly that list. *)
Fixpoint insert_desc (x : CriticalPath) (l : list CriticalPath) : list CriticalPath :=
  match l with
  | [] => [x]
  | y :: r =>
      if Qle_bool (cp_risk_score y) (cp_risk_score x) then x :: y :: r
      else y :: insert_desc x r
  end.

Definition sort_desc (l : list CriticalPath) : list CriticalPath :=
  fold_right insert_desc [] l.

Definition entry_points (e : Engine) : list string :=
  map fst
    (filter (fun '(_, m) => mem (am_zone m) ["dmz"; "external"]) (asset_metadata e)).

Definition critical_targets (e : Engine) : list string :=
  map fst
    (filter (fun '(_, m) => String.eqb (am_criticality m) "critical") (asset_metadata e)).

(** The pooled entries of one (entry, target) pair appended to [critical_paths]. *)
Definition pair_paths (fuel : nat) (h : Heap) (e : Engine) (entry target : string)
    (critical_paths : option (list CriticalPath)) : option (list CriticalPath) :=
  match critical_paths with
  | None => None
  | Some acc =>
      match find_attack_paths_bfs fuel (graph e) entry target 8 with
      | None => None
      | Some paths =>
          Some (acc ++
                map (fun path =>
                       {| cp_entry_point := entry;
                          cp_target := target;
                          cp_path := path;
                          cp_path_length := List.length path;
                          cp_risk_score :=
                            _calculate_path_risk (vulns_of h e) (asset_metadata e) path |})
                  paths)
      end
  end.

(** [fuel] is handed to each breadth-first search. *)
Definition find_critical_paths (fuel : nat) (h : Heap) (e : Engine)
    : option (list CriticalPath) :=
  let pooled :=
    fold_left
      (fun acc entry =>
         fold_left (fun acc target => pair_paths fuel h e entry target acc)
           (critical_targets e) acc)
      (entry_points e) (Some []) in
  match pooled with
  | None => None
  | Some critical_paths => Some (firstn 20 (sort_desc critical_paths))
  end.

(** Fuel that suffices for every search of [find_critical_paths]. *)
Definition critical_paths_fuel (e : Engine) : nat :=
  list_max
    (map (fun '(entry, target) => bfs_fuel (graph e) entry target 8)
       (list_prod (entry_points e) (critical_targets e))).

(** Every pooled entry carries a non-empty path and its computed risk. *)
Definition entry_ok (h : Heap) (e : Engine) (c : CriticalPath) : Prop :=
  cp_path c <> []
  /\ cp_path_length c = List.length (cp_path c)
  /\ cp_risk_score c = _calculate_path_risk (vulns_of h e) (asset_metadata e) (cp_path c).

(** Non-increasing risk score. *)
Definition risk_ge (a b : CriticalPath) : Prop :=
  (cp_risk_score b <= cp_risk_score a)%Q.

(** A chain E (dmz) -> M -> T (critical). *)
Definition chain_EMT : Engine :=
  add_connection
    (add_connection
       (add_asset
          (add_asset
             (add_asset {| graph := []; asset_metadata := []; vulnerability_data := 0 |}
                "E" "server" "E" "low" "dmz" None)
             "M" "server" "M" "medium" "internal" None)
          "T" "database" "T" "critical" "restricted" None)
       "E" "M" "network" None 1%Q false)
    "M" "T" "network" None 1%Q false.

(** The store in which B has one network-exploitable vulnerability of
    CVSS 0.25. *)
Definition heap_B_quarter : Heap :=
  [[("B", [{| cve_id := "CVE-2024-0001"; cvss_score := (1 # 4)%Q;
              exploitable := true; network_exploitable := true |}])]].

(** ** Lateral movement simulation *)

Record TimelineEntry := {
  tl_time_step : Z;
  tl_newly_compromised : list string;
  tl_total_compromised : nat
}.

Record SimResult := {
  sr_initial_compromise : string;
  sr_simulation_steps : Z;
  sr_total_compromised : nat;
  sr_compromised_assets : list string;
  sr_critical_assets_compromised : list string;
  sr_high_assets_compromised : list string;
  sr_timeline : list TimelineEntry;
  sr_propagation_rate : Q
}.

(** One call of [random.random()], with the edge it was drawn for.  The
    log of attempts is ghost state: nothing reads it. *)
Record Attempt := {
  at_step : Z;
  at_source : string;
  at_target : string;
  at_draw : nat;
  at_success : bool
}.

Record SimState := {
  ss_meta : dict AssetMeta;        (* [self.asset_metadata] *)
  ss_compromised : list string;    (* the set [compromised], in insertion order *)
  ss_newly : list string;          (* [newly_compromised] *)
  ss_timeline : list TimelineEntry;
  ss_draws : nat;                  (* calls of [random.random()] so far *)
  ss_attempts : list Attempt;      (* ghost *)
  ss_raised : option string        (* the key of a raised [KeyError] *)
}.

Definition with_compromise (m : AssetMeta) (c : bool) (t : option Z) : AssetMeta :=
  {| am_id := am_id m;
     am_type := am_type m;
     am_name := am_name m;
     am_criticality := am_criticality m;
     am_zone := am_zone m;
     am_compromised := c;
     am_compromise_time := t;
     am_metadata := am_metadata m |}.

(** The reset loop over [self.asset_metadata]. *)
Definition reset_all (meta : dict AssetMeta) : dict AssetMeta :=
  map (fun '(k, m) => (k, with_compromise m false None)) meta.

(** [self.asset_metadata[aid]["compromised"] = True] and the compromise
    time; [None] stands for the [KeyError] of a node without record. *)
Definition mark_compromised (meta : dict AssetMeta) (aid : string) (t : Z)
    : option (dict AssetMeta) :=
  match dict_get aid meta with
  | Some m => Some (dict_set aid (with_compromise m true (Some t)) meta)
  | None => None
  end.

(** The compromise flag of a node (false without record). *)
Definition flag (meta : dict AssetMeta) (aid : string) : bool :=
  match dict_get aid meta with
  | Some m => am_compromised m
  | None => false
  end.

(** [max(v["cvss_score"] for v in exploitable_vulns)] *)
Definition max_cvss (v : Vulnerability) (rest : list Vulnerability) : Q :=
  fold_left (fun m w => if Qle_bool (cvss_score w) m then m else cvss_score w)
    rest (cvss_score v).

(** [list(compromised)[...]] keeps only the listed tier, raising on a node
    without record. *)
Fixpoint tier_members (meta : dict AssetMeta) (tier : string) (l : list string)
    : outcome (list string) :=
  match l with
  | [] => Ok []
  | aid :: r =>
      match dict_get aid meta with
      | None => KeyError aid
      | Some m =>
          match tier_members meta tier r with
          | Ok l' => Ok (if String.eqb (am_criticality m) tier then aid :: l' else l')
          | other => other
          end
      end
  end.

(** Every flag raised in [m1] is raised in [m2]. *)
Definition flags_le (m1 m2 : dict AssetMeta) : Prop :=
  forall a, flag m1 a = true -> flag m2 a = true.

Definition meta_le (s s' : SimState) : Prop := flags_le (ss_meta s) (ss_meta s').

(** While nothing was raised, [s'] has the records, the compromised set
    and the absence of exception of [s]. *)
Definition frozen (s s' : SimState) : Prop :=
  ss_raised s = None ->
  ss_meta s' = ss_meta s /\ ss_compromised s' = ss_compromised s /\ ss_raised s' = None.

(** No network-exploitable vulnerability has a positive score. *)
Definition no_positive_exploit (vd : vuln_map) : Prop :=
  forall a vulns v,
    dict_get a vd = Some vulns -> In v vulns ->
    network_exploitable v = true -> (cvss_score v <= 0)%Q.

Section Simulation.
(** The iteration order of a Python set of strings is not specified:
    [set_order s] is the order in which [list(s)] lists the set [s]. *)
Variable set_order : list string -> list string.
(** The ambient random generator: [rng i] is the value of the i-th call
    of [random.random()]. *)
Variable rng : nat -> Q.
Variable g : DiGraph.
Variable vd : vuln_map.
Variable propagation_probability : Q.

(** [prob] for one neighbor. *)
Definition spread_probability (neighbor : string) : Q :=
  match dict_get neighbor vd with
  | Some vulns =>
      match filter network_exploitable vulns with
      | [] => propagation_probability
      | v :: rest =>
          (propagation_probability + (max_cvss v rest / 10) * (3 # 10))%Q
      end
  | None => propagation_probability
  end.

(** Body of [for neighbor in self.graph.neighbors(comp_asset)]. *)
Definition try_neighbor (t : Z) (comp_asset : string) (s : SimState)
    (neighbor : string) : SimState :=
  match ss_raised s with
  | Some _ => s
  | None =>
      if mem neighbor (ss_compromised s) then s
      else
        let prob := spread_probability neighbor in
        let draw := rng (ss_draws s) in
        let success := negb (Qle_bool prob draw) in     (* [draw < prob] *)
        let log := ss_attempts s ++
                   [{| at_step := t; at_source := comp_asset; at_target := neighbor;
                       at_draw := ss_draws s; at_success := success |}] in
        if success then
          let marked := mark_compromised (ss_meta s) neighbor t in
          {| ss_meta := match marked with Some m => m | None => ss_meta s end;
             ss_compromised := ss_compromised s ++ [neighbor];
             ss_newly := ss_newly s ++ [neighbor];
             ss_timeline := ss_timeline s;
             ss_draws := S (ss_draws s);
             ss_attempts := log;
             ss_raised := match marked with Some _ => None | None => Some neighbor end |}
        else
          {| ss_meta := ss_meta s;
             ss_compromised := ss_compromised s;
             ss_newly := ss_newly s;
             ss_timeline := ss_timeline s;
             ss_draws := S (ss_draws s);
             ss_attempts := log;
             ss_raised := None |}
  end.

(** Body of [for comp_asset in list(compromised)]. *)
Definition spread_from (t : Z) (s : SimState) (comp_asset : string) : SimState :=
  fold_left (try_neighbor t comp_asset) (neighbors g comp_asset) s.

(** Body of [for t in range(1, time_steps + 1)]. *)
Definition time_step (t : Z) (s : SimState) : SimState :=
  match ss_raised s with
  | Some _ => s
  | None =>
      let s0 := {| ss_meta := ss_meta s;
                   ss_compromised := ss_compromised s;
                   ss_newly := [];
                   ss_timeline := ss_timeline s;
                   ss_draws := ss_draws s;
                   ss_attempts := ss_attempts s;
                   ss_raised := None |} in
      let s1 := fold_left (spread_from t) (set_order (ss_compromised s)) s0 in
      match ss_raised s1 with
      | Some _ => s1
      | None =>
          {| ss_meta := ss_meta s1;
             ss_compromised := ss_compromised s1;
             ss_newly := ss_newly s1;
             ss_timeline := ss_timeline s1 ++
                            [{| tl_time_step := t;
                                tl_newly_compromised := ss_newly s1;
                                tl_total_compromised := List.length (ss_compromised s1) |}];
             ss_draws := ss_draws s1;
             ss_attempts := ss_attempts s1;
             ss_raised := None |}
      end
  end.

(** [n] more time steps, the next one numbered [t]. *)
Fixpoint run_steps (n : nat) (t : Z) (s : SimState) : SimState :=
  match n with
  | O => s
  | S n' => run_steps n' (t + 1)%Z (time_step t s)
  end.

(** The state once the initial node is marked, before the first step. *)
Definition start_state (meta : dict AssetMeta) (initial_compromise : string)
    : SimState :=
  {| ss_meta := meta;
     ss_compromised := [initial_compromise];
     ss_newly := [];
     ss_timeline := [{| tl_time_step := 0;
                        tl_newly_compromised := [initial_compromise];
                        tl_total_compromised := 1 |}];
     ss_draws := O;
     ss_attempts := [];
     ss_raised := None |}.

(** The (source, neighbor) pairs one time step iterates over, in order,
    from a pre-step compromised set. *)
Definition step_edges (compromised : list string) : list (string * string) :=
  flat_map (fun c => map (pair c) (neighbors g c)) (set_order compromised).

(** One iteration of the two nested loops, as a function of the edge. *)
Definition try_edge (t : Z) (s : SimState) (edge : string * string) : SimState :=
  try_neighbor t (fst edge) s (snd edge).

End Simulation.

Definition edge_of (a : Attempt) : string * string := (at_source a, at_target a).

(** The attempts of a log that target [v]. *)
Definition attempts_on (v : string) (log : list Attempt) : list Attempt :=
  filter (fun a => String.eqb (at_target a) v) log.

(** The edges of a list that lead into [v]. *)
Definition edges_into (v : string) (es : list (string * string))
    : list (string * string) :=
  filter (fun edge => String.eqb (snd edge) v) es.

(** What the attempts [new], logged while iterating the edges [es] from
    state [s] to state [s'], satisfy. *)
Definition log_ok (t : Z) (es : list (string * string)) (s s' : SimState)
    (new : list Attempt) : Prop :=
  ss_attempts s' = ss_attempts s ++ new
  /\ ss_draws s' = (ss_draws s + List.length new)%nat
  /\ (forall a, In a new ->
                In (edge_of a) es /\ ~ In (at_target a) (ss_compromised s)
                /\ at_step a = t)
  /\ (forall l1 a l2, new = l1 ++ a :: l2 -> at_success a = true ->
                      forall b, In b l2 -> at_target b <> at_target a)
  /\ (forall v, ~ In v (ss_compromised s') -> ss_raised s' = None ->
                map edge_of (attempts_on v new) = edges_into v es).

Definition with_metadata (e : Engine) (meta : dict AssetMeta) : Engine :=
  {| graph := graph e; asset_metadata := meta;
     vulnerability_data := vulnerability_data e |}.

(** The state of the run after [k] completed time steps, when the initial
    node has a record. *)
Definition sim_state (set_order : list string -> list string) (rng : nat -> Q)
    (h : Heap) (e : Engine) (initial_compromise : string) (p : Q) (k : nat)
    : option SimState :=
  match mark_compromised (reset_all (asset_metadata e)) initial_compromise 0 with
  | Some meta1 =>
      Some (run_steps set_order rng (graph e) (vulns_of h e) p k 1%Z
              (start_state meta1 initial_compromise))
  | None => None
  end.

Definition simulate_lateral_movement (set_order : list string -> list string)
    (rng : nat -> Q) (h : Heap) (e : Engine)
    (initial_compromise : string) (time_steps : Z) (propagation_probability : Q)
    : Engine * outcome SimResult :=
  if negb (in_graph initial_compromise (graph e)) then
    (e, ErrorResult "Asset not found")
  else
    match sim_state set_order rng h e initial_compromise propagation_probability
            (Z.to_nat time_steps) with
    | None =>
        (with_metadata e (reset_all (asset_metadata e)), KeyError initial_compromise)
    | Some s =>
        let e' := with_metadata e (ss_meta s) in
        match ss_raised s with
        | Some k => (e', KeyError k)
        | None =>
            let compromised := set_order (ss_compromised s) in
            match tier_members (ss_meta s) "critical" compromised,
                  tier_members (ss_meta s) "high" compromised with
            | Ok critical, Ok high =>
                (e', Ok {| sr_initial_compromise := initial_compromise;
                           sr_simulation_steps := time_steps;
                           sr_total_compromised := List.length (ss_compromised s);
                           sr_compromised_assets := compromised;
                           sr_critical_assets_compromised := critical;
                           sr_high_assets_compromised := high;
                           sr_timeline := ss_timeline s;
                           sr_propagation_rate :=
                             if (time_steps >? 0)%Z then
                               (inject_Z (Z.of_nat (List.length (ss_compromised s)))
                                / inject_Z time_steps)%Q
                             else 0%Q |})
            | KeyError k, _ | Ok _, KeyError k => (e', KeyError k)
            | ErrorResult m, _ | Ok _, ErrorResult m => (e', ErrorResult m)
            end
        end
    end.

(** *** The HTTP route

    [@router.post("/simulate/lateral-movement")] declares
    [time_steps: int = Query(10, ge=1, le=100)] and
    [propagation_probability: float = Query(0.3, ge=0.0, le=1.0)]; a request
    outside these bounds is answered 422 before the handler body runs. *)
Inductive RouteResponse : Type :=
| Unprocessable422
| Handled (result : outcome SimResult).

Definition query_ok (time_steps : Z) (propagation_probability : Q) : bool :=
  (1 <=? time_steps)%Z && (time_steps <=? 100)%Z
  && Qle_bool 0 propagation_probability && Qle_bool propagation_probability 1.

Definition route_simulate_lateral_movement (set_order : list string -> list string)
    (rng : nat -> Q) (h : Heap) (e : Engine)
    (initial_compromise : string) (time_steps : Z) (propagation_probability : Q)
    : Engine * RouteResponse :=
  if query_ok time_steps propagation_probability then
    let '(e', result) :=
      simulate_lateral_movement set_order rng h e initial_compromise time_steps
        propagation_probability in
    (e', Handled result)
  else (e, Unprocessable422).

(** A triangle: A -> B, A -> C, B -> C, every node with a record. *)
Definition triangle : Engine :=
  add_connection
    (add_connection
       (add_connection
          (add_asset
             (add_asset
                (add_asset {| graph := []; asset_metadata := []; vulnerability_data := 0 |}
                   "A" "server" "A" "high" "dmz" None)
                "B" "server" "B" "medium" "internal" None)
             "C" "server" "C" "critical" "internal" None)
          "A" "B" "network" None 1%Q false)
       "A" "C" "network" None 1%Q false)
    "B" "C" "network" None 1%Q false.

(** Draws: the first and third are low, the second is high. *)
Definition draws_low_high_low (i : nat) : Q :=
  match i with
  | 1%nat => (9 # 10)%Q
  | _ => (1 # 10)%Q
  end.

(** A store whose only dictionary gives B one network-exploitable
    vulnerability of score 10. *)
Definition heap_B_vulnerable : Heap :=
  [[("B", [{| cve_id := "CVE-2024-1234"; cvss_score := 10%Q;
              exploitable := true; network_exploitable := true |}])]].

(** ** Export and import *)

(** A node entry of a snapshot: a dictionary with whatever keys are
    present; a field is [None] when its key is absent, ["id"] included. *)
Record SnapNode := {
  sn_id : option string;
  sn_type : option string;
  sn_name : option string;
  sn_criticality : option string;
  sn_zone : option string;
  sn_compromised : option bool;
  sn_compromise_time : option (option Z);
  sn_metadata : option (dict string)
}.

(** An edge entry, likewise: ["source"] and ["target"] may be absent. *)
Record SnapEdge := {
  se_source : option string;
  se_target : option string;
  se_type : option string;
  se_protocols : option (list string);
  se_weight : option Q
}.

(** The dictionary handed to [import_from_dict].  A missing ["nodes"] or
    ["edges"] key reads as the empty list.  ["vulnerabilities"], when
    present, is a reference to a dictionary object of the store.  The
    ["stats"] entry of an export is never read back and is left out.
    The node entries are the caller's dictionaries, which the import
    changes (it pops ["id"]): the snapshot as the caller finds it after the
    call is part of the result.  The entries of one list are taken to be
    distinct objects. *)
Record Snapshot := {
  snap_nodes : list SnapNode;
  snap_edges : list SnapEdge;
  snap_vulnerabilities : option loc
}.

Definition or_default {A : Type} (d : A) (o : option A) : A :=
  match o with Some a => a | None => d end.

(** [{"id": node, **self.asset_metadata.get(node, {})}] *)
Definition export_node (meta : dict AssetMeta) (node : string) : SnapNode :=
  match dict_get node meta with
  | Some m =>
      {| sn_id := Some (am_id m);
         sn_type := Some (am_type m);
         sn_name := Some (am_name m);
         sn_criticality := Some (am_criticality m);
         sn_zone := Some (am_zone m);
         sn_compromised := Some (am_compromised m);
         sn_compromise_time := Some (am_compromise_time m);
         sn_metadata := Some (am_metadata m) |}
  | None =>
      {| sn_id := Some node; sn_type := None; sn_name := None; sn_criticality := None;
         sn_zone := None; sn_compromised := None; sn_compromise_time := None;
         sn_metadata := None |}
  end.

(** [{"source": u, "target": v, **data}] *)
Definition export_edge (edge : string * string * EdgeData) : SnapEdge :=
  let '(u, v, data) := edge in
  {| se_source := Some u;
     se_target := Some v;
     se_type := Some (ed_type data);
     se_protocols := Some (ed_protocols data);
     se_weight := Some (ed_weight data) |}.

(** The vulnerability dictionary is exported by reference, not copied. *)
Definition export_to_dict (e : Engine) : Snapshot :=
  {| snap_nodes := map (export_node (asset_metadata e)) (nodes (graph e));
     snap_edges := map export_edge (edges (graph e));
     snap_vulnerabilities := Some (vulnerability_data e) |}.

(** [node.pop("id")] leaves the caller's node without its ["id"] key. *)
Definition pop_id (node : SnapNode) : SnapNode :=
  {| sn_id := None;
     sn_type := sn_type node;
     sn_name := sn_name node;
     sn_criticality := sn_criticality node;
     sn_zone := sn_zone node;
     sn_compromised := sn_compromised node;
     sn_compromise_time := sn_compromise_time node;
     sn_metadata := sn_metadata node |}.

(** The [add_asset] call of the node loop, for the popped id and the node
    as the pop left it. *)
Definition import_node (e : Engine) (popped : string * SnapNode) : Engine :=
  let '(node_id, node) := popped in
  add_asset e node_id
    (or_default "unknown" (sn_type node))
    (or_default node_id (sn_name node))
    (or_default "medium" (sn_criticality node))
    (or_default "internal" (sn_zone node))
    (Some (or_default [] (sn_metadata node))).

(** The [add_connection] call of the edge loop, for the two endpoints read
    from the edge. *)
Definition import_edge (e : Engine) (read : string * string * SnapEdge) : Engine :=
  let '(source, target, edge) := read in
  add_connection e source target
    (or_default "network" (se_type edge))
    (Some (or_default ["tcp"] (se_protocols edge)))
    (or_default 1%Q (se_weight edge))
    false.

(** [for node in data.get("nodes", []): node_id = node.pop("id"); ...]:
    the loop stops with [KeyError("id")] at the first node without the
    key; the nodes before it have been added and have lost their ["id"].
    The result is the engine, the caller's node list and how the loop
    ended. *)
Fixpoint import_nodes (e : Engine) (l : list SnapNode)
    : Engine * list SnapNode * outcome unit :=
  match l with
  | [] => (e, [], Ok tt)
  | node :: rest =>
      match sn_id node with
      | None => (e, node :: rest, KeyError "id")
      | Some node_id =>
          let '(e', rest', out) :=
            import_nodes (import_node e (node_id, pop_id node)) rest in
          (e', pop_id node :: rest', out)
      end
  end.

(** [for edge in data.get("edges", []): self.add_connection(edge["source"],
    edge["target"], ...)]: the arguments are evaluated in this order, so a
    missing ["source"] is reported before a missing ["target"]. *)
Fixpoint import_edges (e : Engine) (l : list SnapEdge) : Engine * outcome unit :=
  match l with
  | [] => (e, Ok tt)
  | edge :: rest =>
      match se_source edge, se_target edge with
      | None, _ => (e, KeyError "source")
      | Some _, None => (e, KeyError "target")
      | Some source, Some target => import_edges (import_edge e (source, target, edge)) rest
      end
  end.

(** The two loops in sequence; the edge loop is not reached when the node
    loop raises. *)
Definition import_entries (e : Engine) (data : Snapshot)
    : Engine * list SnapNode * outcome unit :=
  match import_nodes e (snap_nodes data) with
  | (e2, nodes', Ok _) =>
      let '(e3, out) := import_edges e2 (snap_edges data) in (e3, nodes', out)
  | failed => failed
  end.

(** What a call of [import_from_dict] leaves behind: the store, the
    engine, the caller's snapshot, and whether the call returned ([Ok]) or
    raised. *)
Record ImportRun := {
  ir_heap : Heap;
  ir_engine : Engine;
  ir_data : Snapshot;
  ir_outcome : outcome unit
}.

(** [import_from_dict]: the three containers are cleared in place, then
    nodes and edges are added, then [self.vulnerability_data] is rebound to
    the snapshot's dictionary (a fresh empty one when the key is absent).
    A [KeyError] of one of the loops leaves the method at that point: the
    containers have been cleared, the entries before the faulty one have
    been added, and [self.vulnerability_data] is still the emptied
    dictionary the engine held. *)
Definition import_from_dict (h : Heap) (e : Engine) (data : Snapshot) : ImportRun :=
  let h1 := heap_set h (vulnerability_data e) [] in
  let e1 := {| graph := []; asset_metadata := [];
               vulnerability_data := vulnerability_data e |} in
  let '(e3, nodes', out) := import_entries e1 data in
  let data' := {| snap_nodes := nodes';
                  snap_edges := snap_edges data;
                  snap_vulnerabilities := snap_vulnerabilities data |} in
  match out with
  | Ok _ =>
      match snap_vulnerabilities data with
      | Some l =>
          {| ir_heap := h1;
             ir_engine := {| graph := graph e3; asset_metadata := asset_metadata e3;
                             vulnerability_data := l |};
             ir_data := data';
             ir_outcome := Ok tt |}
      | None =>
          let '(h2, l) := heap_alloc h1 [] in
          {| ir_heap := h2;
             ir_engine := {| graph := graph e3; asset_metadata := asset_metadata e3;
                             vulnerability_data := l |};
             ir_data := data';
             ir_outcome := Ok tt |}
      end
  | raised =>
      {| ir_heap := h1; ir_engine := e3; ir_data := data'; ir_outcome := raised |}
  end.

(** An engine with nothing in it, the starting point of every import. *)
Definition blank : Engine :=
  {| graph := []; asset_metadata := []; vulnerability_data := O |}.

(** The imported graph and records are a function of the snapshot alone:
    the two loops run from nothing. *)
Definition imported (data : Snapshot) : Engine := fst (fst (import_entries blank data)).

(** How the import ends, likewise. *)
Definition import_outcome (data : Snapshot) : outcome unit := snd (import_entries blank data).

(** Every node entry has its ["id"], every edge entry its ["source"] and
    ["target"]. *)
Definition has_id (node : SnapNode) : bool :=
  match sn_id node with Some _ => true | None => false end.

Definition has_endpoints (edge : SnapEdge) : bool :=
  match se_source edge, se_target edge with Some _, Some _ => true | _, _ => false end.

Definition keys_present (data : Snapshot) : bool :=
  forallb has_id (snap_nodes data) && forallb has_endpoints (snap_edges data).

(** The entries the loops get through, with the keys read from them: the
    nodes before the first one without ["id"], and, when no node stopped
    the import, the edges before the first one without an endpoint. *)
Fixpoint read_nodes (l : list SnapNode) : list (string * SnapNode) :=
  match l with
  | [] => []
  | node :: rest =>
      match sn_id node with
      | Some node_id => (node_id, pop_id node) :: read_nodes rest
      | None => []
      end
  end.

Fixpoint read_edges (l : list SnapEdge) : list (string * string * SnapEdge) :=
  match l with
  | [] => []
  | edge :: rest =>
      match se_source edge, se_target edge with
      | Some source, Some target => (source, target, edge) :: read_edges rest
      | _, _ => []
      end
  end.

Definition edges_reached (data : Snapshot) : list (string * string * SnapEdge) :=
  if forallb has_id (snap_nodes data) then read_edges (snap_edges data) else [].

(** What the ingestion operations maintain: node and successor keys are
    unique, every successor is a node, no edge has an empty protocol list,
    and every record is stored under its own id. *)
Definition wf_graph (g : DiGraph) : Prop :=
  NoDup (dict_keys g)
  /\ forall u a, In (u, a) g ->
       NoDup (dict_keys a)
       /\ (forall v, In v (dict_keys a) -> In v (dict_keys g))
       /\ (forall v d, In (v, d) a -> ed_protocols d <> []).

Definition wf_engine (e : Engine) : Prop :=
  wf_graph (graph e)
  /\ forall k m, dict_get k (asset_metadata e) = Some m -> am_id m = k.

(** A node with an empty successor table. *)
Definition bare (n : string) : string * dict EdgeData := (n, []).

(** A snapshot with an edge to a node that is not listed, and a
    duplicated node id. *)
Definition malformed_snapshot : Snapshot :=
  {| snap_nodes :=
       [ {| sn_id := Some "X"; sn_type := Some "server"; sn_name := None;
            sn_criticality := None; sn_zone := None; sn_compromised := None;
            sn_compromise_time := None; sn_metadata := None |};
         {| sn_id := Some "X"; sn_type := Some "database"; sn_name := None;
            sn_criticality := None; sn_zone := None; sn_compromised := None;
            sn_compromise_time := None; sn_metadata := None |} ];
     snap_edges :=
       [ {| se_source := Some "X"; se_target := Some "Y"; se_type := None;
            se_protocols := None; se_weight := None |} ];
     snap_vulnerabilities := None |}.

(** A snapshot whose second node entry has no ["id"]. *)
Definition snapshot_without_id : Snapshot :=
  {| snap_nodes :=
       [ {| sn_id := Some "X"; sn_type := Some "server"; sn_name := None;
            sn_criticality := None; sn_zone := None; sn_compromised := None;
            sn_compromise_time := None; sn_metadata := None |};
         {| sn_id := None; sn_type := Some "database"; sn_name := Some "db";
            sn_criticality := None; sn_zone := None; sn_compromised := None;
            sn_compromise_time := None; sn_metadata := None |} ];
     snap_edges :=
       [ {| se_source := Some "X"; se_target := Some "Y"; se_type := None;
            se_protocols := None; se_weight := None |} ];
     snap_vulnerabilities := None |}.

(** ** Simple paths *)

(** Consecutive nodes of [p] are joined by an edge of [g]. *)
Fixpoint chain (g : DiGraph) (p : list string) : Prop :=
  match p with
  | a :: ((b :: _) as r) => In b (neighbors g a) /\ chain g r
  | _ => True
  end.

(** [p] leads from [start_id] to [target_id] along edges, repeats no node
    and has at most [max_depth] nodes. *)
Definition simple_path (g : DiGraph) (start_id target_id : string) (max_depth : Z)
    (p : list string) : Prop :=
  (exists rest, p = start_id :: rest)
  /\ last p start_id = target_id
  /\ NoDup p
  /\ chain g p
  /\ (Z.of_nat (List.length p) <= max_depth)%Z.

(** Every node lists each successor once (as the successor table of a
    [DiGraph], a dict, does). *)
Definition distinct_neighbors (g : DiGraph) : Prop :=
  forall n, NoDup (neighbors g n).

(** Not longer than. *)
Definition by_length (p q : list string) : Prop :=
  (List.length p <= List.length q)%nat.

(** The breadth-first loop keeps its output and its queue ordered by
    length, and the queued paths within one node of each other. *)
Definition bfs_ordered (queue : list (string * list string))
    (paths : list (list string)) : Prop :=
  StronglySorted by_length (paths ++ map snd queue)
  /\ forall q1 q2, In q1 queue -> In q2 queue ->
       (List.length (snd q2) <= S (List.length (snd q1)))%nat.

(** ** Edge lookup and counting *)

(** [G[u][v]], the attributes of the edge from [u] to [v], if there is one. *)
Definition edge_data (g : DiGraph) (u v : string) : option EdgeData :=
  dict_get v (adj g u).

(** [_count_by_attribute]; [value m] is what [meta.get(attribute, "unknown")]
    evaluates to on the record [m] (the callers pass "zone", "criticality"
    and "type", which every record holds as a string). *)
Definition _count_by_attribute (value : AssetMeta -> string) (meta : dict AssetMeta)
    : dict nat :=
  fold_left
    (fun counts '(_, m) =>
       dict_set (value m) (or_default O (dict_get (value m) counts) + 1)%nat counts)
    meta [].

(** The vulnerability record built by [add_vulnerability]. *)
Definition vulnerability (cve : string) (cvss : Q) (expl net_expl : bool)
    : Vulnerability :=
  {| cve_id := cve; cvss_score := cvss;
     exploitable := expl; network_exploitable := net_expl |}.

(** ** Records after a round trip *)

(** The record [import_from_dict] builds for node [k] from what
    [export_to_dict] wrote for it: the stored record with its compromise
    state cleared, or the defaults for a node that had no record. *)
Definition roundtrip_record (k : string) (stored : option AssetMeta) : AssetMeta :=
  match stored with
  | Some m => with_compromise m false None
  | None =>
      {| am_id := k; am_type := "unknown"; am_name := k; am_criticality := "medium";
         am_zone := "internal"; am_compromised := false; am_compromise_time := None;
         am_metadata := [] |}
  end.

(** The record [import_node] writes for a snapshot node and its id. *)
Definition imported_record (popped : string * SnapNode) : AssetMeta :=
  let '(node_id, node) := popped in
  {| am_id := node_id;
     am_type := or_default "unknown" (sn_type node);
     am_name := or_default node_id (sn_name node);
     am_criticality := or_default "medium" (sn_criticality node);
     am_zone := or_default "internal" (sn_zone node);
     am_compromised := false;
     am_compromise_time := None;
     am_metadata := or_default [] (sn_metadata node) |}.

(** Every metadata record belongs to a node of the graph. *)
Definition records_in_graph (e : Engine) : Prop :=
  forall k, dict_mem k (asset_metadata e) = true -> in_graph k (graph e) = true.

(** ** What a simulation run leaves alone *)

(** A record without its compromise state. *)
Definition static (m : AssetMeta) : AssetMeta := with_compromise m false None.

(** [m'] holds the records of [m], up to their compromise state. *)
Definition same_records (m m' : dict AssetMeta) : Prop :=
  forall k, option_map static (dict_get k m') = option_map static (dict_get k m).

Definition state_same_records (s s' : SimState) : Prop :=
  same_records (ss_meta s) (ss_meta s').

(** The compromised set lists each node once and, while nothing was
    raised, is exactly the set of flagged records. *)
Definition flags_match (s : SimState) : Prop :=
  NoDup (ss_compromised s)
  /\ (ss_raised s = None ->
      forall a, flag (ss_meta s) a = true <-> In a (ss_compromised s)).

(** [ss_compromised] only grows. *)
Definition compromised_le (s s' : SimState) : Prop :=
  incl (ss_compromised s) (ss_compromised s').

(** [v] is reached from [x] along [k] edges. *)
Inductive reach (g : DiGraph) (x : string) : nat -> string -> Prop :=
| reach_here : reach g x O x
| reach_step k u v : reach g x k u -> In v (neighbors g u) -> reach g x (S k) v.

(** Every compromised node is within [k] edges of [x]. *)
Definition within_hops (g : DiGraph) (x : string) (k : nat) (s : SimState) : Prop :=
  forall a, In a (ss_compromised s) -> exists j, (j <= k)%nat /\ reach g x j a.

(** The nodes of [l] whose record has criticality [tier]. *)
Definition of_tier (meta : dict AssetMeta) (tier : string) (l : list string)
    : list string :=
  filter (fun a => match dict_get a meta with
                   | Some m => String.eqb (am_criticality m) tier
                   | None => false
                   end) l.

(** All nodes the entries of a timeline list as newly compromised. *)
Definition newly_all (tl : list TimelineEntry) : list string :=
  List.concat (map tl_newly_compromised tl).

(** Entry [i] of a timeline is numbered [i] and its total counts the
    nodes listed up to and including it. *)
Definition running_totals (tl : list TimelineEntry) : Prop :=
  forall i en, nth_error tl i = Some en ->
    tl_time_step en = Z.of_nat i
    /\ tl_total_compromised en = List.length (newly_all (firstn (S i) tl)).

(** A node listed by entry [i] is within [i] edges of [x]. *)
Definition entries_within (g : DiGraph) (x : string) (tl : list TimelineEntry)
    : Prop :=
  forall i en a, nth_error tl i = Some en -> In a (tl_newly_compromised en) ->
    exists j, (j <= i)%nat /\ reach g x j a.

(** State of the timeline after [k] completed steps. *)
Definition timeline_ok (g : DiGraph) (x : string) (k : nat) (s : SimState) : Prop :=
  ss_raised s = None ->
  List.length (ss_timeline s) = S k
  /\ newly_all (ss_timeline s) = ss_compromised s
  /\ running_totals (ss_timeline s)
  /\ entries_within g x (ss_timeline s).

(** Every node within [k] edges of [x] is compromised, unless something
    was raised. *)
Definition covers_hops (g : DiGraph) (x : string) (k : nat) (s : SimState) : Prop :=
  ss_raised s = None ->
  forall a, (exists j, (j <= k)%nat /\ reach g x j a) -> In a (ss_compromised s).

(** ** Distances, for the blast radius *)

(** [a] is reached from [x] along [k] edges and along no fewer. *)
Definition at_distance (g : DiGraph) (x : string) (k : nat) (a : string) : Prop :=
  reach g x k a /\ forall j, (j < k)%nat -> ~ reach g x j a.

(** [a] is reached from [x] along at most [k] edges. *)
Definition ball (g : DiGraph) (x : string) (k : nat) (a : string) : Prop :=
  exists j, (j <= k)%nat /\ reach g x j a.

(** [a] is another node than [x], at distance [max_hops] or less. *)
Definition in_radius (g : DiGraph) (x : string) (max_hops : Z) (a : string) : Prop :=
  exists k, (1 <= k <= Z.to_nat max_hops)%nat /\ at_distance g x k a.

(** An entry [(hop, assets)] lists the nodes at distance [hop], once each. *)
Definition layer_ok (g : DiGraph) (x : string) (item : Z * list string) : Prop :=
  (0 <= fst item)%Z
  /\ NoDup (snd item)
  /\ forall a, In a (snd item) <-> at_distance g x (Z.to_nat (fst item)) a.

(** State of the level loop of [calculate_blast_radius] after [k] hops. *)
Definition level_inv (g : DiGraph) (x : string) (k : nat)
    (visited level : list string) : Prop :=
  (forall a, In a visited <-> ball g x k a)
  /\ (forall a, In a level <-> at_distance g x k a)
  /\ (forall a, ball g x k a -> In a level \/ exists j, (j < k)%nat /\ reach g x j a)
  /\ NoDup level.

(** The test of one [if neighbor not in visited] inside the level loop. *)
Definition visit_step (st : list string * list string) (neighbor : string)
    : list string * list string :=
  let '(next_level, visited) := st in
  if mem neighbor visited then (next_level, visited)
  else (next_level ++ [neighbor], neighbor :: visited).

(** The members of [l] whose criticality, as the analysis reads it, is [t]. *)
Definition with_criticality (meta : dict AssetMeta) (t : string) (l : list string)
    : list string :=
  filter (fun a => String.eqb (criticality_of meta a) t) l.

Definition sum_nat (l : list nat) : nat := fold_right Nat.add O l.

(** A -> B where B is recorded with a criticality outside the four tiers. *)
Definition scenario_untiered : Engine :=
  add_connection
    (add_asset (add_asset {| graph := []; asset_metadata := []; vulnerability_data := 0 |}
                  "A" "server" "A" "high" "dmz" None)
       "B" "server" "B" "unknown" "internal" None)
    "A" "B" "network" None 1%Q false.

(** ** Candidates of the critical path ranking *)

(** The entry built for [path] between [entry] and [target]. *)
Definition critical_entry (h : Heap) (e : Engine) (entry target : string)
    (path : list string) : CriticalPath :=
  {| cp_entry_point := entry;
     cp_target := target;
     cp_path := path;
     cp_path_length := List.length path;
     cp_risk_score := _calculate_path_risk (vulns_of h e) (asset_metadata e) path |}.

(** [c] describes a simple path of at most 8 nodes, through the graph, from
    a recorded asset of zone dmz or external to a recorded asset of
    criticality critical, with its length and its computed risk. *)
Definition candidate (h : Heap) (e : Engine) (c : CriticalPath) : Prop :=
  (exists m, In (cp_entry_point c, m) (asset_metadata e)
             /\ (am_zone m = "dmz" \/ am_zone m = "external"))
  /\ (exists m, In (cp_target c, m) (asset_metadata e)
                /\ am_criticality m = "critical")
  /\ in_graph (cp_entry_point c) (graph e) = true
  /\ in_graph (cp_target c) (graph e) = true
  /\ simple_path (graph e) (cp_entry_point c) (cp_target c) 8 (cp_path c)
  /\ cp_path_length c = List.length (cp_path c)
  /\ cp_risk_score c
     = _calculate_path_risk (vulns_of h e) (asset_metadata e) (cp_path c).

(** ** Network statistics and the sample network *)

Record NetworkStats := {
  ns_total_assets : nat;
  ns_total_connections : nat;
  ns_assets_with_vulnerabilities : nat;
  ns_total_vulnerabilities : nat;
  ns_assets_by_zone : dict nat;
  ns_assets_by_criticality : dict nat;
  ns_assets_by_type : dict nat;
  ns_graph_density : Q;
  ns_is_connected : bool
}.

Section Stats.
(** The two networkx functions [get_network_stats] defers to. *)
Variable nx_density : DiGraph -> Q.
Variable nx_is_weakly_connected : DiGraph -> bool.

Definition get_network_stats (h : Heap) (e : Engine) : NetworkStats :=
  let number_of_nodes := List.length (nodes (graph e)) in
  {| ns_total_assets := number_of_nodes;
     ns_total_connections := List.length (edges (graph e));
     ns_assets_with_vulnerabilities := List.length (vulns_of h e);
     ns_total_vulnerabilities :=
       list_sum (map (fun '(_, v) => List.length v) (vulns_of h e));
     ns_assets_by_zone := _count_by_attribute am_zone (asset_metadata e);
     ns_assets_by_criticality := _count_by_attribute am_criticality (asset_metadata e);
     ns_assets_by_type := _count_by_attribute am_type (asset_metadata e);
     ns_graph_density :=
       if (0 <? number_of_nodes)%nat then nx_density (graph e) else 0%Q;
     ns_is_connected :=
       if (0 <? number_of_nodes)%nat then nx_is_weakly_connected (graph e)
       else false |}.

End Stats.

(** [initialize_sample_network]: 18 assets, the connections between them
    (weight 1.0 each, the default) and six vulnerabilities. *)
Definition initialize_sample_network (h : Heap) (e : Engine) : Heap * Engine :=
  let e := add_asset e "external_firewall" "firewall" "External Firewall" "critical" "dmz" None in
  let e := add_asset e "web_server_1" "server" "Public Web Server 1" "high" "dmz" None in
  let e := add_asset e "web_server_2" "server" "Public Web Server 2" "high" "dmz" None in
  let e := add_asset e "mail_gateway" "server" "Mail Gateway" "high" "dmz" None in
  let e := add_asset e "vpn_gateway" "network_device" "VPN Gateway" "critical" "dmz" None in
  let e := add_asset e "internal_firewall" "firewall" "Internal Firewall" "critical" "internal" None in
  let e := add_asset e "ad_server" "server" "Active Directory Server" "critical" "internal" None in
  let e := add_asset e "file_server" "server" "File Server" "high" "internal" None in
  let e := add_asset e "app_server_1" "server" "Application Server 1" "high" "internal" None in
  let e := add_asset e "app_server_2" "server" "Application Server 2" "medium" "internal" None in
  let e := add_asset e "workstation_1" "workstation" "Finance Workstation" "medium" "internal" None in
  let e := add_asset e "workstation_2" "workstation" "HR Workstation" "medium" "internal" None in
  let e := add_asset e "workstation_3" "workstation" "IT Admin Workstation" "high" "internal" None in
  let e := add_asset e "printer_1" "iot" "Network Printer" "low" "internal" None in
  let e := add_asset e "db_server_1" "database" "Production Database" "critical" "restricted" None in
  let e := add_asset e "db_server_2" "database" "Backup Database" "high" "restricted" None in
  let e := add_asset e "scada_controller" "ics" "SCADA Controller" "critical" "restricted" None in
  let e := add_asset e "backup_server" "server" "Backup Server" "high" "restricted" None in
  let e := add_connection e "external_firewall" "web_server_1" "network" (Some ["https"; "http"]) 1%Q false in
  let e := add_connection e "external_firewall" "web_server_2" "network" (Some ["https"; "http"]) 1%Q false in
  let e := add_connection e "external_firewall" "mail_gateway" "network" (Some ["smtp"; "imaps"]) 1%Q false in
  let e := add_connection e "external_firewall" "vpn_gateway" "network" (Some ["ipsec"]) 1%Q false in
  let e := add_connection e "external_firewall" "internal_firewall" "network" (Some ["tcp"]) 1%Q false in
  let e := add_connection e "web_server_1" "internal_firewall" "network" (Some ["tcp"]) 1%Q false in
  let e := add_connection e "web_server_2" "internal_firewall" "network" (Some ["tcp"]) 1%Q false in
  let e := add_connection e "mail_gateway" "internal_firewall" "network" (Some ["smtp"]) 1%Q false in
  let e := add_connection e "vpn_gateway" "internal_firewall" "network" (Some ["tcp"]) 1%Q false in
  let e := add_connection e "internal_firewall" "ad_server" "network" (Some ["ldap"; "kerberos"]) 1%Q true in
  let e := add_connection e "internal_firewall" "file_server" "network" (Some ["smb"]) 1%Q true in
  let e := add_connection e "internal_firewall" "app_server_1" "network" (Some ["tcp"]) 1%Q true in
  let e := add_connection e "internal_firewall" "app_server_2" "network" (Some ["tcp"]) 1%Q true in
  let e := add_connection e "ad_server" "file_server" "trust" (Some ["ldap"]) 1%Q true in
  let e := add_connection e "ad_server" "app_server_1" "trust" (Some ["ldap"]) 1%Q true in
  let e := add_connection e "ad_server" "app_server_2" "trust" (Some ["ldap"]) 1%Q true in
  let e := add_connection e "ad_server" "workstation_1" "trust" (Some ["ldap"]) 1%Q true in
  let e := add_connection e "ad_server" "workstation_2" "trust" (Some ["ldap"]) 1%Q true in
  let e := add_connection e "ad_server" "workstation_3" "trust" (Some ["ldap"]) 1%Q true in
  let e := add_connection e "file_server" "workstation_1" "data_flow" (Some ["smb"]) 1%Q true in
  let e := add_connection e "file_server" "workstation_2" "data_flow" (Some ["smb"]) 1%Q true in
  let e := add_connection e "file_server" "workstation_3" "data_flow" (Some ["smb"]) 1%Q true in
  let e := add_connection e "app_server_1" "db_server_1" "data_flow" (Some ["sql"]) 1%Q false in
  let e := add_connection e "app_server_2" "db_server_1" "data_flow" (Some ["sql"]) 1%Q false in
  let e := add_connection e "workstation_3" "app_server_1" "network" (Some ["ssh"]) 1%Q false in
  let e := add_connection e "workstation_3" "app_server_2" "network" (Some ["ssh"]) 1%Q false in
  let e := add_connection e "workstation_3" "db_server_1" "network" (Some ["ssh"]) 1%Q false in
  let e := add_connection e "workstation_3" "scada_controller" "network" (Some ["modbus"]) 1%Q false in
  let e := add_connection e "db_server_1" "db_server_2" "data_flow" (Some ["sql"]) 1%Q true in
  let e := add_connection e "db_server_1" "backup_server" "data_flow" (Some ["tcp"]) 1%Q false in
  let e := add_connection e "db_server_2" "backup_server" "data_flow" (Some ["tcp"]) 1%Q false in
  let e := add_connection e "printer_1" "workstation_1" "network" (Some ["ipp"]) 1%Q true in
  let e := add_connection e "printer_1" "workstation_2" "network" (Some ["ipp"]) 1%Q true in
  let h := add_vulnerability h e "web_server_1" "CVE-2024-1234" (85 # 10)%Q true true in
  let h := add_vulnerability h e "web_server_2" "CVE-2024-1234" (85 # 10)%Q true true in
  let h := add_vulnerability h e "app_server_1" "CVE-2024-5678" (72 # 10)%Q true true in
  let h := add_vulnerability h e "file_server" "CVE-2024-9012" (65 # 10)%Q false true in
  let h := add_vulnerability h e "printer_1" "CVE-2024-3456" 5%Q true false in
  let h := add_vulnerability h e "scada_controller" "CVE-2024-7890" (98 # 10)%Q true true in
  (h, e).

(** [twin.graph.number_of_nodes() == 0] *)
Definition graph_empty (e : Engine) : bool :=
  match nodes (graph e) with
  | [] => true
  | _ => false
  end.

(** The first statements of the routes that need a network:
    [if twin.graph.number_of_nodes() == 0: twin.initialize_sample_network()]. *)
Definition ensure_network (h : Heap) (e : Engine) : Heap * Engine :=
  if graph_empty e then initialize_sample_network h e else (h, e).

(** Metadata keys are unique, as the keys of a [dict] are. *)
Definition unique_records (e : Engine) : Prop :=
  NoDup (dict_keys (asset_metadata e)).

(** ** Routes of [app/api/routes/twin.py]

    A handler answers 422 when a [Query] bound rejects an argument (before
    its body runs), 200 with the value it returns, and 500 when its body
    raises.  The handlers work on the engine of [get_twin_engine()]; here
    they take and return that engine and the store. *)

Inductive Raised : Type :=
| RaisedKeyError (key : string)
| RaisedIndexError.

Inductive HttpResponse (A : Type) : Type :=
| Http200 (body : A)
| Http422
| Http500 (exn : Raised).

Arguments Http200 {A} body.
Arguments Http422 {A}.
Arguments Http500 {A} exn.

(** *** GET /attack-paths/bfs *)

Record PathsResponse := {
  pr_start : string;
  pr_target : string;
  pr_algorithm : string;
  pr_paths_found : nat;
  pr_paths : list (list string)
}.

(** [max_depth: int = Query(10, ge=1, le=20)] *)
Definition depth_ok (max_depth : Z) : bool :=
  (1 <=? max_depth)%Z && (max_depth <=? 20)%Z.

Definition paths_response (algorithm start_id target_id : string)
    (paths : list (list string)) : PathsResponse :=
  {| pr_start := start_id;
     pr_target := target_id;
     pr_algorithm := algorithm;
     pr_paths_found := List.length paths;
     pr_paths := firstn 50 paths |}.

(** [None]: the search ran out of fuel. *)
Definition route_find_attack_paths_bfs (fuel : nat) (e : Engine)
    (start_id target_id : string) (max_depth : Z)
    : option (HttpResponse PathsResponse) :=
  if depth_ok max_depth then
    match find_attack_paths_bfs fuel (graph e) start_id target_id max_depth with
    | Some paths => Some (Http200 (paths_response "bfs" start_id target_id paths))
    | None => None
    end
  else Some Http422.

(** *** POST /simulate *)

From Stdlib Require Import DecimalString.

Record AttackConfig := {
  ac_max_hops : Z;
  ac_propagation_probability : Q;
  ac_priority_types : list string;
  ac_time_to_impact : string;
  ac_primary_method : string
}.

Definition ransomware_config : AttackConfig :=
  {| ac_max_hops := 3;
     ac_propagation_probability := (1 # 2)%Q;
     ac_priority_types := ["server"; "database"; "workstation"];
     ac_time_to_impact := "Hours";
     ac_primary_method := "Network propagation via SMB/shares" |}.

Definition attack_config : dict AttackConfig :=
  [ ("ransomware", ransomware_config);
    ("apt",
     {| ac_max_hops := 6;
        ac_propagation_probability := (1 # 4)%Q;
        ac_priority_types := ["server"; "network_device"; "database"];
        ac_time_to_impact := "Days to Weeks";
        ac_primary_method := "Targeted lateral movement with persistence" |});
    ("insider",
     {| ac_max_hops := 2;
        ac_propagation_probability := 0%Q;
        ac_priority_types := ["database"; "server"];
        ac_time_to_impact := "Immediate";
        ac_primary_method := "Direct access to authorized resources" |});
    ("ddos",
     {| ac_max_hops := 1;
        ac_propagation_probability := 0%Q;
        ac_priority_types := ["firewall"; "web_server"; "network_device"];
        ac_time_to_impact := "Seconds to Minutes";
        ac_primary_method := "Overwhelming network bandwidth" |}) ].

(** [attack_config.get(attack_type, attack_config["ransomware"])] *)
Definition config_of (attack_type : string) : AttackConfig :=
  or_default ransomware_config (dict_get attack_type attack_config).

(** [attack_type in ["insider", "ddos"]] *)
Definition non_propagating (attack_type : string) : bool :=
  mem attack_type ["insider"; "ddos"].

(** The entry point the simulation starts from: the requested one if it
    is a node, else the first dmz or external asset, else the first node;
    [None] when the graph has no node at all. *)
Definition resolve_entry_point (e : Engine) (entry_point : string) : option string :=
  if in_graph entry_point (graph e) then Some entry_point
  else
    match entry_points e with
    | a :: _ => Some a
    | [] =>
        match nodes (graph e) with
        | n :: _ => Some n
        | [] => None
        end
    end.

(** [meta.get("asset_type")]: a record holds its type under the key
    ["type"]; it has no key ["asset_type"]. *)
Definition meta_get_asset_type (m : AssetMeta) : option string := None.

(** The list the handler calls [critical_assets]. *)
Definition attack_targets (e : Engine) (attack_type : string) : list string :=
  if String.eqb attack_type "insider" then
    map fst
      (filter (fun '(_, m) =>
                 match meta_get_asset_type m with
                 | Some t => mem t ["database"; "server"]
                 | None => false
                 end)
         (asset_metadata e))
  else if String.eqb attack_type "ddos" then entry_points e
  else critical_targets e.

(** Body of [for neighbor in twin.graph.neighbors(current)]; the state is
    the queue, [visited] and [blast_radius]. *)
Definition reach_visit (limited : bool)
    (st : list string * list string * list string) (neighbor : string)
    : list string * list string * list string :=
  let '(queue, visited, blast_radius) := st in
  if mem neighbor visited then (queue, visited, blast_radius)
  else
    let blast_radius :=
      if limited then
        if (List.length blast_radius <? 5)%nat then blast_radius ++ [neighbor]
        else blast_radius
      else blast_radius ++ [neighbor] in
    let queue := if limited then queue else queue ++ [neighbor] in
    (queue, neighbor :: visited, blast_radius).

(** [while queue and hop_count < config["max_hops"]], [hops] iterations
    left; each iteration pops the whole queue it found and leaves the nodes
    it appended. *)
Fixpoint reach_loop (hops : nat) (limited : bool) (g : DiGraph)
    (queue visited blast_radius : list string) : list string :=
  match hops with
  | O => blast_radius
  | S hops' =>
      match queue with
      | [] => blast_radius
      | _ =>
          let '(next, visited', blast_radius') :=
            fold_left
              (fun st current => fold_left (reach_visit limited) (neighbors g current) st)
              queue ([], visited, blast_radius) in
          reach_loop hops' limited g next visited' blast_radius'
      end
  end.

Record PathFinding := {
  pf_path : list string;
  pf_risk_score : Q;
  pf_description : string;
  pf_mitigations : list string
}.

Definition str_of_nat (n : nat) : string := NilEmpty.string_of_uint (Nat.to_uint n).

Definition base_risk (attack_type : string) : Q :=
  if String.eqb attack_type "ransomware" then 8%Q
  else if String.eqb attack_type "apt" then 7%Q
  else if String.eqb attack_type "insider" then 9%Q
  else 6%Q.

(** [min(10, base_risk - len(path) * 0.5)]; the operands are multiples of
    a half, which floating point represents exactly. *)
Definition path_risk_score (attack_type : string) (path : list string) : Q :=
  let x := (base_risk attack_type - inject_Z (Z.of_nat (List.length path)) * (1 # 2))%Q in
  if Qle_bool 10 x then 10%Q else x.

(** [path[-1] if len(path) > 1 else path[0]]; [None] is the [IndexError]
    of an empty path. *)
Definition last_or_first (path : list string) : option string :=
  match path with
  | [] => None
  | first :: _ =>
      if (1 <? List.length path)%nat then Some (last path first) else Some first
  end.

Definition get_attack_mitigations (attack_type : string) (path : list string)
    : option (list string) :=
  match last_or_first path, path with
  | Some x, first :: _ =>
      if String.eqb attack_type "ransomware" then
        Some [ "Maintain offline backups of data";
               ("Isolate " ++ x ++ " from network")%string;
               "Disable macro execution in documents";
               "Restrict SMB v1 access" ]
      else if String.eqb attack_type "apt" then
        Some [ ("Implement threat hunting for " ++ first)%string;
               "Deploy network segmentation between zones";
               "Enable enhanced logging and correlation";
               "Isolate compromised {path[-1] if len(path) > 1 else path[0]}" ]
      else if String.eqb attack_type "insider" then
        Some [ "Implement data loss prevention (DLP)";
               ("Monitor access to " ++ x)%string;
               "Apply principle of least privilege";
               "Conduct user behavior analytics" ]
      else
        Some [ "Deploy DDoS mitigation service";
               ("Rate limit traffic to " ++ first)%string;
               "Implement geo-blocking if applicable";
               "Scale infrastructure capacity" ]
  | _, _ => None
  end.

Definition ransomware_recommendations : list string :=
  [ "Maintain offline backups of critical data";
    "Disable SMB v1 and restrict lateral SMB access";
    "Implement network segmentation to limit lateral movement";
    "Deploy endpoint detection and response (EDR) solutions";
    "Enable immutable backups and retention policies";
    "Regular backup restoration testing" ].

Definition recommendations : dict (list string) :=
  [ ("ransomware", ransomware_recommendations);
    ("apt",
     [ "Implement advanced threat hunting procedures";
       "Deploy network traffic analysis tools";
       "Enable enhanced logging and SIEM correlation";
       "Restrict lateral movement with network segmentation";
       "Implement zero-trust access principles";
       "Conduct red team exercises regularly";
       "Use behavioral analytics to detect anomalies" ]);
    ("insider",
     [ "Implement data loss prevention (DLP) controls";
       "Monitor privileged user activity continuously";
       "Apply principle of least privilege strictly";
       "Conduct user behavior analytics";
       "Implement multi-factor authentication";
       "Regular access reviews and recertification";
       "Separate duties for critical operations" ]);
    ("ddos",
     [ "Deploy DDoS mitigation and filtering services";
       "Implement rate limiting on network edge";
       "Increase bandwidth capacity with redundancy";
       "Configure automatic traffic scrubbing";
       "Establish ISP-level DDoS protection contracts";
       "Test failover and redundancy regularly" ]) ].

Definition get_attack_recommendations (attack_type : string) : list string :=
  or_default ransomware_recommendations (dict_get attack_type recommendations).

(** [for path in found_paths[:path_limit]]: the entries appended to
    [paths_found]; [None] is the [IndexError] of an empty path. *)
Fixpoint path_findings (attack_type : string) (config : AttackConfig)
    (paths : list (list string)) : option (list PathFinding) :=
  match paths with
  | [] => Some []
  | path :: rest =>
      match get_attack_mitigations attack_type path with
      | None => None
      | Some mitigations =>
          match path_findings attack_type config rest with
          | None => None
          | Some entries =>
              Some ({| pf_path := path;
                       pf_risk_score := path_risk_score attack_type path;
                       pf_description :=
                         ("Attack path via " ++ str_of_nat (List.length path)
                          ++ " hops - " ++ ac_primary_method config)%string;
                       pf_mitigations := mitigations |} :: entries)
          end
      end
  end.

(** [[target] if target else critical_assets[:5]] *)
Definition targets_to_check (target : option string) (critical_assets : list string)
    : list string :=
  match target with
  | Some t => if String.eqb t "" then firstn 5 critical_assets else [t]
  | None => firstn 5 critical_assets
  end.

(** The results of the loop over [targets_to_check]: out of fuel, raised,
    or the collected [paths_found]. *)
Inductive Searched : Type :=
| OutOfFuel
| SearchRaised (exn : Raised)
| Found (paths_found : list PathFinding).

(** [for t in targets_to_check] *)
Fixpoint search_targets (fuel : nat) (e : Engine) (attack_type : string)
    (config : AttackConfig) (entry_point : string) (targets : list string)
    (paths_found : list PathFinding) : Searched :=
  match targets with
  | [] => Found paths_found
  | t :: rest =>
      if negb (String.eqb t "") && negb (String.eqb t entry_point)
         && in_graph t (graph e) then
        match find_attack_paths_bfs fuel (graph e) entry_point t (ac_max_hops config) with
        | None => OutOfFuel
        | Some found_paths =>
            let path_limit := if String.eqb attack_type "insider" then 2%nat else 3%nat in
            match path_findings attack_type config (firstn path_limit found_paths) with
            | None => SearchRaised RaisedIndexError
            | Some entries =>
                search_targets fuel e attack_type config entry_point rest
                  (paths_found ++ entries)
            end
        end
      else search_targets fuel e attack_type config entry_point rest paths_found
  end.

(** [stats.get("total_nodes", 1)]: the dictionary of [get_network_stats]
    has no key ["total_nodes"], so the default is what is read.  The
    thresholds 0.6 and 0.3 are compared with an integer count, which lies
    above either of them, as a float or as a rational, exactly when it is
    at least 1. *)
Definition stats_get_total_nodes (stats : NetworkStats) (default : Z) : Z := default.

Definition risk_assessment (attack_type : string) (stats : NetworkStats)
    (compromised_count critical_compromised : nat) : string :=
  if String.eqb attack_type "ransomware" then
    if negb (Qle_bool (inject_Z (Z.of_nat compromised_count))
               (inject_Z (stats_get_total_nodes stats 1) * (6 # 10)))
    then "CRITICAL"
    else if negb (Qle_bool (inject_Z (Z.of_nat compromised_count))
                    (inject_Z (stats_get_total_nodes stats 1) * (3 # 10)))
    then "HIGH"
    else "MEDIUM"
  else if String.eqb attack_type "apt" then
    if (2 <? critical_compromised)%nat then "CRITICAL"
    else if (0 <? critical_compromised)%nat then "HIGH"
    else "MEDIUM"
  else if String.eqb attack_type "insider" then "CRITICAL"
  else "HIGH".

Record SimulationDetails := {
  sd_total_compromised : nat;
  sd_critical_compromised : nat;
  sd_propagation_rate : Q;
  sd_time_to_impact : string;
  sd_primary_method : string;
  sd_attack_scope : nat
}.

Record AttackResponse := {
  ar_simulation_id : string;
  ar_attack_type : string;
  ar_entry_point : string;
  ar_target : option string;
  ar_paths_found : list PathFinding;
  ar_blast_radius : list string;
  ar_risk_assessment : string;
  ar_recommendations : list string;
  ar_simulation_details : option SimulationDetails
}.

Section AttackSimulation.
Variable nx_density : DiGraph -> Q.
Variable nx_is_weakly_connected : DiGraph -> bool.
Variable lower : string -> string.                    (* [str.lower] *)
Variable set_order : list string -> list string.      (* iteration order of a set *)
Variable rng : nat -> Q.                              (* [random.random()] *)
Variable simulation_id : string.                      (* [str(uuid.uuid4())] *)

(** The lateral movement part: the engine afterwards, and either the two
    counts or the raised [KeyError]. *)
Definition movement_counts (h : Heap) (e : Engine) (attack_type : string)
    (config : AttackConfig) (entry_point : string) (blast_radius : list string)
    : Engine * (nat * nat + string) :=
  if negb (non_propagating attack_type) then
    let '(e', sim_result) :=
      simulate_lateral_movement set_order rng h e entry_point
        (if String.eqb attack_type "ransomware" then 10 else 5)
        (ac_propagation_probability config) in
    match sim_result with
    | Ok r =>
        (e', inl (sr_total_compromised r,
                  List.length (sr_critical_assets_compromised r)))
    | ErrorResult _ => (e', inl (O, O))
    | KeyError k => (e', inr k)
    end
  else
    (e, inl (List.length blast_radius,
             List.length
               (filter (fun a =>
                          match dict_get a (asset_metadata e) with
                          | Some m => String.eqb (am_criticality m) "critical"
                          | None => false
                          end)
                  blast_radius))).

(** [None]: a path search ran out of fuel. *)
Definition run_attack_simulation (fuel : nat) (h : Heap) (e : Engine)
    (attack_type entry_point : string) (target : option string)
    : option ((Heap * Engine) * HttpResponse AttackResponse) :=
  let '(h, e) := ensure_network h e in
  let attack_type := lower attack_type in
  let stats := get_network_stats nx_density nx_is_weakly_connected h e in
  match resolve_entry_point e entry_point with
  | None =>
      Some ((h, e),
            Http200 {| ar_simulation_id := simulation_id;
                       ar_attack_type := attack_type;
                       ar_entry_point := entry_point;
                       ar_target := target;
                       ar_paths_found := [];
                       ar_blast_radius := [];
                       ar_risk_assessment := "UNKNOWN";
                       ar_recommendations :=
                         ["No assets in network topology. Add assets first."];
                       ar_simulation_details := None |})
  | Some entry_point =>
      let config := config_of attack_type in
      let critical_assets := attack_targets e attack_type in
      match calculate_blast_radius e entry_point (ac_max_hops config) with
      | KeyError k => Some ((h, e), Http500 (RaisedKeyError k))
      | blast_result =>
          let blast_radius :=
            match blast_result with
            | Ok r => br_critical_assets_at_risk r ++ br_high_assets_at_risk r
            | _ => []
            end in
          let blast_radius :=
            reach_loop (Z.to_nat (ac_max_hops config)) (non_propagating attack_type)
              (graph e) [entry_point] [entry_point] blast_radius in
          match search_targets fuel e attack_type config entry_point
                  (targets_to_check target critical_assets) [] with
          | OutOfFuel => None
          | SearchRaised exn => Some ((h, e), Http500 exn)
          | Found paths_found =>
              match movement_counts h e attack_type config entry_point blast_radius with
              | (e', inr k) => Some ((h, e'), Http500 (RaisedKeyError k))
              | (e', inl (compromised_count, critical_compromised)) =>
                  Some ((h, e'),
                        Http200
                          {| ar_simulation_id := simulation_id;
                             ar_attack_type := attack_type;
                             ar_entry_point := entry_point;
                             ar_target := target;
                             ar_paths_found := paths_found;
                             ar_blast_radius :=
                               set_order (nodup string_dec blast_radius);
                             ar_risk_assessment :=
                               risk_assessment attack_type stats compromised_count
                                 critical_compromised;
                             ar_recommendations := get_attack_recommendations attack_type;
                             ar_simulation_details :=
                               Some {| sd_total_compromised := compromised_count;
                                       sd_critical_compromised := critical_compromised;
                                       sd_propagation_rate :=
                                         ac_propagation_probability config;
                                       sd_time_to_impact := ac_time_to_impact config;
                                       sd_primary_method := ac_primary_method config;
                                       sd_attack_scope := List.length blast_radius |} |})
              end
          end
      end
  end.

End AttackSimulation.
(** * Properties *)

(** ** Dictionaries *)

Section DictFacts.
Context {V : Type}.
Implicit Types (d : dict V) (k : string).

Lemma dict_get_set_same k v d : dict_get k (dict_set k v d) = Some v.
Proof.
  induction d as [|[k' v'] r IH]; simpl.
  - now rewrite String.eqb_refl.
  - destruct (String.eqb k k') eqn:E; simpl.
    + now rewrite String.eqb_refl.
    + now rewrite E.
Qed.

Lemma dict_get_set_other k k' v d :
  k' <> k -> dict_get k' (dict_set k v d) = dict_get k' d.
Proof.
  intros Hne. induction d as [|[k0 v0] r IH]; simpl.
  - apply String.eqb_neq in Hne. now rewrite Hne.
  - destruct (String.eqb k k0) eqn:E; simpl.
    + apply String.eqb_eq in E; subst k0.
      apply String.eqb_neq in Hne. now rewrite Hne.
    + destruct (String.eqb k' k0); auto.
Qed.

Lemma dict_keys_set_present k v d :
  dict_mem k d = true -> dict_keys (dict_set k v d) = dict_keys d.
Proof.
  unfold dict_mem, dict_keys.
  induction d as [|[k0 v0] r IH]; simpl; intros H.
  - discriminate.
  - destruct (String.eqb k k0) eqn:E; simpl.
    + apply String.eqb_eq in E. now subst.
    + f_equal. now apply IH.
Qed.

Lemma dict_mem_In k d : dict_mem k d = true <-> In k (dict_keys d).
Proof.
  unfold dict_mem, dict_keys.
  induction d as [|[k0 v0] r IH]; simpl.
  - split; [discriminate | tauto].
  - destruct (String.eqb k k0) eqn:E.
    + apply String.eqb_eq in E. subst. split; auto.
    + apply String.eqb_neq in E. rewrite IH. split; auto.
      intros [H|H]; [congruence | exact H].
Qed.

End DictFacts.

Lemma mem_In x l : mem x l = true <-> In x l.
Proof.
  unfold mem. rewrite existsb_exists. split.
  - intros [y [Hy E]]. apply String.eqb_eq in E. now subst.
  - intros H. exists x. split; [exact H | apply String.eqb_refl].
Qed.

Lemma mem_false x l : mem x l = false <-> ~ In x l.
Proof.
  rewrite <- mem_In. destruct (mem x l); split; congruence.
Qed.


(** ** Ingestion *)

Lemma add_node_present n g : in_graph n g = true -> add_node n g = g.
Proof. unfold add_node. now intros ->. Qed.

(** C10. Re-adding an asset id that is already a node of the graph is a
    total operation that leaves the graph (hence every edge, in both
    directions) and the vulnerability dictionary as they were, and replaces
    the metadata record of that id by a freshly built one: the compromise
    flag is False, the compromise time None, and type, name, criticality,
    zone and metadata map are the new arguments; no other record changes. *)
Theorem add_asset_existing_replaces_metadata
    (h : Heap) (e : Engine) (asset_id asset_type name criticality zone : string)
    (metadata : option (dict string)) :
  in_graph asset_id (graph e) = true ->
  let e' := add_asset e asset_id asset_type name criticality zone metadata in
  graph e' = graph e
  /\ edges (graph e') = edges (graph e)
  /\ vulnerability_data e' = vulnerability_data e
  /\ vulns_of h e' = vulns_of h e
  /\ dict_get asset_id (asset_metadata e')
     = Some {| am_id := asset_id;
               am_type := asset_type;
               am_name := name;
               am_criticality := criticality;
               am_zone := zone;
               am_compromised := false;
               am_compromise_time := None;
               am_metadata := match metadata with Some m => m | None => [] end |}
  /\ (forall k, k <> asset_id ->
                dict_get k (asset_metadata e') = dict_get k (asset_metadata e)).
Proof.
  intros Hin e'. subst e'. unfold add_asset, vulns_of. simpl.
  rewrite (add_node_present _ _ Hin).
  repeat split; auto.
  - apply dict_get_set_same.
  - intros k Hk. now apply dict_get_set_other.
Qed.

Lemma add_asset_existing_replaces_metadata_witness :
  in_graph "A" (graph scenario_AB) = true
  /\ let e' := add_asset scenario_AB "A" "database" "A2" "low" "restricted"
                 (Some [("owner", "ops")]) in
     graph e' = graph scenario_AB
     /\ edges (graph e') = edges (graph scenario_AB)
     /\ vulnerability_data e' = vulnerability_data scenario_AB
     /\ vulns_of [[]] e' = vulns_of [[]] scenario_AB
     /\ dict_get "A" (asset_metadata e')
        = Some {| am_id := "A";
                  am_type := "database";
                  am_name := "A2";
                  am_criticality := "low";
                  am_zone := "restricted";
                  am_compromised := false;
                  am_compromise_time := None;
                  am_metadata := [("owner", "ops")] |}
     /\ (forall k, k <> "A" ->
                   dict_get k (asset_metadata e') = dict_get k (asset_metadata scenario_AB)).
Proof.
  split; [reflexivity|].
  exact (add_asset_existing_replaces_metadata [[]] scenario_AB "A" "database" "A2" "low"
           "restricted" (Some [("owner", "ops")]) eq_refl).
Defined.

(** ** Path finder *)

Lemma path_mem_In p s : path_mem p s = true <-> In p s.
Proof.
  unfold path_mem, path_eqb. rewrite existsb_exists. split.
  - intros [q [Hq E]]. destruct (list_eq_dec string_dec p q); [now subst | discriminate].
  - intros H. exists p. split; [exact H|].
    destruct (list_eq_dec string_dec p p); congruence.
Qed.

Lemma path_mem_false p s : path_mem p s = false <-> ~ In p s.
Proof.
  rewrite <- path_mem_In. destruct (path_mem p s); split; congruence.
Qed.

Lemma sprefix_length a b : sprefix a b -> (List.length a < List.length b)%nat.
Proof.
  intros [x [t ->]]. rewrite length_app. simpl. lia.
Qed.

Lemma sprefix_snoc p x : sprefix p (p ++ [x]).
Proof. now exists x, []. Qed.

Lemma sprefix_of_snoc a p x : sprefix a (p ++ [x]) -> a = p \/ sprefix a p.
Proof.
  intros [y [t E]].
  destruct (exists_last (l := y :: t)) as [t' [z Ht]]; [discriminate|].
  rewrite Ht, app_assoc in E. apply app_inj_tail in E as [E _].
  destruct t' as [|y' t'].
  - left. now rewrite app_nil_r in E.
  - right. exists y', t'. exact E.
Qed.

Lemma sprefix_snoc_l p x b : sprefix (p ++ [x]) b -> sprefix p b.
Proof.
  intros [y [t ->]]. exists x, (y :: t). now rewrite <- app_assoc.
Qed.

Section PathFinderFacts.
Variable g : DiGraph.
Variable target_id : string.
Variable max_depth : Z.

Local Abbreviation budget := (budget max_depth).
Local Abbreviation too_deep := (too_deep max_depth).
Local Abbreviation simple_paths := (simple_paths g target_id).
Local Abbreviation search_cost := (search_cost g target_id).
Local Abbreviation item_paths := (item_paths g target_id max_depth).
Local Abbreviation item_cost := (item_cost g target_id max_depth).
Local Abbreviation queue_cost := (queue_cost g target_id max_depth).

Lemma too_deep_budget path : too_deep path = true <-> budget path = O.
Proof.
  unfold too_deep, budget. rewrite Z.gtb_lt. lia.
Qed.

Lemma budget_snoc path nb k :
  budget path = S k -> budget (path ++ [nb]) = k.
Proof.
  unfold budget. rewrite length_app. simpl. lia.
Qed.

(** *** The depth-first finder computes [simple_paths] and restores its
    shared [path] and [visited]. *)

Lemma dfs_recursive_spec fuel :
  forall current st,
    (budget (ds_path st) < fuel)%nat ->
    (forall x, In x (ds_visited st) <-> In x (ds_path st)) ->
    dfs_recursive g target_id max_depth fuel current st =
    Some {| ds_path := ds_path st;
            ds_visited := ds_visited st;
            ds_paths := ds_paths st
                        ++ simple_paths (budget (ds_path st)) current (ds_path st) |}.
Proof.
  induction fuel as [|fuel IH]; intros current [path visited paths] Hfuel Hvis;
    simpl in *; [lia|].
  destruct (too_deep path) eqn:Hdeep.
  - apply too_deep_budget in Hdeep. rewrite Hdeep. simpl. now rewrite app_nil_r.
  - destruct (budget path) as [|k] eqn:Hk.
    { apply too_deep_budget in Hk. congruence. }
    simpl. destruct (String.eqb current target_id); [reflexivity|].
    generalize (neighbors g current). intros nbrs. revert paths.
    induction nbrs as [|nb nbrs IHn]; intros paths; simpl.
    + now rewrite app_nil_r.
    + assert (Hmem : mem nb visited = mem nb path).
      { destruct (mem nb path) eqn:E.
        - apply mem_In. apply Hvis. now apply mem_In.
        - apply mem_false. rewrite Hvis. now apply mem_false. }
      rewrite Hmem. destruct (mem nb path) eqn:Hnb.
      * simpl. apply IHn.
      * rewrite IH; simpl.
        -- rewrite removelast_last.
           destruct (string_dec nb nb) as [_|C]; [|congruence].
           rewrite notin_remove.
           2:{ rewrite Hvis. now apply mem_false. }
           rewrite (budget_snoc _ _ _ Hk), IHn, <- app_assoc. reflexivity.
        -- rewrite (budget_snoc _ _ _ Hk). lia.
        -- intros x. rewrite in_app_iff. simpl. rewrite Hvis. tauto.
Qed.

(** *** The breadth-first finder *)

Lemma bfs_visit_children path rest vp :
  (forall nb, ~ In (path ++ [nb]) vp) ->
  forall nbrs cs,
    fold_left (bfs_visit path) nbrs (rest ++ cs, rev (map snd cs) ++ vp) =
    (rest ++ fold_left (child_step path) nbrs cs,
     rev (map snd (fold_left (child_step path) nbrs cs)) ++ vp).
Proof.
  intros Hfresh. induction nbrs as [|nb nbrs IH]; intros cs; simpl; [reflexivity|].
  unfold child_step at 2 4. destruct (mem nb path); [apply IH|].
  assert (E : path_mem (path ++ [nb]) (rev (map snd cs) ++ vp)
              = path_mem (path ++ [nb]) (map snd cs)).
  { destruct (path_mem (path ++ [nb]) (map snd cs)) eqn:E.
    - apply path_mem_In. apply in_app_iff. left. apply in_rev.
      rewrite rev_involutive. now apply path_mem_In.
    - apply path_mem_false. rewrite in_app_iff. intros [H|H].
      + apply path_mem_false in E. apply E. now apply in_rev.
      + now apply Hfresh in H. }
  rewrite E. destruct (path_mem (path ++ [nb]) (map snd cs)); [apply IH|].
  rewrite <- (IH (cs ++ [(nb, path ++ [nb])])). f_equal.
  rewrite app_assoc. f_equal. rewrite map_app, rev_app_distr. reflexivity.
Qed.

Lemma child_step_incl path nbrs : forall cs c,
  In c cs -> In c (fold_left (child_step path) nbrs cs).
Proof.
  induction nbrs as [|nb nbrs IH]; intros cs c Hc; simpl; [exact Hc|].
  apply IH. unfold child_step.
  destruct (mem nb path); [exact Hc|].
  destruct (path_mem _ _); [exact Hc|]. apply in_app_iff. now left.
Qed.

Lemma child_step_sound path nbrs : forall cs c,
  In c (fold_left (child_step path) nbrs cs) ->
  In c cs \/ exists nb, In nb nbrs /\ mem nb path = false /\ c = (nb, path ++ [nb]).
Proof.
  induction nbrs as [|nb nbrs IH]; intros cs c Hc; simpl in *; [now left|].
  apply IH in Hc as [Hc | [nb' [H1 [H2 H3]]]].
  - unfold child_step in Hc. destruct (mem nb path) eqn:Em; [now left|].
    destruct (path_mem _ _); [now left|].
    apply in_app_iff in Hc as [Hc | [Hc | []]]; [now left|].
    right. exists nb. subst c. auto.
  - right. exists nb'. auto.
Qed.

Lemma child_step_complete path nbrs : forall cs nb,
  In nb nbrs -> mem nb path = false ->
  (forall c, In c cs -> exists nb', c = (nb', path ++ [nb'])) ->
  In (nb, path ++ [nb]) (fold_left (child_step path) nbrs cs).
Proof.
  induction nbrs as [|nb0 nbrs IH]; intros cs nb Hin Hnb Hcs; simpl in *; [tauto|].
  destruct Hin as [-> | Hin].
  - apply child_step_incl. unfold child_step. rewrite Hnb.
    destruct (path_mem _ _) eqn:E.
    + apply path_mem_In in E. apply in_map_iff in E as [[nb' p'] [E1 E2]].
      simpl in E1. subst p'. destruct (Hcs _ E2) as [nb'' E3].
      inversion E3; subst. apply app_inj_tail in H1 as [_ ->]. exact E2.
    + apply in_app_iff. right. now left.
  - apply IH; auto. intros c Hc. unfold child_step in Hc.
    destruct (mem nb0 path); [now apply Hcs|].
    destruct (path_mem _ _); [now apply Hcs|].
    apply in_app_iff in Hc as [Hc | [Hc | []]]; [now apply Hcs|].
    now exists nb0.
Qed.

Lemma child_step_NoDup path nbrs : forall cs,
  NoDup (map snd cs) -> NoDup (map snd (fold_left (child_step path) nbrs cs)).
Proof.
  induction nbrs as [|nb nbrs IH]; intros cs Hcs; simpl; [exact Hcs|].
  apply IH. unfold child_step. destruct (mem nb path); [exact Hcs|].
  destruct (path_mem _ _) eqn:E; [exact Hcs|].
  rewrite map_app. simpl. apply NoDup_app; [exact Hcs | repeat constructor; auto |].
  intros p Hp [<- | []]. apply path_mem_false in E. now apply E.
Qed.

Lemma child_step_cost path nbrs : forall cs,
  (queue_cost (fold_left (child_step path) nbrs cs)
   <= queue_cost cs
      + list_sum (map (fun nb => if mem nb path then O
                                 else item_cost (nb, path ++ [nb])) nbrs))%nat.
Proof.
  induction nbrs as [|nb nbrs IH]; intros cs; simpl; [lia|].
  etransitivity; [apply IH|]. unfold child_step.
  destruct (mem nb path); [lia|].
  destruct (path_mem _ _); [lia|].
  unfold queue_cost. rewrite map_app, list_sum_app. simpl. lia.
Qed.

Lemma bfs_inv_tail q rest vp : bfs_inv (q :: rest) vp -> bfs_inv rest vp.
Proof.
  intros [H1 [H2 H3]]. repeat split.
  - simpl in H1. now inversion H1.
  - intros q1 q2 Hq1 Hq2. apply H2; now right.
  - intros v q' Hv Hq. apply H3; auto. now right.
Qed.

Lemma bfs_inv_head_fresh cur path rest vp :
  bfs_inv ((cur, path) :: rest) vp -> forall nb, ~ In (path ++ [nb]) vp.
Proof.
  intros [_ [_ H3]] nb Hin.
  apply (H3 _ (cur, path) Hin); [now left | apply sprefix_snoc].
Qed.

Lemma bfs_inv_expand cur path rest vp nbrs :
  bfs_inv ((cur, path) :: rest) vp ->
  bfs_inv (rest ++ children path nbrs)
          (rev (map snd (children path nbrs)) ++ vp).
Proof.
  intros Hinv. pose proof Hinv as [H1 [H2 H3]].
  simpl in H1. inversion H1 as [|? ? Hhead Hrest]; subst.
  assert (Hch : forall c, In c (children path nbrs) ->
                          exists nb, c = (nb, path ++ [nb])).
  { intros c Hc. apply child_step_sound in Hc as [[] | [nb [_ [_ ->]]]]. now exists nb. }
  assert (Hold : forall q, In q rest -> forall nb, ~ sprefix (snd q) (path ++ [nb])).
  { intros q Hq nb Hs. apply sprefix_of_snoc in Hs as [E | Hs].
    - apply Hhead. rewrite <- E. now apply in_map.
    - apply (H2 q (cur, path)); [now right | now left | exact Hs]. }
  repeat split.
  - rewrite map_app. apply NoDup_app; [exact Hrest | |].
    + apply child_step_NoDup. constructor.
    + intros p Hp Hp'. apply in_map_iff in Hp as [q [<- Hq]].
      apply in_map_iff in Hp' as [c [Ec Hc]].
      destruct (Hch _ Hc) as [nb ->]. simpl in Ec.
      apply (H2 (cur, path) q); [now left | now right |].
      simpl. rewrite <- Ec. apply sprefix_snoc.
  - intros q1 q2 Hq1 Hq2 Hs.
    apply in_app_iff in Hq1 as [Hq1 | Hq1]; apply in_app_iff in Hq2 as [Hq2 | Hq2].
    + apply (H2 q1 q2); auto; now right.
    + destruct (Hch _ Hq2) as [nb ->]. now apply (Hold q1 Hq1 nb).
    + destruct (Hch _ Hq1) as [nb ->]. simpl in Hs. apply sprefix_snoc_l in Hs.
      apply (H2 (cur, path) q2); [now left | now right | exact Hs].
    + destruct (Hch _ Hq1) as [nb1 ->]. destruct (Hch _ Hq2) as [nb2 ->].
      apply sprefix_length in Hs. simpl in Hs. rewrite !length_app in Hs. simpl in Hs. lia.
  - intros v q Hv Hq Hs.
    apply in_app_iff in Hv as [Hv | Hv]; apply in_app_iff in Hq as [Hq | Hq].
    + rewrite <- in_rev in Hv.
      apply in_map_iff in Hv as [c [<- Hc]]. destruct (Hch _ Hc) as [nb ->].
      now apply (Hold q Hq nb).
    + rewrite <- in_rev in Hv.
      apply in_map_iff in Hv as [c [<- Hc]].
      destruct (Hch _ Hc) as [nb1 ->]. destruct (Hch _ Hq) as [nb2 ->].
      apply sprefix_length in Hs. simpl in Hs. rewrite !length_app in Hs. simpl in Hs. lia.
    + apply (H3 v q Hv); [now right | exact Hs].
    + destruct (Hch _ Hq) as [nb ->]. simpl in Hs. apply sprefix_snoc_l in Hs.
      apply (H3 v (cur, path) Hv); [now left | exact Hs].
Qed.

Lemma queue_cost_app q1 q2 : queue_cost (q1 ++ q2) = (queue_cost q1 + queue_cost q2)%nat.
Proof. unfold queue_cost. now rewrite map_app, list_sum_app. Qed.

Lemma bfs_loop_spec fuel :
  forall queue vp acc,
    bfs_inv queue vp ->
    (queue_cost queue <= fuel)%nat ->
    exists res,
      bfs_loop g target_id max_depth fuel queue vp acc = Some res
      /\ forall p, In p res <->
                   In p acc \/ exists q, In q queue /\ In p (item_paths q).
Proof.
  induction fuel as [|fuel IH]; intros queue vp acc Hinv Hcost.
  - destruct queue as [|[cur path] rest].
    + exists acc. split; [reflexivity|]. intros p. split; [auto|].
      intros [H | [q [[] _]]]; exact H.
    + exfalso. unfold queue_cost in Hcost. simpl in Hcost.
      unfold item_cost in Hcost. simpl in Hcost.
      destruct (budget path); simpl in Hcost;
        [|destruct (String.eqb cur target_id)]; lia.
  - destruct queue as [|[cur path] rest].
    + exists acc. split; [reflexivity|]. intros p. split; [auto|].
      intros [H | [q [[] _]]]; exact H.
    + simpl. unfold queue_cost in Hcost. simpl in Hcost.
      fold (queue_cost rest) in Hcost. unfold item_cost in Hcost. simpl in Hcost.
      destruct (too_deep path) eqn:Hdeep.
      * apply too_deep_budget in Hdeep.
        destruct (IH rest vp acc) as [res [Hres Hspec]].
        { eapply bfs_inv_tail; eauto. }
        { rewrite Hdeep in Hcost. simpl in Hcost. lia. }
        exists res. split; [exact Hres|]. intros p. rewrite Hspec.
        split; intros [H | [q [Hq Hp]]]; auto.
        -- right. exists q. split; [now right | exact Hp].
        -- destruct Hq as [<- | Hq].
           ++ unfold item_paths in Hp. simpl in Hp. rewrite Hdeep in Hp. destruct Hp.
           ++ right. now exists q.
      * destruct (budget path) as [|k] eqn:Hk.
        { apply too_deep_budget in Hk. congruence. }
        simpl in Hcost. destruct (String.eqb cur target_id) eqn:Htgt.
        -- destruct (IH rest vp (acc ++ [path])) as [res [Hres Hspec]].
           { eapply bfs_inv_tail; eauto. }
           { lia. }
           exists res. split; [exact Hres|]. intros p. rewrite Hspec, in_app_iff.
           split.
           ++ intros [[H | [E | []]] | [q [Hq Hp]]]; auto.
              ** subst p. right. exists (cur, path). split; [now left|].
                 unfold item_paths. simpl. rewrite Hk. simpl. rewrite Htgt. now left.
              ** right. exists q. split; [now right | exact Hp].
           ++ intros [H | [q [[<- | Hq] Hp]]]; auto.
              ** unfold item_paths in Hp. simpl in Hp. rewrite Hk in Hp. simpl in Hp.
                 rewrite Htgt in Hp. destruct Hp as [E | []]. subst p. left. right. now left.
              ** right. now exists q.
        -- pose proof (bfs_visit_children path rest vp
                         (bfs_inv_head_fresh _ _ _ _ Hinv) (neighbors g cur) []) as Hfold.
           simpl in Hfold. rewrite app_nil_r in Hfold. rewrite Hfold.
           fold (children path (neighbors g cur)).
           pose proof (child_step_cost path (neighbors g cur) []) as Hc.
           fold (children path (neighbors g cur)) in Hc.
           assert (Hcosts :
             map (fun nb => if mem nb path then O else item_cost (nb, path ++ [nb]))
                 (neighbors g cur)
             = map (fun nb => if mem nb path then O
                              else search_cost k nb (path ++ [nb])) (neighbors g cur)).
           { apply map_ext. intros nb. destruct (mem nb path); [reflexivity|].
             unfold item_cost. simpl. now rewrite (budget_snoc _ _ _ Hk). }
           rewrite Hcosts in Hc. unfold queue_cost at 2 in Hc. simpl in Hc.
           destruct (IH (rest ++ children path (neighbors g cur))
                        (rev (map snd (children path (neighbors g cur))) ++ vp) acc)
             as [res [Hres Hspec]].
           { eapply bfs_inv_expand; eauto. }
           { rewrite queue_cost_app. lia. }
           exists res. split; [exact Hres|]. intros p. rewrite Hspec.
           assert (Hexp : In p (item_paths (cur, path)) <->
                          exists c, In c (children path (neighbors g cur))
                                    /\ In p (item_paths c)).
           { unfold item_paths at 1. simpl. rewrite Hk. simpl. rewrite Htgt.
             rewrite in_flat_map. split.
             - intros [nb [Hnb Hp]]. destruct (mem nb path) eqn:Em; [destruct Hp|].
               exists (nb, path ++ [nb]). split.
               + apply child_step_complete; auto. intros c [].
               + unfold item_paths. simpl. now rewrite (budget_snoc _ _ _ Hk).
             - intros [c [Hc' Hp]].
               apply child_step_sound in Hc' as [[] | [nb [Hnb [Em ->]]]].
               exists nb. split; [exact Hnb|]. rewrite Em.
               unfold item_paths in Hp. simpl in Hp.
               now rewrite (budget_snoc _ _ _ Hk) in Hp. }
           split.
           ++ intros [H | [q [Hq Hp]]]; auto. right.
              apply in_app_iff in Hq as [Hq | Hq].
              ** exists q. split; [now right | exact Hp].
              ** exists (cur, path). split; [now left|]. apply Hexp. now exists q.
           ++ intros [H | [q [[<- | Hq] Hp]]]; auto.
              ** apply Hexp in Hp as [c [Hc' Hp]]. right. exists c.
                 split; [apply in_app_iff; now right | exact Hp].
              ** right. exists q. split; [apply in_app_iff; now left | exact Hp].
Qed.

End PathFinderFacts.

(** *** What the two finders return *)

Lemma find_attack_paths_dfs_spec fuel g start_id target_id max_depth :
  (dfs_fuel max_depth <= fuel)%nat ->
  find_attack_paths_dfs fuel g start_id target_id max_depth
  = Some (attack_paths g start_id target_id max_depth).
Proof.
  intros Hfuel. unfold find_attack_paths_dfs, attack_paths.
  destruct (negb (in_graph start_id g) || negb (in_graph target_id g)); [reflexivity|].
  rewrite dfs_recursive_spec; simpl.
  - reflexivity.
  - unfold dfs_fuel, budget in *. simpl. lia.
  - tauto.
Qed.

Lemma find_attack_paths_bfs_spec fuel g start_id target_id max_depth :
  (bfs_fuel g start_id target_id max_depth <= fuel)%nat ->
  exists pb,
    find_attack_paths_bfs fuel g start_id target_id max_depth = Some pb
    /\ forall p, In p pb <-> In p (attack_paths g start_id target_id max_depth).
Proof.
  intros Hfuel. unfold find_attack_paths_bfs, attack_paths.
  destruct (negb (in_graph start_id g) || negb (in_graph target_id g)).
  - exists []. split; [reflexivity | tauto].
  - destruct (bfs_loop_spec g target_id max_depth fuel [(start_id, [start_id])] [] [])
      as [pb [Hb Hspec]].
    + repeat split.
      * simpl. repeat constructor. intros [].
      * intros q1 q2 [<- | []] [<- | []] Hs. apply sprefix_length in Hs. simpl in Hs. lia.
      * intros v q [].
    + unfold queue_cost. simpl. unfold item_cost. simpl.
      unfold bfs_fuel in Hfuel. lia.
    + exists pb. split; [exact Hb|]. intros p. rewrite Hspec. split.
      * intros [[] | [q [[<- | []] Hp]]]. exact Hp.
      * intros Hp. right. exists (start_id, [start_id]). split; [now left | exact Hp].
Qed.

Lemma simple_paths_extend g target_id k : forall current path p,
  In p (simple_paths g target_id k current path) -> exists ext, p = path ++ ext.
Proof.
  induction k as [|k IH]; intros current path p Hp; simpl in Hp; [destruct Hp|].
  destruct (String.eqb current target_id).
  - destruct Hp as [<- | []]. exists []. now rewrite app_nil_r.
  - apply in_flat_map in Hp as [nb [_ Hp]].
    destruct (mem nb path); [destruct Hp|].
    apply IH in Hp as [ext ->]. exists (nb :: ext). now rewrite <- app_assoc.
Qed.

Lemma attack_paths_nonempty g start_id target_id max_depth p :
  In p (attack_paths g start_id target_id max_depth) -> p <> [].
Proof.
  unfold attack_paths.
  destruct (negb (in_graph start_id g) || negb (in_graph target_id g)); [intros []|].
  intros Hp. apply simple_paths_extend in Hp as [ext ->]. discriminate.
Qed.

(** C4. For every graph, every pair of node ids and every depth bound,
    both finders terminate (given the fuel [bfs_fuel] and [dfs_fuel], or
    more) and return the same set of paths: a node sequence is in the
    breadth-first result exactly when it is in the depth-first result. *)
Theorem bfs_dfs_same_path_set
    (g : DiGraph) (start_id target_id : string) (max_depth : Z) (fb fd : nat) :
  (bfs_fuel g start_id target_id max_depth <= fb)%nat ->
  (dfs_fuel max_depth <= fd)%nat ->
  exists pb pd,
    find_attack_paths_bfs fb g start_id target_id max_depth = Some pb
    /\ find_attack_paths_dfs fd g start_id target_id max_depth = Some pd
    /\ forall p, In p pb <-> In p pd.
Proof.
  intros Hfb Hfd.
  destruct (find_attack_paths_bfs_spec fb g start_id target_id max_depth Hfb)
    as [pb [Hb Hpb]].
  exists pb. eexists. split; [exact Hb|].
  split; [apply (find_attack_paths_dfs_spec fd g start_id target_id max_depth Hfd)|].
  exact Hpb.
Qed.

Lemma bfs_dfs_same_path_set_witness :
  (bfs_fuel diamond "S" "T" 5 <= 7)%nat /\ (dfs_fuel 5 <= 6)%nat
  /\ exists pb pd,
       find_attack_paths_bfs 7 diamond "S" "T" 5 = Some pb
       /\ find_attack_paths_dfs 6 diamond "S" "T" 5 = Some pd
       /\ forall p, In p pb <-> In p pd.
Proof.
  assert (H1 : (bfs_fuel diamond "S" "T" 5 <= 7)%nat) by (vm_compute; lia).
  assert (H2 : (dfs_fuel 5 <= 6)%nat) by (vm_compute; lia).
  split; [exact H1|]. split; [exact H2|].
  exact (bfs_dfs_same_path_set diamond "S" "T" 5 7 6 H1 H2).
Defined.

(** The scenario of the specification: the only path from A to B. *)
Example scenario_AB_paths :
  find_attack_paths_bfs 5 (graph scenario_AB) "A" "B" 5 = Some [["A"; "B"]]
  /\ find_attack_paths_dfs 6 (graph scenario_AB) "A" "B" 5 = Some [["A"; "B"]].
Proof. split; reflexivity. Qed.

(** ** Blast radius *)

Lemma criticality_weight_pos c : (0 < criticality_weight c)%Z.
Proof.
  unfold criticality_weight, criticality_weights. simpl.
  repeat match goal with |- context [String.eqb ?a ?b] => destruct (String.eqb a b) end;
    lia.
Qed.

Section BlastRadiusFacts.
Variable e : Engine.

Local Abbreviation meta := (asset_metadata e).

Lemma hop_set_keeps_head {V : Type} (hop : Z) (v v0 : V) (rest : list (Z * V)) :
  (1 <= hop)%Z ->
  exists rest', hop_set hop v ((0%Z, v0) :: rest) = (0%Z, v0) :: rest'.
Proof.
  intros H. simpl. destruct (Z.eqb_spec hop 0); [lia|]. eauto.
Qed.

Lemma hop_loop_keeps_head n : forall hop rest visited level l0,
  (1 <= hop)%Z ->
  exists rest', hop_loop e n hop ((0%Z, l0) :: rest) visited level = (0%Z, l0) :: rest'.
Proof.
  induction n as [|n IH]; intros hop rest visited level l0 Hhop; cbn [hop_loop].
  - eauto.
  - destruct (expand_level e level visited) as [next visited'].
    destruct (hop_set_keeps_head hop next l0 rest Hhop) as [rest1 E].
    rewrite E. apply IH. lia.
Qed.

Lemma hop_set_fresh {V : Type} (hop : Z) (v : V) (d : list (Z * V)) :
  (forall k, In k (map fst d) -> (k < hop)%Z) ->
  hop_set hop v d = d ++ [(hop, v)].
Proof.
  induction d as [|[k w] d IH]; intros Hlt; simpl; [reflexivity|].
  destruct (Z.eqb_spec hop k) as [-> | Hne].
  - specialize (Hlt k (or_introl eq_refl)). lia.
  - f_equal. apply IH. intros k' Hk'. apply Hlt. now right.
Qed.

Lemma hop_loop_keys n : forall hop d visited level,
  (forall k, In k (map fst d) -> (k < hop)%Z) ->
  map fst (hop_loop e n hop d visited level)
  = map fst d ++ map (fun i => (hop + Z.of_nat i)%Z) (seq 0 n).
Proof.
  induction n as [|n IH]; intros hop d visited level Hlt; cbn [hop_loop].
  - simpl. now rewrite app_nil_r.
  - destruct (expand_level e level visited) as [next visited'].
    rewrite (hop_set_fresh _ _ _ Hlt). rewrite IH.
    + rewrite map_app. simpl. rewrite <- app_assoc. simpl. f_equal.
      rewrite Z.add_0_r. f_equal. rewrite <- seq_shift, map_map.
      apply map_ext. intros i. lia.
    + intros k Hk. rewrite map_app in Hk. apply in_app_iff in Hk as [Hk | [<- | []]].
      * specialize (Hlt k Hk). lia.
      * simpl. lia.
Qed.

Lemma layers_keys asset_id max_hops :
  map fst (layers e asset_id max_hops) = 0%Z :: hop_range max_hops.
Proof.
  unfold layers. rewrite hop_loop_keys.
  - cbn [map fst app]. f_equal. unfold hop_range. apply map_ext. intros i. lia.
  - intros k Hk. simpl in Hk. destruct Hk as [Hk | []]. lia.
Qed.

Lemma hop_range_NoDup max_hops : NoDup (hop_range max_hops).
Proof.
  unfold hop_range. apply Finite.Injective_map_NoDup; [|apply seq_NoDup].
  intros i j H. lia.
Qed.

Lemma hop_lookup_all {V : Type} (d : list (Z * list V)) :
  NoDup (map fst d) ->
  flat_map (fun k => match hop_get k d with Some l => l | None => [] end) (map fst d)
  = List.concat (map snd d).
Proof.
  induction d as [|[k v] d IH]; intros Hnd; simpl; [reflexivity|].
  inversion Hnd as [|? ? Hk Hd]; subst.
  rewrite Z.eqb_refl. f_equal. rewrite <- (IH Hd).
  clear IH Hd Hnd. revert Hk. generalize (map fst d) as ks.
  induction ks as [|k' ks IHk]; intros Hk; simpl; [reflexivity|].
  destruct (Z.eqb_spec k' k) as [-> | Hne]; [exfalso; apply Hk; now left|].
  f_equal. apply IHk. intros H. apply Hk. now right.
Qed.

Lemma all_affected_layers asset_id max_hops rest :
  layers e asset_id max_hops = (0%Z, [asset_id]) :: rest ->
  map fst rest = hop_range max_hops
  /\ all_affected e asset_id max_hops = List.concat (map snd rest).
Proof.
  intros Hl. pose proof (layers_keys asset_id max_hops) as Hk.
  rewrite Hl in Hk. simpl in Hk. inversion Hk as [Hrest]. split; [reflexivity|].
  unfold all_affected. rewrite Hl, <- Hrest.
  pose proof (hop_range_NoDup max_hops) as Hnd. rewrite <- Hrest in Hnd.
  rewrite <- (hop_lookup_all rest Hnd).
  assert (Hpos : forall k, In k (map fst rest) -> (k =? 0)%Z = false).
  { rewrite Hrest. unfold hop_range. intros k Hin.
    apply in_map_iff in Hin as [i [<- _]]. apply Z.eqb_neq. lia. }
  revert Hpos. generalize (map fst rest) as ks.
  induction ks as [|k ks IHk]; intros Hpos; simpl; [reflexivity|].
  rewrite (Hpos k (or_introl eq_refl)). f_equal. apply IHk.
  intros k' Hk'. apply Hpos. now right.
Qed.

Lemma weights_fold (assets : list string) : forall acc,
  fold_left (fun acc aid => (acc + weight_of meta aid)%Z) assets acc
  = (acc + list_sum_Z (map (weight_of meta) assets))%Z.
Proof.
  induction assets as [|a l IH]; intros acc; simpl.
  - lia.
  - rewrite IH. lia.
Qed.

Lemma risk_fold_total (items : list (Z * list string)) : forall total rbh,
  fst (fold_left (risk_step e) items (total, rbh))
  = fold_left fadd (map (hop_risk e) items) total.
Proof.
  induction items as [|[hop assets] items IH]; intros total rbh; [reflexivity|].
  cbn [fold_left map]. unfold risk_step at 2. rewrite IH, weights_fold.
  reflexivity.
Qed.

(** Hop 0 holds the source alone, at decay 1: its risk is the source's
    weight, exactly, and so is the running total after it. *)
Lemma hop_risk_source (asset_id : string) :
  (fadd 0 (hop_risk e (0%Z, [asset_id])) == inject_Z (weight_of meta asset_id))%Q
  /\ (float_round2 (fadd 0 (hop_risk e (0%Z, [asset_id])))
      == inject_Z (weight_of meta asset_id))%Q.
Proof.
  unfold hop_risk, weight_of, criticality_weight, criticality_weights.
  cbn [snd fst map list_sum_Z fold_right dict_get].
  repeat match goal with
         | |- context [String.eqb ?a ?b] => destruct (String.eqb a b)
         end; split; vm_compute; reflexivity.
Qed.

Lemma hop_risk_alone (asset_id : string) :
  (hop_risk e (0%Z, [asset_id]) == inject_Z (weight_of meta asset_id))%Q.
Proof.
  unfold hop_risk, weight_of, criticality_weight, criticality_weights.
  cbn [snd fst map list_sum_Z fold_right dict_get].
  repeat match goal with
         | |- context [String.eqb ?a ?b] => destruct (String.eqb a b)
         end; vm_compute; reflexivity.
Qed.

Lemma categorize_ok (affected : list string) : forall d,
  dict_keys d = tiers ->
  (forall a, In a affected -> In (criticality_of meta a) tiers) ->
  exists d', fold_left (categorize_step e) affected (Ok d) = Ok d'
             /\ dict_keys d' = tiers.
Proof.
  induction affected as [|a l IH]; intros d Hd Hall; simpl.
  - eauto.
  - assert (Hin : In (criticality_of meta a) (dict_keys d)).
    { rewrite Hd. apply Hall. now left. }
    apply dict_mem_In in Hin. pose proof Hin as Hin'. unfold dict_mem in Hin.
    destruct (dict_get (criticality_of meta a) d) as [lst|] eqn:E; [|discriminate].
    apply IH.
    + rewrite dict_keys_set_present; auto.
    + intros b Hb. apply Hall. now right.
Qed.

Lemma categorize_total (affected : list string) :
  (forall a, In a affected -> In (criticality_of meta a) tiers) ->
  exists d', categorize e affected = Ok d'.
Proof.
  intros Hall. unfold categorize.
  destruct (categorize_ok affected
              [("critical", []); ("high", []); ("medium", []); ("low", [])]
              eq_refl Hall) as [d' [Hd' _]].
  exists d'. exact Hd'.
Qed.

End BlastRadiusFacts.

Lemma blast_radius_general (e : Engine) (asset_id : string) (max_hops : Z) :
  in_graph asset_id (graph e) = true ->
  (forall a, In a (all_affected e asset_id max_hops) ->
             In (criticality_of (asset_metadata e) a) tiers) ->
  exists r rest,
    calculate_blast_radius e asset_id max_hops = Ok r
    /\ layers e asset_id max_hops = (0%Z, [asset_id]) :: rest
    /\ br_risk_score r
       = float_round2 (float_sum (map (hop_risk e) ((0%Z, [asset_id]) :: rest)))
    /\ map fst rest = hop_range max_hops
    /\ br_total_affected_assets r = List.length (List.concat (map snd rest)).
Proof.
  intros Hin Hstd. unfold calculate_blast_radius. rewrite Hin. simpl negb. cbv iota zeta.
  destruct (hop_loop_keeps_head e (Z.to_nat max_hops) 1 [] [asset_id] [asset_id] [asset_id])
    as [rest Hl]; [lia|].
  fold (layers e asset_id max_hops) in Hl.
  pose proof (risk_fold_total e (layers e asset_id max_hops) 0%Q []) as Htot.
  destruct (fold_left (risk_step e) (layers e asset_id max_hops) (0%Q, []))
    as [total rbh] eqn:Efold.
  destruct (categorize_total e (all_affected e asset_id max_hops) Hstd) as [d' Hd'].
  rewrite Hd'.
  destruct (all_affected_layers e asset_id max_hops rest Hl) as [Hkeys Haff].
  eexists. exists rest. split; [reflexivity|]. split; [exact Hl|].
  split; [|split; [exact Hkeys | simpl; now rewrite Haff]]. simpl.
  simpl in Htot. rewrite Htot, Hl. reflexivity.
Qed.

Lemma blast_radius_zero_hops (e : Engine) (asset_id : string) :
  in_graph asset_id (graph e) = true ->
  exists r,
    calculate_blast_radius e asset_id 0 = Ok r
    /\ br_total_affected_assets r = O
    /\ (br_risk_score r == inject_Z (weight_of (asset_metadata e) asset_id))%Q
    /\ (0 < br_risk_score r)%Q.
Proof.
  intros Hin.
  destruct (blast_radius_general e asset_id 0 Hin)
    as [r [rest [Hr [Hl [Hrisk [_ Htot]]]]]].
  { intros a []. }
  assert (Hrest : rest = []) by (now inversion Hl).
  subst rest. simpl in Htot.
  exists r. split; [exact Hr|]. split; [exact Htot|].
  assert (E : (br_risk_score r == inject_Z (weight_of (asset_metadata e) asset_id))%Q).
  { rewrite Hrisk. apply (hop_risk_source e asset_id). }
  split; [exact E|]. rewrite E.
  change 0%Q with (inject_Z 0). rewrite <- Zlt_Qlt. apply criticality_weight_pos.
Qed.

(** C1, as the code has it.  The aggregate risk score is the sum of the
    per-hop risks over hops 0..max_hops, accumulated in floating point in
    hop order and rounded to 2 decimals: hop 0, the source node, is part of
    the sum and contributes its own criticality weight with decay 1, the
    layers of hops 1..max_hops contribute [hop_risk]; only the affected
    count leaves hop 0 out.  Hence, for every node of the graph,
    [calculate_blast_radius x 0] reports no affected asset and a risk
    score equal to the (positive) criticality weight of [x]; and in the
    two-node scenario A(high) -> B(critical), [calculate_blast_radius A 1]
    reports one affected asset and risk score 7 + 10/2 = 12. *)
Theorem blast_radius_risk_counts_source :
  (forall (e : Engine) (asset_id : string) (max_hops : Z),
      in_graph asset_id (graph e) = true ->
      (forall a, In a (all_affected e asset_id max_hops) ->
                 In (criticality_of (asset_metadata e) a) tiers) ->
      exists r rest,
        calculate_blast_radius e asset_id max_hops = Ok r
        /\ layers e asset_id max_hops = (0%Z, [asset_id]) :: rest
        /\ map fst rest = hop_range max_hops
        /\ br_risk_score r
           = float_round2 (float_sum (map (hop_risk e) ((0%Z, [asset_id]) :: rest)))
        /\ (hop_risk e (0%Z, [asset_id])
            == inject_Z (weight_of (asset_metadata e) asset_id))%Q
        /\ br_total_affected_assets r = List.length (List.concat (map snd rest)))
  /\ (forall (e : Engine) (asset_id : string),
         in_graph asset_id (graph e) = true ->
         exists r,
           calculate_blast_radius e asset_id 0 = Ok r
           /\ br_total_affected_assets r = O
           /\ (br_risk_score r == inject_Z (weight_of (asset_metadata e) asset_id))%Q
           /\ (0 < br_risk_score r)%Q)
  /\ (exists r,
         calculate_blast_radius scenario_AB "A" 1 = Ok r
         /\ br_total_affected_assets r = 1%nat
         /\ (br_risk_score r == 12)%Q).
Proof.
  split; [|split].
  - intros e asset_id max_hops Hin Hstd.
    destruct (blast_radius_general e asset_id max_hops Hin Hstd)
      as [r [rest [Hr [Hl [Hrisk [Hkeys Htot]]]]]].
    exists r, rest. repeat (split; [assumption|]).
    split; [apply (hop_risk_alone e asset_id) | exact Htot].
  - apply blast_radius_zero_hops.
  - eexists. split; [vm_compute; reflexivity|]. split; [reflexivity|]. reflexivity.
Qed.

Lemma blast_radius_risk_counts_source_witness :
  in_graph "A" (graph scenario_AB) = true
  /\ (forall a, In a (all_affected scenario_AB "A" 1) ->
                In (criticality_of (asset_metadata scenario_AB) a) tiers)
  /\ exists r rest,
       calculate_blast_radius scenario_AB "A" 1 = Ok r
       /\ layers scenario_AB "A" 1 = (0%Z, ["A"]) :: rest
       /\ map fst rest = hop_range 1
       /\ br_risk_score r
          = float_round2 (float_sum (map (hop_risk scenario_AB) ((0%Z, ["A"]) :: rest)))
       /\ (hop_risk scenario_AB (0%Z, ["A"])
           == inject_Z (weight_of (asset_metadata scenario_AB) "A"))%Q
       /\ br_total_affected_assets r = List.length (List.concat (map snd rest)).
Proof.
  assert (H1 : in_graph "A" (graph scenario_AB) = true) by reflexivity.
  assert (H2 : forall a, In a (all_affected scenario_AB "A" 1) ->
                         In (criticality_of (asset_metadata scenario_AB) a) tiers).
  { intros a [<- | []]. vm_compute. auto. }
  split; [exact H1|]. split; [exact H2|].
  exact (proj1 blast_radius_risk_counts_source scenario_AB "A" 1%Z H1 H2).
Defined.

(** C1 as stated fails: with [max_hops = 0] the risk score of node A of
    the scenario is 7, not 0, and with [max_hops = 1] it is 12, not 5. *)
Lemma blast_radius_source_excluded_counterexample :
  exists r0 r1,
    calculate_blast_radius scenario_AB "A" 0 = Ok r0
    /\ calculate_blast_radius scenario_AB "A" 1 = Ok r1
    /\ in_graph "A" (graph scenario_AB) = true
    /\ ~ (br_risk_score r0 == 0)%Q
    /\ ~ (br_risk_score r1 == 5)%Q.
Proof.
  eexists. eexists.
  split; [vm_compute; reflexivity|]. split; [vm_compute; reflexivity|].
  split; [reflexivity|]. split; intros H; vm_compute in H; discriminate.
Qed.

(** The sum is accumulated in floating point, hop by hop.  On the chain
    the hop risks are 1, 1/2, ..., 1/6, 7/7, 1/8, whose exact sum 3.575
    rounds to 3.58; the sum of the doubles is 3.5749999999999997 and the
    reported score is 3.57. *)
Example blast_radius_floating_point_sum :
  exists r,
    calculate_blast_radius chain8 "n0" 7 = Ok r
    /\ (br_risk_score r == rnd (357 # 100))%Q
    /\ (round2 (1 + 1 / 2 + 1 / 3 + 1 / 4 + 1 / 5 + 1 / 6 + 7 / 7 + 1 / 8) == 358 # 100)%Q.
Proof.
  eexists. split; [vm_compute; reflexivity|].
  split; vm_compute; reflexivity.
Qed.

(** ** Critical path ranking *)

Section PathRiskFacts.
Variable vd : vuln_map.
Variable meta : dict AssetMeta.

Lemma vuln_inner_loop (vulns : list Vulnerability) : forall vb,
  fold_left
    (fun vb vuln =>
       if network_exploitable vuln then fadd vb (tenth_of_cvss vuln) else vb)
    vulns vb
  = fold_left fadd (map tenth_of_cvss (filter network_exploitable vulns)) vb.
Proof.
  induction vulns as [|v l IH]; intros vb; simpl; [reflexivity|].
  rewrite IH. destruct (network_exploitable v); reflexivity.
Qed.

Lemma vuln_outer_loop (path : list string) : forall acc,
  fold_left
    (fun vuln_bonus asset_id =>
       match dict_get asset_id vd with
       | Some vulns =>
           fold_left
             (fun vb vuln =>
                if network_exploitable vuln then fadd vb (tenth_of_cvss vuln) else vb)
             vulns vuln_bonus
       | None => vuln_bonus
       end)
    path acc
  = fold_left fadd
      (map tenth_of_cvss
         (filter network_exploitable
            (flat_map (fun a => match dict_get a vd with Some l => l | None => [] end)
               path)))
      acc.
Proof.
  induction path as [|a l IH]; intros acc; simpl; [reflexivity|].
  rewrite IH, filter_app, map_app, fold_left_app.
  destruct (dict_get a vd) as [vs|]; [now rewrite vuln_inner_loop | reflexivity].
Qed.

Lemma vuln_bonus_loop_spec path : vuln_bonus_loop vd path = vuln_bonus vd path.
Proof. unfold vuln_bonus_loop, vuln_bonus, float_sum. apply vuln_outer_loop. Qed.

Lemma calculate_path_risk_spec path :
  path <> [] ->
  _calculate_path_risk vd meta path
  = float_round2
      (fadd (fadd (int_div 10 (Z.of_nat (List.length path))) (vuln_bonus vd path))
         (of_int (criticality_bonus meta path))).
Proof.
  intros Hne. destruct path as [|a l]; [congruence|].
  unfold _calculate_path_risk. cbv zeta. now rewrite vuln_bonus_loop_spec.
Qed.

End PathRiskFacts.

(** *** Sorting *)

Lemma insert_desc_In x l c : In c (insert_desc x l) <-> c = x \/ In c l.
Proof.
  induction l as [|y r IH]; simpl.
  - split; intros [H | H]; auto.
  - destruct (Qle_bool (cp_risk_score y) (cp_risk_score x)); simpl.
    + split; intros [H | H]; auto.
    + rewrite IH. tauto.
Qed.

Lemma sort_desc_In l c : In c (sort_desc l) <-> In c l.
Proof.
  induction l as [|x l IH]; simpl; [tauto|].
  rewrite insert_desc_In, IH. split; intros [H | H]; auto.
Qed.

Lemma insert_desc_HdRel a x l :
  risk_ge a x -> HdRel risk_ge a l -> HdRel risk_ge a (insert_desc x l).
Proof.
  intros Hax Hal. destruct l as [|y r]; simpl.
  - now constructor.
  - destruct (Qle_bool (cp_risk_score y) (cp_risk_score x)); constructor; auto.
    now inversion Hal.
Qed.

Lemma insert_desc_Sorted x l : Sorted risk_ge l -> Sorted risk_ge (insert_desc x l).
Proof.
  induction l as [|y r IH]; intros Hs; simpl.
  - repeat constructor.
  - inversion Hs as [|? ? Hr Hhd]; subst.
    destruct (Qle_bool (cp_risk_score y) (cp_risk_score x)) eqn:E.
    + constructor; [exact Hs|]. constructor. apply Qle_bool_iff in E. exact E.
    + constructor; [now apply IH|].
      apply insert_desc_HdRel; [|exact Hhd].
      unfold risk_ge. apply Qlt_le_weak. apply Qnot_le_lt.
      intros H. apply Qle_bool_iff in H. congruence.
Qed.

Lemma sort_desc_Sorted l : Sorted risk_ge (sort_desc l).
Proof.
  induction l as [|x l IH]; simpl; [constructor | now apply insert_desc_Sorted].
Qed.

Lemma firstn_Sorted {A : Type} (R : A -> A -> Prop) n : forall l,
  Sorted R l -> Sorted R (firstn n l).
Proof.
  induction n as [|n IH]; intros l Hs; simpl; [constructor|].
  destruct l as [|a l]; [constructor|].
  inversion Hs as [|? ? Hl Hhd]; subst. constructor; [now apply IH|].
  destruct n; simpl; [constructor|].
  destruct l as [|b l]; constructor. now inversion Hhd.
Qed.

(** *** Pooling the paths of every (entry, target) pair *)

Section PoolFacts.
Variable fuel : nat.
Variable h : Heap.
Variable e : Engine.

Local Abbreviation entry_ok := (entry_ok h e).

Lemma pair_paths_ok entry target acc :
  (bfs_fuel (graph e) entry target 8 <= fuel)%nat ->
  Forall entry_ok acc ->
  exists acc', pair_paths fuel h e entry target (Some acc) = Some acc'
               /\ Forall entry_ok acc'.
Proof.
  intros Hfuel Hacc. unfold pair_paths.
  destruct (find_attack_paths_bfs_spec fuel (graph e) entry target 8 Hfuel)
    as [pb [-> Hpb]].
  eexists. split; [reflexivity|]. apply Forall_app. split; [exact Hacc|].
  apply Forall_forall. intros c Hc. apply in_map_iff in Hc as [p [<- Hp]].
  repeat split; simpl. apply Hpb in Hp. eapply attack_paths_nonempty; eauto.
Qed.

Lemma targets_loop_ok entry targets : forall acc,
  (forall t, In t targets -> (bfs_fuel (graph e) entry t 8 <= fuel)%nat) ->
  Forall entry_ok acc ->
  exists acc',
    fold_left (fun acc target => pair_paths fuel h e entry target acc) targets (Some acc)
    = Some acc'
    /\ Forall entry_ok acc'.
Proof.
  induction targets as [|t ts IH]; intros acc Hfuel Hacc; cbn [fold_left].
  - eauto.
  - destruct (pair_paths_ok entry t acc) as [acc1 [-> H1]]; auto.
    + apply Hfuel. now left.
    + apply IH; auto. intros t' Ht'. apply Hfuel. now right.
Qed.

Lemma entries_loop_ok targets entries : forall acc,
  (forall en t, In en entries -> In t targets ->
                (bfs_fuel (graph e) en t 8 <= fuel)%nat) ->
  Forall entry_ok acc ->
  exists acc',
    fold_left
      (fun acc entry =>
         fold_left (fun acc target => pair_paths fuel h e entry target acc) targets acc)
      entries (Some acc)
    = Some acc'
    /\ Forall entry_ok acc'.
Proof.
  induction entries as [|en ens IH]; intros acc Hfuel Hacc; cbn [fold_left].
  - eauto.
  - destruct (targets_loop_ok en targets acc) as [acc1 [-> H1]]; auto.
    + intros t Ht. apply Hfuel; auto. now left.
    + apply IH; auto. intros en' t Hen Ht. apply Hfuel; auto. now right.
Qed.

End PoolFacts.

Lemma critical_paths_fuel_bound e en t :
  In en (entry_points e) -> In t (critical_targets e) ->
  (bfs_fuel (graph e) en t 8 <= critical_paths_fuel e)%nat.
Proof.
  intros Hen Ht. unfold critical_paths_fuel.
  pose proof (proj1 (list_max_le _ _) (Nat.le_refl
    (list_max (map (fun '(entry, target) => bfs_fuel (graph e) entry target 8)
                 (list_prod (entry_points e) (critical_targets e)))))) as Hall.
  rewrite Forall_forall in Hall. apply Hall.
  apply in_map_iff. exists (en, t). split; [reflexivity|]. now apply in_prod.
Qed.

Lemma firstn_incl {A : Type} n (l : list A) x : In x (firstn n l) -> In x l.
Proof.
  intros H. rewrite <- (firstn_skipn n l). apply in_or_app. now left.
Qed.

(** C9, as the code has it.  Given fuel for its searches,
    [find_critical_paths] returns at most 20 entries, sorted by
    non-increasing risk score, and the risk score of each entry is
    10 / len(path) + vulnBonus + criticalityBonus ROUNDED TO 2 DECIMALS,
    the two additions done in floating point from left to right, where
    vulnBonus sums (in floating point, in the order of the path and of
    each node's list) a tenth of the CVSS score of every
    network-exploitable vulnerability of every node of the path and
    criticalityBonus is looked up for the path's final node in
    critical:5, high:3, medium:1, low:0. *)
Theorem find_critical_paths_ranked (fuel : nat) (h : Heap) (e : Engine) :
  (critical_paths_fuel e <= fuel)%nat ->
  exists r,
    find_critical_paths fuel h e = Some r
    /\ (List.length r <= 20)%nat
    /\ Sorted risk_ge r
    /\ forall c, In c r ->
         cp_path c <> []
         /\ cp_risk_score c
            = float_round2
                (fadd (fadd (int_div 10 (Z.of_nat (List.length (cp_path c))))
                         (vuln_bonus (vulns_of h e) (cp_path c)))
                   (of_int (criticality_bonus (asset_metadata e) (cp_path c)))).
Proof.
  intros Hfuel. unfold find_critical_paths.
  destruct (entries_loop_ok fuel h e (critical_targets e) (entry_points e) [])
    as [cps [-> Hok]].
  - intros en t Hen Ht. etransitivity; [|exact Hfuel].
    now apply critical_paths_fuel_bound.
  - constructor.
  - eexists. split; [reflexivity|]. split; [apply firstn_le_length|].
    split; [apply firstn_Sorted, sort_desc_Sorted|].
    intros c Hc. apply firstn_incl in Hc. rewrite sort_desc_In in Hc.
    rewrite Forall_forall in Hok. destruct (Hok c Hc) as [Hne [_ Hrisk]].
    split; [exact Hne|]. rewrite Hrisk. now apply calculate_path_risk_spec.
Qed.

Lemma find_critical_paths_ranked_witness :
  (critical_paths_fuel chain_EMT <= 3)%nat
  /\ exists r,
       find_critical_paths 3 [[]] chain_EMT = Some r
       /\ (List.length r <= 20)%nat
       /\ Sorted risk_ge r
       /\ forall c, In c r ->
            cp_path c <> []
            /\ cp_risk_score c
               = float_round2
                   (fadd (fadd (int_div 10 (Z.of_nat (List.length (cp_path c))))
                            (vuln_bonus (vulns_of [[]] chain_EMT) (cp_path c)))
                      (of_int (criticality_bonus (asset_metadata chain_EMT)
                                 (cp_path c)))).
Proof.
  assert (H : (critical_paths_fuel chain_EMT <= 3)%nat) by (vm_compute; lia).
  split; [exact H|].
  exact (find_critical_paths_ranked 3 [[]] chain_EMT H).
Defined.

(** C9 as stated fails on the risk formula: the only critical path of the
    chain E -> M -> T has three nodes, no vulnerability and a critical
    target; its reported risk is 8.33 (the double nearest to it), not the
    unrounded 10/3 + 0 + 5. *)
Lemma critical_path_risk_unrounded_counterexample :
  exists r c,
    find_critical_paths 3 [[]] chain_EMT = Some r
    /\ In c r
    /\ (cp_risk_score c == rnd (833 # 100))%Q
    /\ ~ (cp_risk_score c
          == fadd (fadd (int_div 10 (Z.of_nat (List.length (cp_path c))))
                     (vuln_bonus (vulns_of [[]] chain_EMT) (cp_path c)))
               (of_int (criticality_bonus (asset_metadata chain_EMT) (cp_path c))))%Q.
Proof.
  eexists. eexists. split; [vm_compute; reflexivity|].
  split; [now left|]. split; [vm_compute; reflexivity|].
  intros H. vm_compute in H. discriminate.
Qed.

(** The path risk is the rounded floating-point sum: with a CVSS of 0.25
    on B the path A -> B scores 10/2 + 0.25 * 0.1 + 5, which in doubles is
    just above 10.025 and is reported as 10.03, where the exact sum 10.025
    would round to 10.02. *)
Example path_risk_floating_point_sum :
  (_calculate_path_risk (vulns_of heap_B_quarter scenario_AB)
     (asset_metadata scenario_AB) ["A"; "B"]
   == rnd (1003 # 100))%Q
  /\ (round2 (10 / 2 + (1 # 4) * (1 # 10) + 5) == 1002 # 100)%Q.
Proof. split; vm_compute; reflexivity. Qed.

(** ** Lateral movement simulation *)

Lemma dict_get_map_values {V : Type} (f : V -> V) (d : dict V) k :
  dict_get k (map (fun '(k', v) => (k', f v)) d) = option_map f (dict_get k d).
Proof.
  induction d as [|[k' v] r IH]; simpl; [reflexivity|].
  destruct (String.eqb k k'); [reflexivity | exact IH].
Qed.

Lemma flag_reset_all meta a : flag (reset_all meta) a = false.
Proof.
  unfold flag, reset_all.
  rewrite (dict_get_map_values (fun m => with_compromise m false None)).
  destruct (dict_get a meta); reflexivity.
Qed.

Lemma flags_le_refl m : flags_le m m.
Proof. intros a H. exact H. Qed.

Lemma flags_le_trans m1 m2 m3 : flags_le m1 m2 -> flags_le m2 m3 -> flags_le m1 m3.
Proof. intros H12 H23 a H. apply H23, H12, H. Qed.

Lemma mark_compromised_flag meta aid t meta' :
  mark_compromised meta aid t = Some meta' ->
  forall a, flag meta' a = if String.eqb a aid then true else flag meta a.
Proof.
  unfold mark_compromised. destruct (dict_get aid meta) as [m|] eqn:E; [|discriminate].
  intros H a. inversion H; subst. unfold flag.
  destruct (String.eqb_spec a aid) as [-> | Hne].
  - now rewrite dict_get_set_same.
  - now rewrite dict_get_set_other.
Qed.

Lemma mark_compromised_le meta aid t meta' :
  mark_compromised meta aid t = Some meta' -> flags_le meta meta'.
Proof.
  intros H a Ha. rewrite (mark_compromised_flag _ _ _ _ H).
  destruct (String.eqb a aid); auto.
Qed.

Lemma mark_compromised_record meta aid t meta' :
  mark_compromised meta aid t = Some meta' ->
  exists m, dict_get aid meta' = Some m
            /\ am_compromised m = true /\ am_compromise_time m = Some t.
Proof.
  unfold mark_compromised. destruct (dict_get aid meta) as [m|] eqn:E; [|discriminate].
  intros H. inversion H; subst. rewrite dict_get_set_same. eauto.
Qed.

Lemma mark_compromised_total meta aid t :
  dict_mem aid meta = true -> exists meta', mark_compromised meta aid t = Some meta'.
Proof.
  unfold dict_mem, mark_compromised. destruct (dict_get aid meta); [eauto | discriminate].
Qed.

Lemma dict_mem_reset_all meta a : dict_mem a (reset_all meta) = dict_mem a meta.
Proof.
  unfold dict_mem, reset_all.
  rewrite (dict_get_map_values (fun m => with_compromise m false None)).
  destruct (dict_get a meta); reflexivity.
Qed.

(** A loop whose body never leaves a preorder stays inside it. *)
Lemma fold_left_preorder {S X : Type} (R : S -> S -> Prop) (f : S -> X -> S) :
  (forall s, R s s) -> (forall s1 s2 s3, R s1 s2 -> R s2 s3 -> R s1 s3) ->
  (forall s x, R s (f s x)) ->
  forall l s, R s (fold_left f l s).
Proof.
  intros Hrefl Htrans Hstep. induction l as [|x l IH]; intros s; simpl.
  - apply Hrefl.
  - eapply Htrans; [apply Hstep | apply IH].
Qed.

Section SimulationFacts.
Variable set_order : list string -> list string.
Variable rng : nat -> Q.
Variable g : DiGraph.
Variable vd : vuln_map.
Variable p : Q.

Local Abbreviation try_nb := (try_neighbor rng vd p).
Local Abbreviation spread := (spread_from rng g vd p).
Local Abbreviation step := (time_step set_order rng g vd p).
Local Abbreviation run := (run_steps set_order rng g vd p).

(** *** Flags only ever go up *)

Lemma meta_le_refl s : meta_le s s.
Proof. apply flags_le_refl. Qed.

Lemma meta_le_trans s1 s2 s3 : meta_le s1 s2 -> meta_le s2 s3 -> meta_le s1 s3.
Proof. apply flags_le_trans. Qed.

Lemma try_neighbor_le t c s nb : meta_le s (try_nb t c s nb).
Proof.
  unfold meta_le, try_neighbor.
  destruct (ss_raised s); [apply flags_le_refl|].
  destruct (mem nb (ss_compromised s)); [apply flags_le_refl|].
  destruct (negb (Qle_bool _ _)); simpl; [|apply flags_le_refl].
  destruct (mark_compromised (ss_meta s) nb t) eqn:E; [|apply flags_le_refl].
  eapply mark_compromised_le; eauto.
Qed.

Lemma spread_from_le t s c : meta_le s (spread t s c).
Proof.
  unfold spread_from. apply fold_left_preorder;
    [apply meta_le_refl | apply meta_le_trans | intros; apply try_neighbor_le].
Qed.

Lemma time_step_le t s : meta_le s (step t s).
Proof.
  unfold time_step. destruct (ss_raised s); [apply meta_le_refl|]. cbv zeta.
  match goal with
  | |- context [fold_left ?f ?l ?s0] =>
      pose proof (fold_left_preorder meta_le f meta_le_refl meta_le_trans
                    (spread_from_le t) l s0) as H
  end.
  destruct (ss_raised (fold_left _ _ _)); exact H.
Qed.

Lemma run_steps_le n : forall t s, meta_le s (run n t s).
Proof.
  induction n as [|n IH]; intros t s; simpl.
  - apply meta_le_refl.
  - eapply meta_le_trans; [apply time_step_le | apply IH].
Qed.

Lemma run_steps_add a : forall b t s,
  run (a + b) t s = run b (t + Z.of_nat a)%Z (run a t s).
Proof.
  induction a as [|a IH]; intros b t s.
  - simpl. now rewrite Z.add_0_r.
  - cbn [Nat.add run_steps]. rewrite IH. f_equal. lia.
Qed.

End SimulationFacts.

Lemma tier_members_not_error meta tier l msg :
  tier_members meta tier l <> ErrorResult msg.
Proof.
  induction l as [|a l IH]; simpl; [discriminate|].
  destruct (dict_get a meta); [|discriminate].
  destruct (tier_members meta tier l); try discriminate. exact IH.
Qed.

Lemma simulate_engine_state set_order rng h e x time_steps p s :
  in_graph x (graph e) = true ->
  sim_state set_order rng h e x p (Z.to_nat time_steps) = Some s ->
  asset_metadata (fst (simulate_lateral_movement set_order rng h e x time_steps p))
  = ss_meta s.
Proof.
  intros Hin Hs. unfold simulate_lateral_movement. rewrite Hin, Hs. simpl negb. cbv iota zeta.
  destruct (ss_raised s); [reflexivity|].
  repeat match goal with
         | |- context [tier_members ?m ?t ?l] => destruct (tier_members m t l)
         end; reflexivity.
Qed.

Lemma sim_state_le set_order rng h e x p i j s_i s_j :
  (i <= j)%nat ->
  sim_state set_order rng h e x p i = Some s_i ->
  sim_state set_order rng h e x p j = Some s_j ->
  flags_le (ss_meta s_i) (ss_meta s_j).
Proof.
  unfold sim_state. intros Hij.
  destruct (mark_compromised (reset_all (asset_metadata e)) x 0) as [meta1|];
    [|discriminate].
  intros Hi Hj. inversion Hi; inversion Hj; subst.
  replace j with (i + (j - i))%nat by lia.
  rewrite run_steps_add. apply run_steps_le.
Qed.

(** C8. Within one run of [simulate_lateral_movement] the compromise flags
    are monotonic: the reset leaves every flag false; once the initial node
    is marked, it is the only flagged node and carries compromise time 0;
    the only later write, the one of a propagation attempt, never lowers a
    flag; hence the flags after [i] time steps are still raised after any
    [j >= i] time steps, and the engine is left with the flags of the last
    step.  (An initial node without record has no flag to mark: the run
    then stops with [KeyError] right after the reset, all flags false.) *)
Theorem compromised_flag_monotonic
    (set_order : list string -> list string) (rng : nat -> Q) (h : Heap) (e : Engine)
    (x : string) (p : Q) :
  (forall a, flag (reset_all (asset_metadata e)) a = false)
  /\ (forall t c s nb,
         flags_le (ss_meta s) (ss_meta (try_neighbor rng (vulns_of h e) p t c s nb)))
  /\ (sim_state set_order rng h e x p 0 = None ->
      in_graph x (graph e) = true ->
      forall time_steps,
        simulate_lateral_movement set_order rng h e x time_steps p
        = (with_metadata e (reset_all (asset_metadata e)), KeyError x))
  /\ forall s0,
       sim_state set_order rng h e x p 0 = Some s0 ->
       (forall a, flag (ss_meta s0) a = true <-> a = x)
       /\ (exists m, dict_get x (ss_meta s0) = Some m
                     /\ am_compromised m = true
                     /\ am_compromise_time m = Some 0%Z)
       /\ (forall i j s_i s_j,
              (i <= j)%nat ->
              sim_state set_order rng h e x p i = Some s_i ->
              sim_state set_order rng h e x p j = Some s_j ->
              flags_le (ss_meta s_i) (ss_meta s_j))
       /\ (forall time_steps s,
              in_graph x (graph e) = true ->
              sim_state set_order rng h e x p (Z.to_nat time_steps) = Some s ->
              asset_metadata
                (fst (simulate_lateral_movement set_order rng h e x time_steps p))
              = ss_meta s).
Proof.
  split; [apply flag_reset_all|]. split; [intros; apply try_neighbor_le|].
  split.
  { intros Hnone Hin time_steps. unfold simulate_lateral_movement, sim_state in *.
    rewrite Hin. simpl negb. cbv iota.
    destruct (mark_compromised (reset_all (asset_metadata e)) x 0);
      [discriminate | reflexivity]. }
  intros s0 Hs0. unfold sim_state in Hs0.
  destruct (mark_compromised (reset_all (asset_metadata e)) x 0) as [meta1|] eqn:Em;
    [|discriminate].
  inversion Hs0; subst s0. simpl. repeat split.
  - rewrite (mark_compromised_flag _ _ _ _ Em), flag_reset_all.
    destruct (String.eqb_spec a x); congruence.
  - intros ->. rewrite (mark_compromised_flag _ _ _ _ Em). now rewrite String.eqb_refl.
  - eapply mark_compromised_record; eauto.
  - intros i j s_i s_j. apply sim_state_le.
  - intros time_steps s. apply simulate_engine_state.
Qed.

Lemma compromised_flag_monotonic_witness :
  exists s0 s1 s2,
    sim_state (fun l => l) draws_low_high_low [[]] triangle "A" (1 # 2)%Q 0 = Some s0
    /\ sim_state (fun l => l) draws_low_high_low [[]] triangle "A" (1 # 2)%Q 1 = Some s1
    /\ sim_state (fun l => l) draws_low_high_low [[]] triangle "A" (1 # 2)%Q 2 = Some s2
    /\ (1 <= 2)%nat
    /\ flag (ss_meta s1) "B" = true
    /\ flags_le (ss_meta s1) (ss_meta s2).
Proof.
  eexists. eexists. eexists.
  split; [reflexivity|]. split; [reflexivity|]. split; [reflexivity|].
  split; [lia|]. split; [reflexivity|].
  refine (proj1 (proj2 (proj2 (proj2 (proj2 (proj2
    (compromised_flag_monotonic (fun l => l) draws_low_high_low [[]] triangle "A" (1 # 2)%Q)))
    _ eq_refl))) 1%nat 2%nat _ _ _ eq_refl eq_refl).
  lia.
Defined.

(** *** Propagation probability 0 *)

Lemma max_cvss_nonpos rest : forall v,
  (forall w, In w (v :: rest) -> (cvss_score w <= 0)%Q) ->
  (max_cvss v rest <= 0)%Q.
Proof.
  unfold max_cvss.
  assert (H : forall m, (m <= 0)%Q ->
                        (forall w, In w rest -> (cvss_score w <= 0)%Q) ->
                        (fold_left (fun m w => if Qle_bool (cvss_score w) m then m
                                               else cvss_score w) rest m <= 0)%Q).
  { induction rest as [|w rest IH]; intros m Hm Hall; simpl; [exact Hm|].
    apply IH.
    - destruct (Qle_bool (cvss_score w) m); [exact Hm | apply Hall; now left].
    - intros w' Hw'. apply Hall. now right. }
  intros v Hall. apply H.
  - apply Hall. now left.
  - intros w Hw. apply Hall. now right.
Qed.

Lemma spread_probability_nonpos vd nb :
  no_positive_exploit vd -> (spread_probability vd 0 nb <= 0)%Q.
Proof.
  intros Hvd. unfold spread_probability.
  destruct (dict_get nb vd) as [vulns|] eqn:E; [|apply Qle_refl].
  destruct (filter network_exploitable vulns) as [|v rest] eqn:F; [apply Qle_refl|].
  assert (Hmax : (max_cvss v rest <= 0)%Q).
  { apply max_cvss_nonpos. intros w Hw. rewrite <- F in Hw.
    apply filter_In in Hw as [Hw1 Hw2]. eapply Hvd; eauto. }
  unfold Qdiv.
  assert (Hq : (max_cvss v rest * / 10 * (3 # 10) == max_cvss v rest * (3 # 100))%Q)
    by (field; discriminate).
  rewrite Hq. lra.
Qed.

Section ZeroProbability.
Variable set_order : list string -> list string.
Variable rng : nat -> Q.
Variable g : DiGraph.
Variable vd : vuln_map.
Hypothesis rng_nonneg : forall i, (0 <= rng i)%Q.
Hypothesis vd_quiet : no_positive_exploit vd.

Lemma frozen_refl s : frozen s s.
Proof. intros H. auto. Qed.

Lemma frozen_trans s1 s2 s3 : frozen s1 s2 -> frozen s2 s3 -> frozen s1 s3.
Proof.
  intros H12 H23 H1. destruct (H12 H1) as [Hm [Hc Hr]].
  destruct (H23 Hr) as [Hm' [Hc' Hr']]. repeat split; congruence.
Qed.

Lemma try_neighbor_frozen t c s nb : frozen s (try_neighbor rng vd 0 t c s nb).
Proof.
  intros Hr. unfold try_neighbor. rewrite Hr.
  destruct (mem nb (ss_compromised s)); [auto|].
  assert (E : Qle_bool (spread_probability vd 0 nb) (rng (ss_draws s)) = true).
  { apply Qle_bool_iff. eapply Qle_trans; [now apply spread_probability_nonpos|].
    apply rng_nonneg. }
  rewrite E. simpl. auto.
Qed.

Lemma spread_from_frozen t s c : frozen s (spread_from rng g vd 0 t s c).
Proof.
  unfold spread_from. apply fold_left_preorder;
    [apply frozen_refl | apply frozen_trans | intros; apply try_neighbor_frozen].
Qed.

Lemma time_step_frozen t s : frozen s (time_step set_order rng g vd 0 t s).
Proof.
  intros Hr. unfold time_step. rewrite Hr. cbv zeta.
  match goal with
  | |- context [fold_left ?f ?l ?s0] =>
      pose proof (fold_left_preorder frozen f frozen_refl frozen_trans
                    (spread_from_frozen t) l s0 eq_refl) as [Hm [Hc Hr']]
  end.
  simpl in Hm, Hc. rewrite Hr'. simpl. auto.
Qed.

Lemma run_steps_frozen n : forall t s, frozen s (run_steps set_order rng g vd 0 n t s).
Proof.
  induction n as [|n IH]; intros t s; simpl.
  - apply frozen_refl.
  - eapply frozen_trans; [apply time_step_frozen | apply IH].
Qed.

End ZeroProbability.




(** *** Argument validation *)

Lemma simulate_runs_unchecked set_order rng h e x time_steps p :
  in_graph x (graph e) = true ->
  dict_mem x (asset_metadata e) = true ->
  exists e' o,
    simulate_lateral_movement set_order rng h e x time_steps p = (e', o)
    /\ (forall msg, o <> ErrorResult msg)
    /\ flag (asset_metadata e') x = true.
Proof.
  intros Hin Hmeta.
  destruct (mark_compromised_total (reset_all (asset_metadata e)) x 0) as [meta1 Em].
  { now rewrite dict_mem_reset_all. }
  unfold simulate_lateral_movement, sim_state. rewrite Hin, Em. simpl negb. cbv iota zeta.
  set (s := run_steps set_order rng (graph e) (vulns_of h e) p (Z.to_nat time_steps) 1%Z
              (start_state meta1 x)).
  assert (Hflag : flag (ss_meta s) x = true).
  { apply (run_steps_le set_order rng (graph e) (vulns_of h e) p
             (Z.to_nat time_steps) 1%Z (start_state meta1 x)).
    simpl. rewrite (mark_compromised_flag _ _ _ _ Em). now rewrite String.eqb_refl. }
  destruct (ss_raised s).
  - eexists. eexists. split; [reflexivity|]. split; [discriminate | exact Hflag].
  - destruct (tier_members (ss_meta s) "critical" (set_order (ss_compromised s))) eqn:E1;
      [destruct (tier_members (ss_meta s) "high" (set_order (ss_compromised s))) eqn:E2| |];
      try (eexists; eexists; split; [reflexivity|]; split; [discriminate | exact Hflag]).
    + exfalso. eapply tier_members_not_error; eauto.
    + exfalso. eapply tier_members_not_error; eauto.
Qed.

(** C5, as the code has it.  The bounds on [time_steps] (1..100) and on
    [propagation_probability] (0..1) are enforced by the HTTP route: a
    request outside them is answered before the engine is called and leaves
    the engine as it was.  The engine method itself checks only that the
    initial node is in the graph: for a node with a record it never answers
    with an error result, whatever the two arguments are, and it has reset
    and rewritten the compromise flags (the initial node ends up flagged). *)
Theorem simulation_arguments_checked_by_route
    (set_order : list string -> list string) (rng : nat -> Q) (h : Heap) (e : Engine)
    (x : string) (time_steps : Z) (p : Q) :
  (query_ok time_steps p = false ->
   route_simulate_lateral_movement set_order rng h e x time_steps p
   = (e, Unprocessable422))
  /\ (in_graph x (graph e) = true ->
      dict_mem x (asset_metadata e) = true ->
      exists e' o,
        simulate_lateral_movement set_order rng h e x time_steps p = (e', o)
        /\ (forall msg, o <> ErrorResult msg)
        /\ flag (asset_metadata e') x = true).
Proof.
  split.
  - intros Hq. unfold route_simulate_lateral_movement. now rewrite Hq.
  - apply simulate_runs_unchecked.
Qed.

Lemma simulation_arguments_checked_by_route_witness :
  query_ok (-5) 7%Q = false
  /\ in_graph "A" (graph scenario_AB) = true
  /\ dict_mem "A" (asset_metadata scenario_AB) = true
  /\ route_simulate_lateral_movement (fun l => l) (fun _ => (1 # 10)%Q) [[]]
       scenario_AB "A" (-5) 7%Q = (scenario_AB, Unprocessable422)
  /\ exists e' o,
       simulate_lateral_movement (fun l => l) (fun _ => (1 # 10)%Q) [[]]
         scenario_AB "A" (-5) 7%Q = (e', o)
       /\ (forall msg, o <> ErrorResult msg)
       /\ flag (asset_metadata e') "A" = true.
Proof.
  pose proof (simulation_arguments_checked_by_route (fun l => l) (fun _ => (1 # 10)%Q)
                [[]] scenario_AB "A" (-5) 7%Q) as [Hroute Hengine].
  split; [reflexivity|]. split; [reflexivity|]. split; [reflexivity|].
  split; [exact (Hroute eq_refl) | exact (Hengine eq_refl eq_refl)].
Defined.

(** C5 as stated fails for the engine method: called with -5 time steps
    and probability 7, or with 3 time steps and probability 2, it returns an
    ordinary result and has changed the compromise flags of the engine. *)
Lemma simulation_arguments_unchecked_counterexample :
  exists e1 r1 e2 r2,
    simulate_lateral_movement (fun l => l) (fun _ => (1 # 10)%Q) [[]]
      scenario_AB "A" (-5) 7%Q = (e1, Ok r1)
    /\ simulate_lateral_movement (fun l => l) (fun _ => (1 # 10)%Q) [[]]
         scenario_AB "A" 3 2%Q = (e2, Ok r2)
    /\ flag (asset_metadata scenario_AB) "A" = false
    /\ flag (asset_metadata e1) "A" = true
    /\ flag (asset_metadata e2) "B" = true
    /\ e1 <> scenario_AB /\ e2 <> scenario_AB.
Proof.
  eexists. eexists. eexists. eexists.
  split; [vm_compute; reflexivity|]. split; [vm_compute; reflexivity|].
  repeat split; discriminate.
Qed.

(** *** The attempts of one time step *)

Section StepFacts.
Variable set_order : list string -> list string.
Variable rng : nat -> Q.
Variable g : DiGraph.
Variable vd : vuln_map.
Variable p : Q.

Local Abbreviation try_nb := (try_neighbor rng vd p).
Local Abbreviation try_e := (try_edge rng vd p).

(** The two nested loops run over the edge list. *)
Lemma spread_loops_as_edges t cs : forall s,
  fold_left (spread_from rng g vd p t) cs s
  = fold_left (try_e t) (flat_map (fun c => map (pair c) (neighbors g c)) cs) s.
Proof.
  induction cs as [|c cs IH]; intros s; simpl; [reflexivity|].
  rewrite fold_left_app, <- IH. f_equal.
  unfold spread_from. generalize (neighbors g c). intros nbrs. revert s.
  induction nbrs as [|nb nbrs IHn]; intros s; simpl; [reflexivity|].
  apply IHn.
Qed.

(** One iteration either does nothing or logs one attempt. *)
Lemma try_neighbor_cases t c s nb :
  try_nb t c s nb = s
  \/ (ss_raised s = None /\ ~ In nb (ss_compromised s)
      /\ exists a,
           ss_attempts (try_nb t c s nb) = ss_attempts s ++ [a]
           /\ ss_draws (try_nb t c s nb) = S (ss_draws s)
           /\ edge_of a = (c, nb) /\ at_step a = t
           /\ (if at_success a
               then ss_compromised (try_nb t c s nb) = ss_compromised s ++ [nb]
               else ss_compromised (try_nb t c s nb) = ss_compromised s
                    /\ ss_raised (try_nb t c s nb) = None)).
Proof.
  unfold try_neighbor. destruct (ss_raised s) eqn:Hr; [now left|].
  destruct (mem nb (ss_compromised s)) eqn:Hm; [now left|].
  right. split; [reflexivity|]. split; [now apply mem_false|].
  destruct (negb (Qle_bool _ _)) eqn:Hs; eexists; simpl; repeat split; simpl; auto.
Qed.

Lemma try_neighbor_compromised t c s nb :
  incl (ss_compromised s) (ss_compromised (try_nb t c s nb)).
Proof.
  destruct (try_neighbor_cases t c s nb) as [-> | [_ [_ [a [_ [_ [_ [_ H]]]]]]]].
  - apply incl_refl.
  - destruct (at_success a).
    + rewrite H. apply incl_appl, incl_refl.
    + destruct H as [-> _]. apply incl_refl.
Qed.

Lemma try_neighbor_raised t c s nb :
  ss_raised (try_nb t c s nb) = None -> ss_raised s = None.
Proof.
  destruct (try_neighbor_cases t c s nb) as [-> | [H _]]; auto.
Qed.

Lemma edges_loop_compromised t es : forall s,
  incl (ss_compromised s) (ss_compromised (fold_left (try_e t) es s)).
Proof.
  induction es as [|[c nb] es IH]; intros s; simpl; [apply incl_refl|].
  eapply incl_tran; [apply (try_neighbor_compromised t c s nb) | apply IH].
Qed.

Lemma edges_loop_raised t es : forall s,
  ss_raised (fold_left (try_e t) es s) = None -> ss_raised s = None.
Proof.
  induction es as [|[c nb] es IH]; intros s H; simpl in *; [exact H|].
  apply IH in H. now apply try_neighbor_raised in H.
Qed.

Lemma log_ok_skip t c nb es s s' new :
  log_ok t es s s' new ->
  incl (ss_compromised s) (ss_compromised s') ->
  ss_raised s <> None \/ In nb (ss_compromised s) ->
  (ss_raised s' = None -> ss_raised s = None) ->
  log_ok t ((c, nb) :: es) s s' new.
Proof.
  intros [H1 [H2 [H3 [H4 H5]]]] Hincl Hskip Hr.
  unfold log_ok. split; [exact H1|]. split; [exact H2|]. split; [|split; [exact H4|]].
  - intros a Ha. destruct (H3 a Ha) as [Ha1 [Ha2 Ha3]].
    split; [now right|]. split; assumption.
  - intros v Hv Hr'. rewrite (H5 v Hv Hr'). unfold edges_into. simpl.
    destruct (String.eqb_spec nb v) as [-> | Hne]; [|reflexivity].
    exfalso. destruct Hskip as [Hs | Hs]; [apply Hs; auto | apply Hv, Hincl, Hs].
Qed.

Lemma try_neighbor_idle t c s nb :
  try_nb t c s nb = s -> ss_raised s <> None \/ In nb (ss_compromised s).
Proof.
  intros E. destruct (ss_raised s) eqn:Hrs; [left; discriminate|].
  destruct (mem nb (ss_compromised s)) eqn:Hm; [right; now apply mem_In|].
  exfalso. apply (f_equal ss_draws) in E. unfold try_neighbor in E.
  rewrite Hrs, Hm in E. destruct (negb (Qle_bool _ _)); simpl in E; lia.
Qed.

Lemma edges_loop_log t es : forall s,
  exists new, log_ok t es s (fold_left (try_e t) es s) new.
Proof.
  induction es as [|[c nb] es IH]; intros s.
  - exists []. simpl. unfold log_ok. rewrite app_nil_r.
    split; [reflexivity|]. split; [simpl; lia|]. split; [intros a []|].
    split; [intros l1 a l2 E; destruct l1; discriminate|]. reflexivity.
  - cbn [fold_left]. change (try_e t s (c, nb)) with (try_nb t c s nb).
    destruct (IH (try_nb t c s nb)) as [new Hnew].
    pose proof (edges_loop_raised t es (try_nb t c s nb)) as Hr.
    pose proof (edges_loop_compromised t es (try_nb t c s nb)) as Hc.
    pose proof (try_neighbor_compromised t c s nb) as Hincl.
    destruct (try_neighbor_cases t c s nb)
      as [E | [Hrs [Hnb [a [Ha [Hd [He [Ht Hsucc]]]]]]]].
    + (* nothing happened *)
      exists new. pose proof (try_neighbor_idle t c s nb E) as Hidle.
      rewrite E in *. apply log_ok_skip; auto.
    + (* one attempt [a] *)
      destruct Hnew as [H1 [H2 [H3 [H4 H5]]]].
      pose proof (f_equal fst He) as Hsrc. pose proof (f_equal snd He) as Htgt.
      simpl in Hsrc, Htgt.
      exists (a :: new). unfold log_ok.
      split; [|split; [|split; [|split]]].
      * rewrite H1, Ha, <- app_assoc. reflexivity.
      * rewrite H2, Hd. simpl. lia.
      * intros b [<- | Hb].
        -- split; [left; now rewrite He|]. split; [now rewrite Htgt | exact Ht].
        -- destruct (H3 b Hb) as [Hb1 [Hb2 Hb3]].
           split; [now right|]. split; [|exact Hb3].
           intros Hin. apply Hb2. now apply Hincl.
      * intros l1 a' l2 E Hs b Hb. destruct l1 as [|a0 l1]; simpl in E.
        -- inversion E; subst a' l2. rewrite Hs in Hsucc.
           intros Eq. destruct (H3 b Hb) as [_ [Hb2 _]]. apply Hb2.
           rewrite Eq, Hsucc. apply in_or_app. right. rewrite Htgt. now left.
        -- inversion E; subst. eapply H4; eauto.
      * intros v Hv Hr'. unfold attempts_on, edges_into. simpl.
        rewrite Htgt.
        destruct (String.eqb_spec nb v) as [-> | Hne].
        -- simpl. rewrite He. f_equal. now apply H5.
        -- now apply H5.
Qed.

End StepFacts.

Lemma time_step_log set_order rng g vd p t s :
  ss_raised s = None ->
  exists new,
    log_ok t (step_edges set_order g (ss_compromised s)) s
      (time_step set_order rng g vd p t s) new.
Proof.
  intros Hr. unfold time_step. rewrite Hr. cbv zeta.
  rewrite spread_loops_as_edges. fold (step_edges set_order g (ss_compromised s)).
  match goal with
  | |- context [fold_left ?f ?es ?s0] =>
      destruct (edges_loop_log rng vd p t es s0) as [new Hnew];
      set (s1 := fold_left f es s0) in *
  end.
  exists new. destruct Hnew as [H1 [H2 [H3 [H4 H5]]]]. simpl in H1, H2, H3.
  destruct (ss_raised s1) eqn:Hr1; unfold log_ok.
  - split; [exact H1|]. split; [exact H2|]. split; [exact H3|]. split; [exact H4|].
    intros v Hv Hn. congruence.
  - simpl. split; [exact H1|]. split; [exact H2|]. split; [exact H3|]. split; [exact H4|].
    intros v Hv _. now apply H5.
Qed.

(** C2, as the code has it.  In one time step every attempt is drawn for
    an edge from a node compromised before the step to a neighbor that was
    not, and each attempt consumes one draw; but the membership test reads
    the live compromised set, so once an attempt on a node has succeeded NO
    further attempt of that step targets it.  A node that is still
    uncompromised when the step ends has received exactly one attempt per
    incoming edge from a pre-step source, in iteration order. *)
Theorem step_attempts_stop_at_success
    (set_order : list string -> list string) (rng : nat -> Q) (g : DiGraph)
    (vd : vuln_map) (p : Q) (t : Z) (s : SimState) :
  ss_raised s = None ->
  (forall l, Permutation (set_order l) l) ->
  exists new,
    ss_attempts (time_step set_order rng g vd p t s) = ss_attempts s ++ new
    /\ ss_draws (time_step set_order rng g vd p t s)
       = (ss_draws s + List.length new)%nat
    /\ (forall a, In a new ->
                  In (at_source a) (ss_compromised s)
                  /\ In (at_target a) (neighbors g (at_source a))
                  /\ ~ In (at_target a) (ss_compromised s))
    /\ (forall l1 a l2,
           new = l1 ++ a :: l2 -> at_success a = true ->
           forall b, In b l2 -> at_target b <> at_target a)
    /\ (forall v,
           ~ In v (ss_compromised (time_step set_order rng g vd p t s)) ->
           ss_raised (time_step set_order rng g vd p t s) = None ->
           map edge_of (attempts_on v new)
           = edges_into v (step_edges set_order g (ss_compromised s))).
Proof.
  intros Hr Hperm.
  destruct (time_step_log set_order rng g vd p t s Hr) as [new [H1 [H2 [H3 [H4 H5]]]]].
  exists new. split; [exact H1|]. split; [exact H2|]. split; [|split; assumption].
  intros a Ha. destruct (H3 a Ha) as [He [Hn _]].
  unfold step_edges in He. apply in_flat_map in He as [c [Hc He]].
  apply in_map_iff in He as [nb [E Hnb]]. unfold edge_of in E.
  inversion E; subst. split; [|split; assumption].
  eapply Permutation_in; [apply Hperm | exact Hc].
Qed.

Lemma step_attempts_stop_at_success_witness :
  ss_raised (start_state (asset_metadata triangle) "A") = None
  /\ (forall l : list string, Permutation ((fun l => l) l) l)
  /\ exists new,
       ss_attempts (time_step (fun l => l) draws_low_high_low (graph triangle) []
                      (1 # 2)%Q 1 (start_state (asset_metadata triangle) "A"))
       = ss_attempts (start_state (asset_metadata triangle) "A") ++ new
       /\ ss_draws (time_step (fun l => l) draws_low_high_low (graph triangle) []
                      (1 # 2)%Q 1 (start_state (asset_metadata triangle) "A"))
          = (ss_draws (start_state (asset_metadata triangle) "A") + List.length new)%nat
       /\ (forall a, In a new ->
                     In (at_source a)
                        (ss_compromised (start_state (asset_metadata triangle) "A"))
                     /\ In (at_target a) (neighbors (graph triangle) (at_source a))
                     /\ ~ In (at_target a)
                            (ss_compromised (start_state (asset_metadata triangle) "A")))
       /\ (forall l1 a l2,
              new = l1 ++ a :: l2 -> at_success a = true ->
              forall b, In b l2 -> at_target b <> at_target a)
       /\ (forall v,
              ~ In v (ss_compromised
                        (time_step (fun l => l) draws_low_high_low (graph triangle) []
                           (1 # 2)%Q 1 (start_state (asset_metadata triangle) "A"))) ->
              ss_raised (time_step (fun l => l) draws_low_high_low (graph triangle) []
                           (1 # 2)%Q 1 (start_state (asset_metadata triangle) "A")) = None ->
              map edge_of (attempts_on v new)
              = edges_into v
                  (step_edges (fun l => l) (graph triangle)
                     (ss_compromised (start_state (asset_metadata triangle) "A")))).
Proof.
  assert (H2 : forall l : list string, Permutation ((fun l => l) l) l)
    by (intros l; apply Permutation_refl).
  split; [reflexivity|]. split; [exact H2|].
  exact (step_attempts_stop_at_success (fun l => l) draws_low_high_low (graph triangle) []
           (1 # 2)%Q 1%Z (start_state (asset_metadata triangle) "A") eq_refl H2).
Defined.

(** C2 as stated fails.  In the triangle A -> B, A -> C, B -> C with
    probability 1/2 and draws 0.1, 0.9, 0.1, ...: step 1 compromises B and
    misses C.  Before step 2 the sources A and B are both compromised and C
    is not, so two edges lead into C; yet step 2 draws ONE attempt on C,
    because the first one succeeds and the second edge is then skipped.
    This holds whether the set is listed as A, B or as B, A. *)
Lemma second_attempt_skipped_counterexample :
  exists s1 s2 s2',
    sim_state (fun l => l) draws_low_high_low [[]] triangle "A" (1 # 2)%Q 1 = Some s1
    /\ sim_state (fun l => l) draws_low_high_low [[]] triangle "A" (1 # 2)%Q 2 = Some s2
    /\ sim_state (@rev string) draws_low_high_low [[]] triangle "A" (1 # 2)%Q 2 = Some s2'
    /\ ss_compromised s1 = ["A"; "B"]
    /\ edges_into "C" (step_edges (fun l => l) (graph triangle) (ss_compromised s1))
       = [("A", "C"); ("B", "C")]
    /\ map edge_of
         (attempts_on "C" (filter (fun a => Z.eqb (at_step a) 2) (ss_attempts s2)))
       = [("A", "C")]
    /\ map edge_of
         (attempts_on "C" (filter (fun a => Z.eqb (at_step a) 2) (ss_attempts s2')))
       = [("B", "C")]
    /\ ss_draws s2 = 3%nat /\ ss_draws s2' = 3%nat.
Proof.
  eexists. eexists. eexists.
  split; [vm_compute; reflexivity|]. split; [vm_compute; reflexivity|].
  split; [vm_compute; reflexivity|]. repeat split.
Qed.

(** ** Export and import *)

Lemma dict_mem_set {V : Type} (d : dict V) k k' v :
  dict_mem k' (dict_set k v d) = String.eqb k' k || dict_mem k' d.
Proof.
  unfold dict_mem. destruct (String.eqb_spec k' k) as [-> | Hne].
  - now rewrite dict_get_set_same.
  - now rewrite dict_get_set_other.
Qed.

Lemma dict_get_app {V : Type} (d1 d2 : dict V) k :
  dict_get k (d1 ++ d2)
  = match dict_get k d1 with Some v => Some v | None => dict_get k d2 end.
Proof.
  induction d1 as [|[k' v] r IH]; simpl; [reflexivity|].
  destruct (String.eqb k k'); [reflexivity | exact IH].
Qed.

Lemma in_graph_add_node x n g :
  in_graph x (add_node n g) = String.eqb x n || in_graph x g.
Proof.
  unfold add_node. destruct (in_graph n g) eqn:E.
  - destruct (String.eqb_spec x n) as [-> | _]; [now rewrite E | reflexivity].
  - unfold in_graph, dict_mem in *. rewrite dict_get_app. simpl.
    destruct (dict_get x g); [now rewrite orb_true_r|].
    destruct (String.eqb x n); reflexivity.
Qed.

Lemma in_graph_add_edge x u v d g :
  in_graph x (add_edge u v d g) = String.eqb x u || String.eqb x v || in_graph x g.
Proof.
  unfold add_edge, set_adj, in_graph. rewrite dict_mem_set.
  fold (in_graph x (add_node v (add_node u g))). rewrite !in_graph_add_node.
  destruct (String.eqb x u), (String.eqb x v); reflexivity.
Qed.

Lemma import_edge_in_graph e u v edge x :
  in_graph x (graph (import_edge e (u, v, edge)))
  = String.eqb x u || String.eqb x v || in_graph x (graph e).
Proof. unfold import_edge, add_connection. simpl. apply in_graph_add_edge. Qed.

Lemma import_edges_keep l : forall e x,
  in_graph x (graph e) = true -> in_graph x (graph (fold_left import_edge l e)) = true.
Proof.
  induction l as [|[[u v] edge] l IH]; intros e x H; cbn [fold_left]; [exact H|].
  apply IH. rewrite import_edge_in_graph, H. now rewrite orb_true_r.
Qed.

Lemma import_edges_endpoints l : forall e u v edge,
  In (u, v, edge) l ->
  in_graph u (graph (fold_left import_edge l e)) = true
  /\ in_graph v (graph (fold_left import_edge l e)) = true.
Proof.
  induction l as [|[[u0 v0] edge0] l IH]; intros e u v edge Hin; cbn [fold_left];
    [destruct Hin|].
  destruct Hin as [E | Hin]; [|now apply (IH _ u v edge)].
  inversion E; subst.
  split; apply import_edges_keep; rewrite import_edge_in_graph, String.eqb_refl;
    [reflexivity | now rewrite orb_true_r].
Qed.

Lemma import_edges_metadata l : forall e,
  asset_metadata (fold_left import_edge l e) = asset_metadata e.
Proof.
  induction l as [|[[u v] edge] l IH]; intros e; simpl; [reflexivity|]. now rewrite IH.
Qed.

Lemma import_nodes_records l : forall e k,
  dict_mem k (asset_metadata (fold_left import_node l e))
  = existsb (String.eqb k) (map fst l) || dict_mem k (asset_metadata e).
Proof.
  induction l as [|[node_id node] l IH]; intros e k; simpl; [reflexivity|].
  rewrite IH. unfold import_node, add_asset. simpl.
  rewrite dict_mem_set. destruct (String.eqb k node_id); simpl;
    [now rewrite orb_true_r | reflexivity].
Qed.

Lemma import_nodes_in_graph l : forall e k,
  in_graph k (graph (fold_left import_node l e))
  = existsb (String.eqb k) (map fst l) || in_graph k (graph e).
Proof.
  induction l as [|[node_id node] l IH]; intros e k; simpl; [reflexivity|].
  rewrite IH. unfold import_node, add_asset. simpl.
  rewrite in_graph_add_node. destruct (String.eqb k node_id); simpl;
    [now rewrite orb_true_r | reflexivity].
Qed.

Lemma import_node_frame e e' popped :
  graph e = graph e' -> asset_metadata e = asset_metadata e' ->
  graph (import_node e popped) = graph (import_node e' popped)
  /\ asset_metadata (import_node e popped) = asset_metadata (import_node e' popped).
Proof.
  intros Hg Hm. destruct popped as [node_id node].
  unfold import_node, add_asset. simpl. now rewrite Hg, Hm.
Qed.

Lemma import_edge_frame e e' read :
  graph e = graph e' -> asset_metadata e = asset_metadata e' ->
  graph (import_edge e read) = graph (import_edge e' read)
  /\ asset_metadata (import_edge e read) = asset_metadata (import_edge e' read).
Proof.
  intros Hg Hm. destruct read as [[u v] edge].
  unfold import_edge, add_connection. simpl. now rewrite Hg, Hm.
Qed.

Lemma fold_frame {X : Type} (f : Engine -> X -> Engine) :
  (forall e e' x, graph e = graph e' -> asset_metadata e = asset_metadata e' ->
                  graph (f e x) = graph (f e' x)
                  /\ asset_metadata (f e x) = asset_metadata (f e' x)) ->
  forall l e e',
    graph e = graph e' -> asset_metadata e = asset_metadata e' ->
    graph (fold_left f l e) = graph (fold_left f l e')
    /\ asset_metadata (fold_left f l e) = asset_metadata (fold_left f l e').
Proof.
  intros Hf. induction l as [|x l IH]; intros e e' Hg Hm; simpl; [auto|].
  destruct (Hf e e' x Hg Hm) as [Hg' Hm']. now apply IH.
Qed.

(** *** The loops and the entries they read *)

(** The node loop adds the entries before the first one without ["id"],
    pops the id of each of them, and raises exactly when there is one
    without. *)
Lemma import_nodes_read l : forall e,
  import_nodes e l
  = (fold_left import_node (read_nodes l) e,
     map snd (read_nodes l) ++ skipn (List.length (read_nodes l)) l,
     if forallb has_id l then Ok tt else KeyError "id").
Proof.
  induction l as [|node l IH]; intros e; [reflexivity|].
  cbn [import_nodes read_nodes forallb].
  replace (has_id node) with (match sn_id node with Some _ => true | None => false end)
    by reflexivity.
  destruct (sn_id node) as [node_id|]; [|reflexivity].
  rewrite IH. reflexivity.
Qed.

Lemma read_nodes_all l :
  forallb has_id l = true ->
  map fst (read_nodes l) = flat_map (fun node => match sn_id node with
                                                 | Some k => [k] | None => [] end) l
  /\ map snd (read_nodes l) ++ skipn (List.length (read_nodes l)) l = map pop_id l.
Proof.
  induction l as [|node l IH]; [now split|].
  cbn [forallb read_nodes flat_map map].
  replace (has_id node) with (match sn_id node with Some _ => true | None => false end)
    by reflexivity.
  destruct (sn_id node) as [node_id|]; [|discriminate].
  intros H. destruct (IH H) as [H1 H2]. cbn [map fst snd List.length skipn app].
  now rewrite H1, H2.
Qed.

Lemma In_ids l k :
  In k (flat_map (fun node => match sn_id node with Some k => [k] | None => [] end) l)
  <-> In (Some k) (map sn_id l).
Proof.
  induction l as [|node l IH]; [reflexivity|].
  cbn [flat_map map]. rewrite in_app_iff, IH. simpl.
  destruct (sn_id node) as [k'|]; simpl; split.
  - intros [[-> | []] | H]; auto.
  - intros [E | H]; [inversion E|]; auto.
  - intros [[] | H]; auto.
  - intros [E | H]; [discriminate | auto].
Qed.

Lemma import_edges_read l : forall e,
  fst (import_edges e l) = fold_left import_edge (read_edges l) e
  /\ (forallb has_endpoints l = true -> snd (import_edges e l) = Ok tt)
  /\ (forallb has_endpoints l = false ->
      snd (import_edges e l) = KeyError "source"
      \/ snd (import_edges e l) = KeyError "target").
Proof.
  induction l as [|edge l IH]; intros e.
  - split; [reflexivity|]. split; [reflexivity | discriminate].
  - cbn [import_edges read_edges forallb].
    replace (has_endpoints edge)
      with (match se_source edge, se_target edge with
            | Some _, Some _ => true | _, _ => false end) by reflexivity.
    destruct (se_source edge) as [u|]; [destruct (se_target edge) as [v|]|].
    + cbn [andb fold_left]. apply IH.
    + split; [reflexivity|]. split; [discriminate | now right].
    + split; [reflexivity|]. split; [discriminate | now left].
Qed.

Lemma read_edges_all l edge u v :
  forallb has_endpoints l = true ->
  In edge l -> se_source edge = Some u -> se_target edge = Some v ->
  In (u, v, edge) (read_edges l).
Proof.
  induction l as [|edge0 l IH]; intros H Hin Hu Hv; [destruct Hin|].
  cbn [forallb read_edges] in *.
  replace (has_endpoints edge0)
    with (match se_source edge0, se_target edge0 with
          | Some _, Some _ => true | _, _ => false end) in H by reflexivity.
  destruct Hin as [-> | Hin].
  - rewrite Hu, Hv. now left.
  - destruct (se_source edge0); [|discriminate].
    destruct (se_target edge0); [|discriminate]. right. now apply IH.
Qed.

Lemma import_edges_outcome l : forall e1 e2,
  snd (import_edges e1 l) = snd (import_edges e2 l).
Proof.
  induction l as [|edge l IH]; intros e1 e2; [reflexivity|].
  cbn [import_edges]. destruct (se_source edge); [|reflexivity].
  destruct (se_target edge); [apply IH | reflexivity].
Qed.

Lemma read_nodes_listed l k :
  In k (map fst (read_nodes l)) -> In (Some k) (map sn_id l).
Proof.
  induction l as [|node l IH]; [intros []|].
  cbn [read_nodes map]. destruct (sn_id node) as [k'|]; [|intros []].
  cbn [map fst]. intros [-> | H]; [now left | right; now apply IH].
Qed.

Lemma read_edges_listed l k :
  In k (map (fun r => fst (fst r)) (read_edges l))
  \/ In k (map (fun r => snd (fst r)) (read_edges l)) ->
  In (Some k) (map se_source l) \/ In (Some k) (map se_target l).
Proof.
  induction l as [|edge l IH]; [intros [[] | []]|].
  cbn [read_edges map]. destruct (se_source edge) as [u|]; [|intros [[] | []]].
  destruct (se_target edge) as [v|]; [|intros [[] | []]].
  cbn [map fst snd]. intros [[-> | H] | [-> | H]].
  - left. now left.
  - destruct IH as [IH | IH]; [now left | left; now right | right; now right].
  - right. now left.
  - destruct IH as [IH | IH]; [now right | left; now right | right; now right].
Qed.

Lemma import_edges_nodes_from l : forall e k,
  in_graph k (graph (fold_left import_edge l e)) = true ->
  (In k (map (fun r => fst (fst r)) l) \/ In k (map (fun r => snd (fst r)) l))
  \/ in_graph k (graph e) = true.
Proof.
  induction l as [|[[u v] edge] l IH]; intros e k H; [now right|].
  cbn [fold_left] in H. apply IH in H as [[H | H] | H].
  - left. left. now right.
  - left. right. now right.
  - rewrite import_edge_in_graph in H.
    destruct (String.eqb k u) eqn:Eu;
      [apply String.eqb_eq in Eu; left; left; left; now rewrite Eu|].
    destruct (String.eqb k v) eqn:Ev;
      [apply String.eqb_eq in Ev; left; right; left; now rewrite Ev|].
    right. exact H.
Qed.

(** Both loops: what was added, the caller's node list, the outcome. *)
Lemma import_entries_engine e data :
  fst (fst (import_entries e data))
  = fold_left import_edge (edges_reached data)
      (fold_left import_node (read_nodes (snap_nodes data)) e).
Proof.
  unfold import_entries, edges_reached. rewrite import_nodes_read.
  destruct (forallb has_id (snap_nodes data)); [|reflexivity].
  pose proof (proj1 (import_edges_read (snap_edges data)
                       (fold_left import_node (read_nodes (snap_nodes data)) e))) as H.
  destruct (import_edges _ (snap_edges data)) as [e3 out]. exact H.
Qed.

Lemma import_entries_nodes e data :
  snd (fst (import_entries e data))
  = map snd (read_nodes (snap_nodes data))
    ++ skipn (List.length (read_nodes (snap_nodes data))) (snap_nodes data).
Proof.
  unfold import_entries. rewrite import_nodes_read.
  destruct (forallb has_id (snap_nodes data)); [|reflexivity].
  destruct (import_edges _ (snap_edges data)) as [e3 out]. reflexivity.
Qed.

Lemma import_entries_outcome e data :
  snd (import_entries e data) = import_outcome data
  /\ (keys_present data = true -> snd (import_entries e data) = Ok tt)
  /\ (keys_present data = false ->
      snd (import_entries e data) = KeyError "id"
      \/ snd (import_entries e data) = KeyError "source"
      \/ snd (import_entries e data) = KeyError "target").
Proof.
  unfold import_outcome, import_entries, keys_present. rewrite !import_nodes_read.
  destruct (forallb has_id (snap_nodes data)); cbn [andb].
  - pose proof (import_edges_outcome (snap_edges data)
                  (fold_left import_node (read_nodes (snap_nodes data)) e)
                  (fold_left import_node (read_nodes (snap_nodes data)) blank)) as Ho.
    destruct (import_edges_read (snap_edges data)
                (fold_left import_node (read_nodes (snap_nodes data)) e))
      as [_ [H2 H3]].
    destruct (import_edges (fold_left import_node (read_nodes (snap_nodes data)) e)
                (snap_edges data)) as [e3 out].
    destruct (import_edges (fold_left import_node (read_nodes (snap_nodes data)) blank)
                (snap_edges data)) as [e3' out'].
    cbn [fst snd] in *. split; [exact Ho|]. split; [exact H2|].
    intros H. right. exact (H3 H).
  - cbn [snd]. split; [reflexivity|]. split; [discriminate | now left].
Qed.

Lemma heap_get_cleared h l : heap_get (heap_set h l []) l = [].
Proof.
  unfold heap_get. revert l. induction h as [|x h IH]; intros [|l]; simpl; auto.
Qed.

Lemma heap_get_alloc_empty h l : heap_get h l = [] -> heap_get (h ++ [[]]) l = [].
Proof.
  unfold heap_get. revert l. induction h as [|x h IH]; intros [|l]; simpl; auto.
  destruct l; reflexivity.
Qed.

Lemma import_nodes_dictionary l : forall e,
  vulnerability_data (fold_left import_node l e) = vulnerability_data e.
Proof.
  induction l as [|[k n] l IH]; intros e; cbn [fold_left]; [reflexivity|].
  now rewrite IH.
Qed.

Lemma import_edges_dictionary l : forall e,
  vulnerability_data (fold_left import_edge l e) = vulnerability_data e.
Proof.
  induction l as [|[[u v] edge] l IH]; intros e; cbn [fold_left]; [reflexivity|].
  now rewrite IH.
Qed.

(** The run of [import_from_dict] in terms of the two loops. *)
Lemma import_from_dict_run h e data :
  let cleared := {| graph := []; asset_metadata := [];
                    vulnerability_data := vulnerability_data e |} in
  let run := import_from_dict h e data in
  graph (ir_engine run) = graph (fst (fst (import_entries cleared data)))
  /\ asset_metadata (ir_engine run)
     = asset_metadata (fst (fst (import_entries cleared data)))
  /\ snap_nodes (ir_data run) = snd (fst (import_entries cleared data))
  /\ ir_outcome run = snd (import_entries cleared data)
  /\ heap_get (ir_heap run) (vulnerability_data e) = []
  /\ (keys_present data = false ->
      ir_heap run = heap_set h (vulnerability_data e) []
      /\ vulnerability_data (ir_engine run) = vulnerability_data e).
Proof.
  intros cleared run. subst run. unfold import_from_dict. fold cleared.
  pose proof (import_entries_outcome cleared data) as [_ [_ Hbad]].
  pose proof (import_entries_engine cleared data) as He.
  destruct (import_entries cleared data) as [[e3 nodes'] out]. cbn [fst snd] in *.
  assert (Hv : vulnerability_data e3 = vulnerability_data e).
  { rewrite He. now rewrite import_edges_dictionary, import_nodes_dictionary. }
  pose proof (heap_get_cleared h (vulnerability_data e)) as Hclr.
  destruct out as [[]|m|k].
  - assert (Hk : keys_present data = false -> False).
    { intros H. destruct (Hbad H) as [H1 | [H1 | H1]]; discriminate. }
    destruct (snap_vulnerabilities data) as [l|]; cbn.
    + split; [reflexivity|]. split; [reflexivity|]. split; [reflexivity|].
      split; [reflexivity|]. split; [exact Hclr|]. intros H. destruct (Hk H).
    + split; [reflexivity|]. split; [reflexivity|]. split; [reflexivity|].
      split; [reflexivity|]. split; [now apply heap_get_alloc_empty|].
      intros H. destruct (Hk H).
  - cbn. split; [reflexivity|]. split; [reflexivity|]. split; [reflexivity|].
    split; [reflexivity|]. split; [exact Hclr|]. intros _. split; [reflexivity | exact Hv].
  - cbn. split; [reflexivity|]. split; [reflexivity|]. split; [reflexivity|].
    split; [reflexivity|]. split; [exact Hclr|]. intros _. split; [reflexivity | exact Hv].
Qed.

Lemma import_from_dict_imported h e data :
  graph (ir_engine (import_from_dict h e data)) = graph (imported data)
  /\ asset_metadata (ir_engine (import_from_dict h e data))
     = asset_metadata (imported data).
Proof.
  destruct (import_from_dict_run h e data) as [Hg [Hm _]]. rewrite Hg, Hm.
  unfold imported. rewrite !import_entries_engine.
  apply (fold_frame import_edge import_edge_frame);
    apply (fold_frame import_node import_node_frame); reflexivity.
Qed.

(** What an import leaves in the engine, whatever the snapshot and however
    the import ends. *)
Lemma imported_read data :
  imported data
  = fold_left import_edge (edges_reached data)
      (fold_left import_node (read_nodes (snap_nodes data)) blank).
Proof. apply import_entries_engine. Qed.

(** C3, as the code has it.  [import_from_dict] performs no consistency
    check.  It clears the engine first: what the engine holds afterwards
    comes from the snapshot alone (every record is of a listed id, every
    node a listed id or an endpoint of a listed edge), and so does the way
    the call ends; the dictionary the engine held is left empty.  A
    snapshot whose node entries all have an id and whose edge entries all
    have a source and a target is never rejected, an edge to an unlisted
    node and repeated node ids included: the call returns, every edge
    endpoint is a node of the result, listed or not, exactly the listed ids
    carry a metadata record, and the caller's node entries have lost their
    ["id"].  The only rejection is the [KeyError] of a node entry without
    ["id"] or an edge entry without ["source"] or ["target"]; it comes
    after the clearing and restores nothing: the engine is left with the
    emptied dictionary and with the entries added so far, the nodes read
    before the faulty entry among them. *)
Theorem import_replaces_without_validation (h : Heap) (e : Engine) (data : Snapshot) :
  let run := import_from_dict h e data in
  (graph (ir_engine run) = graph (imported data)
   /\ asset_metadata (ir_engine run) = asset_metadata (imported data)
   /\ ir_outcome run = import_outcome data
   /\ heap_get (ir_heap run) (vulnerability_data e) = []
   /\ (forall k, dict_mem k (asset_metadata (ir_engine run)) = true ->
                 In (Some k) (map sn_id (snap_nodes data)))
   /\ (forall k, in_graph k (graph (ir_engine run)) = true ->
                 In (Some k) (map sn_id (snap_nodes data))
                 \/ In (Some k) (map se_source (snap_edges data))
                 \/ In (Some k) (map se_target (snap_edges data))))
  /\ (keys_present data = true ->
      ir_outcome run = Ok tt
      /\ (forall edge u v,
             In edge (snap_edges data) ->
             se_source edge = Some u -> se_target edge = Some v ->
             in_graph u (graph (ir_engine run)) = true
             /\ in_graph v (graph (ir_engine run)) = true)
      /\ (forall k, In (Some k) (map sn_id (snap_nodes data)) ->
                    dict_mem k (asset_metadata (ir_engine run)) = true
                    /\ in_graph k (graph (ir_engine run)) = true)
      /\ snap_nodes (ir_data run) = map pop_id (snap_nodes data))
  /\ (keys_present data = false ->
      (ir_outcome run = KeyError "id"
       \/ ir_outcome run = KeyError "source"
       \/ ir_outcome run = KeyError "target")
      /\ ir_heap run = heap_set h (vulnerability_data e) []
      /\ vulnerability_data (ir_engine run) = vulnerability_data e
      /\ (forall k, In k (map fst (read_nodes (snap_nodes data))) ->
                    dict_mem k (asset_metadata (ir_engine run)) = true
                    /\ in_graph k (graph (ir_engine run)) = true)).
Proof.
  intros run. subst run.
  destruct (import_from_dict_imported h e data) as [Hg Hm].
  destruct (import_from_dict_run h e data) as [_ [_ [Hn [Ho [Hh Hf]]]]].
  destruct (import_entries_outcome
              {| graph := []; asset_metadata := [];
                 vulnerability_data := vulnerability_data e |} data)
    as [Ho1 [Ho2 Ho3]].
  rewrite Hg, Hm, Ho, Hn, import_entries_nodes. rewrite imported_read.
  split; [|split].
  - split; [reflexivity|]. split; [reflexivity|]. split; [exact Ho1|].
    split; [exact Hh|]. split.
    + intros k. rewrite import_edges_metadata, import_nodes_records. simpl.
      rewrite orb_false_r. intros H. apply (mem_In k) in H.
      now apply read_nodes_listed.
    + intros k H. apply import_edges_nodes_from in H as [H | H].
      * right. unfold edges_reached in H.
        destruct (forallb has_id (snap_nodes data)); [|destruct H as [[]|[]]].
        now apply read_edges_listed.
      * rewrite import_nodes_in_graph in H. simpl in H. rewrite orb_false_r in H.
        left. apply (mem_In k) in H. now apply read_nodes_listed.
  - intros Hk. split; [exact (Ho2 Hk)|].
    unfold keys_present in Hk. apply andb_prop in Hk as [Hk1 Hk2].
    destruct (read_nodes_all _ Hk1) as [Hids Hpop].
    unfold edges_reached. rewrite Hk1. split; [|split].
    + intros edge u v Hin Hu Hv. apply (import_edges_endpoints _ _ u v edge).
      now apply read_edges_all.
    + intros k Hin. apply In_ids in Hin. rewrite <- Hids in Hin.
      apply (mem_In k) in Hin. unfold mem in Hin. split.
      * rewrite import_edges_metadata, import_nodes_records. now rewrite Hin.
      * apply import_edges_keep. rewrite import_nodes_in_graph. now rewrite Hin.
    + exact Hpop.
  - intros Hk. destruct (Hf Hk) as [Hh' Hv].
    split; [exact (Ho3 Hk)|]. split; [exact Hh'|]. split; [exact Hv|].
    intros k Hin. apply (mem_In k) in Hin. unfold mem in Hin. split.
    + rewrite import_edges_metadata, import_nodes_records. now rewrite Hin.
    + apply import_edges_keep. rewrite import_nodes_in_graph. now rewrite Hin.
Qed.

Lemma import_replaces_without_validation_witness :
  (keys_present malformed_snapshot = true
   /\ ~ In (Some "Y") (map sn_id (snap_nodes malformed_snapshot))
   /\ ir_outcome (import_from_dict heap_B_vulnerable scenario_AB malformed_snapshot)
      = Ok tt
   /\ in_graph "Y"
        (graph (ir_engine (import_from_dict heap_B_vulnerable scenario_AB
                             malformed_snapshot)))
      = true
   /\ dict_mem "Y"
        (asset_metadata (ir_engine (import_from_dict heap_B_vulnerable scenario_AB
                                      malformed_snapshot)))
      <> true)
  /\ (keys_present snapshot_without_id = false
      /\ (ir_outcome (import_from_dict heap_B_vulnerable scenario_AB snapshot_without_id)
          = KeyError "id"
          \/ ir_outcome (import_from_dict heap_B_vulnerable scenario_AB
                           snapshot_without_id)
             = KeyError "source"
          \/ ir_outcome (import_from_dict heap_B_vulnerable scenario_AB
                           snapshot_without_id)
             = KeyError "target")
      /\ in_graph "A"
           (graph (ir_engine (import_from_dict heap_B_vulnerable scenario_AB
                                snapshot_without_id)))
         <> true
      /\ in_graph "X"
           (graph (ir_engine (import_from_dict heap_B_vulnerable scenario_AB
                                snapshot_without_id)))
         = true).
Proof.
  split.
  - pose proof (import_replaces_without_validation heap_B_vulnerable scenario_AB
                  malformed_snapshot) as [[_ [_ [_ [_ [Hrec _]]]]] [Hok _]].
    assert (Hk : keys_present malformed_snapshot = true) by reflexivity.
    destruct (Hok Hk) as [Hout [Hedges _]].
    assert (Hy : ~ In (Some "Y") (map sn_id (snap_nodes malformed_snapshot))).
    { simpl. intros [H | [H | []]]; discriminate. }
    split; [exact Hk|]. split; [exact Hy|]. split; [exact Hout|]. split.
    + refine (proj2 (Hedges _ "X" "Y" (or_introl eq_refl) eq_refl eq_refl)).
    + intros H. apply Hy. now apply Hrec.
  - pose proof (import_replaces_without_validation heap_B_vulnerable scenario_AB
                  snapshot_without_id) as [[_ [_ [_ [_ [_ Hnodes]]]]] [_ Hbad]].
    assert (Hk : keys_present snapshot_without_id = false) by reflexivity.
    destruct (Hbad Hk) as [Hout [_ [_ Hread]]].
    split; [exact Hk|]. split; [exact Hout|]. split.
    + intros H. apply Hnodes in H. simpl in H.
      destruct H as [[H | [H | []]] | [[H | []] | [H | []]]]; discriminate.
    + exact (proj2 (Hread "X" (or_introl eq_refl))).
Defined.

(** C3 as stated fails: a snapshot with a repeated node id and an edge to
    an unlisted node is imported, not rejected, and the prior state is
    gone: the earlier nodes A and B have disappeared, the store's
    vulnerability dictionary of the engine has been emptied, and the
    unlisted endpoint Y has become a node. *)
Lemma malformed_import_accepted_counterexample :
  exists h' e' data',
    import_from_dict heap_B_vulnerable scenario_AB malformed_snapshot
    = {| ir_heap := h'; ir_engine := e'; ir_data := data'; ir_outcome := Ok tt |}
    /\ ~ NoDup (map sn_id (snap_nodes malformed_snapshot))
    /\ ~ In (Some "Y") (map sn_id (snap_nodes malformed_snapshot))
    /\ e' <> scenario_AB
    /\ nodes (graph e') = ["X"; "Y"]
    /\ in_graph "A" (graph e') = false
    /\ heap_get heap_B_vulnerable (vulnerability_data scenario_AB) <> []
    /\ heap_get h' (vulnerability_data scenario_AB) = [].
Proof.
  eexists. eexists. eexists. split; [vm_compute; reflexivity|].
  split; [|split; [|split; [|repeat split]]].
  - simpl. intros H. inversion H as [|? ? Hn _]; subst. apply Hn. now left.
  - simpl. intros [H | [H | []]]; discriminate.
  - discriminate.
  - discriminate.
Qed.

(** Where the import does reject, it is not all-or-nothing either: at a
    node entry without ["id"] the call raises after the engine has been
    cleared and the first entry added.  The nodes A and B and the
    vulnerability of B are gone, X is there, and the caller's first node
    entry has lost its id. *)
Example rejected_import_loses_prior_state :
  exists h' e' data',
    import_from_dict heap_B_vulnerable scenario_AB snapshot_without_id
    = {| ir_heap := h'; ir_engine := e'; ir_data := data';
         ir_outcome := KeyError "id" |}
    /\ nodes (graph e') = ["X"]
    /\ map fst (asset_metadata e') = ["X"]
    /\ vulns_of heap_B_vulnerable scenario_AB <> []
    /\ vulns_of h' e' = []
    /\ map sn_id (snap_nodes snapshot_without_id) = [Some "X"; None]
    /\ map sn_id (snap_nodes data') = [None; None].
Proof.
  eexists. eexists. eexists. split; [vm_compute; reflexivity|].
  repeat split. discriminate.
Qed.

(** The caller's snapshot is changed by the import: a second import of
    the same snapshot finds no ["id"] in its first node entry. *)
Example second_import_of_same_snapshot :
  let run := import_from_dict heap_B_vulnerable scenario_AB malformed_snapshot in
  ir_outcome run = Ok tt
  /\ ir_outcome (import_from_dict (ir_heap run) (ir_engine run) (ir_data run))
     = KeyError "id".
Proof. split; reflexivity. Qed.

(** C6, evaluated where it fails.  [export_to_dict] hands out the engine's
    vulnerability dictionary itself; importing that snapshot into the same
    engine first clears this dictionary and then rebinds it: nodes and
    edges are reproduced, the vulnerability map is lost. *)
Theorem self_import_loses_vulnerabilities :
  exists h' e' data',
    import_from_dict heap_B_vulnerable scenario_AB (export_to_dict scenario_AB)
    = {| ir_heap := h'; ir_engine := e'; ir_data := data'; ir_outcome := Ok tt |}
    /\ nodes (graph e') = nodes (graph scenario_AB)
    /\ edges (graph e') = edges (graph scenario_AB)
    /\ vulns_of heap_B_vulnerable scenario_AB
       = [("B", [{| cve_id := "CVE-2024-1234"; cvss_score := 10%Q;
                    exploitable := true; network_exploitable := true |}])]
    /\ vulns_of h' e' = [].
Proof.
  eexists. eexists. eexists. split; [vm_compute; reflexivity|]. repeat split.
Qed.

(** The same snapshot imported into a freshly constructed engine, whose
    dictionary is another object, reproduces all three. *)
Example fresh_import_keeps_vulnerabilities :
  exists h1 e1 h' e' data',
    init_engine heap_B_vulnerable = (h1, e1)
    /\ import_from_dict h1 e1 (export_to_dict scenario_AB)
       = {| ir_heap := h'; ir_engine := e'; ir_data := data'; ir_outcome := Ok tt |}
    /\ nodes (graph e') = nodes (graph scenario_AB)
    /\ edges (graph e') = edges (graph scenario_AB)
    /\ vulns_of h' e' = vulns_of heap_B_vulnerable scenario_AB.
Proof.
  eexists. eexists. eexists. eexists. eexists.
  split; [reflexivity|]. split; [vm_compute; reflexivity|]. repeat split.
Qed.

(** ** Well-formed engines *)

Section DictAppFacts.
Context {V : Type}.
Implicit Types (d : dict V) (k : string).

Lemma dict_get_notin k d : ~ In k (dict_keys d) -> dict_get k d = None.
Proof.
  intros H. destruct (dict_get k d) eqn:E; [|reflexivity].
  exfalso. apply H. apply dict_mem_In. unfold dict_mem. now rewrite E.
Qed.

Lemma dict_set_notin k v d : ~ In k (dict_keys d) -> dict_set k v d = d ++ [(k, v)].
Proof.
  induction d as [|[k' v'] r IH]; simpl; intros H; [reflexivity|].
  destruct (String.eqb_spec k k') as [-> | Hne]; [exfalso; apply H; now left|].
  f_equal. apply IH. intros Hin. apply H. now right.
Qed.

Lemma dict_set_app_r k v d1 d2 :
  ~ In k (dict_keys d1) -> dict_set k v (d1 ++ d2) = d1 ++ dict_set k v d2.
Proof.
  induction d1 as [|[k' v'] r IH]; simpl; intros H; [reflexivity|].
  destruct (String.eqb_spec k k') as [-> | Hne]; [exfalso; apply H; now left|].
  f_equal. apply IH. intros Hin. apply H. now right.
Qed.

Lemma dict_get_app_r k d1 d2 :
  ~ In k (dict_keys d1) -> dict_get k (d1 ++ d2) = dict_get k d2.
Proof.
  intros H. rewrite dict_get_app. now rewrite (dict_get_notin _ _ H).
Qed.

End DictAppFacts.

Section DictSetFacts.
Context {V : Type}.
Implicit Types (d : dict V) (k : string).

Lemma dict_set_In k v d k' v' :
  In (k', v') (dict_set k v d) -> (k' = k /\ v' = v) \/ In (k', v') d.
Proof.
  induction d as [|[k0 v0] r IH]; simpl.
  - intros [E | []]. inversion E. auto.
  - destruct (String.eqb k k0); simpl.
    + intros [E | H]; [inversion E; auto | auto].
    + intros [E | H]; [auto|]. destruct (IH H); auto.
Qed.

Lemma dict_set_keys k v d w :
  In w (dict_keys (dict_set k v d)) -> w = k \/ In w (dict_keys d).
Proof.
  unfold dict_keys. intros H. apply in_map_iff in H as [[k' v'] [<- H]].
  apply dict_set_In in H as [[-> _] | H]; [now left|].
  right. apply in_map_iff. now exists (k', v').
Qed.

Lemma dict_set_keys_NoDup k v d :
  NoDup (dict_keys d) -> NoDup (dict_keys (dict_set k v d)).
Proof.
  intros Hnd. destruct (dict_mem k d) eqn:E.
  - now rewrite dict_keys_set_present.
  - assert (Hk : ~ In k (dict_keys d)).
    { intros H. apply dict_mem_In in H. congruence. }
    rewrite (dict_set_notin _ _ _ Hk). unfold dict_keys. rewrite map_app. simpl.
    apply NoDup_app; [exact Hnd | repeat constructor; intros [] |].
    intros a Ha [<- | []]. now apply Hk.
Qed.

Lemma dict_get_In k d v : dict_get k d = Some v -> In (k, v) d.
Proof.
  induction d as [|[k0 v0] r IH]; simpl; [discriminate|].
  destruct (String.eqb_spec k k0) as [-> | Hne].
  - intros E. inversion E. now left.
  - intros E. right. now apply IH.
Qed.

End DictSetFacts.

Lemma wf_graph_nil : wf_graph [].
Proof. split; [constructor | intros u a []]. Qed.

Lemma wf_graph_add_node n g : wf_graph g -> wf_graph (add_node n g).
Proof.
  intros [Hnd Hwf]. unfold add_node. destruct (in_graph n g) eqn:E; [now split|].
  assert (Hn : ~ In n (dict_keys g)).
  { intros H. apply dict_mem_In in H. unfold in_graph in E. congruence. }
  split.
  - unfold dict_keys. rewrite map_app. simpl.
    apply NoDup_app; [exact Hnd | repeat constructor; intros [] |].
    intros a Ha [<- | []]. now apply Hn.
  - intros u a Hin. apply in_app_iff in Hin as [Hin | [E' | []]].
    + destruct (Hwf u a Hin) as [H1 [H2 H3]]. split; [exact H1|]. split; [|exact H3].
      intros v Hv. unfold dict_keys. rewrite map_app. apply in_or_app. left. now apply H2.
    + inversion E'; subst. split; [constructor|]. split; [intros v [] | intros v d []].
Qed.

Lemma wf_graph_add_edge u v d g :
  ed_protocols d <> [] -> wf_graph g -> wf_graph (add_edge u v d g).
Proof.
  intros Hp Hg. unfold add_edge.
  pose proof (wf_graph_add_node v _ (wf_graph_add_node u _ Hg)) as [Hnd Hwf].
  set (g2 := add_node v (add_node u g)) in *.
  assert (Hu : in_graph u g2 = true).
  { unfold g2. rewrite !in_graph_add_node, String.eqb_refl. now rewrite orb_true_r. }
  assert (Hv : In v (dict_keys g2)).
  { apply dict_mem_In. fold (in_graph v g2). unfold g2.
    rewrite in_graph_add_node, String.eqb_refl. reflexivity. }
  assert (Hadj : NoDup (dict_keys (adj g2 u))
                 /\ (forall w, In w (dict_keys (adj g2 u)) -> In w (dict_keys g2))
                 /\ (forall w d', In (w, d') (adj g2 u) -> ed_protocols d' <> [])).
  { unfold adj. destruct (dict_get u g2) as [a|] eqn:E.
    - apply dict_get_In in E. now apply Hwf in E.
    - split; [constructor|]. split; [intros w [] | intros w d' []]. }
  destruct Hadj as [A1 [A2 A3]].
  unfold set_adj. split.
  - now rewrite dict_keys_set_present.
  - intros u' a' Hin. rewrite dict_keys_set_present by exact Hu.
    apply dict_set_In in Hin as [[-> ->] | Hin]; [|exact (Hwf u' a' Hin)].
    split; [now apply dict_set_keys_NoDup|]. split.
    + intros w Hw. apply dict_set_keys in Hw as [-> | Hw]; auto.
    + intros w d' Hd. apply dict_set_In in Hd as [[_ ->] | Hd]; eauto.
Qed.

Lemma protocols_or_tcp_nonempty p : protocols_or_tcp p <> [].
Proof. destruct p as [[|x l]|]; discriminate. Qed.

(** The ingestion operations keep the engine well formed. *)
Lemma wf_engine_add_asset e asset_id asset_type name criticality zone metadata :
  wf_engine e ->
  wf_engine (add_asset e asset_id asset_type name criticality zone metadata).
Proof.
  intros [Hg Hid]. split; simpl.
  - now apply wf_graph_add_node.
  - intros k m. destruct (String.eqb_spec k asset_id) as [-> | Hne].
    + rewrite dict_get_set_same. intros E. inversion E. reflexivity.
    + rewrite dict_get_set_other by exact Hne. apply Hid.
Qed.

Lemma wf_engine_add_connection e source_id target_id connection_type protocols weight
    bidirectional :
  wf_engine e ->
  wf_engine (add_connection e source_id target_id connection_type protocols weight
               bidirectional).
Proof.
  intros [Hg Hid]. split; simpl; [|exact Hid].
  destruct bidirectional; repeat apply wf_graph_add_edge; simpl;
    auto using protocols_or_tcp_nonempty.
Qed.

Lemma wf_engine_fold {X : Type} (f : Engine -> X -> Engine) :
  (forall e x, wf_engine e -> wf_engine (f e x)) ->
  forall l e, wf_engine e -> wf_engine (fold_left f l e).
Proof.
  intros Hf. induction l as [|x l IH]; intros e He; simpl; auto.
Qed.

(** Whatever is imported, the engine is well formed afterwards. *)
Lemma wf_engine_import h e data : wf_engine (ir_engine (import_from_dict h e data)).
Proof.
  destruct (import_from_dict_imported h e data) as [Hg Hm].
  assert (Hw : wf_engine (imported data)).
  { rewrite imported_read. apply wf_engine_fold.
    - intros e' [[u v] edge]. apply wf_engine_add_connection.
    - apply wf_engine_fold.
      + intros e' [node_id node]. apply wf_engine_add_asset.
      + split; [apply wf_graph_nil | intros k m; discriminate]. }
  destruct Hw as [H1 H2]. split; [now rewrite Hg | now rewrite Hm].
Qed.

(** ** Round trip of a well-formed engine *)

Lemma heap_get_set_other h l l' d : l <> l' -> heap_get (heap_set h l d) l' = heap_get h l'.
Proof.
  unfold heap_get. revert l l'. induction h as [|x h IH]; intros l l' Hne; simpl.
  - reflexivity.
  - destruct l, l'; simpl; try congruence. apply IH. congruence.
Qed.

Lemma heap_get_set_same h l d : (l < List.length h)%nat -> heap_get (heap_set h l d) l = d.
Proof.
  unfold heap_get. revert l. induction h as [|x h IH]; intros l Hl; simpl in *; [lia|].
  destruct l; simpl; [reflexivity|]. apply IH. lia.
Qed.

(** *** Nodes *)

Lemma add_nodes_bare ns : forall g0,
  NoDup (dict_keys g0 ++ ns) ->
  fold_left (fun g n => add_node n g) ns g0 = g0 ++ map bare ns.
Proof.
  induction ns as [|n ns IH]; intros g0 Hnd; simpl.
  - now rewrite app_nil_r.
  - assert (Hn : in_graph n g0 = false).
    { destruct (in_graph n g0) eqn:E; [|reflexivity]. exfalso.
      apply dict_mem_In in E. apply NoDup_remove_2 in Hnd. apply Hnd.
      apply in_or_app. now left. }
    unfold add_node at 2. rewrite Hn. rewrite IH.
    + rewrite <- app_assoc. reflexivity.
    + unfold dict_keys. rewrite map_app. simpl. rewrite <- app_assoc. exact Hnd.
Qed.

Lemma import_nodes_graph l : forall e,
  graph (fold_left import_node l e)
  = fold_left (fun g n => add_node n g) (map fst l) (graph e).
Proof.
  induction l as [|[node_id node] l IH]; intros e; cbn [fold_left map fst];
    [reflexivity|].
  now rewrite IH.
Qed.

Lemma export_node_id meta n :
  (forall k m, dict_get k meta = Some m -> am_id m = k) ->
  sn_id (export_node meta n) = Some n.
Proof.
  intros H. unfold export_node. destruct (dict_get n meta) eqn:E; simpl; auto.
  f_equal. auto.
Qed.

(** An export has every key: the loops read all of it. *)
Lemma read_nodes_export meta ns :
  (forall k m, dict_get k meta = Some m -> am_id m = k) ->
  read_nodes (map (export_node meta) ns)
  = map (fun n => (n, pop_id (export_node meta n))) ns.
Proof.
  intros H. induction ns as [|n ns IH]; [reflexivity|].
  cbn [map read_nodes]. rewrite (export_node_id meta n H). now rewrite IH.
Qed.

Lemma read_edges_export es :
  read_edges (map export_edge es) = map (fun x => (fst (fst x), snd (fst x), export_edge x)) es.
Proof.
  induction es as [|[[u v] d] es IH]; [reflexivity|].
  cbn [map read_edges export_edge se_source se_target fst snd]. now rewrite IH.
Qed.

Lemma has_id_export meta ns : forallb has_id (map (export_node meta) ns) = true.
Proof.
  apply forallb_forall. intros x Hx. apply in_map_iff in Hx as [n [<- _]].
  unfold has_id, export_node. now destruct (dict_get n meta).
Qed.

Lemma keys_present_export e : keys_present (export_to_dict e) = true.
Proof.
  unfold keys_present, export_to_dict. cbn [snap_nodes snap_edges].
  rewrite has_id_export. apply forallb_forall.
  intros x Hx. apply in_map_iff in Hx as [[[u v] d] [<- _]]. reflexivity.
Qed.

(** What the import of an export adds. *)
Lemma imported_export e :
  wf_engine e ->
  imported (export_to_dict e)
  = fold_left import_edge
      (map (fun x => (fst (fst x), snd (fst x), export_edge x)) (edges (graph e)))
      (fold_left import_node
         (map (fun n => (n, pop_id (export_node (asset_metadata e) n))) (nodes (graph e)))
         blank).
Proof.
  intros [Hg Hid]. rewrite imported_read. unfold edges_reached, export_to_dict.
  cbn [snap_nodes snap_edges]. rewrite has_id_export.
  now rewrite read_edges_export, (read_nodes_export _ _ Hid).
Qed.

(** *** Edges *)

Lemma import_export_edge e u v d :
  ed_protocols d <> [] ->
  graph (import_edge e (u, v, export_edge (u, v, d))) = add_edge u v d (graph e).
Proof.
  intros Hp. unfold import_edge, export_edge, add_connection. simpl.
  destruct d as [ty pr w]. simpl in *. destruct pr; [congruence | reflexivity].
Qed.

Lemma import_edges_graph es : forall e,
  (forall u v d, In (u, v, d) es -> ed_protocols d <> []) ->
  graph (fold_left import_edge
           (map (fun x => (fst (fst x), snd (fst x), export_edge x)) es) e)
  = fold_left (fun g '(u, v, d) => add_edge u v d g) es (graph e).
Proof.
  induction es as [|[[u v] d] es IH]; intros e Hp; [reflexivity|].
  cbn [map fold_left]. rewrite IH.
  - rewrite import_export_edge; [reflexivity|]. eapply Hp. now left.
  - intros u' v' d' H. eapply Hp. right. exact H.
Qed.

Lemma add_edge_known pre post u a1 v d :
  ~ In u (dict_keys pre) ->
  ~ In v (dict_keys a1) ->
  In v (dict_keys (pre ++ (u, a1) :: post)) ->
  add_edge u v d (pre ++ (u, a1) :: post) = pre ++ (u, a1 ++ [(v, d)]) :: post.
Proof.
  intros Hu Hv Hin. unfold add_edge.
  assert (Hug : in_graph u (pre ++ (u, a1) :: post) = true).
  { apply dict_mem_In. unfold dict_keys. rewrite map_app. apply in_or_app. right. now left. }
  rewrite (add_node_present _ _ Hug).
  rewrite add_node_present by (now apply dict_mem_In).
  unfold set_adj, adj. rewrite (dict_get_app_r _ _ _ Hu). simpl. rewrite String.eqb_refl.
  rewrite (dict_set_app_r _ _ _ _ Hu). simpl. rewrite String.eqb_refl.
  now rewrite (dict_set_notin _ _ _ Hv).
Qed.

Lemma add_edges_of_node pre post u : forall a2 a1,
  ~ In u (dict_keys pre) ->
  NoDup (dict_keys (a1 ++ a2)) ->
  (forall v, In v (dict_keys a2) -> In v (dict_keys pre ++ u :: dict_keys post)) ->
  fold_left (fun g '(u, v, d) => add_edge u v d g)
    (map (fun '(v, d) => (u, v, d)) a2) (pre ++ (u, a1) :: post)
  = pre ++ (u, a1 ++ a2) :: post.
Proof.
  induction a2 as [|[v d] a2 IH]; intros a1 Hu Hnd Hin; simpl.
  - now rewrite app_nil_r.
  - rewrite add_edge_known; auto.
    + rewrite IH; auto.
      * now rewrite <- app_assoc.
      * now rewrite <- app_assoc.
      * intros v' Hv'. apply Hin. now right.
    + unfold dict_keys in Hnd. rewrite map_app in Hnd. simpl in Hnd.
      apply NoDup_remove_2 in Hnd. intros H. apply Hnd. apply in_or_app. now left.
    + unfold dict_keys. rewrite map_app. simpl. apply Hin. now left.
Qed.

Lemma add_edges_rebuild post : forall pre,
  NoDup (dict_keys (pre ++ post)) ->
  (forall u a, In (u, a) post ->
     NoDup (dict_keys a)
     /\ forall v, In v (dict_keys a) -> In v (dict_keys (pre ++ post))) ->
  fold_left (fun g '(u, v, d) => add_edge u v d g) (edges post)
    (pre ++ map bare (dict_keys post))
  = pre ++ post.
Proof.
  induction post as [|[u a] post IH]; intros pre Hnd Hwf; simpl.
  - reflexivity.
  - rewrite fold_left_app. unfold bare at 1.
    assert (Hu : ~ In u (dict_keys pre)).
    { unfold dict_keys in Hnd. rewrite map_app in Hnd. simpl in Hnd.
      apply NoDup_remove_2 in Hnd. intros H. apply Hnd. apply in_or_app. now left. }
    destruct (Hwf u a (or_introl eq_refl)) as [Ha Hin].
    match goal with
    | |- fold_left _ _ ?X = _ =>
        assert (HX : X = pre ++ (u, a) :: map bare (dict_keys post))
    end.
    { apply (add_edges_of_node pre (map bare (dict_keys post)) u a []); auto.
      intros v Hv. apply Hin in Hv. unfold dict_keys in *.
      rewrite map_app in Hv. simpl in Hv. rewrite map_map. simpl.
      rewrite map_id. exact Hv. }
    rewrite HX.
    change (pre ++ (u, a) :: map bare (dict_keys post))
      with (pre ++ [(u, a)] ++ map bare (dict_keys post)).
    change (pre ++ (u, a) :: post) with (pre ++ [(u, a)] ++ post).
    rewrite !app_assoc. apply IH.
    + now rewrite <- app_assoc.
    + intros u' a' H'. destruct (Hwf u' a' (or_intror H')) as [H1 H2].
      split; [exact H1|]. intros v Hv. rewrite <- app_assoc. now apply H2.
Qed.

Lemma edges_protocols g u v d :
  (forall u a, In (u, a) g -> forall v d, In (v, d) a -> ed_protocols d <> []) ->
  In (u, v, d) (edges g) -> ed_protocols d <> [].
Proof.
  intros Hwf Hin. unfold edges in Hin. apply in_flat_map in Hin as [[u' a] [Hg Hin]].
  apply in_map_iff in Hin as [[v' d'] [E Ha]]. inversion E; subst.
  eapply Hwf; eauto.
Qed.

(** The graph of a well-formed engine survives export and import, into
    whichever engine the snapshot is imported. *)
Lemma roundtrip_graph h e0 e :
  wf_engine e ->
  graph (ir_engine (import_from_dict h e0 (export_to_dict e))) = graph e.
Proof.
  intros He. pose proof He as [[Hnd Hwf] Hid].
  destruct (import_from_dict_imported h e0 (export_to_dict e)) as [-> _].
  rewrite (imported_export e He).
  rewrite import_edges_graph.
  - rewrite import_nodes_graph. simpl. rewrite map_map.
    cbn [fst]. rewrite map_id. rewrite add_nodes_bare by exact Hnd. simpl.
    apply (add_edges_rebuild (graph e) []); [exact Hnd|].
    intros u a Hin. destruct (Hwf u a Hin) as [H1 [H2 _]]. auto.
  - intros u v d Hin. eapply edges_protocols; [|exact Hin].
    intros u' a Ha v' d' Hd. destruct (Hwf u' a Ha) as [_ [_ H3]]. eauto.
Qed.

(** The vulnerability map survives when the importing engine holds another
    dictionary object, and is emptied when it holds the exported one. *)
Lemma import_export_dictionary h e0 e :
  let r := import_from_dict h e0 (export_to_dict e) in
  ir_outcome r = Ok tt
  /\ ir_heap r = heap_set h (vulnerability_data e0) []
  /\ vulnerability_data (ir_engine r) = vulnerability_data e.
Proof.
  intros r. subst r.
  destruct (import_from_dict_run h e0 (export_to_dict e)) as [_ [_ [_ [Ho _]]]].
  destruct (import_entries_outcome
              {| graph := []; asset_metadata := [];
                 vulnerability_data := vulnerability_data e0 |} (export_to_dict e))
    as [_ [Hok _]].
  specialize (Hok (keys_present_export e)). rewrite Hok in Ho. clear Hok.
  revert Ho. unfold import_from_dict.
  destruct (import_entries _ (export_to_dict e)) as [[e3 nodes'] out].
  destruct out as [[]|m|k]; cbn; try discriminate. auto.
Qed.

Lemma roundtrip_vulnerabilities h e0 e :
  let r := import_from_dict h e0 (export_to_dict e) in
  (vulnerability_data e0 <> vulnerability_data e ->
   vulns_of (ir_heap r) (ir_engine r) = vulns_of h e)
  /\ (vulnerability_data e0 = vulnerability_data e ->
      (vulnerability_data e < List.length h)%nat ->
      vulns_of (ir_heap r) (ir_engine r) = []).
Proof.
  intros r. destruct (import_export_dictionary h e0 e) as [_ [Hh Hv]].
  fold r in Hh, Hv. unfold vulns_of. rewrite Hh, Hv. split.
  - intros Hne. now apply heap_get_set_other.
  - intros -> Hl. now apply heap_get_set_same.
Qed.

(** ** What the path finders find *)

Lemma last_In (l : list string) d : l <> [] -> In (last l d) l.
Proof.
  induction l as [|a l IH]; [congruence|]. intros _.
  destruct l as [|b l]; [now left|]. right. apply IH. discriminate.
Qed.

Lemma last_cons_default (a : string) (l : list string) d d' :
  last (a :: l) d = last (a :: l) d'.
Proof.
  revert a. induction l as [|b l IH]; intros a; [reflexivity|].
  change (last (b :: l) d = last (b :: l) d'). apply IH.
Qed.

Lemma simple_paths_iff g target_id k : forall current path p,
  In current path ->
  (In p (simple_paths g target_id k current path) <->
   exists ext,
     p = path ++ ext
     /\ (List.length ext < k)%nat
     /\ chain g (current :: ext)
     /\ NoDup ext
     /\ (forall x, In x ext -> ~ In x path)
     /\ last (current :: ext) current = target_id).
Proof.
  induction k as [|k IH]; intros current path p Hcur; simpl.
  - split; [intros [] | intros [ext [_ [H _]]]; lia].
  - destruct (String.eqb_spec current target_id) as [Heq | Hne].
    + split.
      * intros [<- | []]. exists []. rewrite app_nil_r. simpl.
        split; [reflexivity|]. split; [lia|]. split; [exact I|].
        split; [constructor|]. split; [intros x []|exact Heq].
      * intros [ext [-> [_ [_ [_ [Hdisj Hlast]]]]]]. left.
        destruct ext as [|x ext]; [now rewrite app_nil_r|]. exfalso.
        change (last (current :: x :: ext) current) with (last (x :: ext) current) in Hlast.
        apply (Hdisj (last (x :: ext) current)).
        -- apply last_In. discriminate.
        -- rewrite Hlast, <- Heq. exact Hcur.
    + rewrite in_flat_map. split.
      * intros [nb [Hnb Hp]]. destruct (mem nb path) eqn:Em; [destruct Hp|].
        apply mem_false in Em.
        apply IH in Hp as [ext [-> [Hlen [Hch [Hnd [Hdisj Hlast]]]]]].
        2:{ apply in_or_app. right. now left. }
        exists (nb :: ext). rewrite <- app_assoc. split; [reflexivity|].
        split; [simpl; lia|]. split; [simpl; split; assumption|]. split; [|split].
        -- constructor; [|exact Hnd]. intros Hin. apply (Hdisj nb Hin).
           apply in_or_app. right. now left.
        -- intros x [<- | Hx]; [exact Em|]. intros Hin. apply (Hdisj x Hx).
           apply in_or_app. now left.
        -- change (last (nb :: ext) current = target_id).
           rewrite (last_cons_default nb ext current nb). exact Hlast.
      * intros [ext [-> [Hlen [Hch [Hnd [Hdisj Hlast]]]]]].
        destruct ext as [|nb ext]; [simpl in Hlast; congruence|].
        simpl in Hch. destruct Hch as [Hnb Hch].
        exists nb. split; [exact Hnb|].
        assert (Em : mem nb path = false).
        { apply mem_false. apply Hdisj. now left. }
        rewrite Em. apply IH; [apply in_or_app; right; now left|].
        exists ext. rewrite <- app_assoc. split; [reflexivity|].
        simpl in Hlen. split; [lia|]. split; [exact Hch|].
        apply NoDup_cons_iff in Hnd as [Hn Hnd']. split; [exact Hnd'|]. split.
        -- intros x Hx Hin. apply in_app_iff in Hin as [Hin | [<- | []]].
           ++ apply (Hdisj x); [now right | exact Hin].
           ++ now apply Hn.
        -- rewrite (last_cons_default nb ext nb current). exact Hlast.
Qed.

Lemma attack_paths_iff g start_id target_id max_depth p :
  In p (attack_paths g start_id target_id max_depth) <->
  in_graph start_id g = true /\ in_graph target_id g = true
  /\ simple_path g start_id target_id max_depth p.
Proof.
  unfold attack_paths, simple_path.
  destruct (in_graph start_id g); simpl; [|split; [intros [] | intros [H _]; discriminate]].
  destruct (in_graph target_id g); simpl;
    [|split; [intros [] | intros [_ [H _]]; discriminate]].
  rewrite simple_paths_iff by (now left). split.
  - intros [ext [-> [Hlen [Hch [Hnd [Hdisj Hlast]]]]]]. simpl app.
    split; [reflexivity|]. split; [reflexivity|]. split; [now exists ext|].
    split; [exact Hlast|]. split; [|split; [exact Hch|]].
    + constructor; [|exact Hnd]. intros Hin. apply (Hdisj _ Hin). now left.
    + unfold budget in Hlen. simpl List.length in *. lia.
  - intros [_ [_ [[ext ->] [Hlast [Hnd [Hch Hlen]]]]]]. exists ext.
    split; [reflexivity|]. apply NoDup_cons_iff in Hnd as [Hn Hnd'].
    split; [unfold budget; simpl List.length in *; lia|].
    split; [exact Hch|]. split; [exact Hnd'|]. split; [|exact Hlast].
    intros x Hx [<- | []]. now apply Hn.
Qed.

(** X1. Given enough fuel, both finders return, and a node sequence is
    returned (by either) exactly when start and target are nodes of the
    graph and the sequence is a simple path from start to target: it
    starts at the start node, ends at the target, follows edges, repeats no
    node and has at most [max_depth] nodes. *)
Theorem finders_return_exactly_simple_paths
    (g : DiGraph) (start_id target_id : string) (max_depth : Z) (fb fd : nat) :
  (bfs_fuel g start_id target_id max_depth <= fb)%nat ->
  (dfs_fuel max_depth <= fd)%nat ->
  exists pb pd,
    find_attack_paths_bfs fb g start_id target_id max_depth = Some pb
    /\ find_attack_paths_dfs fd g start_id target_id max_depth = Some pd
    /\ forall p,
         (In p pb <->
          in_graph start_id g = true /\ in_graph target_id g = true
          /\ simple_path g start_id target_id max_depth p)
         /\ (In p pd <->
             in_graph start_id g = true /\ in_graph target_id g = true
             /\ simple_path g start_id target_id max_depth p).
Proof.
  intros Hfb Hfd.
  destruct (find_attack_paths_bfs_spec fb g start_id target_id max_depth Hfb)
    as [pb [Hb Hpb]].
  exists pb. eexists. split; [exact Hb|].
  split; [apply (find_attack_paths_dfs_spec fd g start_id target_id max_depth Hfd)|].
  intros p. split; [rewrite Hpb|]; apply attack_paths_iff.
Qed.

Lemma finders_return_exactly_simple_paths_witness :
  (bfs_fuel diamond "S" "T" 3 <= 7)%nat /\ (dfs_fuel 3 <= 4)%nat
  /\ exists pb pd,
       find_attack_paths_bfs 7 diamond "S" "T" 3 = Some pb
       /\ find_attack_paths_dfs 4 diamond "S" "T" 3 = Some pd
       /\ forall p,
            (In p pb <->
             in_graph "S" diamond = true /\ in_graph "T" diamond = true
             /\ simple_path diamond "S" "T" 3 p)
            /\ (In p pd <->
                in_graph "S" diamond = true /\ in_graph "T" diamond = true
                /\ simple_path diamond "S" "T" 3 p).
Proof.
  assert (H1 : (bfs_fuel diamond "S" "T" 3 <= 7)%nat) by (vm_compute; lia).
  assert (H2 : (dfs_fuel 3 <= 4)%nat) by (vm_compute; lia).
  split; [exact H1|]. split; [exact H2|].
  exact (finders_return_exactly_simple_paths diamond "S" "T" 3 7 4 H1 H2).
Defined.

(** X2. Edge cases of both finders (one unit of fuel suffices): an absent
    start or target, or a depth bound below 1, gives the empty list; a
    start that is its own target gives the one-node path alone. *)
Theorem finders_edge_cases
    (g : DiGraph) (start_id target_id : string) (max_depth : Z) (fb fd : nat) :
  (1 <= fb)%nat -> (1 <= fd)%nat ->
  (in_graph start_id g = false \/ in_graph target_id g = false \/ (max_depth <= 0)%Z ->
   find_attack_paths_bfs fb g start_id target_id max_depth = Some []
   /\ find_attack_paths_dfs fd g start_id target_id max_depth = Some [])
  /\ (in_graph start_id g = true -> (1 <= max_depth)%Z ->
      find_attack_paths_bfs fb g start_id start_id max_depth = Some [[start_id]]
      /\ find_attack_paths_dfs fd g start_id start_id max_depth = Some [[start_id]]).
Proof.
  intros Hfb Hfd. destruct fb as [|fb]; [lia|]. destruct fd as [|fd]; [lia|].
  unfold find_attack_paths_bfs, find_attack_paths_dfs. split.
  - intros [H | [H | H]].
    + rewrite H. auto.
    + rewrite H. rewrite orb_true_r. auto.
    + destruct (negb (in_graph start_id g) || negb (in_graph target_id g)); [auto|].
      assert (Hd : too_deep max_depth [start_id] = true).
      { unfold too_deep. simpl. apply Z.gtb_lt. lia. }
      simpl. rewrite Hd. split; [destruct fb|]; reflexivity.
  - intros Hin Hd. rewrite Hin. simpl negb. simpl orb.
    assert (Hn : too_deep max_depth [start_id] = false).
    { unfold too_deep. simpl. destruct (Z.gtb_spec 1 max_depth); [lia | reflexivity]. }
    simpl. rewrite Hn, String.eqb_refl. split; [destruct fb|]; reflexivity.
Qed.

Lemma finders_edge_cases_witness :
  (1 <= 1)%nat /\ (1 <= 1)%nat /\ (0 <= 0)%Z
  /\ in_graph "S" diamond = true /\ (1 <= 4)%Z
  /\ find_attack_paths_bfs 1 diamond "S" "T" 0 = Some []
  /\ find_attack_paths_dfs 1 diamond "S" "T" 0 = Some []
  /\ find_attack_paths_bfs 1 diamond "S" "S" 4 = Some [["S"]]
  /\ find_attack_paths_dfs 1 diamond "S" "S" 4 = Some [["S"]].
Proof.
  assert (H1 : (1 <= 1)%nat) by lia. assert (H0 : (0 <= 0)%Z) by lia.
  assert (H4 : (1 <= 4)%Z) by lia.
  pose proof (finders_edge_cases diamond "S" "T" 0 1 1 H1 H1) as [Hempty _].
  pose proof (finders_edge_cases diamond "S" "T" 4 1 1 H1 H1) as [_ Hself].
  destruct (Hempty (or_intror (or_intror H0))) as [E1 E2].
  destruct (Hself eq_refl H4) as [E3 E4].
  repeat split; assumption.
Defined.

(** X3. Raising the depth bound never loses a path: with enough fuel for
    both searches, every path the breadth-first finder returns within
    [d1] it also returns within any [d2 >= d1]. *)
Theorem deeper_search_finds_more
    (g : DiGraph) (start_id target_id : string) (d1 d2 : Z) (f1 f2 : nat) :
  (d1 <= d2)%Z ->
  (bfs_fuel g start_id target_id d1 <= f1)%nat ->
  (bfs_fuel g start_id target_id d2 <= f2)%nat ->
  exists p1 p2,
    find_attack_paths_bfs f1 g start_id target_id d1 = Some p1
    /\ find_attack_paths_bfs f2 g start_id target_id d2 = Some p2
    /\ incl p1 p2.
Proof.
  intros Hd H1 H2.
  destruct (find_attack_paths_bfs_spec f1 g start_id target_id d1 H1) as [p1 [E1 S1]].
  destruct (find_attack_paths_bfs_spec f2 g start_id target_id d2 H2) as [p2 [E2 S2]].
  exists p1, p2. split; [exact E1|]. split; [exact E2|].
  intros p Hp. apply S2. apply S1 in Hp. apply attack_paths_iff in Hp.
  apply attack_paths_iff. destruct Hp as [Hs [Ht [Hhd [Hl [Hn [Hc Hlen]]]]]].
  repeat split; auto. lia.
Qed.

Lemma deeper_search_finds_more_witness :
  (2 <= 3)%Z
  /\ (bfs_fuel diamond "S" "T" 2 <= 7)%nat
  /\ (bfs_fuel diamond "S" "T" 3 <= 7)%nat
  /\ exists p1 p2,
       find_attack_paths_bfs 7 diamond "S" "T" 2 = Some p1
       /\ find_attack_paths_bfs 7 diamond "S" "T" 3 = Some p2
       /\ incl p1 p2.
Proof.
  assert (H0 : (2 <= 3)%Z) by lia.
  assert (H1 : (bfs_fuel diamond "S" "T" 2 <= 7)%nat) by (vm_compute; lia).
  assert (H2 : (bfs_fuel diamond "S" "T" 3 <= 7)%nat) by (vm_compute; lia).
  split; [exact H0|]. split; [exact H1|]. split; [exact H2|].
  exact (deeper_search_finds_more diamond "S" "T" 2 3 7 7 H0 H1 H2).
Defined.

(** *** Breadth-first order *)

Lemma StronglySorted_app_inv {A : Type} (R : A -> A -> Prop) l1 l2 :
  StronglySorted R (l1 ++ l2) ->
  StronglySorted R l1 /\ StronglySorted R l2
  /\ forall x y, In x l1 -> In y l2 -> R x y.
Proof.
  induction l1 as [|a l1 IH]; simpl; intros H.
  - split; [constructor|]. split; [exact H|]. intros x y [].
  - apply StronglySorted_inv in H as [Hs Hf]. destruct (IH Hs) as [H1 [H2 H3]].
    rewrite Forall_forall in Hf. split; [|split; [exact H2|]].
    + constructor; [exact H1|]. apply Forall_forall. intros x Hx.
      apply Hf. apply in_or_app. now left.
    + intros x y [<- | Hx] Hy; [apply Hf; apply in_or_app; now right | now apply H3].
Qed.

Lemma StronglySorted_app {A : Type} (R : A -> A -> Prop) l1 l2 :
  StronglySorted R l1 -> StronglySorted R l2 ->
  (forall x y, In x l1 -> In y l2 -> R x y) ->
  StronglySorted R (l1 ++ l2).
Proof.
  induction l1 as [|a l1 IH]; simpl; intros H1 H2 H3; [exact H2|].
  apply StronglySorted_inv in H1 as [Hs Hf]. constructor.
  - apply IH; auto.
  - apply Forall_app. split; [exact Hf|]. apply Forall_forall. intros y Hy.
    apply H3; [now left | exact Hy].
Qed.

Lemma StronglySorted_same_length (cs : list (list string)) n :
  (forall c, In c cs -> List.length c = n) -> StronglySorted by_length cs.
Proof.
  induction cs as [|c cs IH]; intros H; constructor.
  - apply IH. intros c' Hc'. apply H. now right.
  - apply Forall_forall. intros c' Hc'. unfold by_length.
    rewrite (H c (or_introl eq_refl)), (H c' (or_intror Hc')). lia.
Qed.

Lemma bfs_visit_appends path nbrs : forall queue vp,
  exists cs vp',
    fold_left (bfs_visit path) nbrs (queue, vp) = (queue ++ cs, vp')
    /\ forall c, In c cs -> List.length (snd c) = S (List.length path).
Proof.
  induction nbrs as [|nb nbrs IH]; intros queue vp; simpl.
  - exists [], vp. rewrite app_nil_r. split; [reflexivity | intros c []].
  - destruct (mem nb path).
    + apply IH.
    + destruct (path_mem (path ++ [nb]) vp).
      * apply IH.
      * destruct (IH (queue ++ [(nb, path ++ [nb])]) ((path ++ [nb]) :: vp))
          as [cs [vp' [E Hcs]]].
        exists ((nb, path ++ [nb]) :: cs), vp'. rewrite E, <- app_assoc.
        split; [reflexivity|]. intros c [<- | Hc]; [|now apply Hcs].
        simpl. rewrite length_app. simpl. lia.
Qed.

Lemma bfs_loop_ordered g target_id max_depth fuel : forall queue vp acc res,
  bfs_ordered queue acc ->
  bfs_loop g target_id max_depth fuel queue vp acc = Some res ->
  StronglySorted by_length res.
Proof.
  induction fuel as [|fuel IH]; intros queue vp acc res [Hs Hq] Hres.
  - destruct queue as [|[cur path] rest]; [|discriminate].
    inversion Hres; subst. simpl in Hs. now rewrite app_nil_r in Hs.
  - destruct queue as [|[cur path] rest].
    + inversion Hres; subst. simpl in Hs. now rewrite app_nil_r in Hs.
    + simpl in Hres, Hs.
      assert (Hrest : bfs_ordered rest acc).
      { apply StronglySorted_app_inv in Hs as [H1 [H2 H3]].
        apply StronglySorted_inv in H2 as [H2 _]. split.
        - apply StronglySorted_app; auto. intros x y Hx Hy. apply H3; [exact Hx | now right].
        - intros q1 q2 H1' H2'. apply Hq; now right. }
      destruct (too_deep max_depth path); [eapply IH; eauto|].
      destruct (String.eqb cur target_id).
      * eapply IH; [|exact Hres]. split; [|apply Hrest].
        rewrite <- app_assoc. exact Hs.
      * destruct (bfs_visit_appends path (neighbors g cur) rest vp)
          as [cs [vp' [E Hcs]]].
        rewrite E in Hres. eapply IH; [|exact Hres].
        destruct Hrest as [Hs' Hq'].
        apply StronglySorted_app_inv in Hs as [H1 [H2 H3]].
        apply StronglySorted_inv in H2 as [H2 Hhead]. rewrite Forall_forall in Hhead.
        split.
        -- rewrite map_app, app_assoc. apply StronglySorted_app; [exact Hs' | |].
           ++ apply (StronglySorted_same_length _ (S (List.length path))).
              intros c Hc. apply in_map_iff in Hc as [q [<- Hc]]. now apply Hcs.
           ++ intros x y Hx Hy. apply in_map_iff in Hy as [q [<- Hy]].
              unfold by_length. rewrite (Hcs q Hy).
              apply in_app_iff in Hx as [Hx | Hx].
              ** specialize (H3 x path Hx (or_introl eq_refl)). unfold by_length in H3. lia.
              ** apply in_map_iff in Hx as [q' [<- Hx]].
                 apply (Hq (cur, path) q'); [now left | now right].
        -- intros q1 q2 Hq1 Hq2.
           apply in_app_iff in Hq1 as [Hq1 | Hq1]; apply in_app_iff in Hq2 as [Hq2 | Hq2].
           ++ now apply Hq'.
           ++ rewrite (Hcs q2 Hq2).
              assert (Hle : by_length path (snd q1)).
              { apply Hhead. apply in_map_iff. now exists q1. }
              unfold by_length in Hle. lia.
           ++ rewrite (Hcs q1 Hq1).
              specialize (Hq (cur, path) q2 (or_introl eq_refl) (or_intror Hq2)).
              simpl in Hq. lia.
           ++ rewrite (Hcs q1 Hq1), (Hcs q2 Hq2). lia.
Qed.

(** X4. Whenever the breadth-first finder returns, its paths are listed
    shortest first: each returned path is no longer than every path
    listed after it. *)
Theorem bfs_lists_shortest_first
    (fuel : nat) (g : DiGraph) (start_id target_id : string) (max_depth : Z)
    (paths : list (list string)) :
  find_attack_paths_bfs fuel g start_id target_id max_depth = Some paths ->
  StronglySorted by_length paths.
Proof.
  unfold find_attack_paths_bfs.
  destruct (negb (in_graph start_id g) || negb (in_graph target_id g)).
  - intros E. inversion E. constructor.
  - apply bfs_loop_ordered. split.
    + simpl. repeat constructor.
    + intros q1 q2 [<- | []] [<- | []]. lia.
Qed.

Lemma bfs_lists_shortest_first_witness :
  find_attack_paths_bfs 7 diamond "S" "T" 5
  = Some [["S"; "X"; "T"]; ["S"; "Y"; "T"]; ["S"; "X"; "Y"; "T"]]
  /\ StronglySorted by_length [["S"; "X"; "T"]; ["S"; "Y"; "T"]; ["S"; "X"; "Y"; "T"]].
Proof.
  assert (H : find_attack_paths_bfs 7 diamond "S" "T" 5
              = Some [["S"; "X"; "T"]; ["S"; "Y"; "T"]; ["S"; "X"; "Y"; "T"]])
    by reflexivity.
  split; [exact H|].
  exact (bfs_lists_shortest_first 7 diamond "S" "T" 5 _ H).
Defined.

(** *** Each path once *)

Lemma NoDup_flat_map_disjoint {A B : Type} (f : A -> list B) (l : list A) :
  NoDup l ->
  (forall a, In a l -> NoDup (f a)) ->
  (forall a1 a2 b, In a1 l -> In a2 l -> a1 <> a2 -> In b (f a1) -> ~ In b (f a2)) ->
  NoDup (flat_map f l).
Proof.
  induction l as [|a l IH]; intros Hnd Hf Hdisj; simpl; [constructor|].
  apply NoDup_cons_iff in Hnd as [Ha Hnd].
  apply NoDup_app.
  - apply Hf. now left.
  - apply IH; auto.
    + intros a' Ha'. apply Hf. now right.
    + intros a1 a2 b H1 H2. apply Hdisj; now right.
  - intros b Hb Hb'. apply in_flat_map in Hb' as [a' [Ha' Hb']].
    apply (Hdisj a a' b); auto; [now left | now right | congruence].
Qed.

Lemma simple_paths_NoDup g target_id k :
  distinct_neighbors g ->
  forall current path, NoDup (simple_paths g target_id k current path).
Proof.
  intros Hg. induction k as [|k IH]; intros current path; simpl; [constructor|].
  destruct (String.eqb current target_id); [repeat constructor; intros []|].
  apply NoDup_flat_map_disjoint.
  - apply Hg.
  - intros nb _. destruct (mem nb path); [constructor | apply IH].
  - intros n1 n2 p _ _ Hne H1 H2.
    destruct (mem n1 path); [destruct H1|]. destruct (mem n2 path); [destruct H2|].
    apply simple_paths_extend in H1 as [e1 E1]. apply simple_paths_extend in H2 as [e2 E2].
    rewrite E1, <- !app_assoc in E2. apply app_inv_head in E2. simpl in E2. congruence.
Qed.

Section EachPathOnce.
Variable g : DiGraph.
Variable target_id : string.
Variable max_depth : Z.
Hypothesis g_distinct : distinct_neighbors g.

Local Abbreviation ipaths := (item_paths g target_id max_depth).

Lemma children_distinct path nbrs : forall cs,
  NoDup nbrs ->
  (forall nb, In nb nbrs -> ~ In (path ++ [nb]) (map snd cs)) ->
  fold_left (child_step path) nbrs cs
  = cs ++ map (fun nb => (nb, path ++ [nb]))
            (filter (fun nb => negb (mem nb path)) nbrs).
Proof.
  induction nbrs as [|nb nbrs IH]; intros cs Hnd Hfresh; simpl.
  - now rewrite app_nil_r.
  - apply NoDup_cons_iff in Hnd as [Hnb Hnd]. unfold child_step at 2.
    destruct (mem nb path); simpl.
    + apply IH; auto. intros nb' H'. apply Hfresh. now right.
    + assert (E : path_mem (path ++ [nb]) (map snd cs) = false).
      { apply path_mem_false. apply Hfresh. now left. }
      rewrite E, IH; auto.
      * now rewrite <- app_assoc.
      * intros nb' H' Hin. rewrite map_app in Hin.
        apply in_app_iff in Hin as [Hin | [Hin | []]].
        -- apply (Hfresh nb'); [now right | exact Hin].
        -- simpl in Hin. apply app_inj_tail in Hin as [_ ->]. now apply Hnb.
Qed.

Lemma children_paths path k current :
  budget max_depth path = S k ->
  flat_map ipaths (children path (neighbors g current))
  = flat_map (fun nb => if mem nb path then []
                        else simple_paths g target_id k nb (path ++ [nb]))
      (neighbors g current).
Proof.
  intros Hk. unfold children. rewrite children_distinct; [|apply g_distinct | intros nb _ []].
  simpl. generalize (neighbors g current). intros nbrs.
  induction nbrs as [|nb nbrs IH]; simpl; [reflexivity|].
  destruct (mem nb path); simpl; [exact IH|].
  rewrite IH. unfold item_paths. simpl. now rewrite (budget_snoc _ _ _ _ Hk).
Qed.

Lemma bfs_loop_perm fuel : forall queue vp acc res,
  bfs_inv queue vp ->
  bfs_loop g target_id max_depth fuel queue vp acc = Some res ->
  Permutation res (acc ++ flat_map ipaths queue).
Proof.
  induction fuel as [|fuel IH]; intros queue vp acc res Hinv Hres.
  - destruct queue as [|[cur path] rest]; [|discriminate].
    inversion Hres; subst. simpl. now rewrite app_nil_r.
  - destruct queue as [|[cur path] rest].
    + inversion Hres; subst. simpl. now rewrite app_nil_r.
    + simpl in Hres. unfold item_paths at 1. cbn [flat_map fst snd].
      destruct (too_deep max_depth path) eqn:Hdeep.
      * apply too_deep_budget in Hdeep. rewrite Hdeep. simpl.
        eapply IH; [eapply bfs_inv_tail|]; eauto.
      * destruct (budget max_depth path) as [|k] eqn:Hk.
        { apply too_deep_budget in Hk. congruence. }
        simpl. destruct (String.eqb cur target_id) eqn:Htgt.
        -- apply (IH rest vp (acc ++ [path]) res (bfs_inv_tail _ _ _ Hinv)) in Hres.
           rewrite <- app_assoc in Hres. exact Hres.
        -- pose proof (bfs_visit_children path rest vp
                         (bfs_inv_head_fresh _ _ _ _ Hinv) (neighbors g cur) []) as Hfold.
           simpl in Hfold. rewrite app_nil_r in Hfold. rewrite Hfold in Hres.
           fold (children path (neighbors g cur)) in Hres.
           apply IH in Hres; [|eapply bfs_inv_expand; eauto].
           rewrite flat_map_app, (children_paths path k cur Hk) in Hres.
           eapply Permutation_trans; [exact Hres|].
           apply Permutation_app_head. apply Permutation_app_comm.
Qed.

End EachPathOnce.

Lemma wf_graph_distinct_neighbors g : wf_graph g -> distinct_neighbors g.
Proof.
  intros [_ Hwf] n. unfold neighbors, adj.
  destruct (dict_get n g) as [a|] eqn:E; [|constructor].
  apply dict_get_In in E. now apply Hwf in E.
Qed.

(** X5. In a graph whose nodes list each successor once (every
    well-formed graph), neither finder returns a path twice, and the
    breadth-first result is a rearrangement of the depth-first result. *)
Theorem finders_return_each_path_once
    (g : DiGraph) (start_id target_id : string) (max_depth : Z) (fb fd : nat) :
  distinct_neighbors g ->
  (bfs_fuel g start_id target_id max_depth <= fb)%nat ->
  (dfs_fuel max_depth <= fd)%nat ->
  exists pb pd,
    find_attack_paths_bfs fb g start_id target_id max_depth = Some pb
    /\ find_attack_paths_dfs fd g start_id target_id max_depth = Some pd
    /\ NoDup pb /\ NoDup pd /\ Permutation pb pd.
Proof.
  intros Hg Hfb Hfd.
  destruct (find_attack_paths_bfs_spec fb g start_id target_id max_depth Hfb)
    as [pb [Hb _]].
  pose proof (find_attack_paths_dfs_spec fd g start_id target_id max_depth Hfd) as Hd.
  exists pb. eexists. split; [exact Hb|]. split; [exact Hd|].
  assert (Hnd : NoDup (attack_paths g start_id target_id max_depth)).
  { unfold attack_paths.
    destruct (negb (in_graph start_id g) || negb (in_graph target_id g));
      [constructor | now apply simple_paths_NoDup]. }
  assert (Hperm : Permutation pb (attack_paths g start_id target_id max_depth)).
  { unfold find_attack_paths_bfs, attack_paths in *.
    destruct (negb (in_graph start_id g) || negb (in_graph target_id g)).
    - inversion Hb. constructor.
    - apply (bfs_loop_perm g target_id max_depth Hg) in Hb.
      + simpl in Hb. rewrite app_nil_r in Hb. exact Hb.
      + repeat split.
        * simpl. repeat constructor. intros [].
        * intros q1 q2 [<- | []] [<- | []] Hs. apply sprefix_length in Hs. simpl in Hs. lia.
        * intros v q []. }
  split; [|split; [exact Hnd | exact Hperm]].
  eapply Permutation_NoDup; [apply Permutation_sym; exact Hperm | exact Hnd].
Qed.

Lemma diamond_wf : wf_graph diamond.
Proof.
  unfold diamond. cbn [fold_left].
  repeat (apply wf_graph_add_edge; [discriminate|]). apply wf_graph_nil.
Qed.

Lemma finders_return_each_path_once_witness :
  distinct_neighbors diamond
  /\ (bfs_fuel diamond "S" "T" 5 <= 7)%nat /\ (dfs_fuel 5 <= 6)%nat
  /\ exists pb pd,
       find_attack_paths_bfs 7 diamond "S" "T" 5 = Some pb
       /\ find_attack_paths_dfs 6 diamond "S" "T" 5 = Some pd
       /\ NoDup pb /\ NoDup pd /\ Permutation pb pd.
Proof.
  assert (H0 : distinct_neighbors diamond)
    by (apply wf_graph_distinct_neighbors, diamond_wf).
  assert (H1 : (bfs_fuel diamond "S" "T" 5 <= 7)%nat) by (vm_compute; lia).
  assert (H2 : (dfs_fuel 5 <= 6)%nat) by (vm_compute; lia).
  split; [exact H0|]. split; [exact H1|]. split; [exact H2|].
  exact (finders_return_each_path_once diamond "S" "T" 5 7 6 H0 H1 H2).
Defined.

(** ** Connections, vulnerabilities and counts *)

Lemma adj_add_node n g u : adj (add_node n g) u = adj g u.
Proof.
  unfold add_node. destruct (in_graph n g); [reflexivity|].
  unfold adj. rewrite dict_get_app. destruct (dict_get u g); [reflexivity|].
  simpl. destruct (String.eqb u n); reflexivity.
Qed.

Lemma adj_set_adj u a g u' :
  adj (set_adj u a g) u' = if String.eqb u' u then a else adj g u'.
Proof.
  unfold adj, set_adj. destruct (String.eqb_spec u' u) as [-> | Hne].
  - now rewrite dict_get_set_same.
  - now rewrite dict_get_set_other.
Qed.

Lemma edge_data_add_edge u v d g u' v' :
  edge_data (add_edge u v d g) u' v'
  = if String.eqb u' u && String.eqb v' v then Some d else edge_data g u' v'.
Proof.
  unfold edge_data, add_edge. rewrite adj_set_adj, !adj_add_node.
  destruct (String.eqb_spec u' u) as [-> | Hu]; simpl; [|reflexivity].
  destruct (String.eqb_spec v' v) as [-> | Hv].
  - now rewrite dict_get_set_same.
  - now rewrite dict_get_set_other.
Qed.

(** X6. [add_connection] makes the edge, and with [bidirectional] its
    mirror, carry the given type, the given protocols (["tcp"] when none or
    an empty list is given) and the given weight; it creates missing
    endpoints as graph nodes but writes no metadata record, and it changes
    no other edge. *)
Theorem add_connection_creates_edges
    (e : Engine) (source_id target_id connection_type : string)
    (protocols : option (list string)) (weight : Q) (bidirectional : bool) :
  let e' := add_connection e source_id target_id connection_type protocols weight
              bidirectional in
  let data := {| ed_type := connection_type;
                 ed_protocols := protocols_or_tcp protocols;
                 ed_weight := weight |} in
  edge_data (graph e') source_id target_id = Some data
  /\ (if bidirectional
      then edge_data (graph e') target_id source_id = Some data
      else source_id <> target_id ->
           edge_data (graph e') target_id source_id
           = edge_data (graph e) target_id source_id)
  /\ ed_protocols data <> []
  /\ (forall x, in_graph x (graph e')
                = String.eqb x source_id || String.eqb x target_id
                  || in_graph x (graph e))
  /\ asset_metadata e' = asset_metadata e
  /\ (forall u v,
         (u, v) <> (source_id, target_id) -> (u, v) <> (target_id, source_id) ->
         edge_data (graph e') u v = edge_data (graph e) u v).
Proof.
  intros e' data. subst e'. unfold add_connection. fold data. simpl.
  assert (Hne : forall a b c d : string,
             (a, b) <> (c, d) -> String.eqb a c && String.eqb b d = false).
  { intros a b c d H. destruct (String.eqb_spec a c) as [-> | _]; [|reflexivity].
    destruct (String.eqb_spec b d) as [-> | _]; [congruence | reflexivity]. }
  split; [|split; [|split; [|split; [|split]]]].
  - destruct bidirectional; rewrite !edge_data_add_edge, ?String.eqb_refl; simpl.
    + destruct (String.eqb source_id target_id && String.eqb target_id source_id);
        reflexivity.
    + reflexivity.
  - destruct bidirectional.
    + now rewrite edge_data_add_edge, !String.eqb_refl.
    + intros Hst. rewrite edge_data_add_edge, Hne; [reflexivity | congruence].
  - apply protocols_or_tcp_nonempty.
  - intros x. destruct bidirectional; rewrite !in_graph_add_edge;
      destruct (String.eqb x source_id), (String.eqb x target_id); reflexivity.
  - reflexivity.
  - intros u v H1 H2.
    destruct bidirectional; rewrite !edge_data_add_edge, ?(Hne _ _ _ _ H1), ?(Hne _ _ _ _ H2);
      reflexivity.
Qed.

Lemma add_connection_creates_edges_witness :
  let e' := add_connection scenario_AB "B" "Z" "trust" (Some []) 1%Q false in
  edge_data (graph e') "B" "Z"
  = Some {| ed_type := "trust"; ed_protocols := ["tcp"]; ed_weight := 1%Q |}
  /\ ("B" <> "Z" -> edge_data (graph e') "Z" "B" = edge_data (graph scenario_AB) "Z" "B")
  /\ in_graph "Z" (graph e') = true
  /\ dict_mem "Z" (asset_metadata e') = false.
Proof.
  pose proof (add_connection_creates_edges scenario_AB "B" "Z" "trust" (Some []) 1%Q false)
    as [H1 [H2 [_ [H4 [H5 _]]]]].
  split; [exact H1|]. split; [exact H2|].
  split; [rewrite H4; reflexivity | rewrite H5; reflexivity].
Defined.

Lemma edge_data_in_graph g u v d :
  edge_data g u v = Some d -> in_graph u g = true /\ In v (neighbors g u).
Proof.
  unfold edge_data, adj, in_graph, dict_mem, neighbors, adj.
  destruct (dict_get u g) as [a|]; [|discriminate]. intros H. split; [reflexivity|].
  apply dict_mem_In. unfold dict_mem. now rewrite H.
Qed.

Lemma neighbors_add_edge_known g u v d n :
  in_graph u g = true -> in_graph v g = true -> In v (neighbors g u) ->
  nodes (add_edge u v d g) = nodes g
  /\ neighbors (add_edge u v d g) n = neighbors g n.
Proof.
  intros Hu Hv Hin. unfold add_edge.
  rewrite (add_node_present u g Hu), (add_node_present v g Hv). split.
  - unfold nodes, set_adj. now apply dict_keys_set_present.
  - unfold neighbors. rewrite adj_set_adj.
    destruct (String.eqb_spec n u) as [-> | Hne]; [|reflexivity].
    apply dict_keys_set_present. now apply dict_mem_In.
Qed.

Lemma dict_set_length_present {V : Type} (d : dict V) k v :
  dict_mem k d = true -> List.length (dict_set k v d) = List.length d.
Proof.
  intros H. apply (dict_keys_set_present k v) in H. unfold dict_keys in H.
  rewrite <- (length_map fst (dict_set k v d)), H. apply length_map.
Qed.

Lemma edges_length_set g u a a' :
  dict_get u g = Some a -> List.length a' = List.length a ->
  List.length (edges (dict_set u a' g)) = List.length (edges g).
Proof.
  intros Hget Hlen. induction g as [|[k b] g IH]; simpl in *; [discriminate|].
  destruct (String.eqb u k); simpl.
  - inversion Hget; subst b. rewrite !length_app, !length_map. now rewrite Hlen.
  - rewrite !length_app. f_equal. now apply IH.
Qed.

(** X7. Adding a connection that already exists in a well-formed graph
    is an update in place: the edge afterwards carries the new attributes,
    while the node list and every successor list (with their order) stay
    as they were, so no second edge appears. *)
Theorem add_connection_existing_updates
    (e : Engine) (source_id target_id connection_type : string)
    (protocols : option (list string)) (weight : Q) (old : EdgeData) :
  wf_graph (graph e) ->
  edge_data (graph e) source_id target_id = Some old ->
  let e' := add_connection e source_id target_id connection_type protocols weight
              false in
  edge_data (graph e') source_id target_id
  = Some {| ed_type := connection_type;
            ed_protocols := protocols_or_tcp protocols;
            ed_weight := weight |}
  /\ nodes (graph e') = nodes (graph e)
  /\ (forall n, neighbors (graph e') n = neighbors (graph e) n)
  /\ List.length (edges (graph e')) = List.length (edges (graph e)).
Proof.
  intros [Hnd Hwf] Hold e'. subst e'. unfold add_connection. simpl.
  destruct (edge_data_in_graph _ _ _ _ Hold) as [Hu Hin].
  assert (Hv : in_graph target_id (graph e) = true).
  { apply dict_mem_In. unfold neighbors, adj in Hin.
    destruct (dict_get source_id (graph e)) as [a|] eqn:E; [|destruct Hin].
    apply dict_get_In in E. now apply (Hwf _ _ E). }
  split; [now rewrite edge_data_add_edge, !String.eqb_refl|].
  split; [now apply neighbors_add_edge_known|].
  split; [intros n; now apply neighbors_add_edge_known|].
  unfold add_edge. rewrite (add_node_present _ _ Hu), (add_node_present _ _ Hv).
  unfold set_adj, adj. unfold edge_data, adj in Hold.
  destruct (dict_get source_id (graph e)) as [a|] eqn:E; [|discriminate].
  apply (edges_length_set _ _ a); [exact E|].
  apply dict_set_length_present. unfold dict_mem. now rewrite Hold.
Qed.

Lemma scenario_AB_wf : wf_engine scenario_AB.
Proof.
  unfold scenario_AB. apply wf_engine_add_connection.
  repeat apply wf_engine_add_asset.
  split; [apply wf_graph_nil | intros k m; discriminate].
Qed.

Lemma add_connection_existing_updates_witness :
  wf_graph (graph scenario_AB)
  /\ edge_data (graph scenario_AB) "A" "B"
     = Some {| ed_type := "network"; ed_protocols := ["tcp"]; ed_weight := 1%Q |}
  /\ let e' := add_connection scenario_AB "A" "B" "trust" (Some ["ldap"]) (2 # 1)%Q false in
     edge_data (graph e') "A" "B"
     = Some {| ed_type := "trust"; ed_protocols := ["ldap"]; ed_weight := (2 # 1)%Q |}
     /\ nodes (graph e') = nodes (graph scenario_AB)
     /\ (forall n, neighbors (graph e') n = neighbors (graph scenario_AB) n)
     /\ List.length (edges (graph e')) = List.length (edges (graph scenario_AB)).
Proof.
  assert (H1 : wf_graph (graph scenario_AB)) by apply scenario_AB_wf.
  split; [exact H1|]. split; [reflexivity|].
  exact (add_connection_existing_updates scenario_AB "A" "B" "trust" (Some ["ldap"])
           (2 # 1)%Q _ H1 eq_refl).
Defined.

(** *** Vulnerabilities *)

Lemma heap_set_length h l d : List.length (heap_set h l d) = List.length h.
Proof.
  revert l. induction h as [|x h IH]; intros l; simpl; [reflexivity|].
  destruct l; simpl; [reflexivity | now rewrite IH].
Qed.

(** X8. [add_vulnerability] appends: afterwards the asset's list is its
    former list (empty if it had none) followed by the new entry, whether
    or not the asset exists in the graph and whether or not the same CVE is
    already listed (adding twice lists it twice); the lists of all other
    assets and all other dictionaries of the store are untouched. *)
Theorem add_vulnerability_appends
    (h : Heap) (e : Engine) (asset_id cve : string) (cvss : Q) (expl net_expl : bool) :
  (vulnerability_data e < List.length h)%nat ->
  let old := or_default [] (dict_get asset_id (vulns_of h e)) in
  let v := vulnerability cve cvss expl net_expl in
  let h1 := add_vulnerability h e asset_id cve cvss expl net_expl in
  let h2 := add_vulnerability h1 e asset_id cve cvss expl net_expl in
  dict_get asset_id (vulns_of h1 e) = Some (old ++ [v])
  /\ dict_get asset_id (vulns_of h2 e) = Some (old ++ [v; v])
  /\ (forall a, a <> asset_id ->
                dict_get a (vulns_of h1 e) = dict_get a (vulns_of h e))
  /\ (forall l, l <> vulnerability_data e -> heap_get h1 l = heap_get h l)
  /\ List.length h1 = List.length h.
Proof.
  intros Hl old v h1 h2.
  assert (E1 : vulns_of h1 e
               = dict_set asset_id (old ++ [v]) (vulns_of h e)).
  { unfold h1, add_vulnerability, vulns_of. now rewrite heap_get_set_same. }
  assert (Hl1 : (vulnerability_data e < List.length h1)%nat).
  { unfold h1, add_vulnerability. now rewrite heap_set_length. }
  split; [rewrite E1; apply dict_get_set_same|]. split; [|split; [|split]].
  - unfold h2, add_vulnerability, vulns_of. rewrite heap_get_set_same by exact Hl1.
    fold (vulns_of h1 e). rewrite dict_get_set_same, E1, dict_get_set_same.
    simpl. rewrite <- app_assoc. reflexivity.
  - intros a Ha. rewrite E1. now apply dict_get_set_other.
  - intros l Hne. unfold h1, add_vulnerability. apply heap_get_set_other. congruence.
  - unfold h1, add_vulnerability. apply heap_set_length.
Qed.

Lemma add_vulnerability_appends_witness :
  (vulnerability_data scenario_AB < List.length heap_B_vulnerable)%nat
  /\ dict_get "B"
       (vulns_of (add_vulnerability heap_B_vulnerable scenario_AB "B" "CVE-2024-1234"
                    10%Q true true) scenario_AB)
     = Some [vulnerability "CVE-2024-1234" 10%Q true true;
             vulnerability "CVE-2024-1234" 10%Q true true].
Proof.
  assert (H : (vulnerability_data scenario_AB < List.length heap_B_vulnerable)%nat)
    by (simpl; lia).
  split; [exact H|].
  exact (proj1 (add_vulnerability_appends heap_B_vulnerable scenario_AB "B"
                  "CVE-2024-1234" 10%Q true true H)).
Defined.

(** *** Counting by attribute *)

Section CountFacts.
Variable value : AssetMeta -> string.

Local Abbreviation count_step :=
  (fun (counts : dict nat) (km : string * AssetMeta) =>
     let '(_, m) := km in
     dict_set (value m) (or_default O (dict_get (value m) counts) + 1)%nat counts).

Lemma count_fold_get meta : forall counts v,
  or_default O (dict_get v (fold_left count_step meta counts))
  = (or_default O (dict_get v counts)
     + count_occ string_dec (map (fun km => value (snd km)) meta) v)%nat.
Proof.
  induction meta as [|[k m] meta IH]; intros counts v; simpl; [lia|].
  rewrite IH. destruct (string_dec (value m) v) as [-> | Hne].
  - rewrite dict_get_set_same. simpl. lia.
  - rewrite dict_get_set_other by congruence. lia.
Qed.

Lemma count_fold_keys meta : forall counts,
  NoDup (dict_keys counts) ->
  (forall v n, dict_get v counts = Some n -> (0 < n)%nat) ->
  NoDup (dict_keys (fold_left count_step meta counts))
  /\ (forall v n, dict_get v (fold_left count_step meta counts) = Some n -> (0 < n)%nat).
Proof.
  induction meta as [|[k m] meta IH]; intros counts Hnd Hpos; simpl; [auto|].
  apply IH.
  - now apply dict_set_keys_NoDup.
  - intros v n. destruct (String.eqb_spec v (value m)) as [-> | Hne].
    + rewrite dict_get_set_same. intros E. inversion E. lia.
    + rewrite dict_get_set_other by exact Hne. apply Hpos.
Qed.

Lemma count_fold_sum meta : forall counts,
  list_sum (map snd (fold_left count_step meta counts))
  = (list_sum (map snd counts) + List.length meta)%nat.
Proof.
  assert (Hset : forall (counts : dict nat) v,
             list_sum (map snd (dict_set v (or_default O (dict_get v counts) + 1)%nat counts))
             = S (list_sum (map snd counts))).
  { intros counts v. induction counts as [|[k n] counts IHc]; simpl; [reflexivity|].
    destruct (String.eqb v k); simpl; [lia|]. rewrite IHc. lia. }
  induction meta as [|[k m] meta IH]; intros counts; simpl; [lia|].
  rewrite IH, Hset. lia.
Qed.

End CountFacts.

(** X9. [_count_by_attribute] returns, for every value of the attribute,
    the number of asset records that carry it: a value no record carries
    is not a key, each key appears once with a positive count, and the
    counts add up to the number of records. *)
Theorem count_by_attribute_counts (value : AssetMeta -> string) (meta : dict AssetMeta) :
  (forall v,
      dict_get v (_count_by_attribute value meta)
      = match count_occ string_dec (map (fun km => value (snd km)) meta) v with
        | O => None
        | n => Some n
        end)
  /\ NoDup (dict_keys (_count_by_attribute value meta))
  /\ list_sum (map snd (_count_by_attribute value meta)) = List.length meta.
Proof.
  unfold _count_by_attribute.
  destruct (count_fold_keys value meta []) as [Hnd Hpos];
    [constructor | intros v n; discriminate|].
  split; [|split; [exact Hnd | apply (count_fold_sum value meta [])]].
  intros v. pose proof (count_fold_get value meta [] v) as Hget. simpl in Hget.
  match goal with
  | |- ?x = _ => destruct x as [n|] eqn:E; simpl in Hget
  end.
  - rewrite <- Hget. specialize (Hpos v n E). destruct n; [lia | reflexivity].
  - now rewrite <- Hget.
Qed.

(** ** More on export and import *)

(** X10. For a well-formed engine, exporting and importing the snapshot,
    into this or any other engine, returns and reproduces the graph
    exactly: the same nodes in the same order, the same edges in the same
    order with the same type, protocols and weight. *)
Theorem export_import_reproduces_graph (h : Heap) (e0 e : Engine) :
  wf_engine e ->
  let e' := ir_engine (import_from_dict h e0 (export_to_dict e)) in
  ir_outcome (import_from_dict h e0 (export_to_dict e)) = Ok tt
  /\ graph e' = graph e
  /\ nodes (graph e') = nodes (graph e)
  /\ edges (graph e') = edges (graph e)
  /\ forall u v, edge_data (graph e') u v = edge_data (graph e) u v.
Proof.
  intros Hwf e'. subst e'. split; [apply import_export_dictionary|].
  rewrite (roundtrip_graph h e0 e Hwf). auto.
Qed.

Lemma export_import_reproduces_graph_witness :
  wf_engine scenario_AB
  /\ let e' := ir_engine (import_from_dict heap_B_vulnerable triangle
                            (export_to_dict scenario_AB)) in
     ir_outcome (import_from_dict heap_B_vulnerable triangle (export_to_dict scenario_AB))
     = Ok tt
     /\ graph e' = graph scenario_AB
     /\ nodes (graph e') = nodes (graph scenario_AB)
     /\ edges (graph e') = edges (graph scenario_AB)
     /\ forall u v, edge_data (graph e') u v = edge_data (graph scenario_AB) u v.
Proof.
  split; [apply scenario_AB_wf|].
  exact (export_import_reproduces_graph heap_B_vulnerable triangle scenario_AB
           scenario_AB_wf).
Defined.

(** X11. Importing is stable: whatever snapshot was imported, and whether
    that import returned or raised, exporting the resulting engine and
    importing that snapshot again (into any engine) returns and gives the
    same graph once more. *)
Theorem import_export_import_stable (h h' : Heap) (e e0 : Engine) (data : Snapshot) :
  let e1 := ir_engine (import_from_dict h e data) in
  ir_outcome (import_from_dict h' e0 (export_to_dict e1)) = Ok tt
  /\ graph (ir_engine (import_from_dict h' e0 (export_to_dict e1))) = graph e1.
Proof.
  intros e1. split; [apply import_export_dictionary|].
  apply roundtrip_graph. apply wf_engine_import.
Qed.

(** X12. When the importing engine holds another dictionary object than
    the exporting one, the import returns and reproduces the vulnerability
    map - by
    adopting the exporter's dictionary itself: both engines then hold the
    same object, so a vulnerability added through the importing engine is
    seen by the exporting engine as well, and the dictionary the importing
    engine held before has been emptied in place. *)
Theorem import_adopts_vulnerability_dictionary
    (h : Heap) (e0 e : Engine) (asset_id cve : string) (cvss : Q) (expl net_expl : bool) :
  vulnerability_data e0 <> vulnerability_data e ->
  (vulnerability_data e0 < List.length h)%nat ->
  let h' := ir_heap (import_from_dict h e0 (export_to_dict e)) in
  let e' := ir_engine (import_from_dict h e0 (export_to_dict e)) in
  ir_outcome (import_from_dict h e0 (export_to_dict e)) = Ok tt
  /\ vulns_of h' e' = vulns_of h e
  /\ vulnerability_data e' = vulnerability_data e
  /\ heap_get h' (vulnerability_data e0) = []
  /\ vulns_of (add_vulnerability h' e' asset_id cve cvss expl net_expl) e
     = vulns_of (add_vulnerability h' e' asset_id cve cvss expl net_expl) e'.
Proof.
  intros Hne Hl h' e'. subst h' e'.
  destruct (import_export_dictionary h e0 e) as [Ho [Hh Hv]]. cbv zeta in Ho, Hh, Hv.
  split; [exact Ho|]. unfold vulns_of. rewrite Hh, Hv.
  split; [now apply heap_get_set_other|]. split; [reflexivity|].
  split; [now apply heap_get_set_same | reflexivity].
Qed.

Lemma import_adopts_vulnerability_dictionary_witness :
  exists h1 e1,
    init_engine heap_B_vulnerable = (h1, e1)
    /\ vulnerability_data e1 <> vulnerability_data scenario_AB
    /\ (vulnerability_data e1 < List.length h1)%nat
    /\ ir_outcome (import_from_dict h1 e1 (export_to_dict scenario_AB)) = Ok tt
    /\ vulns_of (ir_heap (import_from_dict h1 e1 (export_to_dict scenario_AB)))
         (ir_engine (import_from_dict h1 e1 (export_to_dict scenario_AB)))
       = vulns_of h1 scenario_AB.
Proof.
  eexists. eexists. split; [reflexivity|].
  assert (H1 : 1%nat <> vulnerability_data scenario_AB) by discriminate.
  assert (H2 : (1 < List.length (heap_B_vulnerable ++ [[]]))%nat) by (simpl; lia).
  split; [exact H1|]. split; [exact H2|].
  destruct (import_adopts_vulnerability_dictionary (heap_B_vulnerable ++ [[]])
              {| graph := []; asset_metadata := []; vulnerability_data := 1 |}
              scenario_AB "B" "CVE-1" 5%Q true true H1 H2) as [Ho [Hvul _]].
  split; [exact Ho | exact Hvul].
Defined.

(** *** Records *)

Lemma import_nodes_untouched l : forall e k,
  ~ In k (map fst l) ->
  dict_get k (asset_metadata (fold_left import_node l e)) = dict_get k (asset_metadata e).
Proof.
  induction l as [|[node_id node] l IH]; intros e k Hk; cbn [fold_left];
    [reflexivity|].
  rewrite IH by (intros H; apply Hk; now right).
  unfold import_node, add_asset. simpl. apply dict_get_set_other.
  intros ->. apply Hk. now left.
Qed.

Lemma import_nodes_record l : forall e node_id node,
  NoDup (map fst l) -> In (node_id, node) l ->
  dict_get node_id (asset_metadata (fold_left import_node l e))
  = Some (imported_record (node_id, node)).
Proof.
  induction l as [|[k0 n0] l IH]; intros e node_id node Hnd Hin;
    cbn [fold_left map fst] in *; [destruct Hin|].
  apply NoDup_cons_iff in Hnd as [Hn0 Hnd]. destruct Hin as [E | Hin].
  - inversion E; subst. rewrite import_nodes_untouched by exact Hn0.
    unfold import_node, add_asset. simpl. apply dict_get_set_same.
  - now apply IH.
Qed.

Lemma imported_export_node meta k :
  (forall k m, dict_get k meta = Some m -> am_id m = k) ->
  imported_record (k, pop_id (export_node meta k)) = roundtrip_record k (dict_get k meta).
Proof.
  intros Hid. unfold export_node, roundtrip_record.
  destruct (dict_get k meta) as [m|] eqn:E; [|reflexivity].
  unfold imported_record, with_compromise. simpl. now rewrite (Hid k m E).
Qed.

(** X13. The import of the export of a well-formed engine returns, and
    afterwards every node of the graph has a metadata record and nothing
    else has one: a node that had a
    record gets it back with its type, name, criticality, zone and metadata
    map, but with the compromise flag False and the compromise time None;
    a node that had none (created by a connection only) gets the default
    record: type "unknown", its id as name, criticality "medium", zone
    "internal". *)
Theorem export_import_records (h : Heap) (e0 e : Engine) :
  wf_engine e ->
  ir_outcome (import_from_dict h e0 (export_to_dict e)) = Ok tt
  /\ forall k,
       dict_get k (asset_metadata (ir_engine (import_from_dict h e0 (export_to_dict e))))
       = if in_graph k (graph e)
         then Some (roundtrip_record k (dict_get k (asset_metadata e)))
         else None.
Proof.
  intros He. split; [apply import_export_dictionary|].
  intros k. pose proof He as [[Hnd _] Hid].
  destruct (import_from_dict_imported h e0 (export_to_dict e)) as [_ ->].
  rewrite (imported_export e He). rewrite import_edges_metadata.
  assert (Hids : map fst (map (fun n => (n, pop_id (export_node (asset_metadata e) n)))
                            (nodes (graph e)))
                 = nodes (graph e)).
  { rewrite map_map. cbn [fst]. apply map_id. }
  destruct (in_graph k (graph e)) eqn:Hk.
  - apply dict_mem_In in Hk.
    rewrite <- (imported_export_node _ _ Hid).
    apply import_nodes_record.
    + rewrite Hids. exact Hnd.
    + apply in_map_iff. exists k. split; [reflexivity | exact Hk].
  - rewrite import_nodes_untouched; [reflexivity|].
    rewrite Hids. intros Hin. apply dict_mem_In in Hin. unfold in_graph in Hk. congruence.
Qed.

Lemma export_import_records_witness :
  wf_engine (add_connection scenario_AB "B" "Z" "network" None 1%Q false)
  /\ ir_outcome (import_from_dict [[]] scenario_AB
                   (export_to_dict
                      (add_connection scenario_AB "B" "Z" "network" None 1%Q false)))
     = Ok tt
  /\ dict_get "Z"
       (asset_metadata
          (ir_engine (import_from_dict [[]] scenario_AB
                  (export_to_dict
                     (add_connection scenario_AB "B" "Z" "network" None 1%Q false)))))
     = Some {| am_id := "Z"; am_type := "unknown"; am_name := "Z";
               am_criticality := "medium"; am_zone := "internal";
               am_compromised := false; am_compromise_time := None;
               am_metadata := [] |}.
Proof.
  assert (H : wf_engine (add_connection scenario_AB "B" "Z" "network" None 1%Q false))
    by (apply wf_engine_add_connection, scenario_AB_wf).
  split; [exact H|].
  destruct (export_import_records [[]] scenario_AB _ H) as [Ho Hrec].
  split; [exact Ho | exact (Hrec "Z")].
Defined.

(** ** More on the simulation *)

Lemma same_records_refl m : same_records m m.
Proof. intros k. reflexivity. Qed.

Lemma same_records_trans m1 m2 m3 :
  same_records m1 m2 -> same_records m2 m3 -> same_records m1 m3.
Proof. intros H12 H23 k. now rewrite H23, H12. Qed.

Lemma same_records_reset meta : same_records meta (reset_all meta).
Proof.
  intros k. unfold reset_all.
  rewrite (dict_get_map_values (fun m => with_compromise m false None)).
  destruct (dict_get k meta); reflexivity.
Qed.

Lemma same_records_mark meta aid t meta' :
  mark_compromised meta aid t = Some meta' -> same_records meta meta'.
Proof.
  unfold mark_compromised. destruct (dict_get aid meta) as [m|] eqn:E; [|discriminate].
  intros H k. inversion H; subst. destruct (String.eqb_spec k aid) as [-> | Hne].
  - now rewrite dict_get_set_same, E.
  - now rewrite dict_get_set_other.
Qed.

Section SimFrame.
Variable set_order : list string -> list string.
Variable rng : nat -> Q.
Variable g : DiGraph.
Variable vd : vuln_map.
Variable p : Q.

Lemma state_same_refl s : state_same_records s s.
Proof. apply same_records_refl. Qed.

Lemma state_same_trans s1 s2 s3 :
  state_same_records s1 s2 -> state_same_records s2 s3 -> state_same_records s1 s3.
Proof. apply same_records_trans. Qed.

Lemma try_neighbor_same t c s nb :
  state_same_records s (try_neighbor rng vd p t c s nb).
Proof.
  unfold state_same_records, try_neighbor.
  destruct (ss_raised s); [apply same_records_refl|].
  destruct (mem nb (ss_compromised s)); [apply same_records_refl|].
  destruct (negb (Qle_bool _ _)); simpl; [|apply same_records_refl].
  destruct (mark_compromised (ss_meta s) nb t) eqn:E; [|apply same_records_refl].
  eapply same_records_mark; eauto.
Qed.

Lemma spread_from_same t s c : state_same_records s (spread_from rng g vd p t s c).
Proof.
  unfold spread_from. apply fold_left_preorder;
    [apply state_same_refl | apply state_same_trans | intros; apply try_neighbor_same].
Qed.

Lemma time_step_same t s : state_same_records s (time_step set_order rng g vd p t s).
Proof.
  unfold time_step. destruct (ss_raised s); [apply state_same_refl|]. cbv zeta.
  match goal with
  | |- context [fold_left ?f ?l ?s0] =>
      pose proof (fold_left_preorder state_same_records f state_same_refl
                    state_same_trans (spread_from_same t) l s0) as H
  end.
  destruct (ss_raised (fold_left _ _ _)); exact H.
Qed.

Lemma run_steps_same n : forall t s,
  state_same_records s (run_steps set_order rng g vd p n t s).
Proof.
  induction n as [|n IH]; intros t s; simpl.
  - apply state_same_refl.
  - eapply state_same_trans; [apply time_step_same | apply IH].
Qed.

End SimFrame.

Lemma simulate_engine_cases set_order rng h e x time_steps p :
  let e' := fst (simulate_lateral_movement set_order rng h e x time_steps p) in
  e' = e
  \/ e' = with_metadata e (reset_all (asset_metadata e))
  \/ exists s, sim_state set_order rng h e x p (Z.to_nat time_steps) = Some s
               /\ e' = with_metadata e (ss_meta s).
Proof.
  unfold simulate_lateral_movement.
  destruct (negb (in_graph x (graph e))); [now left|].
  destruct (sim_state set_order rng h e x p (Z.to_nat time_steps)) as [s|] eqn:Es;
    [|right; now left].
  right. right. exists s. split; [reflexivity|].
  destruct (ss_raised s); [reflexivity|].
  repeat match goal with
         | |- context [tier_members ?m ?t ?l] => destruct (tier_members m t l)
         end; reflexivity.
Qed.

Lemma simulation_frame set_order rng h e x time_steps p :
  let e' := fst (simulate_lateral_movement set_order rng h e x time_steps p) in
  graph e' = graph e
  /\ vulnerability_data e' = vulnerability_data e
  /\ same_records (asset_metadata e) (asset_metadata e').
Proof.
  intros e'.
  destruct (simulate_engine_cases set_order rng h e x time_steps p)
    as [E | [E | [s [Hs E]]]]; fold e' in E; rewrite E; simpl.
  - split; [reflexivity|]. split; [reflexivity|]. apply same_records_refl.
  - split; [reflexivity|]. split; [reflexivity|]. apply same_records_reset.
  - split; [reflexivity|]. split; [reflexivity|]. unfold sim_state in Hs.
    destruct (mark_compromised (reset_all (asset_metadata e)) x 0) as [meta1|] eqn:Em;
      [|discriminate].
    inversion Hs; subst s.
    eapply same_records_trans; [apply same_records_reset|].
    eapply same_records_trans; [eapply same_records_mark; eauto|].
    apply (run_steps_same set_order rng (graph e) (vulns_of h e) p
             (Z.to_nat time_steps) 1%Z (start_state meta1 x)).
Qed.

Lemma add_connection_graph_keeps e source_id target_id connection_type protocols weight
    bidirectional k :
  in_graph k (graph e) = true ->
  in_graph k (graph (add_connection e source_id target_id connection_type protocols
                       weight bidirectional)) = true
  /\ asset_metadata (add_connection e source_id target_id connection_type protocols
                       weight bidirectional) = asset_metadata e.
Proof.
  intros Hk. split; [|reflexivity]. unfold add_connection. simpl.
  destruct bidirectional; rewrite !in_graph_add_edge, Hk; now rewrite !orb_true_r.
Qed.

(** X14. A simulation run writes nothing but compromise state: the
    graph and the vulnerability dictionary of the engine are unchanged, no
    record appears or disappears, and every record keeps its id, type,
    name, criticality, zone and metadata map - whatever the outcome of the
    run (result, error result or raised KeyError). *)
Theorem simulation_writes_only_compromise_state
    (set_order : list string -> list string) (rng : nat -> Q) (h : Heap) (e : Engine)
    (x : string) (time_steps : Z) (p : Q) :
  let e' := fst (simulate_lateral_movement set_order rng h e x time_steps p) in
  graph e' = graph e
  /\ vulnerability_data e' = vulnerability_data e
  /\ forall k,
       option_map static (dict_get k (asset_metadata e'))
       = option_map static (dict_get k (asset_metadata e)).
Proof.
  intros e'. apply (simulation_frame set_order rng h e x time_steps p).
Qed.

Lemma records_in_graph_import h e data :
  records_in_graph (ir_engine (import_from_dict h e data)).
Proof.
  intros k. destruct (import_from_dict_imported h e data) as [-> ->].
  rewrite imported_read. rewrite import_edges_metadata, import_nodes_records. simpl.
  rewrite orb_false_r. intros Hk. apply import_edges_keep.
  rewrite import_nodes_in_graph, Hk. reflexivity.
Qed.

(** X15. The engine's invariants - unique node and successor keys, every
    successor of an edge a node, no edge with an empty protocol list, every
    record stored under its own id, every record's id a node - hold for a
    new engine and after any import, whether it returned or raised, and
    are kept by [add_asset], [add_connection] and
    [simulate_lateral_movement]. *)
Theorem engine_invariants_kept :
  (forall h, wf_engine (snd (init_engine h)) /\ records_in_graph (snd (init_engine h)))
  /\ (forall h e data,
         wf_engine (ir_engine (import_from_dict h e data))
         /\ records_in_graph (ir_engine (import_from_dict h e data)))
  /\ (forall e, wf_engine e -> records_in_graph e ->
        (forall asset_id asset_type name criticality zone metadata,
            wf_engine (add_asset e asset_id asset_type name criticality zone metadata)
            /\ records_in_graph
                 (add_asset e asset_id asset_type name criticality zone metadata))
        /\ (forall source_id target_id connection_type protocols weight bidirectional,
               wf_engine (add_connection e source_id target_id connection_type protocols
                            weight bidirectional)
               /\ records_in_graph
                    (add_connection e source_id target_id connection_type protocols
                       weight bidirectional))
        /\ (forall set_order rng h x time_steps p,
               wf_engine (fst (simulate_lateral_movement set_order rng h e x time_steps p))
               /\ records_in_graph
                    (fst (simulate_lateral_movement set_order rng h e x time_steps p)))).
Proof.
  split; [|split].
  - intros h. unfold init_engine. simpl. split.
    + split; [apply wf_graph_nil | intros k m; discriminate].
    + intros k; discriminate.
  - intros h e data. split; [apply wf_engine_import | apply records_in_graph_import].
  - intros e Hwf Hrec. split; [|split].
    + intros. split; [now apply wf_engine_add_asset|].
      intros k. unfold add_asset. simpl. rewrite dict_mem_set, in_graph_add_node.
      destruct (String.eqb k asset_id); [reflexivity|]. apply Hrec.
    + intros. split; [now apply wf_engine_add_connection|].
      intros k Hk.
      destruct (add_connection_graph_keeps e source_id target_id connection_type
                  protocols weight bidirectional k (Hrec k Hk)) as [Hg Hm].
      exact Hg.
    + intros. 
      destruct (simulation_frame set_order rng h e x time_steps p) as [Hg [_ Hm]].
      destruct Hwf as [Hgw Hid]. split.
      * split; [now rewrite Hg|]. intros k m' Hget.
        specialize (Hm k). rewrite Hget in Hm. simpl in Hm.
        destruct (dict_get k (asset_metadata e)) as [m|] eqn:E; [|discriminate].
        simpl in Hm. apply (f_equal (option_map am_id)) in Hm. simpl in Hm.
        inversion Hm as [Hs]. rewrite <- (Hid k m E). exact Hs.
      * intros k Hk. rewrite Hg. apply Hrec. unfold dict_mem in *.
        specialize (Hm k).
        destruct (dict_get k (asset_metadata
                    (fst (simulate_lateral_movement set_order rng h e x time_steps p))));
          [|discriminate].
        destruct (dict_get k (asset_metadata e)); [reflexivity | discriminate].
Qed.

Lemma engine_invariants_kept_witness :
  wf_engine scenario_AB /\ records_in_graph scenario_AB
  /\ wf_engine (fst (simulate_lateral_movement (fun l => l) draws_low_high_low [[]]
                       scenario_AB "A" 2 (1 # 2)%Q))
  /\ records_in_graph (fst (simulate_lateral_movement (fun l => l) draws_low_high_low
                              [[]] scenario_AB "A" 2 (1 # 2)%Q)).
Proof.
  destruct engine_invariants_kept as [Hnew [_ Hkept]].
  destruct (Hnew []) as [W0 R0]. change (snd (init_engine [])) with
    {| graph := []; asset_metadata := []; vulnerability_data := 0 |} in W0, R0.
  destruct (Hkept _ W0 R0) as [Ha _].
  destruct (Ha "A" "server" "A" "high" "dmz" None) as [W1 R1].
  destruct (Hkept _ W1 R1) as [Hb _].
  destruct (Hb "B" "server" "B" "critical" "internal" None) as [W2 R2].
  destruct (Hkept _ W2 R2) as [_ [Hc _]].
  destruct (Hc "A" "B" "network" None 1%Q false) as [W3 R3].
  fold scenario_AB in W3, R3.
  destruct (Hkept _ W3 R3) as [_ [_ Hs]].
  destruct (Hs (fun l => l) draws_low_high_low [[]] "A" 2%Z (1 # 2)%Q) as [W4 R4].
  split; [exact W3 | split; [exact R3 | split; [exact W4 | exact R4]]].
Defined.

(** *** What a returned result says *)

Lemma fold_left_invariant {S X : Type} (P : S -> Prop) (f : S -> X -> S) :
  (forall s x, P s -> P (f s x)) -> forall l s, P s -> P (fold_left f l s).
Proof.
  intros Hf. induction l as [|x l IH]; intros s Hs; simpl; auto.
Qed.

Lemma tier_members_spec meta tier l l' :
  tier_members meta tier l = Ok l' -> l' = of_tier meta tier l.
Proof.
  revert l'. induction l as [|a l IH]; intros l' H; simpl in *.
  - now inversion H.
  - destruct (dict_get a meta) as [m|]; [|discriminate].
    destruct (tier_members meta tier l) as [l0| |]; try discriminate.
    inversion H; subst. rewrite (IH l0 eq_refl).
    destruct (String.eqb (am_criticality m) tier); reflexivity.
Qed.

Lemma simulate_ok_inv set_order rng h e x time_steps p e' r :
  simulate_lateral_movement set_order rng h e x time_steps p = (e', Ok r) ->
  in_graph x (graph e) = true
  /\ exists s,
       sim_state set_order rng h e x p (Z.to_nat time_steps) = Some s
       /\ ss_raised s = None
       /\ e' = with_metadata e (ss_meta s)
       /\ sr_compromised_assets r = set_order (ss_compromised s)
       /\ sr_total_compromised r = List.length (ss_compromised s)
       /\ sr_timeline r = ss_timeline s
       /\ sr_critical_assets_compromised r
          = of_tier (ss_meta s) "critical" (set_order (ss_compromised s))
       /\ sr_high_assets_compromised r
          = of_tier (ss_meta s) "high" (set_order (ss_compromised s)).
Proof.
  unfold simulate_lateral_movement.
  destruct (in_graph x (graph e)); simpl negb; cbv iota; [|discriminate].
  destruct (sim_state set_order rng h e x p (Z.to_nat time_steps)) as [s|];
    [|discriminate].
  cbv zeta. destruct (ss_raised s) eqn:Hr; [discriminate|].
  destruct (tier_members (ss_meta s) "critical" (set_order (ss_compromised s)))
    as [lc| |] eqn:Ec; try discriminate;
    destruct (tier_members (ss_meta s) "high" (set_order (ss_compromised s)))
      as [lh| |] eqn:Eh; try discriminate.
  intros H. inversion H; subst. simpl. split; [reflexivity|]. exists s.
  repeat split; auto using tier_members_spec.
Qed.

Section SimInvariants.
Variable set_order : list string -> list string.
Variable rng : nat -> Q.
Variable g : DiGraph.
Variable vd : vuln_map.
Variable p : Q.
Hypothesis set_order_perm : forall l, Permutation (set_order l) l.

Lemma try_neighbor_flags_match t c s nb :
  flags_match s -> flags_match (try_neighbor rng vd p t c s nb).
Proof.
  intros [Hnd Hf]. unfold try_neighbor.
  destruct (ss_raised s) eqn:Hr; [split; [exact Hnd | rewrite Hr; discriminate]|].
  destruct (mem nb (ss_compromised s)) eqn:Hm; [split; [exact Hnd | intros _; now apply Hf]|].
  apply mem_false in Hm.
  destruct (negb (Qle_bool _ _)); simpl; [|split; [exact Hnd | intros _; now apply Hf]].
  split; simpl.
  - apply NoDup_app; [exact Hnd | repeat constructor; intros [] |].
    intros a Ha [<- | []]. now apply Hm.
  - destruct (mark_compromised (ss_meta s) nb t) as [m|] eqn:E; [|discriminate].
    intros _ a. rewrite (mark_compromised_flag _ _ _ _ E), in_app_iff. simpl.
    destruct (String.eqb_spec a nb) as [-> | Hne].
    + split; auto.
    + rewrite (Hf eq_refl a). split; [auto | intros [H | [H | []]]; [exact H | congruence]].
Qed.

Lemma time_step_flags_match t s :
  flags_match s -> flags_match (time_step set_order rng g vd p t s).
Proof.
  intros Hs. unfold time_step. destruct (ss_raised s) eqn:Hr; [exact Hs|]. cbv zeta.
  match goal with
  | |- context [fold_left ?f ?l ?s0] =>
      assert (H1 : flags_match (fold_left f l s0))
  end.
  { apply fold_left_invariant.
    - intros s' c Hs'. unfold spread_from. apply fold_left_invariant; [|exact Hs'].
      intros s'' nb. apply try_neighbor_flags_match.
    - destruct Hs as [Hnd Hf]. split; [exact Hnd|]. simpl. intros _. now apply Hf. }
  destruct (ss_raised (fold_left _ _ _)) eqn:Hr1; [exact H1|].
  destruct H1 as [Hnd Hf]. split; [exact Hnd|]. simpl. intros _. now apply Hf.
Qed.

Lemma run_steps_flags_match n : forall t s,
  flags_match s -> flags_match (run_steps set_order rng g vd p n t s).
Proof.
  induction n as [|n IH]; intros t s Hs; simpl; [exact Hs|].
  apply IH. now apply time_step_flags_match.
Qed.

Lemma compromised_le_refl s : compromised_le s s.
Proof. apply incl_refl. Qed.

Lemma compromised_le_trans s1 s2 s3 :
  compromised_le s1 s2 -> compromised_le s2 s3 -> compromised_le s1 s3.
Proof. apply incl_tran. Qed.

Lemma time_step_compromised t s :
  compromised_le s (time_step set_order rng g vd p t s).
Proof.
  unfold time_step. destruct (ss_raised s); [apply compromised_le_refl|]. cbv zeta.
  match goal with
  | |- context [fold_left ?f ?l ?s0] =>
      assert (H1 : compromised_le s0 (fold_left f l s0))
  end.
  { apply fold_left_preorder; [apply compromised_le_refl | apply compromised_le_trans|].
    intros s' c. unfold spread_from.
    apply fold_left_preorder; [apply compromised_le_refl | apply compromised_le_trans|].
    intros s'' nb. apply try_neighbor_compromised. }
  destruct (ss_raised (fold_left _ _ _)); exact H1.
Qed.

Lemma run_steps_compromised n : forall t s,
  compromised_le s (run_steps set_order rng g vd p n t s).
Proof.
  induction n as [|n IH]; intros t s; simpl; [apply compromised_le_refl|].
  eapply compromised_le_trans; [apply time_step_compromised | apply IH].
Qed.

(** One hop per time step at most. *)
Lemma try_neighbor_within x k t c s nb :
  (exists j, (j <= k)%nat /\ reach g x j c) ->
  In nb (neighbors g c) ->
  within_hops g x (S k) s ->
  within_hops g x (S k) (try_neighbor rng vd p t c s nb).
Proof.
  intros [j [Hj Hc]] Hnb Hs. unfold try_neighbor.
  destruct (ss_raised s); [exact Hs|].
  destruct (mem nb (ss_compromised s)); [exact Hs|].
  destruct (negb (Qle_bool _ _)); simpl; [|exact Hs].
  intros a Ha. simpl in Ha. apply in_app_iff in Ha as [Ha | [<- | []]]; [now apply Hs|].
  exists (S j). split; [lia|]. econstructor; eauto.
Qed.

Lemma time_step_within x k t s :
  within_hops g x k s ->
  within_hops g x (S k) (time_step set_order rng g vd p t s).
Proof.
  intros Hs.
  assert (Hup : within_hops g x (S k) s).
  { intros a Ha. destruct (Hs a Ha) as [j [Hj Hr]]. exists j. split; [lia | exact Hr]. }
  unfold time_step. destruct (ss_raised s); [exact Hup|]. cbv zeta.
  match goal with
  | |- context [fold_left ?f ?l ?s0] =>
      assert (H1 : within_hops g x (S k) (fold_left f l s0))
  end.
  { assert (Hsrc : forall c, In c (set_order (ss_compromised s)) ->
                             exists j, (j <= k)%nat /\ reach g x j c).
    { intros c Hc. apply Hs. eapply Permutation_in; [apply set_order_perm | exact Hc]. }
    revert Hsrc. generalize (set_order (ss_compromised s)). intros cs Hsrc.
    match goal with |- within_hops _ _ _ (fold_left _ _ ?s0) =>
      assert (H0 : within_hops g x (S k) s0) by exact Hup; revert H0; generalize s0 end.
    induction cs as [|c cs IHc]; intros s0 H0; simpl; [exact H0|].
    apply IHc; [intros c' Hc'; apply Hsrc; now right|].
    unfold spread_from.
    assert (Hnb : forall nb, In nb (neighbors g c) -> In nb (neighbors g c)) by auto.
    revert Hnb H0. generalize (neighbors g c) at 1 3. intros nbrs. revert s0.
    induction nbrs as [|nb nbrs IHn]; intros s0 Hnb H0; simpl; [exact H0|].
    apply IHn; [intros nb' H'; apply Hnb; now right|].
    apply try_neighbor_within; [apply Hsrc; now left | apply Hnb; now left | exact H0]. }
  destruct (ss_raised (fold_left _ _ _)); exact H1.
Qed.

Lemma run_steps_within x n : forall k t s,
  within_hops g x k s ->
  within_hops g x (k + n) (run_steps set_order rng g vd p n t s).
Proof.
  induction n as [|n IH]; intros k t s Hs; simpl.
  - now rewrite Nat.add_0_r.
  - replace (k + S n)%nat with (S k + n)%nat by lia. apply IH.
    now apply time_step_within.
Qed.

End SimInvariants.

Section SimTimeline.
Variable set_order : list string -> list string.
Variable rng : nat -> Q.
Variable g : DiGraph.
Variable vd : vuln_map.
Variable p : Q.
Hypothesis set_order_perm : forall l, Permutation (set_order l) l.

Lemma try_neighbor_newly base tl t c s nb :
  ss_compromised s = base ++ ss_newly s /\ ss_timeline s = tl ->
  ss_compromised (try_neighbor rng vd p t c s nb)
  = base ++ ss_newly (try_neighbor rng vd p t c s nb)
  /\ ss_timeline (try_neighbor rng vd p t c s nb) = tl.
Proof.
  intros [Hc Ht]. unfold try_neighbor.
  destruct (ss_raised s); [now split|].
  destruct (mem nb (ss_compromised s)); [now split|].
  destruct (negb (Qle_bool _ _)); simpl; [|now split].
  split; [|exact Ht]. now rewrite Hc, app_assoc.
Qed.

(** A completed step appends one entry holding exactly the nodes it added. *)
Lemma time_step_timeline t s :
  ss_raised s = None ->
  ss_raised (time_step set_order rng g vd p t s) = None ->
  exists en,
    ss_timeline (time_step set_order rng g vd p t s) = ss_timeline s ++ [en]
    /\ tl_time_step en = t
    /\ tl_total_compromised en
       = List.length (ss_compromised (time_step set_order rng g vd p t s))
    /\ ss_compromised (time_step set_order rng g vd p t s)
       = ss_compromised s ++ tl_newly_compromised en.
Proof.
  intros Hr. unfold time_step. rewrite Hr. cbv zeta.
  match goal with
  | |- context [fold_left ?f ?l ?s0] =>
      assert (H1 : ss_compromised (fold_left f l s0)
                   = ss_compromised s ++ ss_newly (fold_left f l s0)
                   /\ ss_timeline (fold_left f l s0) = ss_timeline s)
  end.
  { apply (fold_left_invariant
             (fun s' => ss_compromised s' = ss_compromised s ++ ss_newly s'
                        /\ ss_timeline s' = ss_timeline s)).
    - intros s' c Hs'. unfold spread_from.
      apply (fold_left_invariant
               (fun s' => ss_compromised s' = ss_compromised s ++ ss_newly s'
                          /\ ss_timeline s' = ss_timeline s)); [|exact Hs'].
      intros s'' nb. apply try_neighbor_newly.
    - simpl. split; [now rewrite app_nil_r | reflexivity]. }
  destruct (ss_raised (fold_left _ _ _)) eqn:Hr1; [intros Hn; rewrite Hr1 in Hn; discriminate|].
  intros _. destruct H1 as [Hc Ht]. eexists. simpl. rewrite Ht.
  split; [reflexivity|]. simpl. repeat split. exact Hc.
Qed.

Lemma time_step_raised t s :
  ss_raised (time_step set_order rng g vd p t s) = None -> ss_raised s = None.
Proof.
  unfold time_step. destruct (ss_raised s) eqn:Hr; [now rewrite Hr | reflexivity].
Qed.

Lemma newly_all_app tl1 tl2 : newly_all (tl1 ++ tl2) = newly_all tl1 ++ newly_all tl2.
Proof. unfold newly_all. now rewrite map_app, concat_app. Qed.

Lemma time_step_timeline_ok x k s :
  within_hops g x k s ->
  timeline_ok g x k s ->
  timeline_ok g x (S k) (time_step set_order rng g vd p (Z.of_nat (S k)) s).
Proof.
  intros Hw Hs Hr'. pose proof (time_step_raised _ _ Hr') as Hr.
  destruct (Hs Hr) as [Hlen [Hall [Hrun Hin]]].
  destruct (time_step_timeline _ _ Hr Hr') as [en [Htl [Hno [Htot Hcomp]]]].
  pose proof (time_step_within set_order rng g vd p set_order_perm x k
                (Z.of_nat (S k)) s Hw) as Hw'.
  rewrite Htl. split; [rewrite length_app; simpl; lia|].
  assert (Hall' : newly_all (ss_timeline s ++ [en])
                  = ss_compromised (time_step set_order rng g vd p (Z.of_nat (S k)) s)).
  { rewrite newly_all_app, Hall, Hcomp. unfold newly_all. simpl.
    now rewrite app_nil_r. }
  split; [exact Hall'|]. split.
  - intros i e' Hi.
    destruct (Nat.lt_ge_cases i (List.length (ss_timeline s))) as [Hlt | Hge].
    + rewrite nth_error_app1 in Hi by exact Hlt.
      destruct (Hrun i e' Hi) as [H1 H2]. split; [exact H1|].
      rewrite firstn_app. replace (S i - List.length (ss_timeline s))%nat with O by lia.
      simpl firstn at 2. rewrite app_nil_r. exact H2.
    + rewrite nth_error_app2 in Hi by exact Hge.
      destruct (i - List.length (ss_timeline s))%nat as [|d] eqn:Ed;
        [|destruct d; discriminate].
      simpl in Hi. inversion Hi; subst e'.
      assert (Ei : i = S k) by lia. subst i. split; [exact Hno|].
      rewrite firstn_all2 by (rewrite length_app; simpl; lia).
      now rewrite Hall', Htot.
  - intros i e' a Hi Ha.
    destruct (Nat.lt_ge_cases i (List.length (ss_timeline s))) as [Hlt | Hge].
    + rewrite nth_error_app1 in Hi by exact Hlt. eapply Hin; eauto.
    + rewrite nth_error_app2 in Hi by exact Hge.
      destruct (i - List.length (ss_timeline s))%nat as [|d] eqn:Ed;
        [|destruct d; discriminate].
      simpl in Hi. inversion Hi; subst e'.
      assert (Ei : i = S k) by lia. subst i.
      apply Hw'. rewrite Hcomp. apply in_app_iff. now right.
Qed.

Lemma run_steps_timeline_ok x n : forall k s,
  within_hops g x k s ->
  timeline_ok g x k s ->
  timeline_ok g x (k + n)
    (run_steps set_order rng g vd p n (Z.of_nat (S k)) s).
Proof.
  induction n as [|n IH]; intros k s Hw Hs; cbn [run_steps].
  - now rewrite Nat.add_0_r.
  - replace (k + S n)%nat with (S k + n)%nat by lia.
    replace (Z.of_nat (S k) + 1)%Z with (Z.of_nat (S (S k))) by lia.
    apply IH.
    + apply time_step_within; assumption.
    + apply time_step_timeline_ok; assumption.
Qed.

Lemma start_state_timeline_ok x meta : timeline_ok g x 0 (start_state meta x).
Proof.
  intros _. simpl. split; [reflexivity|]. split; [reflexivity|]. split.
  - intros [|[|i]] en Hi; simpl in Hi; try discriminate.
    inversion Hi; subst. now split.
  - intros [|[|i]] en a Hi Ha; simpl in Hi; try discriminate.
    inversion Hi; subst. simpl in Ha. destruct Ha as [<- | []].
    exists O. split; [lia | constructor].
Qed.

Lemma start_state_within x meta : within_hops g x 0 (start_state meta x).
Proof.
  intros a [<- | []]. exists O. split; [lia | constructor].
Qed.

Lemma start_state_flags_match x meta meta1 :
  mark_compromised (reset_all meta) x 0 = Some meta1 ->
  flags_match (start_state meta1 x).
Proof.
  intros Hm. split; simpl.
  - repeat constructor. intros [].
  - intros _ a. rewrite (mark_compromised_flag _ _ _ _ Hm), flag_reset_all.
    destruct (String.eqb_spec a x) as [-> | Hne]; split; auto.
    + discriminate.
    + intros [E | []]. congruence.
Qed.

End SimTimeline.

(** *** Results of a simulation run *)

Lemma sim_state_inv set_order rng h e x p k s :
  sim_state set_order rng h e x p k = Some s ->
  exists meta1,
    mark_compromised (reset_all (asset_metadata e)) x 0 = Some meta1
    /\ s = run_steps set_order rng (graph e) (vulns_of h e) p k 1%Z
             (start_state meta1 x).
Proof.
  unfold sim_state.
  destruct (mark_compromised (reset_all (asset_metadata e)) x 0) as [m|];
    [|discriminate].
  intros H. inversion H. eauto.
Qed.

Lemma mark_reset_none meta x :
  dict_mem x meta = false -> mark_compromised (reset_all meta) x 0 = None.
Proof.
  unfold dict_mem, mark_compromised, reset_all.
  rewrite (dict_get_map_values (fun m => with_compromise m false None)).
  destruct (dict_get x meta); [discriminate | reflexivity].
Qed.

Lemma mark_reset_some meta x :
  dict_mem x meta = true ->
  exists meta1, mark_compromised (reset_all meta) x 0 = Some meta1
                /\ dict_mem x meta1 = true.
Proof.
  intros H. unfold dict_mem, mark_compromised, reset_all in *.
  rewrite (dict_get_map_values (fun m => with_compromise m false None)).
  destruct (dict_get x meta) as [m|]; [|discriminate]. simpl.
  eexists. split; [reflexivity|]. rewrite dict_get_set_same. reflexivity.
Qed.

(** X16. Edge cases of [simulate_lateral_movement]: an initial node that
    is not in the graph gives the error result and leaves the engine as it
    was; an initial node in the graph without a record raises [KeyError]
    after every flag was cleared; and with [time_steps <= 0] no step runs:
    the result lists the initial node alone, with the single timeline entry
    of step 0, rate 0, and the initial node is the only flagged record. *)
Theorem simulation_edge_cases
    (set_order : list string -> list string) (rng : nat -> Q) (h : Heap)
    (e : Engine) (x : string) (time_steps : Z) (p : Q) :
  (in_graph x (graph e) = false ->
   simulate_lateral_movement set_order rng h e x time_steps p
   = (e, ErrorResult "Asset not found"))
  /\ (in_graph x (graph e) = true -> dict_mem x (asset_metadata e) = false ->
      simulate_lateral_movement set_order rng h e x time_steps p
      = (with_metadata e (reset_all (asset_metadata e)), KeyError x))
  /\ (in_graph x (graph e) = true -> dict_mem x (asset_metadata e) = true ->
      (time_steps <= 0)%Z ->
      (forall l, Permutation (set_order l) l) ->
      exists e' r,
        simulate_lateral_movement set_order rng h e x time_steps p = (e', Ok r)
        /\ sr_compromised_assets r = [x]
        /\ sr_total_compromised r = 1%nat
        /\ sr_timeline r = [{| tl_time_step := 0; tl_newly_compromised := [x];
                               tl_total_compromised := 1 |}]
        /\ sr_propagation_rate r = 0%Q
        /\ forall a, flag (asset_metadata e') a = true <-> a = x).
Proof.
  split; [|split].
  - intros Hg. unfold simulate_lateral_movement. now rewrite Hg.
  - intros Hg Hm. unfold simulate_lateral_movement, sim_state.
    rewrite Hg, (mark_reset_none _ _ Hm). reflexivity.
  - intros Hg Hm Hn Hperm.
    destruct (mark_reset_some _ _ Hm) as [meta1 [Hmark Hrec]].
    assert (Hso : set_order [x] = [x]).
    { apply Permutation_length_1_inv. apply Permutation_sym, Hperm. }
    unfold simulate_lateral_movement, sim_state. rewrite Hg, Hmark.
    replace (Z.to_nat time_steps) with O by lia. simpl negb. cbv iota.
    cbn [run_steps]. cbv zeta. cbn [start_state ss_raised ss_meta ss_compromised].
    rewrite Hso. cbn [tier_members].
    unfold dict_mem in Hrec. destruct (dict_get x meta1) as [m|]; [|discriminate].
    eexists. eexists. split; [reflexivity|]. cbn.
    split; [reflexivity|]. split; [reflexivity|]. split; [reflexivity|].
    split.
    + destruct (time_steps >? 0)%Z eqn:E; [lia | reflexivity].
    + intros a. rewrite (mark_compromised_flag _ _ _ _ Hmark), flag_reset_all.
      destruct (String.eqb_spec a x); split; auto. discriminate.
Qed.

Lemma simulation_edge_cases_witness :
  in_graph "Z" (graph triangle) = false
  /\ simulate_lateral_movement (fun l => l) draws_low_high_low [[]] triangle "Z" 3
       (1 # 2)%Q = (triangle, ErrorResult "Asset not found")
  /\ in_graph "A" (graph triangle) = true
  /\ dict_mem "A" (asset_metadata triangle) = true
  /\ (0 <= 0)%Z
  /\ exists e' r,
       simulate_lateral_movement (fun l => l) draws_low_high_low [[]] triangle "A" 0
         (1 # 2)%Q = (e', Ok r)
       /\ sr_compromised_assets r = ["A"].
Proof.
  pose proof (simulation_edge_cases (fun l => l) draws_low_high_low [[]] triangle
                "Z" 3 (1 # 2)%Q) as [H1 _].
  pose proof (simulation_edge_cases (fun l => l) draws_low_high_low [[]] triangle
                "A" 0 (1 # 2)%Q) as [_ [_ H3]].
  split; [reflexivity|]. split; [exact (H1 eq_refl)|].
  split; [reflexivity|]. split; [reflexivity|]. split; [lia|].
  destruct (H3 eq_refl eq_refl (Z.le_refl 0) (fun l => Permutation_refl l))
    as [e' [r [E [Hc _]]]].
  exists e', r. split; assumption.
Defined.

(** X17. What a returned simulation result says about the engine: the
    compromised list has no repetition and contains the initial node, the
    total is its length, a record is flagged after the run exactly when its
    node is in the list, and the critical and high lists are the members of
    the list whose record has that criticality. *)
Theorem simulation_result_consistent
    (set_order : list string -> list string) (rng : nat -> Q) (h : Heap)
    (e e' : Engine) (x : string) (time_steps : Z) (p : Q) (r : SimResult) :
  (forall l, Permutation (set_order l) l) ->
  simulate_lateral_movement set_order rng h e x time_steps p = (e', Ok r) ->
  NoDup (sr_compromised_assets r)
  /\ In x (sr_compromised_assets r)
  /\ sr_total_compromised r = List.length (sr_compromised_assets r)
  /\ (forall a, flag (asset_metadata e') a = true <-> In a (sr_compromised_assets r))
  /\ sr_critical_assets_compromised r
     = of_tier (asset_metadata e') "critical" (sr_compromised_assets r)
  /\ sr_high_assets_compromised r
     = of_tier (asset_metadata e') "high" (sr_compromised_assets r).
Proof.
  intros Hperm Hrun.
  destruct (simulate_ok_inv _ _ _ _ _ _ _ _ _ Hrun)
    as [Hg [s [Hs [Hr [He [Hc [Ht [_ [Hcrit Hhigh]]]]]]]]].
  destruct (sim_state_inv _ _ _ _ _ _ _ _ Hs) as [meta1 [Hmark Hsteps]].
  assert (Hfm : flags_match s).
  { rewrite Hsteps. apply run_steps_flags_match.
    eapply start_state_flags_match; eauto. }
  assert (Hin : In x (ss_compromised s)).
  { rewrite Hsteps. apply (run_steps_compromised set_order rng (graph e)
                             (vulns_of h e) p (Z.to_nat time_steps) 1%Z
                             (start_state meta1 x)). now left. }
  destruct Hfm as [Hnd Hflag]. subst e'. simpl. rewrite Hc.
  split; [eapply Permutation_NoDup; [apply Permutation_sym, Hperm | exact Hnd]|].
  split; [eapply Permutation_in; [apply Permutation_sym, Hperm | exact Hin]|].
  split; [rewrite Ht; symmetry; apply Permutation_length, Hperm|].
  split; [|split; assumption].
  intros a. rewrite (Hflag Hr a). split; intros Ha.
  - eapply Permutation_in; [apply Permutation_sym, Hperm | exact Ha].
  - eapply Permutation_in; [apply Hperm | exact Ha].
Qed.

Lemma simulation_result_consistent_witness :
  exists e' r,
    simulate_lateral_movement (fun l => l) draws_low_high_low [[]] triangle "A" 2
      (1 # 2)%Q = (e', Ok r)
    /\ NoDup (sr_compromised_assets r)
    /\ sr_total_compromised r = List.length (sr_compromised_assets r).
Proof.
  destruct (simulate_lateral_movement (fun l => l) draws_low_high_low [[]] triangle
              "A" 2 (1 # 2)%Q) as [e' [r|m|k]] eqn:E;
    [|vm_compute in E; discriminate|vm_compute in E; discriminate].
  exists e', r. split; [reflexivity|].
  destruct (simulation_result_consistent (fun l => l) draws_low_high_low [[]]
              triangle e' "A" 2 (1 # 2)%Q r (fun l => Permutation_refl l) E)
    as [H1 [_ [H3 _]]].
  split; assumption.
Defined.

(** X18. The timeline of a returned result accounts for every
    compromise: it has one entry per step plus the entry of step 0, entry
    [i] is numbered [i] and its total counts the nodes listed so far, and
    the newly-compromised lists together hold each compromised node exactly
    once. *)
Theorem timeline_accounts_for_every_compromise
    (set_order : list string -> list string) (rng : nat -> Q) (h : Heap)
    (e e' : Engine) (x : string) (time_steps : Z) (p : Q) (r : SimResult) :
  (forall l, Permutation (set_order l) l) ->
  simulate_lateral_movement set_order rng h e x time_steps p = (e', Ok r) ->
  List.length (sr_timeline r) = S (Z.to_nat time_steps)
  /\ running_totals (sr_timeline r)
  /\ Permutation (newly_all (sr_timeline r)) (sr_compromised_assets r)
  /\ NoDup (newly_all (sr_timeline r)).
Proof.
  intros Hperm Hrun.
  destruct (simulate_ok_inv _ _ _ _ _ _ _ _ _ Hrun)
    as [Hg [s [Hs [Hr [He [Hc [Ht [Htl _]]]]]]]].
  destruct (sim_state_inv _ _ _ _ _ _ _ _ Hs) as [meta1 [Hmark Hsteps]].
  assert (Hok : timeline_ok (graph e) x (Z.to_nat time_steps) s).
  { rewrite Hsteps.
    apply (run_steps_timeline_ok set_order rng (graph e) (vulns_of h e) p Hperm x
             (Z.to_nat time_steps) O (start_state meta1 x)).
    - apply start_state_within.
    - apply start_state_timeline_ok. }
  assert (Hfm : flags_match s).
  { rewrite Hsteps. apply run_steps_flags_match.
    eapply start_state_flags_match; eauto. }
  destruct (Hok Hr) as [Hlen [Hall [Hrt _]]]. rewrite Htl, Hc, Hall.
  split; [exact Hlen|]. split; [exact Hrt|].
  split; [apply Permutation_sym, Hperm | apply Hfm].
Qed.

Lemma timeline_accounts_for_every_compromise_witness :
  exists e' r,
    simulate_lateral_movement (fun l => l) draws_low_high_low [[]] triangle "A" 2
      (1 # 2)%Q = (e', Ok r)
    /\ List.length (sr_timeline r) = 3%nat
    /\ NoDup (newly_all (sr_timeline r)).
Proof.
  destruct (simulate_lateral_movement (fun l => l) draws_low_high_low [[]] triangle
              "A" 2 (1 # 2)%Q) as [e' [r|m|k]] eqn:E;
    [|vm_compute in E; discriminate|vm_compute in E; discriminate].
  exists e', r. split; [reflexivity|].
  destruct (timeline_accounts_for_every_compromise (fun l => l)
              draws_low_high_low [[]] triangle e' "A" 2 (1 # 2)%Q r
              (fun l => Permutation_refl l) E) as [H1 [_ [_ H4]]].
  split; assumption.
Defined.

(** X19. Compromise spreads at most one hop per step: a node that timeline
    entry [i] lists as newly compromised is reached from the initial node
    along at most [i] edges of the graph, and every compromised node is
    reached along at most [time_steps] edges. *)
Theorem compromise_spreads_one_hop_per_step
    (set_order : list string -> list string) (rng : nat -> Q) (h : Heap)
    (e e' : Engine) (x : string) (time_steps : Z) (p : Q) (r : SimResult) :
  (forall l, Permutation (set_order l) l) ->
  simulate_lateral_movement set_order rng h e x time_steps p = (e', Ok r) ->
  entries_within (graph e) x (sr_timeline r)
  /\ forall a, In a (sr_compromised_assets r) ->
       exists j, (j <= Z.to_nat time_steps)%nat /\ reach (graph e) x j a.
Proof.
  intros Hperm Hrun.
  destruct (simulate_ok_inv _ _ _ _ _ _ _ _ _ Hrun)
    as [Hg [s [Hs [Hr [He [Hc [Ht [Htl _]]]]]]]].
  destruct (sim_state_inv _ _ _ _ _ _ _ _ Hs) as [meta1 [Hmark Hsteps]].
  assert (Hok : timeline_ok (graph e) x (Z.to_nat time_steps) s).
  { rewrite Hsteps.
    apply (run_steps_timeline_ok set_order rng (graph e) (vulns_of h e) p Hperm x
             (Z.to_nat time_steps) O (start_state meta1 x)).
    - apply start_state_within.
    - apply start_state_timeline_ok. }
  assert (Hw : within_hops (graph e) x (Z.to_nat time_steps) s).
  { rewrite Hsteps.
    apply (run_steps_within set_order rng (graph e) (vulns_of h e) p Hperm x
             (Z.to_nat time_steps) O 1%Z (start_state meta1 x)).
    apply start_state_within. }
  destruct (Hok Hr) as [_ [_ [_ Hin]]]. rewrite Htl, Hc.
  split; [exact Hin|].
  intros a Ha. apply Hw. eapply Permutation_in; [apply Hperm | exact Ha].
Qed.

Lemma compromise_spreads_one_hop_per_step_witness :
  exists e' r,
    simulate_lateral_movement (fun l => l) draws_low_high_low [[]] triangle "A" 2
      (1 # 2)%Q = (e', Ok r)
    /\ entries_within (graph triangle) "A" (sr_timeline r).
Proof.
  destruct (simulate_lateral_movement (fun l => l) draws_low_high_low [[]] triangle
              "A" 2 (1 # 2)%Q) as [e' [r|m|k]] eqn:E;
    [|vm_compute in E; discriminate|vm_compute in E; discriminate].
  exists e', r. split; [reflexivity|].
  exact (proj1 (compromise_spreads_one_hop_per_step (fun l => l)
                  draws_low_high_low [[]] triangle e' "A" 2 (1 # 2)%Q r
                  (fun l => Permutation_refl l) E)).
Defined.

(** *** Certain spread *)

Section FullSpread.
Variable set_order : list string -> list string.
Variable rng : nat -> Q.
Variable g : DiGraph.
Variable vd : vuln_map.
Variable p : Q.
Hypothesis set_order_perm : forall l, Permutation (set_order l) l.
Hypothesis always_spreads : forall i nb, (rng i < spread_probability vd p nb)%Q.

Lemma try_neighbor_spreads t c s nb :
  ss_raised (try_neighbor rng vd p t c s nb) = None ->
  In nb (ss_compromised (try_neighbor rng vd p t c s nb)).
Proof.
  unfold try_neighbor. destruct (ss_raised s) eqn:Hr; [intros H; congruence|].
  destruct (mem nb (ss_compromised s)) eqn:Hm; [intros _; now apply mem_In|].
  assert (Hs : Qle_bool (spread_probability vd p nb) (rng (ss_draws s)) = false).
  { destruct (Qle_bool _ _) eqn:E; [|reflexivity].
    apply Qle_bool_iff in E. pose proof (always_spreads (ss_draws s) nb) as Hlt.
    exfalso. eapply Qlt_not_le; eauto. }
  rewrite Hs. simpl. intros _. apply in_app_iff. right. now left.
Qed.

Lemma spread_from_raised t c nbrs : forall s,
  ss_raised (fold_left (try_neighbor rng vd p t c) nbrs s) = None -> ss_raised s = None.
Proof.
  induction nbrs as [|nb nbrs IH]; intros s H; simpl in H; [exact H|].
  apply IH in H. unfold try_neighbor in H.
  destruct (ss_raised s) eqn:Hr; [congruence | reflexivity].
Qed.

Lemma spread_from_compromised t c nbrs : forall s,
  incl (ss_compromised s) (ss_compromised (fold_left (try_neighbor rng vd p t c) nbrs s)).
Proof.
  induction nbrs as [|nb nbrs IH]; intros s; simpl; [apply incl_refl|].
  eapply incl_tran; [|apply IH]. apply try_neighbor_compromised.
Qed.

Lemma spread_from_all t c nbrs a : forall s,
  In a nbrs ->
  ss_raised (fold_left (try_neighbor rng vd p t c) nbrs s) = None ->
  In a (ss_compromised (fold_left (try_neighbor rng vd p t c) nbrs s)).
Proof.
  induction nbrs as [|nb nbrs IH]; intros s Ha Hr; [destruct Ha|]. simpl in *.
  destruct Ha as [-> | Ha]; [|now apply IH].
  apply spread_from_compromised. apply try_neighbor_spreads.
  now apply spread_from_raised in Hr.
Qed.

Lemma sources_raised t cs : forall s,
  ss_raised (fold_left (spread_from rng g vd p t) cs s) = None -> ss_raised s = None.
Proof.
  induction cs as [|c cs IH]; intros s H; simpl in H; [exact H|].
  apply IH in H. unfold spread_from in H. now apply spread_from_raised in H.
Qed.

Lemma sources_compromised t cs : forall s,
  incl (ss_compromised s) (ss_compromised (fold_left (spread_from rng g vd p t) cs s)).
Proof.
  induction cs as [|c cs IH]; intros s; simpl; [apply incl_refl|].
  eapply incl_tran; [|apply IH]. apply spread_from_compromised.
Qed.

Lemma sources_all t cs u a : forall s,
  In u cs -> In a (neighbors g u) ->
  ss_raised (fold_left (spread_from rng g vd p t) cs s) = None ->
  In a (ss_compromised (fold_left (spread_from rng g vd p t) cs s)).
Proof.
  induction cs as [|c cs IH]; intros s Hu Ha Hr; [destruct Hu|]. simpl in *.
  destruct Hu as [-> | Hu]; [|now apply IH].
  apply sources_compromised. unfold spread_from. apply spread_from_all; [exact Ha|].
  apply sources_raised in Hr. exact Hr.
Qed.

Lemma time_step_covers x k t s :
  covers_hops g x k s ->
  covers_hops g x (S k) (time_step set_order rng g vd p t s).
Proof.
  intros Hs Hr' a [j [Hj Hreach]].
  pose proof (time_step_raised set_order rng g vd p t s Hr') as Hr.
  pose proof (time_step_compromised set_order rng g vd p t s) as Hmono.
  destruct (Nat.eq_dec j (S k)) as [-> | Hne].
  - inversion Hreach as [|k0 u v Hu Hv]; subst.
    assert (Hin : In u (set_order (ss_compromised s))).
    { eapply Permutation_in; [apply Permutation_sym, set_order_perm|].
      apply (Hs Hr). exists k. split; [lia | exact Hu]. }
    revert Hr'. unfold time_step. rewrite Hr. cbv zeta.
    match goal with
    | |- context [fold_left ?f ?l ?s0] =>
        pose proof (sources_all t l u a s0 Hin Hv) as Hall;
        destruct (ss_raised (fold_left f l s0)) eqn:Hr1
    end; [intros H; congruence|].
    intros _. simpl. now apply Hall.
  - apply Hmono. apply (Hs Hr). exists j. split; [lia | exact Hreach].
Qed.

Lemma run_steps_covers x n : forall k t s,
  covers_hops g x k s ->
  covers_hops g x (k + n) (run_steps set_order rng g vd p n t s).
Proof.
  induction n as [|n IH]; intros k t s Hs; cbn [run_steps].
  - now rewrite Nat.add_0_r.
  - replace (k + S n)%nat with (S k + n)%nat by lia. apply IH.
    now apply time_step_covers.
Qed.

End FullSpread.

(** X29. When every attempt succeeds - each draw lies below the
    probability computed for the neighbour, as with a propagation
    probability of 1 or more and draws from [0, 1) - the simulation is
    deterministic in what it compromises: a returned result lists exactly
    the nodes that can be reached from the initial node along at most
    [time_steps] edges. *)
Theorem certain_spread_reaches_every_hop
    (set_order : list string -> list string) (rng : nat -> Q) (h : Heap)
    (e e' : Engine) (x : string) (time_steps : Z) (p : Q) (r : SimResult) :
  (forall l, Permutation (set_order l) l) ->
  (forall i nb, (rng i < spread_probability (vulns_of h e) p nb)%Q) ->
  simulate_lateral_movement set_order rng h e x time_steps p = (e', Ok r) ->
  forall a,
    In a (sr_compromised_assets r)
    <-> exists j, (j <= Z.to_nat time_steps)%nat /\ reach (graph e) x j a.
Proof.
  intros Hperm Hdraw Hrun a.
  destruct (simulate_ok_inv _ _ _ _ _ _ _ _ _ Hrun)
    as [Hg [s [Hs [Hr [_ [Hc _]]]]]].
  destruct (sim_state_inv _ _ _ _ _ _ _ _ Hs) as [meta1 [Hmark Hsteps]].
  rewrite Hc. split.
  - intros Ha.
    assert (Hw : within_hops (graph e) x (Z.to_nat time_steps) s).
    { rewrite Hsteps.
      apply (run_steps_within set_order rng (graph e) (vulns_of h e) p Hperm x
               (Z.to_nat time_steps) O 1%Z (start_state meta1 x)).
      apply start_state_within. }
    apply Hw. eapply Permutation_in; [apply Hperm | exact Ha].
  - intros Ha.
    assert (Hcov : covers_hops (graph e) x (Z.to_nat time_steps) s).
    { rewrite Hsteps.
      apply (run_steps_covers set_order rng (graph e) (vulns_of h e) p Hperm Hdraw x
               (Z.to_nat time_steps) O 1%Z (start_state meta1 x)).
      intros _ b [j [Hj Hb]]. assert (j = O) by lia. subst j.
      inversion Hb; subst. now left. }
    eapply Permutation_in; [apply Permutation_sym, Hperm|]. now apply Hcov.
Qed.

Lemma certain_spread_reaches_every_hop_witness :
  exists e' r,
    simulate_lateral_movement (fun l => l) (fun _ => 0%Q) [[]] triangle "A" 1 1%Q
    = (e', Ok r)
    /\ (In "C" (sr_compromised_assets r)
        <-> exists j, (j <= 1)%nat /\ reach (graph triangle) "A" j "C").
Proof.
  destruct (simulate_lateral_movement (fun l => l) (fun _ => 0%Q) [[]] triangle "A" 1
              1%Q) as [e' [r|m|k]] eqn:E;
    [|vm_compute in E; discriminate|vm_compute in E; discriminate].
  exists e', r. split; [reflexivity|].
  apply (certain_spread_reaches_every_hop (fun l => l) (fun _ => 0%Q) [[]] triangle e'
           "A" 1 1%Q r).
  - intros l. apply Permutation_refl.
  - intros i nb. unfold spread_probability, vulns_of, heap_get. simpl.
    destruct nb; reflexivity.
  - exact E.
Defined.

(** ** More on the blast radius *)

Lemma fold_left_flat_map {S X Y : Type} (f : S -> Y -> S) (h : X -> list Y)
    (l : list X) : forall s,
  fold_left (fun st c => fold_left f (h c) st) l s = fold_left f (flat_map h l) s.
Proof.
  induction l as [|c l IH]; intros s; simpl; [reflexivity|].
  now rewrite fold_left_app, IH.
Qed.

Lemma visit_scan (cands : list string) : forall nl vis nl' vis',
  fold_left visit_step cands (nl, vis) = (nl', vis') ->
  (forall a, In a nl' <-> In a nl \/ (In a cands /\ ~ In a vis))
  /\ (forall a, In a vis' <-> In a vis \/ In a cands)
  /\ (NoDup nl -> incl nl vis -> NoDup nl').
Proof.
  induction cands as [|nb cands IH]; intros nl vis nl' vis' H; simpl in H.
  - inversion H; subst. simpl. split; [|split]; [intros a; tauto | intros a; tauto | auto].
  - destruct (mem nb vis) eqn:Hm.
    + apply mem_In in Hm. destruct (IH _ _ _ _ H) as [H1 [H2 H3]].
      split; [|split; [|exact H3]].
      * intros a. rewrite H1. simpl. split; [tauto|].
        intros [Ha | [[E | Ha] Hn]]; [tauto | subst; tauto | tauto].
      * intros a. rewrite H2. simpl. split; [tauto|].
        intros [Ha | [E | Ha]]; [tauto | subst; tauto | tauto].
    + apply mem_false in Hm. destruct (IH _ _ _ _ H) as [H1 [H2 H3]].
      split; [|split].
      * intros a. rewrite H1, in_app_iff. simpl.
        destruct (string_dec nb a) as [E | Hne]; [subst; tauto|]. tauto.
      * intros a. rewrite H2. simpl. tauto.
      * intros Hnd Hincl. apply H3.
        -- apply NoDup_app; [exact Hnd | repeat constructor; intros [] |].
           intros a Ha [<- | []]. apply Hm, Hincl, Ha.
        -- intros a Ha. apply in_app_iff in Ha as [Ha | [<- | []]];
             [right; now apply Hincl | now left].
Qed.

Section BlastDistance.
Variable e : Engine.
Variable x : string.

Local Abbreviation gr := (graph e).

Lemma expand_level_scan level visited :
  expand_level e level visited
  = fold_left visit_step (flat_map (neighbors gr) level) ([], visited).
Proof.
  unfold expand_level.
  rewrite <- (fold_left_flat_map visit_step (neighbors gr) level).
  generalize (@nil string, visited).
  induction level as [|c level IH]; intros st; simpl; [reflexivity|].
  rewrite IH. f_equal. generalize (neighbors gr c). clear.
  intros l. revert st. induction l as [|nb l IHl]; intros [nl vis]; simpl;
    [reflexivity | apply IHl].
Qed.

Lemma reach_zero a : reach gr x 0 a <-> a = x.
Proof.
  split; [intros H; now inversion H | intros ->; constructor].
Qed.

Lemma level_inv_start : level_inv gr x 0 [x] [x].
Proof.
  assert (Hb : forall a, ball gr x 0 a <-> a = x).
  { intros a. split.
    - intros [j [Hj Hr]]. assert (j = O) by lia. subst. now apply reach_zero.
    - intros ->. exists O. split; [lia | constructor]. }
  split; [|split; [|split]].
  - intros a. rewrite Hb. simpl. split; [intros [E | []]; auto | auto].
  - intros a. unfold at_distance. rewrite reach_zero. simpl.
    split; [intros [E | []]; split; [auto | intros j Hj; lia] | intros [E _]; auto].
  - intros a Ha. apply Hb in Ha. left. now left.
  - repeat constructor. intros [].
Qed.

Lemma expand_level_inv k level visited next visited' :
  level_inv gr x k visited level ->
  expand_level e level visited = (next, visited') ->
  level_inv gr x (S k) visited' next.
Proof.
  intros [Hvis [Hlev [Hsplit Hnd]]] Hex. rewrite expand_level_scan in Hex.
  destruct (visit_scan _ _ _ _ _ Hex) as [Hnext [Hvis' Hnd']].
  assert (Hcand : forall a, In a (flat_map (neighbors gr) level) ->
                            reach gr x (S k) a).
  { intros a Ha. apply in_flat_map in Ha as [c [Hc Hn]].
    apply Hlev in Hc as [Hc _]. econstructor; eauto. }
  assert (Hsplit' : forall a, ball gr x (S k) a ->
                      In a next \/ exists j, (j < S k)%nat /\ reach gr x j a).
  { intros a [j [Hj Hr]].
    destruct (Nat.eq_dec j (S k)) as [-> | Hne]; [|right; exists j; split; [lia | exact Hr]].
    inversion Hr as [|k0 u v Hu Hv]; subst.
    destruct (Hsplit u) as [Hul | [j' [Hj' Hr']]]; [exists k; split; [lia | exact Hu]| |].
    - destruct (mem a visited) eqn:Hm.
      + apply mem_In, Hvis in Hm as [j' [Hj' Hr']]. right. exists j'. split; [lia | exact Hr'].
      + apply mem_false in Hm. left. apply Hnext. right. split; [|exact Hm].
        apply in_flat_map. exists u. split; assumption.
    - right. exists (S j'). split; [lia|]. econstructor; eauto. }
  split; [|split; [|split]].
  - intros a. rewrite Hvis'. split.
    + intros [Ha | Ha].
      * apply Hvis in Ha as [j [Hj Hr]]. exists j. split; [lia | exact Hr].
      * exists (S k). split; [lia | now apply Hcand].
    + intros Ha. destruct (Hsplit' a Ha) as [Hn | [j [Hj Hr]]].
      * apply Hnext in Hn as [[] | [Hc _]]. now right.
      * left. apply Hvis. exists j. split; [lia | exact Hr].
  - intros a. rewrite Hnext. split.
    + intros [[] | [Hc Hn]]. split; [now apply Hcand|].
      intros j Hj Hr. apply Hn, Hvis. exists j. split; [lia | exact Hr].
    + intros [Hr Hmin]. right.
      destruct (Hsplit' a) as [Hn | [j [Hj Hr']]];
        [exists (S k); split; [lia | exact Hr] | | exfalso; eapply Hmin; eauto].
      apply Hnext in Hn as [[] | Hn]. exact Hn.
  - exact Hsplit'.
  - apply Hnd'; [constructor | intros a []].
Qed.

Lemma hop_loop_layers n : forall k d visited level,
  level_inv gr x k visited level ->
  (forall j, In j (map fst d) -> (j < Z.of_nat (S k))%Z) ->
  Forall (layer_ok gr x) d ->
  Forall (layer_ok gr x) (hop_loop e n (Z.of_nat (S k)) d visited level).
Proof.
  induction n as [|n IH]; intros k d visited level Hinv Hkeys Hd; cbn [hop_loop].
  - exact Hd.
  - destruct (expand_level e level visited) as [next visited'] eqn:Hex.
    pose proof (expand_level_inv _ _ _ _ _ Hinv Hex) as Hinv'.
    rewrite (hop_set_fresh _ _ _ Hkeys).
    replace (Z.of_nat (S k) + 1)%Z with (Z.of_nat (S (S k))) by lia.
    apply IH; [exact Hinv' | |].
    + intros j Hj. rewrite map_app in Hj. apply in_app_iff in Hj as [Hj | [<- | []]].
      * specialize (Hkeys j Hj). lia.
      * cbn [fst]. lia.
    + apply Forall_app. split; [exact Hd|]. constructor; [|constructor].
      destruct Hinv' as [_ [Hlev [_ Hnd]]].
      split; [cbn [fst]; lia|]. split; [exact Hnd|].
      cbn [fst snd]. rewrite Nat2Z.id. exact Hlev.
Qed.

Lemma layers_ok max_hops : Forall (layer_ok gr x) (layers e x max_hops).
Proof.
  unfold layers. apply (hop_loop_layers (Z.to_nat max_hops) O).
  - apply level_inv_start.
  - intros j Hj. simpl in Hj. destruct Hj as [<- | []]. lia.
  - constructor; [|constructor]. destruct level_inv_start as [_ [Hlev [_ Hnd]]].
    split; [cbn [fst]; lia|]. split; [exact Hnd | exact Hlev].
Qed.

Lemma at_distance_unique k1 k2 a :
  at_distance gr x k1 a -> at_distance gr x k2 a -> k1 = k2.
Proof.
  intros [H1 M1] [H2 M2].
  destruct (Nat.lt_trichotomy k1 k2) as [Hlt | [E | Hgt]]; [|exact E|].
  - exfalso. eapply M2; eauto.
  - exfalso. eapply M1; eauto.
Qed.

Lemma layers_concat_NoDup (rest : list (Z * list string)) :
  NoDup (map fst rest) -> Forall (layer_ok gr x) rest ->
  NoDup (List.concat (map snd rest)).
Proof.
  induction rest as [|[k l] rest IH]; intros Hnd Hok; simpl; [constructor|].
  apply NoDup_cons_iff in Hnd as [Hk Hnd]. apply Forall_cons_iff in Hok as [Hkl Hok].
  apply NoDup_app; [apply Hkl | apply IH; assumption |].
  intros a Ha Hin. apply in_concat in Hin as [l' [Hl' Ha']].
  apply in_map_iff in Hl' as [[k' l''] [E Hitem]]. simpl in E. subst l''.
  rewrite Forall_forall in Hok. pose proof (Hok _ Hitem) as [Hk0 [_ Hl']].
  destruct Hkl as [Hk1 [_ Hl]]. cbn [fst snd] in *.
  apply Hl in Ha. apply Hl' in Ha'.
  pose proof (at_distance_unique _ _ _ Ha Ha') as E.
  apply Hk. apply in_map_iff. exists (k', l'). split; [simpl; lia | exact Hitem].
Qed.

(** The affected list holds the nodes at distance 1 .. max_hops, once each. *)
Lemma all_affected_spec max_hops :
  NoDup (all_affected e x max_hops)
  /\ forall a, In a (all_affected e x max_hops) <-> in_radius gr x max_hops a.
Proof.
  destruct (hop_loop_keeps_head e (Z.to_nat max_hops) 1 [] [x] [x] [x])
    as [rest Hl]; [lia|].
  fold (layers e x max_hops) in Hl.
  destruct (all_affected_layers e x max_hops rest Hl) as [Hkeys Haff].
  pose proof (layers_ok max_hops) as Hok. rewrite Hl in Hok.
  apply Forall_cons_iff in Hok as [_ Hok].
  rewrite Haff. split.
  - apply layers_concat_NoDup; [rewrite Hkeys; apply hop_range_NoDup | exact Hok].
  - intros a. rewrite Forall_forall in Hok. split.
    + intros Ha. apply in_concat in Ha as [l [Hl' Ha]].
      apply in_map_iff in Hl' as [[k l'] [E Hitem]]. simpl in E. subst l'.
      destruct (Hok _ Hitem) as [_ [_ Hlev]]. cbn [fst snd] in Hlev.
      assert (Hk : In k (hop_range max_hops)).
      { rewrite <- Hkeys. apply in_map_iff. exists (k, l). split; auto. }
      unfold hop_range in Hk. apply in_map_iff in Hk as [i [<- Hi]].
      apply in_seq in Hi. exists (S i). split; [lia|].
      apply Hlev in Ha. now rewrite Nat2Z.id in Ha.
    + intros [k [Hk Hd]].
      assert (Hin : In (Z.of_nat k) (map fst rest)).
      { rewrite Hkeys. unfold hop_range. apply in_map_iff.
        exists (Nat.pred k). split; [lia | apply in_seq; lia]. }
      apply in_map_iff in Hin as [[k' l] [E Hitem]]. simpl in E. subst k'.
      destruct (Hok _ Hitem) as [_ [_ Hlev]]. cbn [fst snd] in Hlev.
      apply in_concat. exists l. split.
      * apply in_map_iff. exists (Z.of_nat k, l). split; auto.
      * apply Hlev. now rewrite Nat2Z.id.
Qed.

End BlastDistance.

Section BlastTiers.
Variable e : Engine.

Local Abbreviation bmeta := (asset_metadata e).

Lemma categorize_raised l k :
  fold_left (categorize_step e) l (KeyError k) = KeyError k.
Proof. induction l as [|a l IH]; simpl; auto. Qed.

Lemma categorize_fold (l : list string) : forall d,
  match fold_left (categorize_step e) l (Ok d) with
  | Ok d' =>
      dict_keys d' = dict_keys d
      /\ (forall t lt, dict_get t d = Some lt ->
            dict_get t d' = Some (lt ++ with_criticality bmeta t l))
      /\ (forall a, In a l -> In (criticality_of bmeta a) (dict_keys d))
  | KeyError c =>
      exists a, In a l /\ c = criticality_of bmeta a /\ ~ In c (dict_keys d)
  | ErrorResult _ => False
  end.
Proof.
  induction l as [|a l IH]; intros d; simpl.
  - split; [reflexivity|]. split; [|intros a []].
    intros t lt H. now rewrite app_nil_r.
  - destruct (dict_get (criticality_of bmeta a) d) as [la|] eqn:Ea.
    + assert (Hmem : dict_mem (criticality_of bmeta a) d = true)
        by (unfold dict_mem; now rewrite Ea).
      specialize (IH (dict_set (criticality_of bmeta a) (la ++ [a]) d)).
      destruct (fold_left _ l _) as [d'|m|c]; [| exact IH |].
      * destruct IH as [Hk [Hg Hall]].
        rewrite dict_keys_set_present in Hk, Hall by exact Hmem.
        split; [exact Hk|]. split.
        -- intros t lt Ht. unfold with_criticality. simpl.
           destruct (String.eqb_spec (criticality_of bmeta a) t) as [E | Hne].
           ++ subst t. rewrite Ea in Ht. inversion Ht; subst lt.
              rewrite (Hg _ (la ++ [a])) by apply dict_get_set_same.
              now rewrite <- app_assoc.
           ++ apply Hg. rewrite dict_get_set_other by congruence. exact Ht.
        -- intros b [<- | Hb]; [now apply dict_mem_In | now apply Hall].
      * destruct IH as [b [Hb [Hc Hn]]].
        rewrite dict_keys_set_present in Hn by exact Hmem.
        exists b. split; [now right | split; assumption].
    + rewrite categorize_raised. exists a. split; [now left|]. split; [reflexivity|].
      intros Hin. apply dict_mem_In in Hin. unfold dict_mem in Hin.
      now rewrite Ea in Hin.
Qed.

(** What [categorize] returns, and when it raises. *)
Lemma categorize_spec (l : list string) :
  match categorize e l with
  | Ok d =>
      d = map (fun t => (t, with_criticality bmeta t l)) tiers
      /\ (forall a, In a l -> In (criticality_of bmeta a) tiers)
  | KeyError c =>
      exists a, In a l /\ c = criticality_of bmeta a /\ ~ In c tiers
  | ErrorResult _ => False
  end.
Proof.
  unfold categorize.
  pose proof (categorize_fold l
                [("critical", []); ("high", []); ("medium", []); ("low", [])]) as H.
  destruct (fold_left _ l _) as [d|m|c]; [|exact H|exact H].
  destruct H as [Hk [Hg Hall]]. split; [|exact Hall].
  pose proof (Hg "critical" [] eq_refl) as H1. pose proof (Hg "high" [] eq_refl) as H2.
  pose proof (Hg "medium" [] eq_refl) as H3. pose proof (Hg "low" [] eq_refl) as H4.
  unfold dict_keys in Hk.
  destruct d as [|[k1 v1] [|[k2 v2] [|[k3 v3] [|[k4 v4] [|? ?]]]]]; try discriminate.
  simpl in Hk. inversion Hk; subst. simpl in H1, H2, H3, H4.
  inversion H1; inversion H2; inversion H3; inversion H4; subst. reflexivity.
Qed.

Lemma tiers_partition (l : list string) :
  (forall a, In a l -> In (criticality_of bmeta a) tiers) ->
  sum_nat (map (fun t => List.length (with_criticality bmeta t l)) tiers)
  = List.length l.
Proof.
  induction l as [|a l IH]; intros Hall; [reflexivity|].
  assert (IH' := IH (fun b Hb => Hall b (or_intror Hb))).
  pose proof (Hall a (or_introl eq_refl)) as Ha.
  unfold with_criticality, tiers, sum_nat in *. cbn [map fold_right filter] in *.
  destruct Ha as [E | [E | [E | [E | []]]]]; rewrite <- E; simpl; lia.
Qed.

End BlastTiers.

Lemma blast_radius_ok_inv (e : Engine) (x : string) (max_hops : Z) (r : BlastResult) :
  calculate_blast_radius e x max_hops = Ok r ->
  in_graph x (graph e) = true
  /\ (forall a, In a (all_affected e x max_hops) ->
                In (criticality_of (asset_metadata e) a) tiers)
  /\ br_total_affected_assets r = List.length (all_affected e x max_hops)
  /\ br_affected_by_hop r
     = map (fun '(k, v) => (k, List.length v))
         (filter (fun '(k, _) => (k >? 0)%Z) (layers e x max_hops))
  /\ br_affected_by_criticality r
     = map (fun t => (t, List.length (with_criticality (asset_metadata e) t
                                        (all_affected e x max_hops)))) tiers
  /\ br_critical_assets_at_risk r
     = with_criticality (asset_metadata e) "critical" (all_affected e x max_hops)
  /\ br_high_assets_at_risk r
     = with_criticality (asset_metadata e) "high" (all_affected e x max_hops).
Proof.
  unfold calculate_blast_radius.
  destruct (in_graph x (graph e)); simpl negb; cbv iota; [|discriminate]. cbv zeta.
  destruct (fold_left (risk_step e) (layers e x max_hops) (0%Q, [])) as [total rbh].
  pose proof (categorize_spec e (all_affected e x max_hops)) as Hc.
  destruct (categorize e (all_affected e x max_hops)) as [d|m|c]; try discriminate.
  destruct Hc as [Hd Hall]. intros H. inversion H; subst r; clear H. cbn.
  split; [reflexivity|]. split; [exact Hall|]. split; [reflexivity|].
  split; [reflexivity|]. subst d. repeat split; reflexivity.
Qed.

Lemma by_hop_rest (e : Engine) (x : string) (max_hops : Z)
    (rest : list (Z * list string)) :
  layers e x max_hops = (0%Z, [x]) :: rest ->
  map fst rest = hop_range max_hops ->
  filter (fun '(k, _) => (k >? 0)%Z) (layers e x max_hops) = rest.
Proof.
  intros Hl Hk. rewrite Hl. simpl.
  assert (Hpos : forall k, In k (map fst rest) -> (k >? 0)%Z = true).
  { rewrite Hk. unfold hop_range. intros k Hin.
    apply in_map_iff in Hin as [i [<- _]]. apply Z.gtb_lt. lia. }
  clear Hl Hk. induction rest as [|[k v] rest IH]; simpl; [reflexivity|].
  rewrite (Hpos k (or_introl eq_refl)). f_equal. apply IH.
  intros k' Hk'. apply Hpos. now right.
Qed.

Lemma sum_lengths_concat {A : Type} (ls : list (Z * list A)) :
  sum_nat (map snd (map (fun '(k, v) => (k, List.length v)) ls))
  = List.length (List.concat (map snd ls)).
Proof.
  induction ls as [|[k v] ls IH]; simpl; [reflexivity|].
  rewrite length_app. f_equal. exact IH.
Qed.

(** X20. The blast radius counts by distance: the affected assets are
    the nodes other than the source whose shortest route from the source
    has between 1 and [max_hops] edges, each counted once; the source is not
    among them; [affected_by_hop] has the keys 1 .. max_hops and the count
    under [hop] is the number of nodes at distance exactly [hop]. *)
Theorem blast_radius_counts_by_distance
    (e : Engine) (asset_id : string) (max_hops : Z) (r : BlastResult) :
  calculate_blast_radius e asset_id max_hops = Ok r ->
  (exists affected,
      NoDup affected
      /\ (forall a, In a affected <-> in_radius (graph e) asset_id max_hops a)
      /\ ~ In asset_id affected
      /\ br_total_affected_assets r = List.length affected)
  /\ map fst (br_affected_by_hop r) = hop_range max_hops
  /\ forall hop n, In (hop, n) (br_affected_by_hop r) ->
       exists l, NoDup l
                 /\ (forall a, In a l <-> at_distance (graph e) asset_id (Z.to_nat hop) a)
                 /\ n = List.length l.
Proof.
  intros Hr.
  destruct (blast_radius_ok_inv _ _ _ _ Hr) as [Hg [_ [Htot [Hhop _]]]].
  destruct (all_affected_spec e asset_id max_hops) as [Hnd Hin].
  destruct (hop_loop_keeps_head e (Z.to_nat max_hops) 1 [] [asset_id] [asset_id]
              [asset_id]) as [rest Hl]; [lia|].
  fold (layers e asset_id max_hops) in Hl.
  destruct (all_affected_layers e asset_id max_hops rest Hl) as [Hkeys _].
  rewrite (by_hop_rest _ _ _ _ Hl Hkeys) in Hhop.
  pose proof (layers_ok e asset_id max_hops) as Hok. rewrite Hl in Hok.
  apply Forall_cons_iff in Hok as [_ Hok]. rewrite Forall_forall in Hok.
  split; [|split].
  - exists (all_affected e asset_id max_hops).
    split; [exact Hnd|]. split; [exact Hin|]. split; [|exact Htot].
    intros Hx. apply Hin in Hx as [k [Hk [_ Hmin]]].
    apply (Hmin O); [lia | constructor].
  - rewrite Hhop, map_map, <- Hkeys. apply map_ext. now intros [k v].
  - intros hop n Hitem. rewrite Hhop in Hitem.
    apply in_map_iff in Hitem as [[k v] [E Hkv]]. inversion E; subst.
    destruct (Hok _ Hkv) as [_ [Hv Hlev]]. exists v. auto.
Qed.

Lemma blast_radius_counts_by_distance_witness :
  exists r,
    calculate_blast_radius scenario_AB "A" 1 = Ok r
    /\ map fst (br_affected_by_hop r) = hop_range 1.
Proof.
  destruct (calculate_blast_radius scenario_AB "A" 1) as [r|m|k] eqn:E;
    [|vm_compute in E; discriminate|vm_compute in E; discriminate].
  exists r. split; [reflexivity|].
  exact (proj1 (proj2 (blast_radius_counts_by_distance scenario_AB "A" 1 r E))).
Defined.

(** X21. How [calculate_blast_radius] ends: for a node that is not in the
    graph it returns the error result; for a node of the graph it never
    returns an error result, it returns a result exactly when every node in
    the radius has a criticality among critical, high, medium and low (a
    node without record counts as medium), and otherwise it raises
    [KeyError] with the criticality of such a node.  The criticality of the
    source itself is never looked up this way. *)
Theorem blast_radius_outcomes (e : Engine) (asset_id : string) (max_hops : Z) :
  (in_graph asset_id (graph e) = false ->
   calculate_blast_radius e asset_id max_hops = ErrorResult "Asset not found")
  /\ (in_graph asset_id (graph e) = true ->
      ((exists r, calculate_blast_radius e asset_id max_hops = Ok r)
       <-> forall a, in_radius (graph e) asset_id max_hops a ->
                     In (criticality_of (asset_metadata e) a) tiers)
      /\ ((exists r, calculate_blast_radius e asset_id max_hops = Ok r)
          \/ exists a, in_radius (graph e) asset_id max_hops a
                       /\ ~ In (criticality_of (asset_metadata e) a) tiers
                       /\ calculate_blast_radius e asset_id max_hops
                          = KeyError (criticality_of (asset_metadata e) a))).
Proof.
  destruct (all_affected_spec e asset_id max_hops) as [_ Hin].
  split.
  - intros Hg. unfold calculate_blast_radius. now rewrite Hg.
  - intros Hg. split.
    + split.
      * intros [r Hr] a Ha.
        destruct (blast_radius_ok_inv _ _ _ _ Hr) as [_ [Hall _]].
        apply Hall, Hin, Ha.
      * intros Hall.
        destruct (blast_radius_general e asset_id max_hops Hg) as [r [_ [Hr _]]];
          [intros a Ha; apply Hall, Hin, Ha | eauto].
    + unfold calculate_blast_radius. rewrite Hg. simpl negb. cbv iota zeta.
      destruct (fold_left (risk_step e) (layers e asset_id max_hops) (0%Q, []))
        as [total rbh].
      pose proof (categorize_spec e (all_affected e asset_id max_hops)) as Hc.
      destruct (categorize e (all_affected e asset_id max_hops)) as [d|m|c].
      * left. eauto.
      * destruct Hc.
      * right. destruct Hc as [a [Ha [Hc Hn]]]. subst c.
        exists a. split; [now apply Hin|]. split; [exact Hn | reflexivity].
Qed.

Lemma blast_radius_outcomes_witness :
  in_graph "Z" (graph scenario_untiered) = false
  /\ calculate_blast_radius scenario_untiered "Z" 1 = ErrorResult "Asset not found"
  /\ in_graph "A" (graph scenario_untiered) = true
  /\ calculate_blast_radius scenario_untiered "A" 1 = KeyError "unknown"
  /\ exists r, calculate_blast_radius scenario_untiered "B" 1 = Ok r.
Proof.
  pose proof (blast_radius_outcomes scenario_untiered "Z" 1) as [H1 _].
  pose proof (blast_radius_outcomes scenario_untiered "A" 1) as [_ H2].
  split; [reflexivity|]. split; [exact (H1 eq_refl)|]. split; [reflexivity|].
  destruct (H2 eq_refl) as [_ [[r Hr] | [a [_ [_ Hk]]]]].
  - vm_compute in Hr. discriminate.
  - split; [vm_compute; reflexivity|]. eexists. vm_compute. reflexivity.
Defined.

(** X22. The parts of a blast radius result agree with each other: the
    critical and high lists are the affected assets whose criticality is
    critical, respectively high; [affected_by_criticality] holds the four
    tiers in order with the number of affected assets of each; and both the
    per-tier counts and the per-hop counts add up to the total. *)
Theorem blast_radius_counts_agree
    (e : Engine) (asset_id : string) (max_hops : Z) (r : BlastResult) :
  calculate_blast_radius e asset_id max_hops = Ok r ->
  exists affected,
    NoDup affected
    /\ (forall a, In a affected <-> in_radius (graph e) asset_id max_hops a)
    /\ br_critical_assets_at_risk r
       = with_criticality (asset_metadata e) "critical" affected
    /\ br_high_assets_at_risk r
       = with_criticality (asset_metadata e) "high" affected
    /\ br_affected_by_criticality r
       = map (fun t => (t, List.length (with_criticality (asset_metadata e) t affected)))
           tiers
    /\ sum_nat (map snd (br_affected_by_criticality r)) = br_total_affected_assets r
    /\ sum_nat (map snd (br_affected_by_hop r)) = br_total_affected_assets r.
Proof.
  intros Hr.
  destruct (blast_radius_ok_inv _ _ _ _ Hr)
    as [Hg [Hall [Htot [Hhop [Hcrit [Hc Hh]]]]]].
  destruct (all_affected_spec e asset_id max_hops) as [Hnd Hin].
  destruct (hop_loop_keeps_head e (Z.to_nat max_hops) 1 [] [asset_id] [asset_id]
              [asset_id]) as [rest Hl]; [lia|].
  fold (layers e asset_id max_hops) in Hl.
  destruct (all_affected_layers e asset_id max_hops rest Hl) as [Hkeys Haff].
  rewrite (by_hop_rest _ _ _ _ Hl Hkeys) in Hhop.
  exists (all_affected e asset_id max_hops).
  split; [exact Hnd|]. split; [exact Hin|]. split; [exact Hc|]. split; [exact Hh|].
  split; [exact Hcrit|]. split.
  - rewrite Hcrit, Htot, map_map. cbn [snd].
    apply (tiers_partition e _ Hall).
  - rewrite Hhop, Htot, Haff. apply sum_lengths_concat.
Qed.

Lemma blast_radius_counts_agree_witness :
  exists r,
    calculate_blast_radius scenario_AB "A" 1 = Ok r
    /\ sum_nat (map snd (br_affected_by_hop r)) = br_total_affected_assets r.
Proof.
  destruct (calculate_blast_radius scenario_AB "A" 1) as [r|m|k] eqn:E;
    [|vm_compute in E; discriminate|vm_compute in E; discriminate].
  exists r. split; [reflexivity|].
  destruct (blast_radius_counts_agree scenario_AB "A" 1 r E)
    as [affected [_ [_ [_ [_ [_ [_ H]]]]]]].
  exact H.
Defined.

(** ** More on the critical path ranking *)

Lemma entry_points_In e a :
  In a (entry_points e) <->
  exists m, In (a, m) (asset_metadata e)
            /\ (am_zone m = "dmz" \/ am_zone m = "external").
Proof.
  unfold entry_points. rewrite in_map_iff. split.
  - intros [[k m] [E H]]. simpl in E. subst k. apply filter_In in H as [Hin Hz].
    exists m. split; [exact Hin|]. simpl in Hz.
    destruct (String.eqb_spec (am_zone m) "dmz"); [now left|].
    destruct (String.eqb_spec (am_zone m) "external"); [now right | discriminate].
  - intros [m [Hin Hz]]. exists (a, m). split; [reflexivity|].
    apply filter_In. split; [exact Hin|]. simpl.
    destruct Hz as [-> | ->]; reflexivity.
Qed.

Lemma critical_targets_In e a :
  In a (critical_targets e) <->
  exists m, In (a, m) (asset_metadata e) /\ am_criticality m = "critical".
Proof.
  unfold critical_targets. rewrite in_map_iff. split.
  - intros [[k m] [E H]]. simpl in E. subst k. apply filter_In in H as [Hin Hz].
    exists m. split; [exact Hin|]. now apply String.eqb_eq.
  - intros [m [Hin Hz]]. exists (a, m). split; [reflexivity|].
    apply filter_In. split; [exact Hin|]. now apply String.eqb_eq.
Qed.

Section PoolContents.
Variable fuel : nat.
Variable h : Heap.
Variable e : Engine.

Lemma pair_paths_In entry target acc :
  (bfs_fuel (graph e) entry target 8 <= fuel)%nat ->
  exists acc',
    pair_paths fuel h e entry target (Some acc) = Some acc'
    /\ forall c, In c acc' <->
         In c acc
         \/ exists p, In p (attack_paths (graph e) entry target 8)
                      /\ c = critical_entry h e entry target p.
Proof.
  intros Hfuel. unfold pair_paths.
  destruct (find_attack_paths_bfs_spec fuel (graph e) entry target 8 Hfuel)
    as [pb [-> Hpb]].
  eexists. split; [reflexivity|]. intros c. rewrite in_app_iff, in_map_iff.
  split; (intros [H | [p [H1 H2]]]; [now left | right; exists p]).
  - split; [now apply Hpb | now symmetry].
  - split; [now symmetry | now apply Hpb].
Qed.

Lemma targets_loop_In entry targets : forall acc,
  (forall t, In t targets -> (bfs_fuel (graph e) entry t 8 <= fuel)%nat) ->
  exists acc',
    fold_left (fun acc target => pair_paths fuel h e entry target acc) targets (Some acc)
    = Some acc'
    /\ forall c, In c acc' <->
         In c acc
         \/ exists t p, In t targets
                        /\ In p (attack_paths (graph e) entry t 8)
                        /\ c = critical_entry h e entry t p.
Proof.
  induction targets as [|t ts IH]; intros acc Hfuel; cbn [fold_left].
  - exists acc. split; [reflexivity|]. intros c. split; [now left|].
    intros [H | [t [p [[] _]]]]. exact H.
  - destruct (pair_paths_In entry t acc) as [acc1 [-> H1]]; [apply Hfuel; now left|].
    destruct (IH acc1) as [acc2 [E2 H2]]; [intros t' Ht'; apply Hfuel; now right|].
    exists acc2. split; [exact E2|]. intros c. rewrite H2, H1. split.
    + intros [[H | [p [Hp Hc]]] | [t' [p [Ht' [Hp Hc]]]]].
      * now left.
      * right. exists t, p. split; [now left | split; assumption].
      * right. exists t', p. split; [now right | split; assumption].
    + intros [H | [t' [p [[<- | Ht'] [Hp Hc]]]]].
      * left. now left.
      * left. right. exists p. split; assumption.
      * right. exists t', p. split; [exact Ht' | split; assumption].
Qed.

Lemma entries_loop_In targets entries : forall acc,
  (forall en t, In en entries -> In t targets ->
                (bfs_fuel (graph e) en t 8 <= fuel)%nat) ->
  exists acc',
    fold_left
      (fun acc entry =>
         fold_left (fun acc target => pair_paths fuel h e entry target acc) targets acc)
      entries (Some acc)
    = Some acc'
    /\ forall c, In c acc' <->
         In c acc
         \/ exists en t p, In en entries /\ In t targets
                           /\ In p (attack_paths (graph e) en t 8)
                           /\ c = critical_entry h e en t p.
Proof.
  induction entries as [|en ens IH]; intros acc Hfuel; cbn [fold_left].
  - exists acc. split; [reflexivity|]. intros c. split; [now left|].
    intros [H | [en [t [p [[] _]]]]]. exact H.
  - destruct (targets_loop_In en targets acc) as [acc1 [-> H1]];
      [intros t Ht; apply Hfuel; [now left | exact Ht]|].
    destruct (IH acc1) as [acc2 [E2 H2]];
      [intros en' t Hen Ht; apply Hfuel; [now right | exact Ht]|].
    exists acc2. split; [exact E2|]. intros c. rewrite H2, H1. split.
    + intros [[H | [t [p [Ht [Hp Hc]]]]] | [en' [t [p [Hen [Ht [Hp Hc]]]]]]].
      * now left.
      * right. exists en, t, p. split; [now left | repeat split; assumption].
      * right. exists en', t, p. split; [now right | repeat split; assumption].
    + intros [H | [en' [t [p [[<- | Hen] [Ht [Hp Hc]]]]]]].
      * left. now left.
      * left. right. exists t, p. repeat split; assumption.
      * right. exists en', t, p. repeat split; assumption.
Qed.

End PoolContents.

Lemma risk_ge_trans a b c : risk_ge a b -> risk_ge b c -> risk_ge a c.
Proof. unfold risk_ge. intros H1 H2. eapply Qle_trans; eauto. Qed.

(** X23. What [find_critical_paths] returns, given fuel for its searches:
    every entry describes a simple path of at most 8 nodes from a recorded
    dmz or external asset to a recorded critical asset, with its length and
    computed risk; and every such path is either returned or outranked,
    that is, the result then holds 20 entries and none of them has a lower
    risk score than the path left out. *)
Theorem find_critical_paths_top_candidates (fuel : nat) (h : Heap) (e : Engine) :
  (critical_paths_fuel e <= fuel)%nat ->
  exists r,
    find_critical_paths fuel h e = Some r
    /\ (forall c, In c r -> candidate h e c)
    /\ (forall c, candidate h e c ->
          In c r
          \/ (List.length r = 20%nat
              /\ forall c', In c' r -> (cp_risk_score c <= cp_risk_score c')%Q)).
Proof.
  intros Hfuel. unfold find_critical_paths.
  destruct (entries_loop_In fuel h e (critical_targets e) (entry_points e) [])
    as [pooled [-> Hpool]].
  { intros en t Hen Ht. etransitivity; [|exact Hfuel].
    now apply critical_paths_fuel_bound. }
  assert (Hcand : forall c, In c pooled <-> candidate h e c).
  { intros c. rewrite Hpool. split.
    - intros [[] | [en [t [p [Hen [Ht [Hp ->]]]]]]].
      apply attack_paths_iff in Hp as [Hg1 [Hg2 Hsp]].
      unfold candidate, critical_entry. cbn.
      split; [now apply entry_points_In|]. split; [now apply critical_targets_In|].
      repeat split; try assumption; apply Hsp.
    - intros [Hen [Ht [Hg1 [Hg2 [Hsp [Hlen Hrisk]]]]]]. right.
      exists (cp_entry_point c), (cp_target c), (cp_path c).
      split; [now apply entry_points_In|]. split; [now apply critical_targets_In|].
      split; [apply attack_paths_iff; repeat split; try assumption; apply Hsp|].
      destruct c as [en t p len risk]. unfold critical_entry. simpl in *.
      now subst. }
  eexists. split; [reflexivity|]. split.
  - intros c Hc. apply firstn_incl in Hc. rewrite sort_desc_In in Hc. now apply Hcand.
  - intros c Hc. apply Hcand in Hc. rewrite <- sort_desc_In in Hc.
    pose proof (sort_desc_Sorted pooled) as Hs.
    apply Sorted_StronglySorted in Hs; [|intros a b d; apply risk_ge_trans].
    rewrite <- (firstn_skipn 20 (sort_desc pooled)) in Hc, Hs.
    apply in_app_iff in Hc as [Hc | Hc]; [now left | right].
    apply StronglySorted_app_inv in Hs as [_ [_ Hle]]. split.
    + apply firstn_length_le. destruct (Nat.le_gt_cases 20 (List.length (sort_desc pooled)))
        as [Hge | Hlt]; [exact Hge|].
      rewrite skipn_all2 in Hc by lia. destruct Hc.
    + intros c' Hc'. exact (Hle c' c Hc' Hc).
Qed.

Lemma find_critical_paths_top_candidates_witness :
  (critical_paths_fuel chain_EMT <= 3)%nat
  /\ exists r,
       find_critical_paths 3 [[]] chain_EMT = Some r
       /\ forall c, In c r -> candidate [[]] chain_EMT c.
Proof.
  assert (H : (critical_paths_fuel chain_EMT <= 3)%nat) by (vm_compute; lia).
  split; [exact H|].
  destruct (find_critical_paths_top_candidates 3 [[]] chain_EMT H) as [r [Hr [Hc _]]].
  exists r. split; assumption.
Defined.

(** ** Network statistics *)

Lemma dict_set_length {V : Type} (d : dict V) k v :
  List.length (dict_set k v d)
  = (List.length d + if dict_mem k d then 0 else 1)%nat.
Proof.
  unfold dict_mem. induction d as [|[k' v'] d IH]; simpl; [reflexivity|].
  destruct (String.eqb k k'); simpl; [lia|]. rewrite IH.
  destruct (dict_get k d); lia.
Qed.

Lemma vulnerability_sum_set (d : vuln_map) a v :
  list_sum (map (fun '(_, l) => List.length l)
              (dict_set a (match dict_get a d with Some l => l | None => [] end ++ [v]) d))
  = S (list_sum (map (fun '(_, l) => List.length l) d)).
Proof.
  induction d as [|[k l] d IH]; simpl; [reflexivity|].
  destruct (String.eqb a k); simpl.
  - rewrite length_app. simpl. lia.
  - rewrite IH. lia.
Qed.

Lemma edges_add_node n g : edges (add_node n g) = edges g.
Proof.
  unfold add_node. destruct (in_graph n g); [reflexivity|].
  unfold edges. rewrite flat_map_app. simpl. now rewrite app_nil_r.
Qed.

Lemma nodes_add_node n g :
  List.length (nodes (add_node n g))
  = (List.length (nodes g) + if in_graph n g then 0 else 1)%nat.
Proof.
  unfold add_node, nodes, dict_keys. destruct (in_graph n g); [lia|].
  rewrite map_app, length_app. reflexivity.
Qed.

(** X24. The statistics follow the ingestion calls.  Each of the three
    breakdowns of [get_network_stats] adds up to the number of asset
    records, which (records being unique and each a node) is at most
    [total_assets]; [add_asset] raises [total_assets] by one exactly for a
    new node and leaves [total_connections] alone; [add_vulnerability]
    raises [total_vulnerabilities] by one and [assets_with_vulnerabilities]
    by one exactly for an asset without a list so far, node of the graph or
    not, and leaves [total_assets] alone; and for an empty graph density
    is 0 and [is_connected] is False, whatever networkx would say. *)
Theorem network_stats_track_ingestion
    (nx_density : DiGraph -> Q) (nx_is_weakly_connected : DiGraph -> bool)
    (h : Heap) (e : Engine) :
  let stats := get_network_stats nx_density nx_is_weakly_connected in
  (list_sum (map snd (ns_assets_by_zone (stats h e))) = List.length (asset_metadata e)
   /\ list_sum (map snd (ns_assets_by_criticality (stats h e)))
      = List.length (asset_metadata e)
   /\ list_sum (map snd (ns_assets_by_type (stats h e))) = List.length (asset_metadata e))
  /\ (unique_records e -> records_in_graph e ->
      (List.length (asset_metadata e) <= ns_total_assets (stats h e))%nat)
  /\ (forall asset_id asset_type name criticality zone metadata,
         let e' := add_asset e asset_id asset_type name criticality zone metadata in
         ns_total_assets (stats h e')
         = (ns_total_assets (stats h e)
            + if in_graph asset_id (graph e) then 0 else 1)%nat
         /\ ns_total_connections (stats h e') = ns_total_connections (stats h e))
  /\ ((vulnerability_data e < List.length h)%nat ->
      forall asset_id cve cvss expl net_expl,
        let h' := add_vulnerability h e asset_id cve cvss expl net_expl in
        ns_total_vulnerabilities (stats h' e) = S (ns_total_vulnerabilities (stats h e))
        /\ ns_assets_with_vulnerabilities (stats h' e)
           = (ns_assets_with_vulnerabilities (stats h e)
              + if dict_mem asset_id (vulns_of h e) then 0 else 1)%nat
        /\ ns_total_assets (stats h' e) = ns_total_assets (stats h e))
  /\ (graph e = [] ->
      ns_graph_density (stats h e) = 0%Q /\ ns_is_connected (stats h e) = false).
Proof.
  intros stats. unfold stats, get_network_stats. cbn.
  split; [|split; [|split; [|split]]].
  - unfold _count_by_attribute. split; [|split].
    + apply (count_fold_sum am_zone (asset_metadata e) []).
    + apply (count_fold_sum am_criticality (asset_metadata e) []).
    + apply (count_fold_sum am_type (asset_metadata e) []).
  - intros Hu Hrec. unfold unique_records in Hu.
    rewrite <- (length_map fst (asset_metadata e)).
    apply NoDup_incl_length; [exact Hu|].
    intros k Hk. apply dict_mem_In, Hrec. now apply dict_mem_In.
  - intros. split; [apply nodes_add_node | now rewrite edges_add_node].
  - intros Hl asset_id cve cvss expl net_expl. unfold add_vulnerability, vulns_of.
    rewrite heap_get_set_same by exact Hl.
    split; [apply vulnerability_sum_set|]. split; [apply dict_set_length | reflexivity].
  - intros ->. simpl. split; reflexivity.
Qed.

Lemma network_stats_track_ingestion_witness :
  unique_records scenario_AB /\ records_in_graph scenario_AB
  /\ (vulnerability_data scenario_AB < List.length heap_B_vulnerable)%nat
  /\ (List.length (asset_metadata scenario_AB)
      <= ns_total_assets
           (get_network_stats (fun _ => 0%Q) (fun _ => true) heap_B_vulnerable scenario_AB))%nat
  /\ ns_total_vulnerabilities
       (get_network_stats (fun _ => 0%Q) (fun _ => true)
          (add_vulnerability heap_B_vulnerable scenario_AB "Z" "CVE-2024-0001" 5%Q true true)
          scenario_AB)
     = 2%nat.
Proof.
  assert (Hu : unique_records scenario_AB).
  { unfold unique_records. simpl. repeat constructor; simpl; intuition discriminate. }
  assert (Hr : records_in_graph scenario_AB).
  { intros k Hk. unfold scenario_AB, add_connection, add_asset in *. simpl in *.
    unfold dict_mem in Hk. simpl in Hk. unfold in_graph, dict_mem. simpl.
    destruct (String.eqb k "A"); [reflexivity|].
    destruct (String.eqb k "B"); [reflexivity | discriminate]. }
  assert (Hl : (vulnerability_data scenario_AB < List.length heap_B_vulnerable)%nat)
    by (simpl; lia).
  destruct (network_stats_track_ingestion (fun _ => 0%Q) (fun _ => true)
              heap_B_vulnerable scenario_AB) as [_ [Hle [_ [Hv _]]]].
  split; [exact Hu|]. split; [exact Hr|]. split; [exact Hl|].
  split; [exact (Hle Hu Hr)|].
  destruct (Hv Hl "Z" "CVE-2024-0001" 5%Q true true) as [Hs _].
  exact Hs.
Defined.

(** ** The attack path route *)

Lemma find_attack_paths_bfs_sorted fuel g start_id target_id max_depth paths :
  find_attack_paths_bfs fuel g start_id target_id max_depth = Some paths ->
  StronglySorted by_length paths.
Proof.
  unfold find_attack_paths_bfs.
  destruct (negb (in_graph start_id g) || negb (in_graph target_id g)).
  - intros E. inversion E. constructor.
  - apply bfs_loop_ordered. split.
    + simpl. repeat constructor.
    + intros q1 q2 [<- | []] [<- | []]. lia.
Qed.

(** X25. GET /attack-paths/bfs answers 422 unless 1 <= max_depth <= 20.
    Otherwise, given fuel for the search, it answers 200:
    [paths_found] counts every path the finder returned while [paths] holds
    at most 50 of them; each listed path is a simple path from start to
    target within the depth bound; and a simple path that is not listed is
    at least as long as each of the 50 that are. *)
Theorem bfs_route_lists_shortest_paths
    (fuel : nat) (e : Engine) (start_id target_id : string) (max_depth : Z) :
  (depth_ok max_depth = false ->
   route_find_attack_paths_bfs fuel e start_id target_id max_depth = Some Http422)
  /\ (depth_ok max_depth = true ->
      (bfs_fuel (graph e) start_id target_id max_depth <= fuel)%nat ->
      exists resp,
        route_find_attack_paths_bfs fuel e start_id target_id max_depth
        = Some (Http200 resp)
        /\ List.length (pr_paths resp) = Nat.min 50 (pr_paths_found resp)
        /\ (forall p, In p (pr_paths resp) ->
              simple_path (graph e) start_id target_id max_depth p)
        /\ (forall p,
              in_graph start_id (graph e) = true ->
              in_graph target_id (graph e) = true ->
              simple_path (graph e) start_id target_id max_depth p ->
              In p (pr_paths resp)
              \/ (List.length (pr_paths resp) = 50%nat
                  /\ forall q, In q (pr_paths resp) ->
                       (List.length q <= List.length p)%nat))).
Proof.
  unfold route_find_attack_paths_bfs. split.
  - intros ->. reflexivity.
  - intros -> Hfuel.
    destruct (find_attack_paths_bfs_spec fuel (graph e) start_id target_id max_depth Hfuel)
      as [pb [Hb Hspec]].
    rewrite Hb. eexists. split; [reflexivity|]. unfold paths_response.
    cbn [pr_paths pr_paths_found].
    split; [apply length_firstn|]. split.
    + intros p Hp. apply firstn_incl in Hp. apply Hspec in Hp.
      apply attack_paths_iff in Hp. apply Hp.
    + intros p Hs Ht Hp.
      assert (Hin : In p pb) by (apply Hspec, attack_paths_iff; auto).
      pose proof (find_attack_paths_bfs_sorted _ _ _ _ _ _ Hb) as Hsorted.
      rewrite <- (firstn_skipn 50 pb) in Hin, Hsorted.
      apply in_app_iff in Hin as [Hin | Hin]; [now left | right].
      apply StronglySorted_app_inv in Hsorted as [_ [_ Hle]]. split.
      * apply firstn_length_le.
        destruct (Nat.le_gt_cases 50 (List.length pb)) as [Hge | Hlt]; [exact Hge|].
        rewrite skipn_all2 in Hin by lia. destruct Hin.
      * intros q Hq. exact (Hle q p Hq Hin).
Qed.

Lemma bfs_route_lists_shortest_paths_witness :
  depth_ok 25 = false
  /\ route_find_attack_paths_bfs 7 {| graph := diamond; asset_metadata := [];
                                      vulnerability_data := 0 |} "S" "T" 25
     = Some Http422
  /\ depth_ok 3 = true
  /\ (bfs_fuel diamond "S" "T" 3 <= 7)%nat
  /\ exists resp,
       route_find_attack_paths_bfs 7 {| graph := diamond; asset_metadata := [];
                                        vulnerability_data := 0 |} "S" "T" 3
       = Some (Http200 resp)
       /\ List.length (pr_paths resp) = Nat.min 50 (pr_paths_found resp).
Proof.
  assert (Hf : (bfs_fuel diamond "S" "T" 3 <= 7)%nat) by (vm_compute; lia).
  pose proof (bfs_route_lists_shortest_paths 7
                {| graph := diamond; asset_metadata := []; vulnerability_data := 0 |}
                "S" "T" 25) as [H422 _].
  pose proof (bfs_route_lists_shortest_paths 7
                {| graph := diamond; asset_metadata := []; vulnerability_data := 0 |}
                "S" "T" 3) as [_ H200].
  split; [reflexivity|]. split; [exact (H422 eq_refl)|].
  split; [reflexivity|]. split; [exact Hf|].
  destruct (H200 eq_refl Hf) as [resp [Hr [Hlen _]]].
  exists resp. split; assumption.
Defined.

(** ** The attack simulation route *)

Lemma add_asset_in_graph e asset_id asset_type name criticality zone metadata k :
  in_graph k (graph e) = true ->
  in_graph k (graph (add_asset e asset_id asset_type name criticality zone metadata))
  = true.
Proof.
  intros Hk. unfold add_asset. simpl. rewrite in_graph_add_node, Hk.
  apply orb_true_r.
Qed.

Lemma add_asset_self e asset_id asset_type name criticality zone metadata :
  in_graph asset_id
    (graph (add_asset e asset_id asset_type name criticality zone metadata)) = true.
Proof.
  unfold add_asset. simpl. now rewrite in_graph_add_node, String.eqb_refl.
Qed.

Lemma add_connection_in_graph e source_id target_id connection_type protocols weight
    bidirectional k :
  in_graph k (graph e) = true ->
  in_graph k (graph (add_connection e source_id target_id connection_type protocols
                       weight bidirectional)) = true.
Proof.
  intros Hk. now apply add_connection_graph_keeps.
Qed.

Lemma records_in_graph_add_asset e asset_id asset_type name criticality zone metadata :
  records_in_graph e ->
  records_in_graph (add_asset e asset_id asset_type name criticality zone metadata).
Proof.
  intros Hrec k. unfold add_asset. simpl. rewrite dict_mem_set, in_graph_add_node.
  destruct (String.eqb k asset_id); [reflexivity|]. apply Hrec.
Qed.

Lemma records_in_graph_add_connection e source_id target_id connection_type protocols
    weight bidirectional :
  records_in_graph e ->
  records_in_graph (add_connection e source_id target_id connection_type protocols
                      weight bidirectional).
Proof.
  intros Hrec k Hk.
  destruct (add_connection_graph_keeps e source_id target_id connection_type protocols
              weight bidirectional k) as [Hg Hm]; [apply Hrec|].
  - destruct bidirectional; exact Hk.
  - exact Hg.
Qed.

Lemma in_graph_nonempty k e : in_graph k (graph e) = true -> graph_empty e = false.
Proof.
  unfold graph_empty, in_graph, dict_mem, nodes.
  destruct (graph e); [discriminate | reflexivity].
Qed.

Lemma sample_network_facts h e :
  graph_empty (snd (initialize_sample_network h e)) = false
  /\ (records_in_graph e -> records_in_graph (snd (initialize_sample_network h e))).
Proof.
  unfold initialize_sample_network. cbv zeta. cbn [snd]. split.
  - apply (in_graph_nonempty "external_firewall").
    repeat apply add_connection_in_graph.
    do 17 apply add_asset_in_graph. apply add_asset_self.
  - intros Hrec.
    repeat apply records_in_graph_add_connection.
    repeat apply records_in_graph_add_asset. exact Hrec.
Qed.

Lemma ensure_network_facts h e :
  graph_empty (snd (ensure_network h e)) = false
  /\ (records_in_graph e -> records_in_graph (snd (ensure_network h e)))
  /\ (graph_empty e = false -> ensure_network h e = (h, e)).
Proof.
  unfold ensure_network. destruct (graph_empty e) eqn:E.
  - destruct (sample_network_facts h e) as [H1 H2].
    split; [exact H1|]. split; [exact H2 | discriminate].
  - simpl. split; [exact E|]. split; auto.
Qed.

Lemma resolve_entry_point_some e entry_point :
  graph_empty e = false ->
  exists x, resolve_entry_point e entry_point = Some x
            /\ (in_graph entry_point (graph e) = true -> x = entry_point)
            /\ (records_in_graph e -> in_graph x (graph e) = true).
Proof.
  intros Hne. unfold resolve_entry_point.
  destruct (in_graph entry_point (graph e)) eqn:Hin.
  - exists entry_point. auto.
  - destruct (entry_points e) as [|a l] eqn:Hep.
    + unfold graph_empty in Hne. destruct (nodes (graph e)) as [|n ns] eqn:Hn;
        [discriminate|].
      exists n. split; [reflexivity|]. split; [discriminate|]. intros _.
      apply dict_mem_In. fold (nodes (graph e)). rewrite Hn. now left.
    + exists a. split; [reflexivity|]. split; [discriminate|]. intros Hrec.
      apply Hrec. apply dict_mem_In.
      assert (Ha : In a (entry_points e)) by (rewrite Hep; now left).
      apply entry_points_In in Ha as [m [Hm _]].
      unfold dict_keys. apply in_map_iff. exists (a, m). auto.
Qed.

Section AttackFacts.
Variable nx_density : DiGraph -> Q.
Variable nx_is_weakly_connected : DiGraph -> bool.
Variable lower : string -> string.
Variable set_order : list string -> list string.
Variable rng : nat -> Q.
Variable simulation_id : string.

Local Abbreviation run_sim :=
  (run_attack_simulation nx_density nx_is_weakly_connected lower set_order rng
     simulation_id).

(** What a 200 answer of the handler is made of. *)
Lemma run_attack_simulation_inv fuel h e attack_type entry_point target st resp :
  run_sim fuel h e attack_type entry_point target = Some (st, Http200 resp) ->
  let h1 := fst (ensure_network h e) in
  let e1 := snd (ensure_network h e) in
  let t := lower attack_type in
  exists x blast_radius paths_found e' compromised_count critical_compromised,
    resolve_entry_point e1 entry_point = Some x
    /\ search_targets fuel e1 t (config_of t) x
         (targets_to_check target (attack_targets e1 t)) [] = Found paths_found
    /\ movement_counts set_order rng h1 e1 t (config_of t) x blast_radius
       = (e', inl (compromised_count, critical_compromised))
    /\ st = (h1, e')
    /\ resp
       = {| ar_simulation_id := simulation_id;
            ar_attack_type := t;
            ar_entry_point := x;
            ar_target := target;
            ar_paths_found := paths_found;
            ar_blast_radius := set_order (nodup string_dec blast_radius);
            ar_risk_assessment :=
              risk_assessment t
                (get_network_stats nx_density nx_is_weakly_connected h1 e1)
                compromised_count critical_compromised;
            ar_recommendations := get_attack_recommendations t;
            ar_simulation_details :=
              Some {| sd_total_compromised := compromised_count;
                      sd_critical_compromised := critical_compromised;
                      sd_propagation_rate := ac_propagation_probability (config_of t);
                      sd_time_to_impact := ac_time_to_impact (config_of t);
                      sd_primary_method := ac_primary_method (config_of t);
                      sd_attack_scope := List.length blast_radius |} |}.
Proof.
  unfold run_attack_simulation.
  destruct (ensure_network_facts h e) as [Hne _].
  destruct (ensure_network h e) as [h1 e1]. cbn [fst snd] in *. cbv zeta.
  destruct (resolve_entry_point_some e1 entry_point Hne) as [x [Hx _]].
  rewrite Hx.
  destruct (calculate_blast_radius e1 x (ac_max_hops (config_of (lower attack_type))))
    as [r|m|k]; [| |discriminate].
  - destruct (search_targets _ _ _ _ _ _ _) as [| |paths_found] eqn:Hs; try discriminate.
    destruct (movement_counts _ _ _ _ _ _ _ _) as [e' [[cc crit]|k]] eqn:Hm;
      [|discriminate].
    intros H. inversion H; subst. do 6 eexists.
    split; [reflexivity|]. split; [exact Hs|]. split; [exact Hm|].
    split; reflexivity.
  - destruct (search_targets _ _ _ _ _ _ _) as [| |paths_found] eqn:Hs; try discriminate.
    destruct (movement_counts _ _ _ _ _ _ _ _) as [e' [[cc crit]|k]] eqn:Hm;
      [|discriminate].
    intros H. inversion H; subst. do 6 eexists.
    split; [reflexivity|]. split; [exact Hs|]. split; [exact Hm|].
    split; reflexivity.
Qed.

Lemma movement_counts_graph h e t config x blast e' res :
  movement_counts set_order rng h e t config x blast = (e', res) ->
  graph e' = graph e.
Proof.
  unfold movement_counts. destruct (negb (non_propagating t)).
  - pose proof (simulation_frame set_order rng h e x
                  (if String.eqb t "ransomware" then 10 else 5)
                  (ac_propagation_probability config)) as [Hg _].
    destruct (simulate_lateral_movement _ _ _ _ _ _ _) as [e2 o]. simpl in Hg.
    destruct o; intros H; inversion H; subst; exact Hg.
  - intros H. now inversion H.
Qed.

Lemma simulate_counts_initial h e x time_steps p e' r :
  simulate_lateral_movement set_order rng h e x time_steps p = (e', Ok r) ->
  (1 <= sr_total_compromised r)%nat.
Proof.
  intros Hrun.
  destruct (simulate_ok_inv _ _ _ _ _ _ _ _ _ Hrun)
    as [_ [s [Hs [_ [_ [_ [Ht _]]]]]]].
  destruct (sim_state_inv _ _ _ _ _ _ _ _ Hs) as [meta1 [_ Hsteps]].
  assert (Hin : In x (ss_compromised s)).
  { rewrite Hsteps. apply (run_steps_compromised set_order rng (graph e)
                             (vulns_of h e) p (Z.to_nat time_steps) 1%Z
                             (start_state meta1 x)). now left. }
  rewrite Ht. destruct (ss_compromised s); [destruct Hin | simpl; lia].
Qed.

Lemma simulate_error_absent h e x time_steps p e' msg :
  simulate_lateral_movement set_order rng h e x time_steps p = (e', ErrorResult msg) ->
  in_graph x (graph e) = false.
Proof.
  unfold simulate_lateral_movement. destruct (in_graph x (graph e)); [|reflexivity].
  simpl negb. cbv iota.
  destruct (sim_state _ _ _ _ _ _ _) as [s|]; [|discriminate]. cbv zeta.
  destruct (ss_raised s); [discriminate|].
  destruct (tier_members (ss_meta s) "critical" _) as [lc|m|k] eqn:Ec;
    [|exfalso; eapply tier_members_not_error; eauto|discriminate].
  destruct (tier_members (ss_meta s) "high" _) as [lh|m|k] eqn:Eh;
    [discriminate|exfalso; eapply tier_members_not_error; eauto|discriminate].
Qed.

End AttackFacts.

Lemma bfs_loop_more_fuel g target_id max_depth fuel : forall queue vp acc res fuel',
  bfs_loop g target_id max_depth fuel queue vp acc = Some res ->
  (fuel <= fuel')%nat ->
  bfs_loop g target_id max_depth fuel' queue vp acc = Some res.
Proof.
  induction fuel as [|fuel IH]; intros queue vp acc res fuel' Hres Hle.
  - destruct queue as [|[cur path] rest]; [|discriminate].
    destruct fuel'; exact Hres.
  - destruct queue as [|[cur path] rest]; [destruct fuel'; exact Hres|].
    destruct fuel' as [|fuel']; [lia|]. cbn [bfs_loop] in *.
    destruct (too_deep max_depth path); [apply IH; [exact Hres | lia]|].
    destruct (String.eqb cur target_id); [apply IH; [exact Hres | lia]|].
    destruct (fold_left (bfs_visit path) (neighbors g cur) (rest, vp)) as [q' vp'].
    apply IH; [exact Hres | lia].
Qed.

(** Whatever the fuel, a returned list is the list of the simple paths. *)
Lemma find_attack_paths_bfs_sound fuel g start_id target_id max_depth paths :
  find_attack_paths_bfs fuel g start_id target_id max_depth = Some paths ->
  forall p, In p paths <-> In p (attack_paths g start_id target_id max_depth).
Proof.
  intros Hres.
  assert (Hmore : find_attack_paths_bfs
                    (Nat.max fuel (bfs_fuel g start_id target_id max_depth))
                    g start_id target_id max_depth = Some paths).
  { unfold find_attack_paths_bfs in *.
    destruct (negb (in_graph start_id g) || negb (in_graph target_id g)); [exact Hres|].
    eapply bfs_loop_more_fuel; [exact Hres | lia]. }
  destruct (find_attack_paths_bfs_spec
              (Nat.max fuel (bfs_fuel g start_id target_id max_depth))
              g start_id target_id max_depth) as [pb [Hb Hspec]]; [lia|].
  rewrite Hmore in Hb. inversion Hb; subst. exact Hspec.
Qed.

Lemma no_path_within_one fuel g start_id target_id paths :
  start_id <> target_id ->
  find_attack_paths_bfs fuel g start_id target_id 1 = Some paths -> paths = [].
Proof.
  intros Hne Hres. destruct paths as [|p ps]; [reflexivity|]. exfalso.
  assert (Hp : In p (p :: ps)) by now left.
  apply (find_attack_paths_bfs_sound _ _ _ _ _ _ Hres) in Hp.
  apply attack_paths_iff in Hp as [_ [_ [[rest ->] [Hlast [_ [_ Hlen]]]]]].
  destruct rest as [|b rest]; [simpl in Hlast; congruence|].
  simpl in Hlen. lia.
Qed.

Lemma search_targets_ddos fuel e x targets : forall acc paths_found,
  search_targets fuel e "ddos" (config_of "ddos") x targets acc = Found paths_found ->
  paths_found = acc.
Proof.
  induction targets as [|t ts IH]; intros acc paths_found H; cbn [search_targets] in H.
  - now inversion H.
  - destruct (negb (String.eqb t "") && negb (String.eqb t x) && in_graph t (graph e))
      eqn:Hc; [|now apply IH].
    apply andb_true_iff in Hc as [Hc _]. apply andb_true_iff in Hc as [_ Hc].
    apply negb_true_iff in Hc. apply String.eqb_neq in Hc.
    change (ac_max_hops (config_of "ddos")) with 1%Z in H.
    destruct (find_attack_paths_bfs fuel (graph e) x t 1) as [found|] eqn:Hf;
      [|discriminate].
    apply no_path_within_one in Hf; [|congruence]. subst found.
    rewrite firstn_nil in H. cbn [path_findings] in H. rewrite app_nil_r in H.
    now apply IH.
Qed.

Lemma risk_assessment_ransomware stats compromised_count critical_compromised :
  (1 <= compromised_count)%nat ->
  risk_assessment "ransomware" stats compromised_count critical_compromised
  = "CRITICAL".
Proof.
  intros Hc. unfold risk_assessment, stats_get_total_nodes. cbn [String.eqb].
  change (String.eqb "ransomware" "ransomware") with true. cbv iota.
  destruct (Qle_bool (inject_Z (Z.of_nat compromised_count)) (inject_Z 1 * (6 # 10)))
    eqn:E; [|reflexivity].
  apply Qle_bool_iff in E. unfold Qle in E. simpl in E. lia.
Qed.

(** X26. The risk rating of POST /simulate is fixed by the attack type
    far more than by the network.  For an engine whose records are all
    nodes, every 200 answer carries the lower-cased attack type and: a
    ransomware run is always rated CRITICAL (the rating compares the number
    of compromised assets with 0.6 times [stats.get("total_nodes", 1)], a
    key the statistics do not have, and the entry point alone already
    counts one); an insider run is always CRITICAL; an apt run is CRITICAL,
    HIGH or MEDIUM for more than two, some, or no critical assets
    compromised; every other type, the unknown ones included, is HIGH. *)
Theorem attack_simulation_risk_rating
    (nx_density : DiGraph -> Q) (nx_is_weakly_connected : DiGraph -> bool)
    (lower : string -> string) (set_order : list string -> list string)
    (rng : nat -> Q) (simulation_id : string) (fuel : nat) (h : Heap) (e : Engine)
    (attack_type entry_point : string) (target : option string)
    (st : Heap * Engine) (resp : AttackResponse) :
  records_in_graph e ->
  run_attack_simulation nx_density nx_is_weakly_connected lower set_order rng
    simulation_id fuel h e attack_type entry_point target = Some (st, Http200 resp) ->
  ar_attack_type resp = lower attack_type
  /\ (lower attack_type = "ransomware" -> ar_risk_assessment resp = "CRITICAL")
  /\ (lower attack_type = "insider" -> ar_risk_assessment resp = "CRITICAL")
  /\ (lower attack_type = "apt" ->
      exists d, ar_simulation_details resp = Some d
                /\ ar_risk_assessment resp
                   = if (2 <? sd_critical_compromised d)%nat then "CRITICAL"
                     else if (0 <? sd_critical_compromised d)%nat then "HIGH"
                     else "MEDIUM")
  /\ (lower attack_type <> "ransomware" -> lower attack_type <> "apt" ->
      lower attack_type <> "insider" -> ar_risk_assessment resp = "HIGH").
Proof.
  intros Hrec Hrun.
  destruct (run_attack_simulation_inv _ _ _ _ _ _ _ _ _ _ _ _ _ _ Hrun)
    as [x [blast [paths [e' [cc [crit [Hx [_ [Hm [_ ->]]]]]]]]]].
  cbn [ar_attack_type ar_risk_assessment ar_simulation_details].
  split; [reflexivity|]. split; [|split; [|split]].
  - intros Et. rewrite Et in *. apply risk_assessment_ransomware.
    destruct (ensure_network_facts h e) as [Hne [Hrec1 _]].
    destruct (resolve_entry_point_some _ entry_point Hne) as [x' [Hx' [_ Hin]]].
    rewrite Hx' in Hx. inversion Hx; subst x'. specialize (Hin (Hrec1 Hrec)).
    unfold movement_counts in Hm. cbn [non_propagating mem existsb String.eqb] in Hm.
    change (String.eqb "ransomware" "insider") with false in Hm.
    change (String.eqb "ransomware" "ddos") with false in Hm.
    cbn [orb negb] in Hm.
    destruct (simulate_lateral_movement _ _ _ _ _ _ _) as [e2 [r|m|k]] eqn:Hsim.
    + inversion Hm; subst. eapply simulate_counts_initial; eauto.
    + apply simulate_error_absent in Hsim. congruence.
    + discriminate.
  - intros Et. rewrite Et. reflexivity.
  - intros Et. rewrite Et. eexists. split; [reflexivity|]. reflexivity.
  - intros H1 H2 H3. unfold risk_assessment.
    apply String.eqb_neq in H1, H2, H3. now rewrite H1, H2, H3.
Qed.

Lemma attack_simulation_risk_rating_witness :
  records_in_graph scenario_AB
  /\ exists st resp,
       run_attack_simulation (fun _ => 0%Q) (fun _ => true) (fun s => s) (fun l => l)
         draws_low_high_low "id" 7 [[]] scenario_AB "ransomware" "A" None
       = Some (st, Http200 resp)
       /\ ar_risk_assessment resp = "CRITICAL".
Proof.
  assert (Hr : records_in_graph scenario_AB).
  { intros k Hk. unfold scenario_AB, add_connection, add_asset in *. simpl in *.
    unfold dict_mem in Hk. simpl in Hk. unfold in_graph, dict_mem. simpl.
    destruct (String.eqb k "A"); [reflexivity|].
    destruct (String.eqb k "B"); [reflexivity | discriminate]. }
  split; [exact Hr|].
  destruct (run_attack_simulation (fun _ => 0%Q) (fun _ => true) (fun s => s)
              (fun l => l) draws_low_high_low "id" 7 [[]] scenario_AB "ransomware"
              "A" None) as [[st [resp| |exn]]|] eqn:E;
    [|vm_compute in E; discriminate|vm_compute in E; discriminate
     |vm_compute in E; discriminate].
  exists st, resp. split; [reflexivity|].
  exact (proj1 (proj2 (attack_simulation_risk_rating _ _ _ _ _ _ _ _ _ _ _ _ _ _ Hr E))
           eq_refl).
Defined.

(** X27. The attack types insider and ddos do not propagate: a 200
    answer of POST /simulate for them leaves the engine as it found it (or
    as the sample network it set up in an empty engine), reports
    propagation rate 0 and as total compromised the attack scope.  A ddos
    run never lists an attack path, and neither does an insider run without
    an explicit target, whose candidate targets are chosen by a key,
    ["asset_type"], that no record has. *)
Theorem non_propagating_attacks
    (nx_density : DiGraph -> Q) (nx_is_weakly_connected : DiGraph -> bool)
    (lower : string -> string) (set_order : list string -> list string)
    (rng : nat -> Q) (simulation_id : string) (fuel : nat) (h : Heap) (e : Engine)
    (attack_type entry_point : string) (target : option string)
    (st : Heap * Engine) (resp : AttackResponse) :
  lower attack_type = "insider" \/ lower attack_type = "ddos" ->
  run_attack_simulation nx_density nx_is_weakly_connected lower set_order rng
    simulation_id fuel h e attack_type entry_point target = Some (st, Http200 resp) ->
  st = ensure_network h e
  /\ (exists d, ar_simulation_details resp = Some d
                /\ sd_total_compromised d = sd_attack_scope d
                /\ sd_propagation_rate d = 0%Q)
  /\ (lower attack_type = "ddos" -> ar_paths_found resp = [])
  /\ (lower attack_type = "insider" -> target = None \/ target = Some "" ->
      ar_paths_found resp = []).
Proof.
  intros Ht Hrun.
  destruct (run_attack_simulation_inv _ _ _ _ _ _ _ _ _ _ _ _ _ _ Hrun)
    as [x [blast [paths [e' [cc [crit [Hx [Hs [Hm [-> ->]]]]]]]]]].
  cbn [ar_paths_found ar_simulation_details].
  assert (Hnp : non_propagating (lower attack_type) = true)
    by (destruct Ht as [-> | ->]; reflexivity).
  unfold movement_counts in Hm. rewrite Hnp in Hm. cbn [negb] in Hm.
  inversion Hm; subst e' cc crit. split; [now destruct (ensure_network h e)|].
  split.
  - eexists. split; [reflexivity|]. cbn. split; [reflexivity|].
    destruct Ht as [-> | ->]; reflexivity.
  - split.
    + intros Ed. rewrite Ed in Hs. now apply search_targets_ddos in Hs.
    + intros Ei Htgt. rewrite Ei in Hs.
      assert (Hnone : targets_to_check target
                        (attack_targets (snd (ensure_network h e)) "insider") = []).
      { unfold attack_targets. cbn [String.eqb].
        change (String.eqb "insider" "insider") with true. cbv iota.
        assert (Hf : forall l : dict AssetMeta,
                   filter (fun '(_, m) =>
                             match meta_get_asset_type m with
                             | Some t => mem t ["database"; "server"]
                             | None => false
                             end) l = []).
        { induction l as [|[k m] l IH]; simpl; auto. }
        rewrite Hf. destruct Htgt as [-> | ->]; reflexivity. }
      rewrite Hnone in Hs. cbn [search_targets] in Hs. now inversion Hs.
Qed.

Lemma non_propagating_attacks_witness :
  exists st resp,
    run_attack_simulation (fun _ => 0%Q) (fun _ => true) (fun s => s) (fun l => l)
      draws_low_high_low "id" 7 [[]] scenario_AB "insider" "A" None
    = Some (st, Http200 resp)
    /\ st = ensure_network [[]] scenario_AB
    /\ ar_paths_found resp = [].
Proof.
  destruct (run_attack_simulation (fun _ => 0%Q) (fun _ => true) (fun s => s)
              (fun l => l) draws_low_high_low "id" 7 [[]] scenario_AB "insider"
              "A" None) as [[st [resp| |exn]]|] eqn:E;
    [|vm_compute in E; discriminate|vm_compute in E; discriminate
     |vm_compute in E; discriminate].
  exists st, resp. split; [reflexivity|].
  destruct (non_propagating_attacks _ _ _ _ _ _ _ _ _ _ _ _ _ _ (or_introl eq_refl) E)
    as [H1 [_ [_ H4]]].
  split; [exact H1 | exact (H4 eq_refl (or_introl eq_refl))].
Defined.

(** X28. POST /simulate always has a network to work on and an entry
    point in it.  For an engine whose records are all nodes, a 200 answer
    is never the "no assets" answer (risk UNKNOWN, no details): the handler
    sets up the sample network in an empty engine first.  The entry point
    it reports is a node of the graph - the requested one whenever that is
    a node - and the graph is the one the run started from. *)
Theorem attack_simulation_entry_point
    (nx_density : DiGraph -> Q) (nx_is_weakly_connected : DiGraph -> bool)
    (lower : string -> string) (set_order : list string -> list string)
    (rng : nat -> Q) (simulation_id : string) (fuel : nat) (h : Heap) (e : Engine)
    (attack_type entry_point : string) (target : option string)
    (st : Heap * Engine) (resp : AttackResponse) :
  records_in_graph e ->
  run_attack_simulation nx_density nx_is_weakly_connected lower set_order rng
    simulation_id fuel h e attack_type entry_point target = Some (st, Http200 resp) ->
  ar_simulation_details resp <> None
  /\ ar_risk_assessment resp <> "UNKNOWN"
  /\ graph (snd st) = graph (snd (ensure_network h e))
  /\ graph_empty (snd st) = false
  /\ in_graph (ar_entry_point resp) (graph (snd st)) = true
  /\ (in_graph entry_point (graph (snd (ensure_network h e))) = true ->
      ar_entry_point resp = entry_point)
  /\ (graph_empty e = false -> graph (snd st) = graph e).
Proof.
  intros Hrec Hrun.
  destruct (run_attack_simulation_inv _ _ _ _ _ _ _ _ _ _ _ _ _ _ Hrun)
    as [x [blast [paths [e' [cc [crit [Hx [_ [Hm [-> ->]]]]]]]]]].
  cbn [ar_simulation_details ar_risk_assessment ar_entry_point snd].
  destruct (ensure_network_facts h e) as [Hne [Hrec1 Hsame]].
  destruct (resolve_entry_point_some _ entry_point Hne) as [x' [Hx' [Hreq Hin]]].
  rewrite Hx' in Hx. inversion Hx; subst x'.
  pose proof (movement_counts_graph _ _ _ _ _ _ _ _ _ _ Hm) as Hg.
  split; [discriminate|]. split.
  - unfold risk_assessment.
    repeat match goal with
           | |- context [if ?b then _ else _] => destruct b
           end; discriminate.
  - split; [exact Hg|]. split.
    + unfold graph_empty in *. now rewrite Hg.
    + split; [rewrite Hg; apply Hin, Hrec1, Hrec|]. split; [exact Hreq|].
      intros Hn. rewrite Hg, (Hsame Hn). reflexivity.
Qed.

Lemma attack_simulation_entry_point_witness :
  records_in_graph {| graph := []; asset_metadata := []; vulnerability_data := 0 |}
  /\ exists st resp,
       run_attack_simulation (fun _ => 0%Q) (fun _ => true) (fun s => s) (fun l => l)
         (fun _ => 1%Q) "id" 60 [[]]
         {| graph := []; asset_metadata := []; vulnerability_data := 0 |}
         "ddos" "nowhere" None
       = Some (st, Http200 resp)
       /\ ar_entry_point resp = "external_firewall"
       /\ in_graph (ar_entry_point resp) (graph (snd st)) = true.
Proof.
  assert (Hr : records_in_graph
                 {| graph := []; asset_metadata := []; vulnerability_data := 0 |})
    by (intros k; discriminate).
  split; [exact Hr|].
  destruct (run_attack_simulation (fun _ => 0%Q) (fun _ => true) (fun s => s)
              (fun l => l) (fun _ => 1%Q) "id" 60 [[]]
              {| graph := []; asset_metadata := []; vulnerability_data := 0 |}
              "ddos" "nowhere" None) as [[st [resp| |exn]]|] eqn:E;
    [|vm_compute in E; discriminate|vm_compute in E; discriminate
     |vm_compute in E; discriminate].
  exists st, resp. split; [reflexivity|].
  destruct (attack_simulation_entry_point _ _ _ _ _ _ _ _ _ _ _ _ _ _ Hr E)
    as [_ [_ [_ [_ [Hin _]]]]].
  split; [|exact Hin].
  vm_compute in E. inversion E. reflexivity.
Defined.

Lemma path_risk_score_plain attack_type path :
  path <> [] ->
  path_risk_score attack_type path
  = (base_risk attack_type - inject_Z (Z.of_nat (List.length path)) * (1 # 2))%Q.
Proof.
  intros Hne. unfold path_risk_score. cbv zeta.
  destruct (Qle_bool 10 _) eqn:E; [|reflexivity]. exfalso.
  apply Qle_bool_iff in E.
  assert (Hlen : (1 <= inject_Z (Z.of_nat (List.length path)))%Q).
  { change 1%Q with (inject_Z 1). rewrite <- Zle_Qle.
    destruct path; [congruence | simpl; lia]. }
  unfold base_risk in E.
  destruct (String.eqb attack_type "ransomware"); [lra|].
  destruct (String.eqb attack_type "apt"); [lra|].
  destruct (String.eqb attack_type "insider"); lra.
Qed.

Lemma get_attack_mitigations_some attack_type path :
  path <> [] ->
  exists l, get_attack_mitigations attack_type path = Some l /\ List.length l = 4%nat.
Proof.
  intros Hne. destruct path as [|first rest]; [congruence|].
  unfold get_attack_mitigations, last_or_first.
  destruct (1 <? List.length (first :: rest))%nat;
    destruct (String.eqb attack_type "ransomware");
    destruct (String.eqb attack_type "apt");
    destruct (String.eqb attack_type "insider"); eexists; split; reflexivity.
Qed.

Lemma path_findings_spec attack_type config paths :
  (forall p, In p paths -> p <> []) ->
  exists entries,
    path_findings attack_type config paths = Some entries
    /\ forall f, In f entries ->
         In (pf_path f) paths
         /\ pf_risk_score f
            = (base_risk attack_type
               - inject_Z (Z.of_nat (List.length (pf_path f))) * (1 # 2))%Q
         /\ List.length (pf_mitigations f) = 4%nat.
Proof.
  induction paths as [|p paths IH]; intros Hne; cbn [path_findings].
  - exists []. split; [reflexivity | intros f []].
  - destruct (get_attack_mitigations_some attack_type p) as [l [Hl Hlen]];
      [apply Hne; now left|].
    rewrite Hl. destruct IH as [entries [He Hspec]];
      [intros q Hq; apply Hne; now right|].
    rewrite He. eexists. split; [reflexivity|].
    intros f [<- | Hf]; cbn.
    + split; [now left|]. split; [|exact Hlen].
      apply path_risk_score_plain. apply Hne. now left.
    + destruct (Hspec f Hf) as [H1 H2]. split; [now right | exact H2].
Qed.

(** The loop over the targets never raises, and what it finds are simple
    paths to targets other than the entry point. *)
Lemma search_targets_spec fuel e attack_type config x targets : forall acc,
  match search_targets fuel e attack_type config x targets acc with
  | OutOfFuel => True
  | SearchRaised _ => False
  | Found paths_found =>
      forall f, In f paths_found ->
        In f acc
        \/ exists t,
             In t targets /\ t <> x
             /\ simple_path (graph e) x t (ac_max_hops config) (pf_path f)
             /\ pf_risk_score f
                = (base_risk attack_type
                   - inject_Z (Z.of_nat (List.length (pf_path f))) * (1 # 2))%Q
             /\ List.length (pf_mitigations f) = 4%nat
  end.
Proof.
  induction targets as [|t ts IH]; intros acc; cbn [search_targets].
  - intros f Hf. now left.
  - destruct (negb (String.eqb t "") && negb (String.eqb t x) && in_graph t (graph e))
      eqn:Hc.
    + apply andb_true_iff in Hc as [Hc _]. apply andb_true_iff in Hc as [_ Hc].
      apply negb_true_iff in Hc. apply String.eqb_neq in Hc.
      destruct (find_attack_paths_bfs fuel (graph e) x t (ac_max_hops config))
        as [found|] eqn:Hf; [|exact I].
      pose proof (find_attack_paths_bfs_sound _ _ _ _ _ _ Hf) as Hsound.
      destruct (path_findings_spec attack_type config
                  (firstn (if String.eqb attack_type "insider" then 2 else 3) found))
        as [entries [He Hspec]].
      { intros p Hp. apply firstn_incl in Hp. apply Hsound in Hp.
        eapply attack_paths_nonempty; eauto. }
      cbv zeta. rewrite He. specialize (IH (acc ++ entries)).
      destruct (search_targets fuel e attack_type config x ts (acc ++ entries))
        as [| |paths_found]; [exact I | exact IH|].
      intros f Hin. destruct (IH f Hin) as [Hacc | [t' [Ht' H']]].
      * apply in_app_iff in Hacc as [Hacc | Hent]; [now left | right].
        destruct (Hspec f Hent) as [Hp [Hrisk Hmit]].
        apply firstn_incl in Hp. apply Hsound in Hp.
        apply attack_paths_iff in Hp as [_ [_ Hsp]].
        exists t. split; [now left|]. split; [exact Hc|]. auto.
      * right. exists t'. split; [now right | exact H'].
    + specialize (IH acc).
      destruct (search_targets fuel e attack_type config x ts acc)
        as [| |paths_found]; [exact I | exact IH|].
      intros f Hin. destruct (IH f Hin) as [Hacc | [t' [Ht' H']]]; [now left|].
      right. exists t'. split; [now right | exact H'].
Qed.

(** X30. The attack paths of POST /simulate.  The handler never fails
    with an [IndexError]: every path handed to [get_attack_mitigations] has
    a node.  In a 200 answer every listed path is a simple path of the graph from the
    reported entry point to a target other than it - the requested target
    if one was given - with at most [max_hops] nodes for the attack type;
    its risk score is the type's base risk minus half the number of its
    nodes (the cap at 10 never applies), and it carries four mitigations. *)
Theorem attack_simulation_paths
    (nx_density : DiGraph -> Q) (nx_is_weakly_connected : DiGraph -> bool)
    (lower : string -> string) (set_order : list string -> list string)
    (rng : nat -> Q) (simulation_id : string) (fuel : nat) (h : Heap) (e : Engine)
    (attack_type entry_point : string) (target : option string)
    (st : Heap * Engine) (out : HttpResponse AttackResponse) :
  run_attack_simulation nx_density nx_is_weakly_connected lower set_order rng
    simulation_id fuel h e attack_type entry_point target = Some (st, out) ->
  out <> Http500 RaisedIndexError
  /\ forall resp, out = Http200 resp ->
       forall f, In f (ar_paths_found resp) ->
         exists t,
           t <> ar_entry_point resp
           /\ (forall t0, target = Some t0 -> t0 <> "" -> t = t0)
           /\ simple_path (graph (snd st)) (ar_entry_point resp) t
                (ac_max_hops (config_of (lower attack_type))) (pf_path f)
           /\ pf_risk_score f
              = (base_risk (lower attack_type)
                 - inject_Z (Z.of_nat (List.length (pf_path f))) * (1 # 2))%Q
           /\ List.length (pf_mitigations f) = 4%nat.
Proof.
  intros Hrun. split.
  - intros ->. revert Hrun. unfold run_attack_simulation.
    destruct (ensure_network h e) as [h1 e1]. cbv zeta.
    destruct (resolve_entry_point e1 entry_point) as [x|]; [|discriminate].
    pose proof (search_targets_spec fuel e1 (lower attack_type)
                  (config_of (lower attack_type)) x
                  (targets_to_check target (attack_targets e1 (lower attack_type))) [])
      as Hspec.
    destruct (calculate_blast_radius e1 x _) as [r|m|k]; [| |discriminate];
      (destruct (search_targets _ _ _ _ _ _ _) as [| |paths_found];
       [discriminate | destruct Hspec |];
       destruct (movement_counts _ _ _ _ _ _ _ _) as [e' [[cc crit]|k]];
       discriminate).
  - intros resp -> f Hf.
    destruct (run_attack_simulation_inv _ _ _ _ _ _ _ _ _ _ _ _ _ _ Hrun)
      as [x [blast [paths [e' [cc [crit [Hx [Hs [Hm [-> ->]]]]]]]]]].
    cbn [ar_paths_found ar_entry_point snd] in *.
    rewrite (movement_counts_graph _ _ _ _ _ _ _ _ _ _ Hm).
    pose proof (search_targets_spec fuel (snd (ensure_network h e)) (lower attack_type)
                  (config_of (lower attack_type)) x
                  (targets_to_check target
                     (attack_targets (snd (ensure_network h e)) (lower attack_type))) [])
      as Hspec.
    rewrite Hs in Hspec. destruct (Hspec f Hf) as [[] | [t [Ht [Hne [Hsp Hrest]]]]].
    exists t. split; [exact Hne|]. split; [|split; [exact Hsp | exact Hrest]].
    intros t0 -> Ht0. unfold targets_to_check in Ht.
    apply String.eqb_neq in Ht0. rewrite Ht0 in Ht. destruct Ht as [<- | []].
    reflexivity.
Qed.

Lemma attack_simulation_paths_witness :
  exists st resp,
    run_attack_simulation (fun _ => 0%Q) (fun _ => true) (fun s => s) (fun l => l)
      draws_low_high_low "id" 7 [[]] scenario_AB "ransomware" "A" (Some "B")
    = Some (st, Http200 resp)
    /\ Http200 resp <> Http500 RaisedIndexError
    /\ List.length (ar_paths_found resp) = 1%nat.
Proof.
  destruct (run_attack_simulation (fun _ => 0%Q) (fun _ => true) (fun s => s)
              (fun l => l) draws_low_high_low "id" 7 [[]] scenario_AB "ransomware"
              "A" (Some "B")) as [[st [resp| |exn]]|] eqn:E;
    [|vm_compute in E; discriminate|vm_compute in E; discriminate
     |vm_compute in E; discriminate].
  exists st, resp. split; [reflexivity|].
  split; [exact (proj1 (attack_simulation_paths _ _ _ _ _ _ _ _ _ _ _ _ _ _ E))|].
  vm_compute in E. inversion E. reflexivity.
Defined.
